(** * Tiny Search Engine: crawler, indexer and query engine

    A shallow embedding of the C sources (crawler.c, indexer.c, query.c,
    pageio.c, indexio.c, queue.c, hash.c) and the properties of the
    specification checked against them.

    Conventions of the embedding.
    - A C string is a [list ascii]; [cstr] cuts a buffer at its first NUL.
    - An [int] is a [Z]; arithmetic that can leave the 32-bit range goes
      through [wrap_int] (two's complement, as gcc on x86 computes it).
      A decimal number outside [int] is converted as glibc does it: the
      [long] that strtol returns, cut to 32 bits.
    - [char] is signed (x86): that matters in [pageload], which stores the
      result of fgetc in a [char] before comparing it with EOF.
    - A queue ([queue.c]) is the list of its elements, front first.
    - malloc of a size that fits an [int] never fails; of a size that is
      a negative [int] turned into a [size_t] it returns NULL.  A NULL
      dereference, a write outside a buffer, or reading a freed cell, is
      undefined behaviour: the functions that can reach one say so in
      their result. *)

From Stdlib Require Import ZArith Ascii String List Lia Bool.
From Stdlib Require Import Decimal DecimalString DecimalPos DecimalN DecimalZ.
From stdpp Require Import base option list sorting gmap strings.

Local Open Scope Z_scope.

(** ** The C library *)

Module Libc.

Abbreviation cstring := (list ascii).

Definition str (s : string) : cstring := list_ascii_of_string s.

Definition NUL : ascii := Ascii.zero.
Definition newline : ascii := "010"%char.

(** The value of a byte read as [unsigned char]. *)
Definition byte (c : ascii) : Z := Z.of_N (N_of_ascii c).

(** The value of a byte read as (signed) [char]. *)
Definition schar (c : ascii) : Z :=
  if byte c <? 128 then byte c else byte c - 256.

Definition isupper (c : ascii) : bool := (65 <=? byte c) && (byte c <=? 90).
Definition islower (c : ascii) : bool := (97 <=? byte c) && (byte c <=? 122).
Definition isalpha (c : ascii) : bool := isupper c || islower c.
Definition isdigit (c : ascii) : bool := (48 <=? byte c) && (byte c <=? 57).
Definition isspace (c : ascii) : bool :=
  ((9 <=? byte c) && (byte c <=? 13)) || (byte c =? 32).

Definition tolower (c : ascii) : ascii :=
  if isupper c then ascii_of_N (N_of_ascii c + 32) else c.

(** The C string held by a buffer: the bytes before the first NUL. *)
Fixpoint cstr (buf : cstring) : cstring :=
  match buf with
  | [] => []
  | c :: buf' => if bool_decide (c = NUL) then [] else c :: cstr buf'
  end.

Definition strlen (buf : cstring) : Z := Z.of_nat (length (cstr buf)).

(** [strcmp(a, b) == 0] *)
Definition streq (a b : cstring) : bool := bool_decide (cstr a = cstr b).

(** *** int *)

Definition INT_MIN : Z := - 2 ^ 31.
Definition INT_MAX : Z := 2 ^ 31 - 1.
Definition in_int (z : Z) : Prop := INT_MIN <= z <= INT_MAX.
Definition wrap_int (z : Z) : Z := (z + 2 ^ 31) mod 2 ^ 32 - 2 ^ 31.
Definition int_add (a b : Z) : Z := wrap_int (a + b).

(** *** long *)

Definition LONG_MIN : Z := - 2 ^ 63.
Definition LONG_MAX : Z := 2 ^ 63 - 1.

(** What strtol returns for the decimal number [z]: a value outside
    [long] is replaced by the nearest bound. *)
Definition strtol_value (z : Z) : Z := Z.max LONG_MIN (Z.min LONG_MAX z).

(** The [int] that [atoi] and the [%d] of scanf make of the decimal
    number [z] in glibc: the [long] of strtol, cut to its low 32 bits.
    (C leaves a number outside [int] undefined.) *)
Definition decimal_int (z : Z) : Z := wrap_int (strtol_value z).

(** *** printf *)

Definition digit_char (d : Z) : ascii := ascii_of_N (Z.to_N (48 + d)).

Fixpoint print_uint (u : uint) : cstring :=
  match u with
  | Nil => []
  | D0 u => "0"%char :: print_uint u
  | D1 u => "1"%char :: print_uint u
  | D2 u => "2"%char :: print_uint u
  | D3 u => "3"%char :: print_uint u
  | D4 u => "4"%char :: print_uint u
  | D5 u => "5"%char :: print_uint u
  | D6 u => "6"%char :: print_uint u
  | D7 u => "7"%char :: print_uint u
  | D8 u => "8"%char :: print_uint u
  | D9 u => "9"%char :: print_uint u
  end.

(** [%d] *)
Definition print_int (z : Z) : cstring :=
  match Z.to_int z with
  | Pos u => print_uint u
  | Neg u => "-"%char :: print_uint u
  end.

(** [%s] with a non-NULL argument. *)
Definition print_str (s : cstring) : cstring := cstr s.

(** [%s] as glibc prints it: the C standard leaves a NULL argument
    undefined, glibc writes the text "(null)". *)
Definition print_str_or_null (s : option cstring) : cstring :=
  match s with
  | Some s => cstr s
  | None => str "(null)"
  end.

(** *** atoi and the scanf conversions *)

Definition digit_val (c : ascii) : Z := byte c - 48.

(** The digits at the front of [s], accumulated as strtol does; returns
    the value and the unread rest. *)
Fixpoint scan_digits (s : cstring) (acc : Z) : Z * cstring :=
  match s with
  | c :: s' =>
      if isdigit c then scan_digits s' (10 * acc + digit_val c) else (acc, s)
  | [] => (acc, [])
  end.

Fixpoint skip_space (s : cstring) : cstring :=
  match s with
  | c :: s' => if isspace c then skip_space s' else s
  | [] => []
  end.

Definition starts_with_digit (s : cstring) : bool :=
  match s with
  | c :: _ => isdigit c
  | [] => false
  end.

(** A signed decimal number at the front of [s] (after white space):
    [None] when there is no digit to convert. *)
Definition scan_int (s : cstring) : option (Z * cstring) :=
  let s := skip_space s in
  let '(neg, s) :=
    match s with
    | c :: s' =>
        if bool_decide (c = "-"%char) then (true, s')
        else if bool_decide (c = "+"%char) then (false, s')
        else (false, s)
    | [] => (false, s)
    end in
  if starts_with_digit s then
    let '(v, rest) := scan_digits s 0 in
    Some (decimal_int (if neg then - v else v), rest)
  else None.

(** [atoi]: 0 when nothing converts; [(int) strtol(s, NULL, 10)]
    otherwise. *)
Definition atoi (s : cstring) : Z :=
  match scan_int (cstr s) with
  | Some (v, _) => v
  | None => 0
  end.

(** [fscanf(f, "%d\n", &x)]: the number, then all white space that
    follows it; [None] when the conversion fails. *)
Definition fscanf_d_nl (f : cstring) : option (Z * cstring) :=
  '(v, rest) ← scan_int f;
  Some (v, skip_space rest).

(** The characters of [s] before the first white space, and the rest. *)
Fixpoint scan_word (s : cstring) : cstring * cstring :=
  match s with
  | c :: s' =>
      if isspace c then ([], s)
      else let '(w, rest) := scan_word s' in (c :: w, rest)
  | [] => ([], [])
  end.

(** [fscanf(f, "%s\n", buf)]: a white-space delimited word, then all the
    white space that follows; [None] at end of file. *)
Definition fscanf_s_nl (f : cstring) : option (cstring * cstring) :=
  match scan_word (skip_space f) with
  | ([], _) => None
  | (w, rest) => Some (w, skip_space rest)
  end.

(** *** strtok *)

(** [s] cut at every delimiter: the (possibly empty) fields between them. *)
Fixpoint fields (delim : ascii → bool) (s : cstring) : list cstring :=
  match s with
  | [] => [[]]
  | c :: s' =>
      if delim c then [] :: fields delim s'
      else match fields delim s' with
           | f :: fs => (c :: f) :: fs
           | [] => [[c]]
           end
  end.

Definition nonempty (s : cstring) : bool :=
  match s with [] => false | _ => true end.

(** All the tokens successive [strtok] calls return on [s]: the maximal
    non-empty runs of characters outside [delim]. *)
Definition strtok_all (delim : cstring) (s : cstring) : list cstring :=
  List.filter nonempty (fields (λ c, bool_decide (c ∈ delim)) (cstr s)).

(** *** fgets *)

(** The chunks successive [fgets(buf, n, f)] calls return until end of
    file: each ends after a newline or after [n - 1] characters. [cur] is
    the chunk being read and [room] the characters it can still take. *)
Fixpoint fgets_from (n : nat) (f cur : cstring) (room : nat) : list cstring :=
  match f with
  | [] => match cur with [] => [] | _ => [cur] end
  | c :: f' =>
      if bool_decide (c = newline) then (cur ++ [c]) :: fgets_from n f' [] (n - 1)
      else match room with
           | S O | O => (cur ++ [c]) :: fgets_from n f' [] (n - 1)
           | S room' => fgets_from n f' (cur ++ [c]) room'
           end
  end.

Definition fgets_all (n : nat) (f : cstring) : list cstring :=
  fgets_from n f [] (n - 1).

(** [strcspn(s, reject)] *)
Fixpoint strcspn (s reject : cstring) : nat :=
  match s with
  | [] => 0
  | c :: s' => if bool_decide (c ∈ reject) then 0%nat else S (strcspn s' reject)
  end.

(** [strstr(hay, needle)]: the suffix of [hay] from the first occurrence
    of [needle] on. *)
Fixpoint strstr (hay needle : cstring) : option cstring :=
  if bool_decide (needle `prefix_of` hay) then Some hay
  else match hay with
       | [] => None
       | _ :: hay' => strstr hay' needle
       end.

(** [strchr(s, c)] *)
Fixpoint strchr (s : cstring) (c : ascii) : option cstring :=
  match s with
  | [] => None
  | x :: s' => if bool_decide (x = c) then Some s else strchr s' c
  end.

End Libc.

Import Libc.

(** ** queue.c *)

Module Queue.

Section Ops.
Context {A : Type}.

Definition queue_t : Type := list A.

Definition qopen : queue_t := [].

Definition qput (qp : queue_t) (elementp : A) : queue_t := qp ++ [elementp].

Definition qget (qp : queue_t) : option A * queue_t :=
  match qp with
  | [] => (None, [])
  | e :: qp' => (Some e, qp')
  end.

(** [qsearch]: the first element the search function accepts. *)
Fixpoint qsearch (qp : queue_t) (searchfn : A → bool) : option A :=
  match qp with
  | [] => None
  | e :: qp' => if searchfn e then Some e else qsearch qp' searchfn
  end.

(** The write through the pointer [qsearch] returned: [f] applied to
    the first element the search function accepts. *)
Fixpoint qupdate (qp : queue_t) (searchfn : A → bool) (f : A → A) : queue_t :=
  match qp with
  | [] => []
  | e :: qp' =>
      if searchfn e then f e :: qp' else e :: qupdate qp' searchfn f
  end.
End Ops.

Arguments queue_t : clear implicits.

End Queue.

(** ** hash.c *)

Module Hash.
Import Queue.

Definition u32 (z : Z) : Z := z mod 2 ^ 32.

(** [get16bits(d)]: the 16-bit word at [d], little endian. *)
Definition get16bits (d : cstring) : Z :=
  byte (nth 0 d NUL) + 256 * byte (nth 1 d NUL).

Fixpoint SuperFastHash_loop (len : nat) (data : cstring) (hash : Z) : cstring * Z :=
  match len with
  | O => (data, hash)
  | S len' =>
      let hash := u32 (hash + get16bits data) in
      let tmp := Z.lxor (u32 (Z.shiftl (get16bits (drop 2 data)) 11)) hash in
      let hash := Z.lxor (u32 (Z.shiftl hash 16)) tmp in
      let data := drop 4 data in
      let hash := u32 (hash + Z.shiftr hash 11) in
      SuperFastHash_loop len' data hash
  end.

Definition SuperFastHash (data : cstring) (len : Z) (tablesize : Z) : Z :=
  if len <=? 0 then 0
  else
    let hash := u32 len in
    let rem := Z.land len 3 in
    let '(data, hash) := SuperFastHash_loop (Z.to_nat (Z.shiftr len 2)) data hash in
    let hash :=
      if rem =? 3 then
        let hash := u32 (hash + get16bits data) in
        let hash := Z.lxor hash (u32 (Z.shiftl hash 16)) in
        let hash := Z.lxor hash (u32 (Z.shiftl (schar (nth 2 data NUL)) 18)) in
        u32 (hash + Z.shiftr hash 11)
      else if rem =? 2 then
        let hash := u32 (hash + get16bits data) in
        let hash := Z.lxor hash (u32 (Z.shiftl hash 11)) in
        u32 (hash + Z.shiftr hash 17)
      else if rem =? 1 then
        let hash := u32 (hash + schar (nth 0 data NUL)) in
        let hash := Z.lxor hash (u32 (Z.shiftl hash 10)) in
        u32 (hash + Z.shiftr hash 1)
      else hash in
    let hash := Z.lxor hash (u32 (Z.shiftl hash 3)) in
    let hash := u32 (hash + Z.shiftr hash 5) in
    let hash := Z.lxor hash (u32 (Z.shiftl hash 4)) in
    let hash := u32 (hash + Z.shiftr hash 17) in
    let hash := Z.lxor hash (u32 (Z.shiftl hash 25)) in
    let hash := u32 (hash + Z.shiftr hash 6) in
    hash mod tablesize.

Record hashtable_t (A : Type) : Type := Table {
  tablesize : Z;
  hash_table : list (queue_t A)
}.
Arguments Table {A}.
Arguments tablesize {A}.
Arguments hash_table {A}.

Section Ops.
Context {A : Type}.

Definition hopen (hsize : Z) : hashtable_t A :=
  Table hsize (replicate (Z.to_nat hsize) qopen).

Definition slot (htp : hashtable_t A) (key : cstring) (keylen : Z) : nat :=
  Z.to_nat (SuperFastHash key keylen (tablesize htp)).

Definition hput (htp : hashtable_t A) (ep : A) (key : cstring) (keylen : Z)
  : hashtable_t A :=
  Table (tablesize htp)
        (alter (λ q, qput q ep) (slot htp key keylen) (hash_table htp)).

Definition hsearch (htp : hashtable_t A) (searchfn : A → bool)
           (key : cstring) (keylen : Z) : option A :=
  q ← hash_table htp !! slot htp key keylen;
  qsearch q searchfn.

(** The write through the pointer [hsearch] returned. *)
Definition hupdate (htp : hashtable_t A) (searchfn : A → bool)
           (key : cstring) (keylen : Z) (f : A → A) : hashtable_t A :=
  Table (tablesize htp)
        (alter (λ q, qupdate q searchfn f) (slot htp key keylen) (hash_table htp)).

(** [happly] visits the slots in order and each queue front to back:
    the entries in the order of the visit. *)
Definition happly_order (htp : hashtable_t A) : list A :=
  concat (hash_table htp).
End Ops.

End Hash.

(** ** The WebPage facility *)

Module Webpage.

(** Modelled from the spec: webpage.c is not among the sources.  A page
    is the PageRecord of the data model: url, depth, html and the length
    of the html; the accessors webpage_getURL, webpage_getDepth,
    webpage_getHTML and webpage_getHTMLlen are the projections. *)
Record webpage_t : Type := Page {
  url : cstring;
  depth : Z;
  html : cstring;
  html_len : Z
}.

(** Modelled from the spec: [webpage_new(url, depth, html)] keeps the two
    C strings it is given, and the length of the html. *)
Definition webpage_new (u : cstring) (d : Z) (h : cstring) : webpage_t :=
  Page (cstr u) d (cstr h) (strlen h).

#[global] Instance webpage_eq_dec : EqDecision webpage_t.
Proof. solve_decision. Defined.

End Webpage.

(** ** pageio.c *)

Module PageIO.
Import Webpage.

(** A page directory: the files by name, and whether files can be
    created in it. *)
Record directory : Type := Dir {
  writable : bool;
  files : gmap cstring cstring
}.

(** What [fprintf(file, "%s\n%d\n%d\n%s", url, depth, len, html)] writes. *)
Definition page_file (pagep : webpage_t) : cstring :=
  print_str (url pagep) ++ [newline] ++
  print_int (depth pagep) ++ [newline] ++
  print_int (html_len pagep) ++ [newline] ++
  print_str (html pagep).

(** [pagesave]: the status and the directory afterwards.  The file name is
    the decimal [id]. *)
Definition pagesave (pagep : option webpage_t) (id : Z) (dirnm : directory)
  : Z * directory :=
  match pagep with
  | None => (-1, dirnm)
  | Some pagep =>
      if writable dirnm then
        (0, Dir true (<[print_int id := page_file pagep]> (files dirnm)))
      else (1, dirnm)
  end.

(** [while ((c = fgetc(file)) != EOF && idx < html_length) html[idx++] = c;]
    with [char c]: a byte 0xFF compares equal to EOF. *)
Fixpoint read_html (file : cstring) (html_length : nat) : cstring :=
  match file, html_length with
  | c :: file', S n =>
      if schar c =? -1 then [] else c :: read_html file' n
  | _, _ => []
  end.

(** The result of [pageload]. *)
Inductive page_result : Type :=
| PageLoaded (page : webpage_t)
| PageNull (out : cstring)   (* NULL; [out] is what [printf] wrote before *)
| PageUndefined.             (* a write outside [url], or through NULL *)

(** [char url[1024]] *)
Definition URL_SIZE : Z := 1024.

(** The three messages of [pageload], with their [%d]. *)
Definition failed_url (id : Z) : cstring :=
  str "Failed to read URL from file id: " ++ print_int id ++ [newline].
Definition failed_depth (id : Z) : cstring :=
  str "Failed to read depth from file id: " ++ print_int id ++ [newline].
Definition failed_count (id : Z) : cstring :=
  str "Failed to read character count from file id: " ++ print_int id ++ [newline].

(** [pageload].  A file that cannot be opened gives NULL in silence; a
    field that cannot be read gives NULL after a message on stdout.
    [fscanf] is given no width for the url: a word of [URL_SIZE] bytes
    or more overruns the buffer.  [html_length + 1] overflows for
    [INT_MAX], and for a length below -1 it is a negative size, which
    malloc refuses: the NUL that ends the html is then written through
    NULL.  (For -1 the size is 0; glibc returns a block and the NUL lands
    in it.) *)
Definition pageload (id : Z) (dirnm : directory) : page_result :=
  match files dirnm !! print_int id with
  | None => PageNull []
  | Some file =>
      match fscanf_s_nl file with
      | None => PageNull (failed_url id)
      | Some (u, file) =>
          if URL_SIZE <=? Z.of_nat (length u) then PageUndefined
          else
            match fscanf_d_nl file with
            | None => PageNull (failed_depth id)
            | Some (d, file) =>
                match fscanf_d_nl file with
                | None => PageNull (failed_count id)
                | Some (html_length, file) =>
                    if (html_length <? -1) || (html_length =? INT_MAX)
                    then PageUndefined
                    else PageLoaded
                           (webpage_new u d (read_html file (Z.to_nat html_length)))
                end
            end
      end
  end.

(** [pageload] is defined on every file of the directory. *)
Definition defined_on (dirnm : directory) : Prop :=
  ∀ id, pageload id dirnm ≠ PageUndefined.

End PageIO.

(** ** indexio.c *)

Module IndexIO.
Import Queue Hash.

(** [document_t]; the field [id] is [doc_id] here. *)
Record document_t : Type := Doc {
  doc_id : Z;
  word_count : Z
}.

(** [entry_t]; [D] is what the queue holds: documents, or pointers to
    them where the cells live in a heap. *)
Record entry_t (D : Type) : Type := Entry {
  word : cstring;
  documents : queue_t D
}.
Arguments Entry {D}.
Arguments word {D}.
Arguments documents {D}.

#[global] Instance document_eq_dec : EqDecision document_t.
Proof. solve_decision. Defined.

Abbreviation index_t := (hashtable_t (entry_t document_t)).

Definition hsize : Z := 1000.

Definition new_entry (w : cstring) : entry_t document_t := Entry (cstr w) qopen.
Definition new_doc (id wc : Z) : document_t := Doc id wc.

(** [fprintf(file, "%d %d ", dp->id, dp->word_count)] *)
Definition doc_queue_write_fn (dp : document_t) : cstring :=
  print_int (doc_id dp) ++ str " " ++ print_int (word_count dp) ++ str " ".

Definition index_write_fn (ep : entry_t document_t) : cstring :=
  print_str (word ep) ++ str " " ++
  concat (map doc_queue_write_fn (documents ep)) ++ [newline].

(** What [indexsave] writes. *)
Definition index_file (index : index_t) : cstring :=
  concat (map index_write_fn (happly_order index)).

(** [indexsave]: the status, and the file when one was written. *)
Definition indexsave (index : index_t) (can_write : bool) : Z * option cstring :=
  if can_write then (0, Some (index_file index)) else (1, None).

(** The result of [indexload]. *)
Inductive load_result : Type :=
| Loaded (index : index_t)
| LoadNull          (* the file cannot be opened *)
| LoadUndefined.    (* atoi or strlen applied to a NULL token *)

Definition MAX_LINE_LEN : nat := 1024.

(** The inner loop of [indexload]: the tokens after the word, two by two. *)
Fixpoint load_docs (tokens : list cstring) : option (queue_t document_t) :=
  match tokens with
  | [] => Some qopen
  | [_] => None
  | t1 :: t2 :: tokens' =>
      q ← load_docs tokens';
      Some (new_doc (atoi t1) (atoi t2) :: q)
  end.

(** One round of the outer loop, on the chunk [fgets] returned. *)
Definition load_line (index : index_t) (line_buffer : cstring) : option index_t :=
  let len := strcspn line_buffer ["013"%char; newline] in
  let line := take len line_buffer in
  match strtok_all (str " ") line with
  | [] => None
  | token :: tokens =>
      q ← load_docs tokens;
      Some (hput index (Entry (cstr token) q) token (strlen token))
  end.

Fixpoint load_lines (index : index_t) (lines : list cstring) : option index_t :=
  match lines with
  | [] => Some index
  | l :: lines' => index' ← load_line index l; load_lines index' lines'
  end.

Definition indexload (file : option cstring) : load_result :=
  match file with
  | None => LoadNull
  | Some f =>
      match load_lines (hopen hsize) (fgets_all MAX_LINE_LEN f) with
      | Some index => Loaded index
      | None => LoadUndefined
      end
  end.

End IndexIO.

(** ** indexer.c *)

Module Indexer.
Import Queue Hash Webpage PageIO IndexIO.

Definition entry_searchfn (searchkeyp : cstring) (ep : entry_t document_t) : bool :=
  streq (word ep) searchkeyp.

Definition doc_searchfn (id : Z) (dp : document_t) : bool :=
  doc_id dp =? id.

(** The loop of [NormalizeWord]: [n] rounds are left, [i] is the index. *)
Fixpoint NormalizeWord_loop (n i : nat) (w : cstring) : cstring :=
  match n with
  | O => w
  | S n' =>
      match w !! i with
      | Some c =>
          if isalpha c then NormalizeWord_loop n' (S i) (<[i := tolower c]> w)
          else <[0%nat := NUL]> w
      | None => <[0%nat := NUL]> w   (* the terminating NUL is not alphabetic *)
      end
  end.

(** [NormalizeWord] works in place on the buffer of the word; the length
    is taken once, before the first write. *)
Definition NormalizeWord (w : cstring) : cstring :=
  let len := length (cstr w) in
  let w := if (len <? 3)%nat then <[0%nat := NUL]> w else w in
  NormalizeWord_loop len 0 w.

Inductive exit_status : Type := EXIT_SUCCESS | EXIT_FAILURE.

(** The body of the word loop of [main] for one word of document [id]. *)
Definition index_word (index : index_t) (id : Z) (w : cstring) : index_t :=
  let w := NormalizeWord w in
  match w with
  | c :: _ =>
      if bool_decide (c = NUL) then index
      else
        match hsearch index (entry_searchfn w) w (strlen w) with
        | Some ep =>
            match qsearch (documents ep) (doc_searchfn id) with
            | Some _ =>
                hupdate index (entry_searchfn w) w (strlen w) (λ ep,
                  Entry (word ep)
                    (qupdate (documents ep) (doc_searchfn id) (λ dp,
                       Doc (doc_id dp) (int_add (word_count dp) 1))))
            | None =>
                hupdate index (entry_searchfn w) w (strlen w) (λ ep,
                  Entry (word ep) (qput (documents ep) (new_doc id 1)))
            end
        | None =>
            hput index (Entry (cstr w) (qput qopen (new_doc id 1))) w (strlen w)
        end
  | [] => index
  end.

Section Main.
(** The words [webpage_getNextWord] returns for a page, in order (the
    tokeniser belongs to the WebPage facility). *)
Variable webpage_getWords : webpage_t → list cstring.

Definition index_page (index : index_t) (id : Z) (page : webpage_t) : index_t :=
  foldl (λ index w, index_word index id w) index (webpage_getWords page).

(** How the loop over the files ends. *)
Inductive indexed : Type :=
| Indexed (index : index_t)
| PageMissing          (* [pageload] returned NULL: [exit(EXIT_FAILURE)] *)
| IndexUndefined.      (* [pageload] is undefined on a file *)

(** The loop over the files. *)
Fixpoint index_files (dirname : directory) (index : index_t) (files : list Z)
  : indexed :=
  match files with
  | [] => Indexed index
  | id :: files' =>
      match pageload id dirname with
      | PageLoaded page => index_files dirname (index_page index id page) files'
      | PageNull _ => PageMissing
      | PageUndefined => IndexUndefined
      end
  end.

(** The names [readdir] returns, "." and ".." apart (they are skipped
    like every name that starts with a dot). *)
Definition readdir_names (dirname : directory) : list cstring :=
  (map_to_list (files dirname)).*1.

Definition not_hidden (d_name : cstring) : bool :=
  match d_name with
  | c :: _ => negb (bool_decide (c = "."%char))
  | [] => true
  end.

Definition file_ids (dirname : directory) : list Z :=
  map atoi (List.filter not_hidden (readdir_names dirname)).

(** [main], from the directory scan on: the exit status and the index
    file, if one was written; [None] where [pageload] is undefined. *)
Definition main (dirname : directory) (can_write : bool)
  : option (exit_status * option cstring) :=
  let files := merge_sort Z.le (file_ids dirname) in
  match index_files dirname (hopen hsize) files with
  | IndexUndefined => None
  | PageMissing => Some (EXIT_FAILURE, None)
  | Indexed index =>
      match indexsave index can_write with
      | (0, f) => Some (EXIT_SUCCESS, f)
      | (_, _) => Some (EXIT_FAILURE, None)
      end
  end.
End Main.

End Indexer.

(** ** query.c *)

Module Query.
Import Queue Hash.

Definition MAX_QUERY_LEN : Z := 512.

(** *** The heap of documents

    The queues of the query engine hold pointers.  A cell is a
    [rankedDoc_t]; a [document_t] of the index is its two-field prefix
    ([id], here [doc_id], and [word_count]) and is kept as a cell whose
    other fields are NULL. *)
Record rankedDoc_t : Type := RankedDoc {
  doc_id : Z;
  word_count : Z;
  url : option cstring;
  title : option cstring;
  content : option cstring
}.

Abbreviation loc := nat.
Abbreviation heap := (gmap nat rankedDoc_t).

(** Computations on the heap; [None] is undefined behaviour. *)
Definition M (A : Type) : Type := heap → option (A * heap).

Definition ret {A} (a : A) : M A := λ h, Some (a, h).
Definition bind {A B} (m : M A) (k : A → M B) : M B :=
  λ h, match m h with
       | Some (a, h') => k a h'
       | None => None
       end.
Definition undefined {A} : M A := λ _, None.

Notation "'let!' x := m 'in' k" := (bind m (λ x, k))
  (at level 10, x name, m at level 100, k at level 200).
Notation "'let!' ' p := m 'in' k" := (bind m (λ x, let 'p := x in k))
  (at level 10, p pattern, m at level 100, k at level 200).
Notation "m ;;; k" := (bind m (λ _, k))
  (at level 100, right associativity).

Definition load (l : loc) : M rankedDoc_t :=
  λ h, match h !! l with Some d => Some (d, h) | None => None end.
Definition store (l : loc) (d : rankedDoc_t) : M unit :=
  λ h, match h !! l with Some _ => Some (tt, <[l := d]> h) | None => None end.
Definition malloc (d : rankedDoc_t) : M loc :=
  λ h, let l := fresh (dom h) in Some (l, <[l := d]> h).
Definition free (l : loc) : M unit :=
  λ h, match h !! l with Some _ => Some (tt, delete l h) | None => None end.

Definition set_word_count (d : rankedDoc_t) (wc : Z) : rankedDoc_t :=
  RankedDoc (doc_id d) wc (url d) (title d) (content d).

Definition init_doc (id rank : Z) : M loc :=
  malloc (RankedDoc id rank None None None).

(** [free_doc]: the strings belong to the cell and go with it. *)
Definition free_doc (dp : loc) : M unit := free dp.

Fixpoint free_queue (qp : queue_t loc) : M unit :=
  match qp with
  | [] => ret tt
  | dp :: qp' => free_doc dp ;;; free_queue qp'
  end.

(** [qsearch(qp, doc_searchfn, &id)] *)
Fixpoint qsearch_doc (qp : queue_t loc) (id : Z) : M (option loc) :=
  match qp with
  | [] => ret None
  | dp :: qp' =>
      let! d := load dp in
      if doc_id d =? id then ret (Some dp) else qsearch_doc qp' id
  end.

(** *** get_intersection *)

(** The loop of [get_intersection]: [qp1] is what is left to [qget]. *)
Fixpoint get_intersection_loop (qp1 qp2 intersect : queue_t loc) : M (queue_t loc) :=
  match qp1 with
  | [] => ret intersect
  | doc :: qp1' =>
      let! d := load doc in
      let! r := qsearch_doc qp2 (doc_id d) in
      match r with
      | Some dp =>
          let! e := load dp in
          let word_count := word_count e in
          let rank := Query.word_count d in
          store doc (set_word_count d (if word_count <? rank then word_count else rank)) ;;;
          get_intersection_loop qp1' qp2 (qput intersect doc)
      | None =>
          free_doc doc ;;;
          get_intersection_loop qp1' qp2 intersect
      end
  end.

Definition get_intersection (qp1 qp2 : queue_t loc) : M (queue_t loc) :=
  let! intersect := get_intersection_loop qp1 qp2 qopen in
  free_queue qp2 ;;;
  ret intersect.

(** *** get_union *)

(** The first loop of [get_union]: [qp2] is what is left to [qget];
    returns [qp1] and [tmp]. *)
Fixpoint get_union_loop (qp2 qp1 tmp : queue_t loc) : M (queue_t loc * queue_t loc) :=
  match qp2 with
  | [] => ret (qp1, tmp)
  | dp :: qp2' =>
      let! d := load dp in
      let word_count := word_count d in
      let! r := qsearch_doc qp1 (doc_id d) in
      let! qp1' :=
        match r with
        | Some doc =>
            let! e := load doc in
            let rank := Query.word_count e in
            store doc (set_word_count e (int_add rank word_count)) ;;;
            ret qp1
        | None =>
            let! doc := init_doc (doc_id d) word_count in
            ret (qput qp1 doc)
        end in
      get_union_loop qp2' qp1' (qput tmp dp)
  end.

(** The second loop: [tmp] is poured back into [qp2]. *)
Fixpoint restore (tmp qp2 : queue_t loc) : queue_t loc :=
  match tmp with
  | [] => qp2
  | dp :: tmp' => restore tmp' (qput qp2 dp)
  end.

(** [get_union]: returns [qp1] and the contents of [qp2] afterwards. *)
Definition get_union (qp1 qp2 : queue_t loc) : M (queue_t loc * queue_t loc) :=
  let! '(qp1', tmp) := get_union_loop qp2 qp1 qopen in
  ret (qp1', restore tmp qopen).

(** *** tokenize_query and validate_query *)

Definition s_and : cstring := str "and".
Definition s_or : cstring := str "or".

(** [strcmp(t, "and") == 0 || strcmp(t, "or") == 0] *)
Definition is_operator (t : cstring) : bool := streq t s_and || streq t s_or.

(** [NormalizeWord] of query.c: [None] is the result false. *)
Fixpoint NormalizeWord (w : cstring) : option cstring :=
  match w with
  | [] => Some []
  | c :: w' =>
      if isalpha c then
        match NormalizeWord w' with
        | Some l => Some (tolower c :: l)
        | None => None
        end
      else None
  end.

(** The loop of [tokenize_query] over the tokens [strtok] returns;
    [None] is the early [return NULL]. *)
Fixpoint tokenize_loop (tokens tokenized_query : list cstring)
         (prev_token : option cstring) : option (list cstring) :=
  match tokens with
  | [] => Some tokenized_query
  | token :: tokens' =>
      match NormalizeWord token with
      | None => None
      | Some token =>
          if (strlen token <? 3) && negb (streq token s_or) then
            tokenize_loop tokens' tokenized_query prev_token
          else
            let implicit_and :=
              match prev_token with
              | Some prev => negb (is_operator prev) && negb (is_operator token)
              | None => false
              end in
            let tokenized_query :=
              if implicit_and then tokenized_query ++ [s_and] else tokenized_query in
            tokenize_loop tokens' (tokenized_query ++ [token]) (Some token)
      end
  end.

(** [tokenize_query]: the array of tokens ([num_tokens] is its length);
    [None] is NULL, which is also what [realloc] never having been called
    leaves when no token is kept. *)
Definition tokenize_query (query : cstring) : option (list cstring) :=
  match tokenize_loop (strtok_all [" "%char; "009"%char] query) [] None with
  | Some (t :: ts) => Some (t :: ts)
  | _ => None
  end.

(** The loop of [validate_query] over [query[i]], [query[i + 1]]. *)
Fixpoint validate_loop (query : list cstring) : bool :=
  match query with
  | t :: (t' :: _) as query' =>
      if streq t s_and then
        (if is_operator t' then false else validate_loop query')
      else if streq t s_or then
        (if is_operator t' then false else validate_loop query')
      else validate_loop query'
  | _ => true
  end.

(** [validate_query]; [main] calls it on a non-empty array only (on an
    empty one the C code would read [query[0]] out of bounds). *)
Definition validate_query (query : list cstring) : bool :=
  match head query, last query with
  | Some first, Some final =>
      if is_operator first || is_operator final then false
      else validate_loop query
  | _, _ => false
  end.

(** *** Evaluation *)

Abbreviation index_t := (hashtable_t (IndexIO.entry_t loc)).

Definition token_searchfn (key : cstring) (ep : IndexIO.entry_t loc) : bool :=
  streq (IndexIO.word ep) key.

(** The posting queue of a token pushed as a fresh ranked queue; the
    index is returned with the queue [get_union] left in the entry. *)
Definition push_token (index : index_t) (token : cstring)
  : M (queue_t loc * index_t) :=
  match hsearch index (token_searchfn token) token (strlen token) with
  | Some ep =>
      let! '(tmp, docs) := get_union qopen (IndexIO.documents ep) in
      ret (tmp, hupdate index (token_searchfn token) token (strlen token)
                  (λ ep, IndexIO.Entry (IndexIO.word ep) docs))
  | None => ret (qopen, index)
  end.

(** The token loop of [main].  The stack is a list, top first. *)
Fixpoint eval_tokens (tokens : list cstring) (index : index_t)
         (stack : list (queue_t loc)) (curr_operator : cstring)
  : M (list (queue_t loc) * index_t) :=
  match tokens with
  | [] => ret (stack, index)
  | token :: tokens' =>
      if is_operator token then eval_tokens tokens' index stack token
      else
        let! '(tmp, index) := push_token index token in
        let stack := tmp :: stack in
        if streq curr_operator s_and then
          match stack with
          | qp1 :: qp2 :: stack' =>
              let! r := get_intersection qp1 qp2 in
              eval_tokens tokens' index (r :: stack') curr_operator
          | _ => undefined
          end
        else eval_tokens tokens' index stack curr_operator
  end.

(** [while (top > 0)]: [qp1] is the top of the stack. *)
Fixpoint union_stack (qp1 : queue_t loc) (stack : list (queue_t loc))
  : M (queue_t loc) :=
  match stack with
  | [] => ret qp1
  | qp2 :: stack' =>
      let! '(qp1', qp2') := get_union qp1 qp2 in
      free_queue qp2' ;;;
      union_stack qp1' stack'
  end.

(** The ranked queue of a validated query, before metadata and sorting. *)
Definition evaluate (tokenized_query : list cstring) (index : index_t)
  : M (queue_t loc * index_t) :=
  let! '(stack, index) := eval_tokens tokenized_query index [] [] in
  match stack with
  | qp1 :: stack' =>
      let! ranked_docs := union_stack qp1 stack' in
      ret (ranked_docs, index)
  | [] => undefined
  end.

(** *** get_metadata *)

Definition quote : ascii := "034"%char.
Definition s_title : cstring := str "<title>".
Definition s_title_end : cstring := str "</title>".
Definition s_meta : cstring := str "<meta name=" ++ [quote] ++ str "description" ++ [quote].
Definition s_content : cstring := str "content=" ++ [quote].

(** The title [get_metadata] extracts; [None] leaves the field as it is. *)
Definition find_title (html : cstring) : option cstring :=
  start ← strstr html s_title;
  end_ ← strstr start s_title_end;
  let len := (length start - length end_ - length s_title)%nat in
  Some (take len (drop (length s_title) start)).

(** The description [get_metadata] extracts, cut at 128 bytes. *)
Definition find_content (html : cstring) : option cstring :=
  start ← strstr html s_meta;
  content ← strstr start s_content;
  let content := drop (length s_content) content in
  end_ ← strchr content quote;
  let len := (length content - length end_)%nat in
  let len := if (128 <? len)%nat then 128%nat else len in
  Some (take len content).

Definition or_else {A} (new old : option A) : option A :=
  match new with
  | Some _ => new
  | None => old
  end.

(** The first loop of [get_metadata]: returns [tmp] and what the calls
    of [pageload] printed. *)
Fixpoint get_metadata_loop (pagedir : PageIO.directory)
         (ranked_docs tmp : queue_t loc) : M (queue_t loc * cstring) :=
  match ranked_docs with
  | [] => ret (tmp, [])
  | dp :: ranked_docs' =>
      let! d := load dp in
      let! out :=
        match PageIO.pageload (doc_id d) pagedir with
        | PageIO.PageLoaded page =>
            let html := Webpage.html page in
            store dp (RankedDoc (doc_id d) (word_count d)
                        (Some (Webpage.url page))
                        (or_else (find_title html) (title d))
                        (or_else (find_content html) (content d))) ;;;
            ret []
        | PageIO.PageNull out => ret out
        | PageIO.PageUndefined => undefined
        end in
      let! '(tmp, outs) := get_metadata_loop pagedir ranked_docs' (qput tmp dp) in
      ret (tmp, out ++ outs)
  end.

(** [get_metadata]: the queue, and what was printed on the way. *)
Definition get_metadata (ranked_docs : queue_t loc) (pagedir : PageIO.directory)
  : M (queue_t loc * cstring) :=
  let! '(tmp, out) := get_metadata_loop pagedir ranked_docs qopen in
  ret (restore tmp qopen, out).

(** *** sort_queue *)

(** [comparator(a, b) > 0]: [a] goes after [b]. *)
Definition comparator (a b : rankedDoc_t) : Z :=
  if word_count a <? word_count b then 1
  else if word_count b <? word_count a then -1
  else 0.

Fixpoint insert_doc (a : loc * rankedDoc_t) (l : list (loc * rankedDoc_t))
  : list (loc * rankedDoc_t) :=
  match l with
  | [] => [a]
  | b :: l' => if 0 <? comparator a.2 b.2 then b :: insert_doc a l' else a :: l
  end.

Fixpoint load_all (qp : queue_t loc) : M (list (loc * rankedDoc_t)) :=
  match qp with
  | [] => ret []
  | dp :: qp' =>
      let! d := load dp in
      let! l := load_all qp' in
      ret ((dp, d) :: l)
  end.

(** [sort_queue]: the queue is emptied into an array, sorted with
    [qsort] and refilled.  [qsort] may order equal ranks as it likes;
    the embedding uses a stable insertion sort. *)
Definition sort_queue (qp : queue_t loc) : M (queue_t loc) :=
  let! l := load_all qp in
  ret (foldr insert_doc [] l).*1.

(** *** The main loop *)

(** The two [printf] calls for one document. *)
Definition print_doc (doc : rankedDoc_t) : cstring :=
  str "title: " ++ print_str_or_null (title doc) ++ [newline] ++
  str "rank:" ++ print_int (word_count doc) ++
  str " doc:" ++ print_int (doc_id doc) ++
  str " : " ++ print_str_or_null (url doc) ++ [newline] ++
  print_str_or_null (content doc) ++ str "..." ++ [newline; newline].

Fixpoint print_docs (ranked_docs : queue_t loc) : M cstring :=
  match ranked_docs with
  | [] => ret []
  | doc :: ranked_docs' =>
      let! d := load doc in
      free_doc doc ;;;
      let! out := print_docs ranked_docs' in
      ret (print_doc d ++ out)
  end.

Definition invalid_query : cstring := str "[invalid query]" ++ [newline].

(** Whether [main] evaluates the query in its buffer. *)
Definition accepted (query : cstring) : bool :=
  match tokenize_query query with
  | Some tokenized_query => validate_query tokenized_query
  | None => false
  end.

(** One round of the loop of [main], after [get_input] has filled
    [query]: what is printed before the next prompt, and the index. *)
Definition query_step (pagedir : PageIO.directory) (index : index_t)
           (query : cstring) : M (cstring * index_t) :=
  match cstr query with
  | [] => ret ([], index)
  | _ :: _ =>
      match tokenize_query query with
      | Some tokenized_query =>
          if validate_query tokenized_query then
            let! '(ranked_docs, index) := evaluate tokenized_query index in
            let! '(ranked_docs, messages) := get_metadata ranked_docs pagedir in
            let! ranked_docs := sort_queue ranked_docs in
            let! out := print_docs ranked_docs in
            ret (messages ++ out, index)
          else ret (invalid_query, index)
      | None => ret (invalid_query, index)
      end
  end.

End Query.

(** ** crawler.c *)

Module Crawler.
Import Queue Hash Webpage PageIO.

Definition hsize : Z := 1000.
Definition num_threads : nat := 3.

(** Where a worker thread stands in [crawl].  A worker holds
    [crawl_mutex] from its [lqput] to the end of its [pagesave]. *)
Inductive thread : Type :=
| AtLoopHead                       (* about to call [lqget] *)
| Testing                          (* [lqget] gave NULL: before the test
                                      [pages_retrieved < pages_added] *)
| ReadRetrieved (retrieved : Z)    (* has read [pages_retrieved] *)
| ReadAdded (added : Z)            (* has read [pages_added] *)
| Scanning (curr : webpage_t) (urls : list cstring)
                                   (* at the test of the inner loop *)
| Queued (curr : webpage_t) (url : cstring) (urls : list cstring)
         (page : webpage_t)        (* after [lqput(qp, page)] *)
| Counted (curr : webpage_t) (url : cstring) (urls : list cstring)
          (page : webpage_t)       (* after [pages_added++] *)
| Exiting                          (* [pagesave] failed: about to call [exit] *)
| Returned.                        (* left [crawl] *)

(** The globals of crawler.c, the page directory, the three workers,
    whether [exit] was called, and the pages [pagesave] wrote (with the
    id of each), most recent first. *)
Record state : Type := State {
  qp : queue_t webpage_t;
  hp : hashtable_t cstring;
  dirname : directory;
  id : Z;
  pages_added : Z;
  pages_retrieved : Z;
  crawl_mutex : bool;              (* locked *)
  threads : list thread;
  exited : bool;
  saved : list (Z * webpage_t)
}.

(** What moves in a step: the thread, what [webpage_fetch] gets if the
    step fetches, and which operand of [pages_retrieved < pages_added]
    is read first if the step starts the test (C does not say). *)
Record action : Type := Action {
  who : nat;
  network : option cstring;
  retrieved_first : bool
}.

Definition searchfn (searchkeyp : cstring) (elementp : cstring) : bool :=
  streq elementp searchkeyp.

Section Crawl.
(** The WebPage facility: the URLs [webpage_getNextURL] returns for a
    page, in order, and the classifier of internal URLs. *)
Variable webpage_getURLs : webpage_t → list cstring.
Variable IsInternalURL : cstring → bool.
Variable max_depth : Z.

(** [main] up to the creation of the threads.  [fetched] is what
    [webpage_fetch] gets for the seed; [None] is [exit(EXIT_FAILURE)].
    The status of the seed's [pagesave] is not looked at. *)
Definition main (seed_url : cstring) (dir : directory)
           (fetched : option cstring) : option state :=
  if max_depth <? 0 then None
  else
    match fetched with
    | None => None
    | Some html =>
        let seed_page := webpage_new seed_url 0 html in
        let '(status, dir') := pagesave (Some seed_page) 1 dir in
        Some {| qp := qput qopen seed_page;
                hp := hput (hopen hsize) seed_url seed_url (strlen seed_url);
                dirname := dir';
                id := 2;
                pages_added := 1;
                pages_retrieved := 0;
                crawl_mutex := false;
                threads := replicate num_threads AtLoopHead;
                exited := false;
                saved := if status =? 0 then [(1, seed_page)] else [] |}
    end.

Definition set_thread (s : state) (t : nat) (th : thread) : state :=
  {| qp := qp s; hp := hp s; dirname := dirname s; id := id s;
     pages_added := pages_added s; pages_retrieved := pages_retrieved s;
     crawl_mutex := crawl_mutex s;
     threads := <[t := th]> (threads s);
     exited := exited s; saved := saved s |}.

(** [curr = lqget(qp)], the first operand of the loop head
    [while ((curr = lqget(qp)) || (pages_retrieved < pages_added))]:
    [lqget] is atomic under the mutex of the queue, not under
    [crawl_mutex]. *)
Definition loop_head (s : state) (t : nat) : state :=
  match qget (qp s) with
  | (Some curr, qp') =>
      {| qp := qp'; hp := hp s; dirname := dirname s; id := id s;
         pages_added := pages_added s; pages_retrieved := pages_retrieved s;
         crawl_mutex := crawl_mutex s;
         threads := <[t := Scanning curr (webpage_getURLs curr)]> (threads s);
         exited := exited s; saved := saved s |}
  | (None, _) => set_thread s t Testing
  end.

(** The second operand, read without any lock: the first of the two
    reads. *)
Definition read_first (s : state) (t : nat) (retrieved_first : bool) : state :=
  set_thread s t (if retrieved_first then ReadRetrieved (pages_retrieved s)
                  else ReadAdded (pages_added s)).

(** The other read and the comparison: back to the loop head
    ([continue]) or out of [crawl]. *)
Definition test (s : state) (t : nat) (retrieved added : Z) : state :=
  set_thread s t (if retrieved <? added then AtLoopHead else Returned).

(** After the inner loop:
    [pthread_mutex_lock; pages_retrieved++; pthread_mutex_unlock].
    The worker waits while the mutex is locked. *)
Definition retire (s : state) (t : nat) : state :=
  if crawl_mutex s then s
  else
    {| qp := qp s; hp := hp s; dirname := dirname s; id := id s;
       pages_added := pages_added s;
       pages_retrieved := int_add (pages_retrieved s) 1;
       crawl_mutex := crawl_mutex s;
       threads := <[t := AtLoopHead]> (threads s);
       exited := exited s; saved := saved s |}.

(** One round of the inner loop for [url], up to [lqput], or the code
    after the loop.  [fetched] is what [webpage_fetch] gets if the round
    fetches.  The table is touched under [crawl_mutex] only, so the
    lock, [lhsearch], the fetch and [lqput] are one step for the other
    workers. *)
Definition scan (s : state) (t : nat) (curr : webpage_t)
           (urls : list cstring) (fetched : option cstring) : state :=
  match urls with
  | url :: urls' =>
      if depth curr <? max_depth then
        if IsInternalURL url then
          if crawl_mutex s then s
          else
            match hsearch (hp s) (searchfn url) url (strlen url) with
            | None =>
                match fetched with
                | None => set_thread s t (Scanning curr urls')
                | Some html =>
                    let page := webpage_new url (depth curr + 1) html in
                    {| qp := qput (qp s) page;
                       hp := hp s; dirname := dirname s; id := id s;
                       pages_added := pages_added s;
                       pages_retrieved := pages_retrieved s;
                       crawl_mutex := true;
                       threads := <[t := Queued curr url urls' page]> (threads s);
                       exited := exited s; saved := saved s |}
                end
            | Some _ => set_thread s t (Scanning curr urls')
            end
        else set_thread s t (Scanning curr urls')
      else retire s t
  | [] => retire s t
  end.

(** [pages_added++], under [crawl_mutex]; the workers at the loop head
    read the counter without it. *)
Definition count (s : state) (t : nat) (curr : webpage_t) (url : cstring)
           (urls : list cstring) (page : webpage_t) : state :=
  {| qp := qp s; hp := hp s; dirname := dirname s; id := id s;
     pages_added := int_add (pages_added s) 1;
     pages_retrieved := pages_retrieved s;
     crawl_mutex := crawl_mutex s;
     threads := <[t := Counted curr url urls page]> (threads s);
     exited := exited s; saved := saved s |}.

(** [lhput], [pagesave(page, id++, dirname)] and the unlock.  Table, id
    and directory are touched under [crawl_mutex] only. *)
Definition save (s : state) (t : nat) (curr : webpage_t) (url : cstring)
           (urls : list cstring) (page : webpage_t) : state :=
  let '(status, dir') := pagesave (Some page) (id s) (dirname s) in
  {| qp := qp s;
     hp := hput (hp s) url url (strlen url);
     dirname := dir';
     id := int_add (id s) 1;
     pages_added := pages_added s;
     pages_retrieved := pages_retrieved s;
     crawl_mutex := false;
     threads := <[t := if status =? 0 then Scanning curr urls else Exiting]>
                  (threads s);
     exited := exited s;
     saved := if status =? 0 then (id s, page) :: saved s else saved s |}.

(** [exit(EXIT_FAILURE)] *)
Definition exit (s : state) : state :=
  {| qp := qp s; hp := hp s; dirname := dirname s; id := id s;
     pages_added := pages_added s; pages_retrieved := pages_retrieved s;
     crawl_mutex := crawl_mutex s; threads := threads s;
     exited := true; saved := saved s |}.

(** One step of a thread; nothing moves once [exit] was called. *)
Definition step (s : state) (a : action) : state :=
  let t := who a in
  if exited s then s
  else
    match threads s !! t with
    | Some AtLoopHead => loop_head s t
    | Some Testing => read_first s t (retrieved_first a)
    | Some (ReadRetrieved retrieved) => test s t retrieved (pages_added s)
    | Some (ReadAdded added) => test s t (pages_retrieved s) added
    | Some (Scanning curr urls) => scan s t curr urls (network a)
    | Some (Queued curr url urls page) => count s t curr url urls page
    | Some (Counted curr url urls page) => save s t curr url urls page
    | Some Exiting => exit s
    | Some Returned | None => s
    end.

(** A run under a schedule. *)
Definition run (s : state) (schedule : list action) : state :=
  foldl step s schedule.
End Crawl.

End Crawler.

(** ** Facts about the C library *)

Module LibcFacts.

Lemma cstr_id (s : cstring) : NUL ∉ s → cstr s = s.
Proof.
  induction s as [|c s IH]; simpl; [done|].
  intros Hn. rewrite bool_decide_eq_false_2.
  - f_equal. apply IH. set_solver.
  - intros ->. set_solver.
Qed.

Lemma cstr_idem (s : cstring) : cstr (cstr s) = cstr s.
Proof.
  induction s as [|c s IH]; simpl; [done|].
  destruct (bool_decide (c = NUL)) eqn:Hc; simpl; [done|].
  by rewrite Hc, IH.
Qed.

Lemma isalpha_not_NUL c : isalpha c = true → c ≠ NUL.
Proof. intros H ->. discriminate H. Qed.

Lemma isalpha_tolower c : isalpha c = true → isalpha (tolower c) = true.
Proof. destruct c as [[] [] [] [] [] [] [] []]; vm_compute; congruence. Qed.

Lemma tolower_idem c : tolower (tolower c) = tolower c.
Proof. destruct c as [[] [] [] [] [] [] [] []]; reflexivity. Qed.

Lemma NUL_notin_alpha (s : cstring) : forallb isalpha s = true → NUL ∉ s.
Proof.
  induction s as [|c s IH]; simpl; [set_solver|].
  intros [Hc Hs]%andb_true_iff. apply not_elem_of_cons. split.
  - intros <-. discriminate Hc.
  - by apply IH.
Qed.

Lemma forallb_alpha_tolower (s : cstring) :
  forallb isalpha s = true → forallb isalpha (map tolower s) = true.
Proof.
  induction s as [|c s IH]; simpl; [done|].
  intros [Hc Hs]%andb_true_iff. by rewrite isalpha_tolower, IH.
Qed.

End LibcFacts.

Module QueueFacts.
Import Queue.
Section Facts.
Context {A : Type}.
Implicit Types (q : queue_t A) (p : A → bool).

Lemma qsearch_qput q p x :
  qsearch (qput q x) p =
  match qsearch q p with
  | Some e => Some e
  | None => if p x then Some x else None
  end.
Proof.
  unfold qput. induction q as [|e q IH]; simpl; [done|].
  by destruct (p e).
Qed.

(** Updating the first [p]-match does not change what a search for
    something else finds. *)
Lemma qsearch_qupdate_other q p p' g :
  (∀ e, p e = true → p' e = false ∧ p' (g e) = false) →
  qsearch (qupdate q p g) p' = qsearch q p'.
Proof.
  intros Hpp. induction q as [|e q IH]; simpl; [done|].
  destruct (p e) eqn:He; simpl.
  - destruct (Hpp e He) as [-> ->]. done.
  - by rewrite IH.
Qed.

(** Searching again for what was updated finds the updated element. *)
Lemma qsearch_qupdate_same q p g :
  (∀ e, p e = true → p (g e) = true) →
  qsearch (qupdate q p g) p = g <$> qsearch q p.
Proof.
  intros Hg. induction q as [|e q IH]; simpl; [done|].
  destruct (p e) eqn:He; simpl.
  - by rewrite (Hg e He).
  - by rewrite He, IH.
Qed.
End Facts.
End QueueFacts.

Module HashFacts.
Import Queue Hash QueueFacts.
Section Facts.
Context {A : Type}.
Implicit Types (htp : hashtable_t A).

(** The table has as many slots as [tablesize] says. *)
Definition wf_table htp : Prop :=
  0 < tablesize htp ∧ length (hash_table htp) = Z.to_nat (tablesize htp).

Lemma SuperFastHash_range data len size :
  0 < size → 0 <= SuperFastHash data len size < size.
Proof.
  intros Hs. unfold SuperFastHash.
  destruct (len <=? 0); [lia|].
  destruct (SuperFastHash_loop _ _ _) as [d h].
  apply Z.mod_pos_bound. lia.
Qed.

Lemma slot_lt htp key keylen :
  wf_table htp → (slot htp key keylen < length (hash_table htp))%nat.
Proof.
  intros [Hpos Hlen]. unfold slot. rewrite Hlen.
  pose proof (SuperFastHash_range key keylen _ Hpos). lia.
Qed.

Lemma wf_hopen hsize : 0 < hsize → wf_table (@hopen A hsize).
Proof. intros H. split; simpl; [done|]. by rewrite length_replicate. Qed.

Lemma wf_hput htp ep key keylen : wf_table htp → wf_table (hput htp ep key keylen).
Proof. intros [H1 H2]. split; simpl; [done|]. by rewrite length_alter. Qed.

Lemma wf_hupdate htp p key keylen f :
  wf_table htp → wf_table (hupdate htp p key keylen f).
Proof. intros [H1 H2]. split; simpl; [done|]. by rewrite length_alter. Qed.

Lemma hsearch_hput htp ep key keylen p key' keylen' :
  wf_table htp →
  hsearch (hput htp ep key keylen) p key' keylen' =
  match hsearch htp p key' keylen' with
  | Some e => Some e
  | None =>
      if bool_decide (slot htp key keylen = slot htp key' keylen') && p ep
      then Some ep else None
  end.
Proof.
  intros Hwf. unfold hsearch, hput, slot; simpl.
  fold (slot htp key keylen). fold (slot htp key' keylen').
  destruct (decide (slot htp key keylen = slot htp key' keylen')) as [Heq|Hne].
  - rewrite Heq, bool_decide_eq_true_2 by done.
    destruct (lookup_lt_is_Some_2 _ _ (slot_lt htp key' keylen' Hwf)) as [q Hq].
    rewrite list_lookup_alter_eq, Hq. simpl. apply qsearch_qput.
  - rewrite bool_decide_eq_false_2 by done.
    rewrite list_lookup_alter_ne by done. simpl.
    by destruct (_ ≫= _).
Qed.

Lemma hsearch_hupdate_same htp p key keylen g :
  (∀ e, p e = true → p (g e) = true) →
  hsearch (hupdate htp p key keylen g) p key keylen =
  g <$> hsearch htp p key keylen.
Proof.
  intros Hg. unfold hsearch, hupdate, slot; simpl.
  rewrite list_lookup_alter_eq.
  destruct (hash_table htp !! _) as [q|]; simpl; [|done].
  by apply qsearch_qupdate_same.
Qed.

Lemma hsearch_hupdate_other htp p key keylen g p' key' keylen' :
  (∀ e, p e = true → p' e = false ∧ p' (g e) = false) →
  hsearch (hupdate htp p key keylen g) p' key' keylen' =
  hsearch htp p' key' keylen'.
Proof.
  intros Hpp. unfold hsearch, hupdate, slot; simpl.
  fold (slot htp key keylen). fold (slot htp key' keylen').
  destruct (decide (slot htp key keylen = slot htp key' keylen')) as [Heq|Hne].
  - rewrite Heq, list_lookup_alter_eq.
    destruct (hash_table htp !! _) as [q|]; simpl; [|done].
    by apply qsearch_qupdate_other.
  - by rewrite list_lookup_alter_ne.
Qed.
End Facts.
End HashFacts.

Module IndexerTheory.
Import Queue Hash IndexIO Indexer LibcFacts QueueFacts HashFacts.

(** The gate of the specification: non-empty, at least three
    characters, all of them alphabetic. *)
Definition accepts (w : cstring) : bool :=
  nonempty w && (3 <=? length w)%nat && forallb isalpha w.

(** The count the index holds for a word and a document. *)
Definition lookup_count (index : index_t) (w : cstring) (id : Z) : option Z :=
  ep ← hsearch index (entry_searchfn w) w (strlen w);
  dp ← qsearch (documents ep) (doc_searchfn id);
  Some (word_count dp).

Lemma NormalizeWord_loop_alpha n i (w : cstring) :
  (i + n = length w)%nat →
  forallb isalpha (drop i w) = true →
  NormalizeWord_loop n i w = take i w ++ map tolower (drop i w).
Proof.
  revert i w. induction n as [|n IH]; intros i w Hlen Hal; simpl.
  - rewrite take_ge, drop_ge by lia. by rewrite app_nil_r.
  - destruct (lookup_lt_is_Some_2 w i ltac:(lia)) as [c Hc].
    rewrite Hc. rewrite (drop_S _ _ _ Hc) in Hal |- *. simpl in Hal.
    apply andb_true_iff in Hal as [Hca Hrest]. rewrite Hca.
    rewrite IH.
    + rewrite drop_insert_lt by lia.
      rewrite (take_S_r _ _ (tolower c)).
      * rewrite take_insert_ge by lia. by rewrite <- app_assoc.
      * apply list_lookup_insert_eq. lia.
    + rewrite length_insert. lia.
    + by rewrite drop_insert_lt by lia.
Qed.

Lemma NormalizeWord_loop_reject n i (w : cstring) :
  (i + n = length w)%nat → w ≠ [] →
  forallb isalpha (drop i w) = false →
  head (NormalizeWord_loop n i w) = Some NUL.
Proof.
  revert i w. induction n as [|n IH]; intros i w Hlen Hne Hal; simpl.
  - rewrite drop_ge in Hal by lia. discriminate.
  - destruct (lookup_lt_is_Some_2 w i ltac:(lia)) as [c Hc].
    rewrite Hc. rewrite (drop_S _ _ _ Hc) in Hal. simpl in Hal.
    destruct (isalpha c) eqn:Hca; simpl in Hal.
    + apply IH.
      * rewrite length_insert. lia.
      * destruct w; [done|]. by destruct i.
      * by rewrite drop_insert_lt by lia.
    + by destruct w.
Qed.

(** What [NormalizeWord] leaves in the buffer of an accepted word. *)
Lemma NormalizeWord_accepts (w : cstring) :
  NUL ∉ w → accepts w = true → NormalizeWord w = map tolower w.
Proof.
  intros Hn [[_ Hlen]%andb_true_iff Hal]%andb_true_iff.
  unfold NormalizeWord. rewrite (cstr_id _ Hn).
  apply Nat.leb_le in Hlen.
  replace (length w <? 3)%nat with false by (symmetry; apply Nat.ltb_ge; lia).
  rewrite NormalizeWord_loop_alpha; simpl; by rewrite ?drop_0.
Qed.

(** A rejected word is left with a NUL in front (or was empty). *)
Lemma NormalizeWord_rejects (w : cstring) :
  NUL ∉ w → accepts w = false →
  NormalizeWord w = [] ∨ head (NormalizeWord w) = Some NUL.
Proof.
  intros Hn Hacc. unfold NormalizeWord. rewrite (cstr_id _ Hn).
  destruct w as [|c w]; [by left|]. right.
  unfold accepts in Hacc. simpl nonempty in Hacc. rewrite andb_true_l in Hacc.
  destruct (length (c :: w) <? 3)%nat eqn:Hlt.
  - apply NormalizeWord_loop_reject; simpl; [lia|done|done].
  - apply Nat.ltb_ge in Hlt.
    apply NormalizeWord_loop_reject; [simpl; lia|done|].
    rewrite drop_0. apply andb_false_iff in Hacc as [Hacc|Hacc]; [|done].
    apply Nat.leb_gt in Hacc. lia.
Qed.

(** The index after one more occurrence of the normalised word [w] in
    document [id]: what [index_word] does once the gate is passed. *)
Definition add_posting (index : index_t) (id : Z) (w : cstring) : index_t :=
  match hsearch index (entry_searchfn w) w (strlen w) with
  | Some ep =>
      match qsearch (documents ep) (doc_searchfn id) with
      | Some _ =>
          hupdate index (entry_searchfn w) w (strlen w) (λ ep,
            Entry (word ep)
              (qupdate (documents ep) (doc_searchfn id) (λ dp,
                 Doc (doc_id dp) (int_add (word_count dp) 1))))
      | None =>
          hupdate index (entry_searchfn w) w (strlen w) (λ ep,
            Entry (word ep) (qput (documents ep) (new_doc id 1)))
      end
  | None =>
      hput index (Entry (cstr w) (qput qopen (new_doc id 1))) w (strlen w)
  end.

Lemma index_word_accepts index id (w : cstring) :
  NUL ∉ w → accepts w = true →
  index_word index id w = add_posting index id (map tolower w).
Proof.
  intros Hn Hacc. unfold index_word. rewrite (NormalizeWord_accepts _ Hn Hacc).
  apply andb_true_iff in Hacc as [[Hne _]%andb_true_iff Hal].
  destruct w as [|c w]; [done|]. simpl in Hal.
  apply andb_true_iff in Hal as [Hc _].
  change (map tolower (c :: w)) with (tolower c :: map tolower w).
  cbv beta iota. rewrite bool_decide_eq_false_2; [done|].
  apply isalpha_not_NUL. by apply isalpha_tolower.
Qed.

Lemma index_word_rejects index id (w : cstring) :
  NUL ∉ w → accepts w = false → index_word index id w = index.
Proof.
  intros Hn Hacc. unfold index_word.
  destruct (NormalizeWord_rejects _ Hn Hacc) as [->|Hhd]; [done|].
  destruct (NormalizeWord w) as [|c w']; [done|].
  simpl in Hhd. injection Hhd as ->. by rewrite bool_decide_eq_true_2.
Qed.

Lemma doc_searchfn_spec id dp : doc_searchfn id dp = true ↔ doc_id dp = id.
Proof. unfold doc_searchfn. apply Z.eqb_eq. Qed.

(** The count of the word and document just indexed goes up by one, or
    starts at one. *)
Lemma add_posting_count index id (w : cstring) :
  wf_table index →
  lookup_count (add_posting index id w) w id =
  Some (match lookup_count index w id with
        | Some c => int_add c 1
        | None => 1
        end).
Proof.
  intros Hwf. unfold lookup_count, add_posting.
  destruct (hsearch index (entry_searchfn w) w (strlen w)) as [ep|] eqn:Hep; simpl.
  - destruct (qsearch (documents ep) (doc_searchfn id)) as [dp|] eqn:Hdp; simpl.
    + rewrite hsearch_hupdate_same, Hep by done. simpl.
      rewrite qsearch_qupdate_same, Hdp; [done|].
      intros e. by rewrite !doc_searchfn_spec.
    + rewrite hsearch_hupdate_same, Hep by done. simpl.
      rewrite qsearch_qput, Hdp.
      replace (doc_searchfn id (new_doc id 1)) with true; [done|].
      symmetry. by apply doc_searchfn_spec.
  - rewrite hsearch_hput, Hep by done.
    rewrite bool_decide_eq_true_2 by done.
    replace (entry_searchfn w _) with true.
    + simpl. replace (doc_searchfn id (new_doc id 1)) with true; [done|].
      symmetry. by apply doc_searchfn_spec.
    + symmetry. unfold entry_searchfn, streq. simpl.
      apply bool_decide_eq_true_2, cstr_idem.
Qed.

(** No other count moves. *)
Lemma add_posting_frame index id (w w' : cstring) id' :
  wf_table index → NUL ∉ w → NUL ∉ w' →
  (w', id') ≠ (w, id) →
  lookup_count (add_posting index id w) w' id' = lookup_count index w' id'.
Proof.
  intros Hwf Hn Hn' Hne. unfold lookup_count, add_posting.
  assert (∀ e, entry_searchfn w e = true → entry_searchfn w' e = true → w' = w) as Hkey.
  { unfold entry_searchfn, streq. intros e H1%bool_decide_eq_true H2%bool_decide_eq_true.
    rewrite <- (cstr_id w), <- (cstr_id w') by done. congruence. }
  destruct (decide (w' = w)) as [->|Hw].
  - assert (id' ≠ id) as Hid by congruence.
    destruct (hsearch index (entry_searchfn w) w (strlen w)) as [ep|] eqn:Hep; simpl.
    + destruct (qsearch (documents ep) (doc_searchfn id)) as [dp|] eqn:Hdp; simpl.
      * rewrite hsearch_hupdate_same, Hep by done. simpl.
        rewrite qsearch_qupdate_other; [done|].
        intros e. rewrite !doc_searchfn_spec. simpl. intros <-.
        split; apply not_true_is_false; rewrite doc_searchfn_spec; simpl; congruence.
      * rewrite hsearch_hupdate_same, Hep by done. simpl.
        rewrite qsearch_qput.
        destruct (qsearch (documents ep) (doc_searchfn id')); [done|].
        replace (doc_searchfn id' (new_doc id 1)) with false; [done|].
        symmetry. apply not_true_is_false. rewrite doc_searchfn_spec. simpl. congruence.
    + rewrite hsearch_hput, Hep by done.
      destruct (_ && _); simpl; [|done].
      replace (doc_searchfn id' (new_doc id 1)) with false; [done|].
      symmetry. apply not_true_is_false. rewrite doc_searchfn_spec. simpl. congruence.
  - assert (∀ g : entry_t document_t → entry_t document_t,
              (∀ e, word (g e) = word e) →
              ∀ e, entry_searchfn w e = true →
                   entry_searchfn w' e = false ∧ entry_searchfn w' (g e) = false) as Hother.
    { intros g Hg e He. assert (entry_searchfn w' e = false) as Hf.
      { apply not_true_is_false. intros He'. by apply Hw, (Hkey e). }
      split; [done|]. unfold entry_searchfn in *. by rewrite Hg. }
    destruct (hsearch index (entry_searchfn w) w (strlen w)) as [ep|] eqn:Hep; simpl.
    + destruct (qsearch (documents ep) (doc_searchfn id)) as [dp|] eqn:Hdp; simpl;
        by rewrite hsearch_hupdate_other by (by apply Hother).
    + rewrite hsearch_hput by done.
      destruct (hsearch index (entry_searchfn w') w' (strlen w')); [done|].
      replace (entry_searchfn w' _) with false; [by rewrite andb_false_r|].
      symmetry. apply not_true_is_false. unfold entry_searchfn, streq. simpl.
      intros H%bool_decide_eq_true. apply Hw.
      rewrite cstr_idem, !cstr_id in H by done. done.
Qed.
(** C6: the indexer accepts a candidate token (and counts it in the
    posting of the current document) if and only if the token is non-empty,
    has at least three characters and is all alphabetic; it is lowercased
    before insertion.  Every other token leaves the index as it is. *)
Theorem C6_indexer_word_gate (index : index_t) (id : Z) (w : cstring) :
  wf_table index → NUL ∉ w →
  if accepts w then
    cstr (NormalizeWord w) = map tolower w ∧
    lookup_count (index_word index id w) (map tolower w) id =
      Some (match lookup_count index (map tolower w) id with
            | Some c => int_add c 1
            | None => 1
            end) ∧
    ∀ (w' : cstring) (id' : Z),
      NUL ∉ w' → (w', id') ≠ (map tolower w, id) →
      lookup_count (index_word index id w) w' id' = lookup_count index w' id'
  else
    cstr (NormalizeWord w) = [] ∧ index_word index id w = index.
Proof.
  intros Hwf Hn. destruct (accepts w) eqn:Hacc.
  - assert (NUL ∉ map tolower w) as Hn'.
    { apply NUL_notin_alpha, forallb_alpha_tolower.
      by apply andb_true_iff in Hacc as [_ ?]. }
    rewrite (index_word_accepts _ _ _ Hn Hacc), (NormalizeWord_accepts _ Hn Hacc).
    split; [by apply cstr_id|]. split.
    + by apply add_posting_count.
    + intros w' id' Hw' Hne. by apply add_posting_frame.
  - split; [|by apply index_word_rejects].
    destruct (NormalizeWord_rejects _ Hn Hacc) as [->|Hhd]; [done|].
    destruct (NormalizeWord w) as [|c w']; [done|].
    simpl in Hhd. injection Hhd as ->. done.
Qed.

Lemma C6_indexer_word_gate_witness :
  cstr (NormalizeWord (str "Hello")) = str "hello" ∧
  lookup_count (index_word (hopen hsize) 7 (str "Hello")) (str "hello") 7 = Some 1 ∧
  cstr (NormalizeWord (str "Hi")) = [] ∧
  index_word (hopen hsize) 7 (str "Hi") = hopen hsize.
Proof.
  assert (wf_table (@hopen (entry_t document_t) hsize)) as Hwf by (by apply wf_hopen).
  assert (NUL ∉ str "Hello") as H1 by (apply NUL_notin_alpha; reflexivity).
  assert (NUL ∉ str "Hi") as H2 by (apply NUL_notin_alpha; reflexivity).
  pose proof (C6_indexer_word_gate (hopen hsize) 7 (str "Hello") Hwf H1) as Ha.
  pose proof (C6_indexer_word_gate (hopen hsize) 7 (str "Hi") Hwf H2) as Hb.
  change (accepts (str "Hello")) with true in Ha.
  change (accepts (str "Hi")) with false in Hb.
  destruct Ha as (Ha1 & Ha2 & _). destruct Hb as (Hb1 & Hb2).
  repeat split; assumption.
Defined.

End IndexerTheory.

(** ** The query tokeniser and validator *)

Module TokenTheory.
Import Queue Hash Query LibcFacts.

Definition delimiters : cstring := [" "%char; "009"%char].

(** *** The token stream as the specification words it *)

(** A normalised token survives unless it is shorter than three
    characters and not exactly "or". *)
Definition survives (t : cstring) : bool :=
  (3 <=? length t)%nat || bool_decide (t = s_or).

(** An implicit "and" goes before a term that follows a term. *)
Fixpoint with_implicit_and (prev : option cstring) (ts : list cstring) : list cstring :=
  match ts with
  | [] => []
  | t :: ts' =>
      match prev with
      | Some p =>
          if negb (is_operator p) && negb (is_operator t)
          then s_and :: t :: with_implicit_and (Some t) ts'
          else t :: with_implicit_and (Some t) ts'
      | None => t :: with_implicit_and (Some t) ts'
      end
  end.

(** The raw tokens of a query: it is split on spaces and tabs. *)
Definition raw_tokens (query : cstring) : list cstring := strtok_all delimiters query.

Definition all_alphabetic (query : cstring) : bool :=
  forallb (forallb isalpha) (raw_tokens query).

Definition spec_stream (query : cstring) : list cstring :=
  with_implicit_and None (List.filter survives (map (map tolower) (raw_tokens query))).

Fixpoint no_adjacent_operators (ts : list cstring) : bool :=
  match ts with
  | t :: (t' :: _) as ts' =>
      negb (is_operator t && is_operator t') && no_adjacent_operators ts'
  | _ => true
  end.

(** The three rules of validity. *)
Definition well_formed (ts : list cstring) : bool :=
  match head ts, last ts with
  | Some first, Some final =>
      negb (is_operator first) && negb (is_operator final) && no_adjacent_operators ts
  | _, _ => false
  end.

(** *** The code against it *)

Lemma NormalizeWord_spec (w : cstring) :
  NormalizeWord w = if forallb isalpha w then Some (map tolower w) else None.
Proof.
  induction w as [|c w IH]; simpl; [done|].
  destruct (isalpha c); simpl; [|done]. rewrite IH. by destruct (forallb isalpha w).
Qed.

Lemma cstr_s_or : cstr s_or = s_or.
Proof. reflexivity. Qed.

Lemma streq_alpha (t u : cstring) :
  NUL ∉ t → NUL ∉ u → streq t u = bool_decide (t = u).
Proof. intros Ht Hu. unfold streq. by rewrite !cstr_id. Qed.

Lemma dropped_iff (t : cstring) :
  NUL ∉ t →
  (strlen t <? 3) && negb (streq t s_or) = negb (survives t).
Proof.
  intros Ht. unfold survives, strlen, streq. rewrite cstr_id by done.
  rewrite cstr_s_or. rewrite negb_orb. f_equal.
  destruct (Nat.leb_spec 3 (length t)); simpl.
  - apply Z.ltb_ge. lia.
  - apply Z.ltb_lt. lia.
Qed.

Lemma tokenize_loop_spec (tokens acc : list cstring) (prev : option cstring) :
  tokenize_loop tokens acc prev =
  if forallb (forallb isalpha) tokens
  then Some (acc ++ with_implicit_and prev (List.filter survives (map (map tolower) tokens)))
  else None.
Proof.
  revert acc prev. induction tokens as [|t tokens IH]; intros acc prev; simpl.
  - by rewrite app_nil_r.
  - rewrite NormalizeWord_spec. destruct (forallb isalpha t) eqn:Ht; simpl; [|done].
    assert (NUL ∉ map tolower t) as Hn
      by (by apply NUL_notin_alpha, forallb_alpha_tolower).
    rewrite (dropped_iff _ Hn). destruct (survives (map tolower t)) eqn:Hs; simpl.
    + rewrite IH. destruct (forallb _ tokens); [|done]. f_equal.
      destruct prev as [p|]; simpl.
      * destruct (negb (is_operator p) && negb (is_operator (map tolower t)));
          by rewrite <- !app_assoc.
      * by rewrite <- app_assoc.
    + apply IH.
Qed.

(** [tokenize_query] computes the stream of the specification; NULL
    stands for the empty stream and for a query with a non-alphabetic
    token. *)
Lemma tokenize_query_spec (query : cstring) :
  tokenize_query query =
  if all_alphabetic query then
    match spec_stream query with
    | [] => None
    | ts => Some ts
    end
  else None.
Proof.
  unfold tokenize_query, all_alphabetic, spec_stream, raw_tokens, delimiters.
  rewrite tokenize_loop_spec. destruct (forallb _ _); [|done]. simpl.
  by destruct (with_implicit_and _ _).
Qed.

Lemma validate_loop_cons (t t' : cstring) (ts : list cstring) :
  validate_loop (t :: t' :: ts) =
  if streq t s_and then
    (if is_operator t' then false else validate_loop (t' :: ts))
  else if streq t s_or then
    (if is_operator t' then false else validate_loop (t' :: ts))
  else validate_loop (t' :: ts).
Proof. reflexivity. Qed.

Lemma no_adjacent_operators_cons (t t' : cstring) (ts : list cstring) :
  no_adjacent_operators (t :: t' :: ts) =
  negb (is_operator t && is_operator t') && no_adjacent_operators (t' :: ts).
Proof. reflexivity. Qed.

Lemma validate_loop_spec (ts : list cstring) :
  validate_loop ts = no_adjacent_operators ts.
Proof.
  induction ts as [|t ts IH]; [done|].
  destruct ts as [|t' ts]; [done|].
  rewrite validate_loop_cons, no_adjacent_operators_cons, IH.
  unfold is_operator at 3.
  destruct (streq t s_and); simpl; [by destruct (is_operator t')|].
  destruct (streq t s_or); simpl; by destruct (is_operator t').
Qed.

Lemma validate_query_spec (ts : list cstring) :
  validate_query ts = well_formed ts.
Proof.
  unfold validate_query, well_formed.
  destruct (head ts) as [f|]; [|done]. destruct (last ts) as [l|]; [|done].
  rewrite validate_loop_spec.
  by destruct (is_operator f), (is_operator l).
Qed.

(** [main] evaluates exactly the queries that are alphabetic and whose
    stream is well formed. *)
Lemma accepted_spec (query : cstring) :
  accepted query = all_alphabetic query && well_formed (spec_stream query).
Proof.
  unfold accepted. rewrite tokenize_query_spec.
  destruct (all_alphabetic query); simpl; [|done].
  destruct (spec_stream query) as [|t ts] eqn:Hs; [done|].
  apply validate_query_spec.
Qed.

(** *** Queries built from words *)

Definition is_delimiter (c : ascii) : bool := bool_decide (c ∈ delimiters).

Lemma alpha_not_delimiter (w : cstring) :
  forallb isalpha w = true → forallb (λ c, negb (is_delimiter c)) w = true.
Proof.
  induction w as [|c w IH]; simpl; [done|].
  intros [Hc Hw]%andb_true_iff. rewrite IH by done. rewrite andb_true_r.
  destruct c as [[] [] [] [] [] [] [] []]; try discriminate Hc; reflexivity.
Qed.

Lemma fields_word (w rest : cstring) (d : ascii) :
  forallb (λ c, negb (is_delimiter c)) w = true → is_delimiter d = true →
  fields is_delimiter (w ++ d :: rest) = w :: fields is_delimiter rest.
Proof.
  intros Hw Hd. induction w as [|c w IH]; simpl.
  - by rewrite Hd.
  - simpl in Hw. apply andb_true_iff in Hw as [Hc Hw].
    apply negb_true_iff in Hc. rewrite Hc, IH by done. done.
Qed.

Lemma fields_last_word (w : cstring) :
  forallb (λ c, negb (is_delimiter c)) w = true →
  fields is_delimiter w = [w].
Proof.
  intros Hw. induction w as [|c w IH]; simpl; [done|].
  simpl in Hw. apply andb_true_iff in Hw as [Hc Hw].
  apply negb_true_iff in Hc. rewrite Hc, IH by done. done.
Qed.

Definition space : ascii := " "%char.

(** The raw tokens of words joined by single spaces. *)
Fixpoint join (ws : list cstring) : cstring :=
  match ws with
  | [] => []
  | [w] => w
  | w :: ws' => w ++ space :: join ws'
  end.

Lemma NUL_notin_join (ws : list cstring) :
  Forall (λ w, forallb isalpha w = true) ws → NUL ∉ join ws.
Proof.
  induction 1 as [|w ws Hw Hws IH]; simpl; [set_solver|].
  destruct ws as [|w' ws]; [by apply NUL_notin_alpha|].
  apply NUL_notin_alpha in Hw.
  rewrite elem_of_app, elem_of_cons. intros [?|[?|?]]; [done|discriminate|done].
Qed.

Lemma raw_tokens_join (ws : list cstring) :
  Forall (λ w, forallb isalpha w = true) ws →
  raw_tokens (join ws) = List.filter nonempty ws.
Proof.
  intros Hws. unfold raw_tokens, strtok_all.
  rewrite (cstr_id _ (NUL_notin_join _ Hws)).
  fold is_delimiter.
  induction Hws as [|w ws Hw Hws IH]; [done|].
  destruct ws as [|w' ws].
  - simpl join. rewrite fields_last_word by (by apply alpha_not_delimiter). done.
  - change (join (w :: w' :: ws)) with (w ++ space :: join (w' :: ws)).
    rewrite fields_word; [|by apply alpha_not_delimiter|done].
    cbn [List.filter]. by rewrite IH.
Qed.

Lemma all_alphabetic_join (ws : list cstring) :
  Forall (λ w, forallb isalpha w = true) ws → all_alphabetic (join ws) = true.
Proof.
  intros Hws. unfold all_alphabetic. rewrite raw_tokens_join by done.
  induction Hws as [|w ws Hw Hws IH]; simpl; [done|].
  destruct (nonempty w); simpl; by rewrite ?Hw, ?IH.
Qed.

Lemma tokenize_query_join (ws : list cstring) :
  Forall (λ w, forallb isalpha w = true) ws →
  tokenize_query (join ws) =
  match with_implicit_and None
          (List.filter survives (map (map tolower) (List.filter nonempty ws))) with
  | [] => None
  | ts => Some ts
  end.
Proof.
  intros Hws. rewrite tokenize_query_spec, all_alphabetic_join by done.
  unfold spec_stream. by rewrite raw_tokens_join.
Qed.

(** A term: an alphabetic word of at least three characters that is not
    an operator. *)
Definition is_term (t : cstring) : Prop :=
  forallb isalpha t = true ∧ (3 ≤ length t)%nat ∧ is_operator (map tolower t) = false.

Lemma term_survives (t : cstring) :
  is_term t → nonempty t = true ∧ survives (map tolower t) = true.
Proof.
  intros (_ & Hlen & _). split.
  - destruct t; [simpl in Hlen; lia|done].
  - unfold survives. rewrite length_map.
    apply orb_true_iff. left. by apply Nat.leb_le.
Qed.

(** C4: on a query whose tokens are all alphabetic, [tokenize_query]
    drops the tokens shorter than three characters other than "or" and
    puts an implicit "and" between adjacent surviving terms (NULL standing
    for the empty stream).  So for terms foo and bar, "foo bar" and
    "foo and bar" give the same stream, and so do "foo a bar" and
    "foo bar" for a short token a. *)
Theorem C4_tokenize_query_stream :
  (∀ query : cstring, all_alphabetic query = true →
     tokenize_query query =
     match spec_stream query with
     | [] => None
     | ts => Some ts
     end) ∧
  (∀ foo bar : cstring, is_term foo → is_term bar →
     tokenize_query (join [foo; bar]) = Some [map tolower foo; s_and; map tolower bar] ∧
     tokenize_query (join [foo; s_and; bar]) = tokenize_query (join [foo; bar]) ∧
     ∀ a : cstring,
       forallb isalpha a = true → (length a < 3)%nat → map tolower a ≠ s_or →
       tokenize_query (join [foo; a; bar]) = tokenize_query (join [foo; bar])).
Proof.
  split.
  - intros query Hq. by rewrite tokenize_query_spec, Hq.
  - intros foo bar Hfoo Hbar.
    destruct (term_survives _ Hfoo) as [Hf1 Hf2].
    destruct (term_survives _ Hbar) as [Hb1 Hb2].
    pose proof Hfoo as (Hfa & _ & Hfo). pose proof Hbar as (Hba & _ & Hbo).
    assert (tokenize_query (join [foo; bar])
            = Some [map tolower foo; s_and; map tolower bar]) as Hfb.
    { rewrite tokenize_query_join by (by repeat constructor).
      cbn [List.filter map]. rewrite Hf1, Hb1. cbn [List.filter map].
      rewrite Hf2, Hb2. cbn [with_implicit_and]. by rewrite Hfo, Hbo. }
    split; [done|]. split.
    + rewrite Hfb. rewrite tokenize_query_join by (by repeat constructor).
      cbn [List.filter map]. rewrite Hf1, Hb1.
      change (nonempty s_and) with true. cbn [List.filter map].
      change (map tolower s_and) with s_and.
      change (survives s_and) with true. rewrite Hf2, Hb2.
      cbn [with_implicit_and]. change (is_operator s_and) with true.
      by rewrite Hfo, !andb_false_r.
    + intros a Ha Hlen Hor. rewrite Hfb.
      rewrite tokenize_query_join by (by repeat constructor).
      assert (survives (map tolower a) = false) as Hsa.
      { unfold survives. rewrite length_map. apply orb_false_iff. split.
        - apply Nat.leb_gt. lia.
        - by apply bool_decide_eq_false_2. }
      cbn [List.filter map]. rewrite Hf1, Hb1.
      destruct (nonempty a); cbn [List.filter map];
        rewrite ?Hsa, Hf2, Hb2; cbn [with_implicit_and]; by rewrite Hfo, Hbo.
Qed.

Lemma C4_tokenize_query_stream_witness :
  tokenize_query (str "cat dog") = Some [str "cat"; str "and"; str "dog"] ∧
  tokenize_query (str "cat and dog") = tokenize_query (str "cat dog") ∧
  tokenize_query (str "cat a dog") = tokenize_query (str "cat dog").
Proof.
  destruct C4_tokenize_query_stream as [_ H].
  assert (is_term (str "cat")) as Hc by (repeat split; vm_compute; lia).
  assert (is_term (str "dog")) as Hd by (repeat split; vm_compute; lia).
  destruct (H (str "cat") (str "dog") Hc Hd) as (H1 & H2 & H3).
  split; [exact H1|]. split; [exact H2|].
  apply (H3 (str "a")); [reflexivity | simpl; lia | discriminate].
Defined.

(** What [main] does with the stream of an accepted query: evaluate,
    fetch the metadata, sort and print. *)
Definition answer (pagedir : PageIO.directory) (index : index_t)
           (ts : list cstring) : M (cstring * index_t) :=
  let! '(ranked_docs, index) := evaluate ts index in
  let! '(ranked_docs, messages) := get_metadata ranked_docs pagedir in
  let! ranked_docs := sort_queue ranked_docs in
  let! out := print_docs ranked_docs in
  ret (messages ++ out, index).



End TokenTheory.

(** ** The indexer's directory scan *)

Module ScanTheory.
Import Queue Hash Webpage PageIO IndexIO Indexer LibcFacts.

Section Scan.
Variable webpage_getWords : webpage_t → list cstring.



End Scan.

Definition no_words (page : webpage_t) : list cstring := [].



(** The loop does not reach an entry behind a page file on which
    [pageload] is undefined: here the file -1 records the length -7. *)
Definition torn_dir : directory :=
  Dir true {[ str "-1" := str "http://a/" ++ [newline] ++ str "0" ++ [newline] ++
                          str "-7" ++ [newline] ++ str "<html>";
              str "notes" := str "not_a_page" ]}.

Example torn_page_is_undefined :
  pageload (-1) torn_dir = PageUndefined ∧
  pageload (atoi (str "notes")) torn_dir = PageNull [] ∧
  main no_words torn_dir true = None.
Proof. repeat split; vm_compute; reflexivity. Qed.






End ScanTheory.

(** ** The crawl: the steps of the workers *)

Module CrawlTheory.
Import Queue Hash Webpage PageIO Crawler.

(** The workers that hold [crawl_mutex] in the inner loop. *)
Definition in_section (th : thread) : bool :=
  match th with
  | Queued _ _ _ _ | Counted _ _ _ _ => true
  | _ => false
  end.

(** The mutex is locked while a worker is in the section, and one
    worker at most is. *)
Record mutex_ok (m : bool) (ths : list thread) : Prop := MutexOk {
  mutex_free : m = false → ∀ t th, ths !! t = Some th → in_section th = false;
  mutex_one : ∀ t t' th th', ths !! t = Some th → ths !! t' = Some th' →
                in_section th = true → in_section th' = true → t = t'
}.

Definition mutex_inv (s : state) : Prop := mutex_ok (crawl_mutex s) (threads s).

Lemma lookup_insert_cases {A} (l : list A) (t i : nat) (x y : A) :
  <[t := x]> l !! i = Some y → (i = t ∧ y = x) ∨ (i ≠ t ∧ l !! i = Some y).
Proof.
  intros [(-> & -> & _)|[Hne Hi]]%list_lookup_insert_Some; [by left|right].
  split; [by intros ->|done].
Qed.

Lemma mutex_ok_held (m : bool) (ths : list thread) (t : nat) (th : thread) :
  mutex_ok m ths → ths !! t = Some th → in_section th = true → m = true.
Proof.
  intros [Hfree _] Ht Hin. destruct m; [done|].
  rewrite (Hfree eq_refl t th Ht) in Hin. done.
Qed.

Lemma mutex_ok_same (m : bool) (ths : list thread) (t : nat) (th th' : thread) :
  mutex_ok m ths → ths !! t = Some th → in_section th' = in_section th →
  mutex_ok m (<[t := th']> ths).
Proof.
  intros [Hfree Hone] Ht Hsame. split.
  - intros Hm i x [[-> ->]|[Hne Hi]]%lookup_insert_cases.
    + rewrite Hsame. by eapply Hfree.
    + by eapply Hfree.
  - intros i j x y [[-> ->]|[Hi Hx]]%lookup_insert_cases
             [[-> ->]|[Hj Hy]]%lookup_insert_cases Hinx Hiny; try done.
    + rewrite Hsame in Hinx. by apply (Hone t j th y).
    + rewrite Hsame in Hiny. by apply (Hone i t x th).
    + by apply (Hone i j x y).
Qed.

Lemma mutex_ok_enter (ths : list thread) (t : nat) (th' : thread) :
  mutex_ok false ths → mutex_ok true (<[t := th']> ths).
Proof.
  intros [Hfree _]. split; [done|].
  intros i j x y [[-> ->]|[Hi Hx]]%lookup_insert_cases
           [[-> ->]|[Hj Hy]]%lookup_insert_cases Hinx Hiny; try done.
  - by rewrite (Hfree eq_refl j y Hy) in Hiny.
  - by rewrite (Hfree eq_refl i x Hx) in Hinx.
  - by rewrite (Hfree eq_refl i x Hx) in Hinx.
Qed.

Lemma mutex_ok_leave (m : bool) (ths : list thread) (t : nat) (th th' : thread) :
  mutex_ok m ths → ths !! t = Some th → in_section th = true →
  in_section th' = false → mutex_ok false (<[t := th']> ths).
Proof.
  intros [_ Hone] Ht Hin Hout.
  assert (∀ i x, <[t := th']> ths !! i = Some x → in_section x = false) as Hnone.
  { intros i x [[-> ->]|[Hne Hi]]%lookup_insert_cases; [done|].
    destruct (in_section x) eqn:Hx; [|done]. by destruct (Hne (Hone i t x th Hi Ht Hx Hin)). }
  split; [intros _; exact Hnone|].
  intros i j x y Hi Hj Hx. by rewrite (Hnone i x Hi) in Hx.
Qed.

(** The cases of a step, with the names of what each gives. *)
Ltac move_cases H :=
  destruct H as
    [ curr qp' Hth Hqp | Hth Hqp | Hth | Hth | retrieved Hth | added Hth
    | curr url urls Hth Hdepth Hwhy
    | curr url urls html Hth Hdepth Hinternal Hfree Hnew Hnet
    | curr urls Hth Hwhy Hfree
    | curr url urls page Hth | curr url urls page Hth | Hth ].

Section Crawl.
Variable webpage_getURLs : webpage_t → list cstring.
Variable IsInternalURL : cstring → bool.
Variable max_depth : Z.

Abbreviation step := (step webpage_getURLs IsInternalURL max_depth).
Abbreviation run := (run webpage_getURLs IsInternalURL max_depth).

(** The steps, one by one.  A step of a worker that waits for the
    mutex, or that has returned, changes nothing. *)
Inductive move (s : state) (a : action) : state → Prop :=
| move_get curr qp' :
    threads s !! who a = Some AtLoopHead → qp s = curr :: qp' →
    move s a {| qp := qp'; hp := hp s; dirname := dirname s; id := id s;
                pages_added := pages_added s;
                pages_retrieved := pages_retrieved s;
                crawl_mutex := crawl_mutex s;
                threads := <[who a := Scanning curr (webpage_getURLs curr)]>
                             (threads s);
                exited := exited s; saved := saved s |}
| move_empty :
    threads s !! who a = Some AtLoopHead → qp s = [] →
    move s a (set_thread s (who a) Testing)
| move_read_retrieved :
    threads s !! who a = Some Testing →
    move s a (set_thread s (who a) (ReadRetrieved (pages_retrieved s)))
| move_read_added :
    threads s !! who a = Some Testing →
    move s a (set_thread s (who a) (ReadAdded (pages_added s)))
| move_test_added retrieved :
    threads s !! who a = Some (ReadRetrieved retrieved) →
    move s a (set_thread s (who a)
                (if retrieved <? pages_added s then AtLoopHead else Returned))
| move_test_retrieved added :
    threads s !! who a = Some (ReadAdded added) →
    move s a (set_thread s (who a)
                (if pages_retrieved s <? added then AtLoopHead else Returned))
| move_skip curr url urls :
    threads s !! who a = Some (Scanning curr (url :: urls)) →
    depth curr < max_depth →
    IsInternalURL url = false ∨
    (crawl_mutex s = false ∧
     (is_Some (hsearch (hp s) (searchfn url) url (strlen url)) ∨
      network a = None)) →
    move s a (set_thread s (who a) (Scanning curr urls))
| move_put curr url urls html :
    threads s !! who a = Some (Scanning curr (url :: urls)) →
    depth curr < max_depth → IsInternalURL url = true →
    crawl_mutex s = false →
    hsearch (hp s) (searchfn url) url (strlen url) = None →
    network a = Some html →
    move s a {| qp := qput (qp s) (webpage_new url (depth curr + 1) html);
                hp := hp s; dirname := dirname s; id := id s;
                pages_added := pages_added s;
                pages_retrieved := pages_retrieved s;
                crawl_mutex := true;
                threads := <[who a := Queued curr url urls
                                        (webpage_new url (depth curr + 1) html)]>
                             (threads s);
                exited := exited s; saved := saved s |}
| move_retire curr urls :
    threads s !! who a = Some (Scanning curr urls) →
    urls = [] ∨ max_depth <= depth curr →
    crawl_mutex s = false →
    move s a {| qp := qp s; hp := hp s; dirname := dirname s; id := id s;
                pages_added := pages_added s;
                pages_retrieved := int_add (pages_retrieved s) 1;
                crawl_mutex := false;
                threads := <[who a := AtLoopHead]> (threads s);
                exited := exited s; saved := saved s |}
| move_count curr url urls page :
    threads s !! who a = Some (Queued curr url urls page) →
    move s a (count s (who a) curr url urls page)
| move_save curr url urls page :
    threads s !! who a = Some (Counted curr url urls page) →
    move s a (save s (who a) curr url urls page)
| move_exit :
    threads s !! who a = Some Exiting →
    move s a (exit s).

Lemma step_cases (s : state) (a : action) :
  step s a = s ∨ (exited s = false ∧ move s a (step s a)).
Proof.
  unfold Crawler.step. cbv zeta. destruct (exited s); [by left|].
  destruct (threads s !! who a) as [th|] eqn:Hth; [|by left].
  destruct th as [| |r|r|curr urls|curr url urls page|curr url urls page| |];
    try (by left).
  - right. split; [done|].
    unfold loop_head, qget. destruct (qp s) as [|curr qp'] eqn:Hqp.
    + by apply move_empty.
    + by apply move_get.
  - right. split; [done|]. unfold read_first. destruct (retrieved_first a).
    + by apply move_read_retrieved.
    + by apply move_read_added.
  - right. split; [done|]. by apply move_test_added.
  - right. split; [done|]. by apply move_test_retrieved.
  - unfold scan, retire. destruct urls as [|url urls].
    { destruct (crawl_mutex s) eqn:Hm; [by left|right]. split; [done|].
      apply (move_retire s a curr []); auto. }
    destruct (depth curr <? max_depth) eqn:Hd.
    2:{ apply Z.ltb_ge in Hd.
        destruct (crawl_mutex s) eqn:Hm; [by left|right]. split; [done|].
        apply (move_retire s a curr (url :: urls)); auto. }
    apply Z.ltb_lt in Hd.
    destruct (IsInternalURL url) eqn:Hint.
    2:{ right. split; [done|]. apply (move_skip s a curr url urls); auto. }
    destruct (crawl_mutex s) eqn:Hm; [by left|right]. split; [done|].
    destruct (hsearch (hp s) (searchfn url) url (strlen url)) as [e|] eqn:Hs.
    { apply (move_skip s a curr url urls); [done|done|].
      right. split; [done|]. left. by eexists. }
    destruct (network a) as [html|] eqn:Hnet.
    + by apply (move_put s a curr url urls html).
    + apply (move_skip s a curr url urls); [done|done|].
      right. split; [done|]. by right.
  - right. split; [done|]. by apply move_count.
  - right. split; [done|]. by apply move_save.
  - right. split; [done|]. by apply move_exit.
Qed.

Lemma run_snoc (s : state) (schedule : list action) (a : action) :
  run s (schedule ++ [a]) = step (run s schedule) a.
Proof. unfold Crawler.run. by rewrite foldl_app. Qed.

(** What every step keeps, every run keeps. *)
Lemma run_invariant (I : state → Prop) (s0 : state) (schedule : list action) :
  (∀ s a, I s → exited s = false → move s a (step s a) → I (step s a)) →
  I s0 → I (run s0 schedule).
Proof.
  intros Hstep H0. induction schedule as [|a schedule IH] using rev_ind; [done|].
  rewrite run_snoc. destruct (step_cases (run s0 schedule) a) as [->|[Hex Hmove]]; [done|].
  by apply Hstep.
Qed.

Lemma move_mutex (s s' : state) (a : action) :
  mutex_inv s → move s a s' → mutex_inv s'.
Proof.
  unfold mutex_inv. intros Hm Hmove.
  move_cases Hmove; unfold set_thread, count, save, exit;
    try destruct (pagesave _ _ _) as [status dir'];
    cbn [crawl_mutex threads];
    try (by eapply mutex_ok_same).
  - eapply mutex_ok_same; [done|done|]. by destruct (_ <? _).
  - eapply mutex_ok_same; [done|done|]. by destruct (_ <? _).
  - rewrite Hfree in Hm. by apply mutex_ok_enter.
  - rewrite Hfree in Hm. by eapply mutex_ok_same.
  - eapply mutex_ok_leave; [done|done|done|]. by destruct (status =? 0).
  - done.
Qed.

Lemma main_mutex (seed_url : cstring) (dir : directory) (fetched : option cstring)
      (s : state) :
  main max_depth seed_url dir fetched = Some s → mutex_inv s.
Proof.
  unfold main. destruct (max_depth <? 0); [done|].
  destruct fetched as [html|]; [|done].
  destruct (pagesave _ _ _) as [status dir']. intros [= <-].
  unfold mutex_inv. cbn [crawl_mutex threads].
  assert (∀ t th, replicate num_threads AtLoopHead !! t = Some th →
            in_section th = false) as Hnone.
  { intros t th [-> _]%lookup_replicate. done. }
  split; [intros _; exact Hnone|].
  intros t t' th th' Ht _ Hin. by rewrite (Hnone t th Ht) in Hin.
Qed.

(** *** The depth of the pages *)

Definition bounded (p : webpage_t) : Prop := 0 <= depth p <= max_depth.

Definition thread_bounded (th : thread) : Prop :=
  match th with
  | Scanning curr _ => bounded curr
  | Queued curr _ _ page | Counted curr _ _ page => bounded curr ∧ bounded page
  | _ => True
  end.

(** A file of the page directory was there before the crawl, or is the
    file of a page within the depth bound. *)
Definition dir_bounded (dir0 dir : directory) : Prop :=
  ∀ name content, files dir !! name = Some content →
    files dir0 !! name = Some content ∨ ∃ p, content = page_file p ∧ bounded p.

(** Every page the crawl holds or has saved is within the depth bound. *)
Record crawl_inv (dir0 : directory) (s : state) : Prop := CrawlInv {
  inv_qp : Forall bounded (qp s);
  inv_threads : Forall thread_bounded (threads s);
  inv_saved : Forall (λ x, bounded x.2) (saved s);
  inv_dir : dir_bounded dir0 (dirname s)
}.

Lemma pagesave_bounded (dir0 dir : directory) (p : webpage_t) (i : Z) :
  dir_bounded dir0 dir → bounded p →
  dir_bounded dir0 (pagesave (Some p) i dir).2.
Proof.
  intros Hdir Hp. unfold pagesave. destruct (writable dir); [|done].
  intros name content Hfile. cbn [snd files] in Hfile.
  apply lookup_insert_Some in Hfile as [[_ <-]|[_ Hfile]]; [|by apply Hdir].
  right. by exists p.
Qed.

Lemma main_inv (seed_url : cstring) (dir : directory) (fetched : option cstring)
      (s : state) :
  main max_depth seed_url dir fetched = Some s → crawl_inv dir s.
Proof.
  unfold main. destruct (max_depth <? 0) eqn:Hd; [done|].
  apply Z.ltb_ge in Hd. destruct fetched as [html|]; [|done].
  assert (bounded (webpage_new seed_url 0 html)) as Hseed
    by (unfold bounded; cbn [webpage_new depth]; lia).
  pose proof (pagesave_bounded dir dir (webpage_new seed_url 0 html) 1) as Hsave.
  destruct (pagesave _ _ _) as [status dir']. intros [= <-].
  split; cbn [qp threads saved dirname].
  - by repeat constructor.
  - by repeat constructor.
  - destruct (status =? 0); by repeat constructor.
  - apply Hsave; [|done]. intros name content Hfile. by left.
Qed.

Lemma move_inv (dir0 : directory) (s s' : state) (a : action) :
  crawl_inv dir0 s → move s a s' → crawl_inv dir0 s'.
Proof.
  intros [Hq Ht Hs Hdir] Hmove.
  move_cases Hmove; pose proof (Forall_lookup_1 _ _ _ _ Ht Hth) as Hcurr;
    cbn [thread_bounded] in Hcurr.
  - rewrite Hqp in Hq. apply Forall_cons in Hq as [Hc Hq].
    split; cbn [qp threads saved dirname]; try done. by apply Forall_insert.
  - split; cbn [set_thread qp threads saved dirname]; try done.
    by apply Forall_insert.
  - split; cbn [set_thread qp threads saved dirname]; try done.
    by apply Forall_insert.
  - split; cbn [set_thread qp threads saved dirname]; try done.
    by apply Forall_insert.
  - split; cbn [set_thread qp threads saved dirname]; try done.
    apply Forall_insert; [done|]. by destruct (_ <? _).
  - split; cbn [set_thread qp threads saved dirname]; try done.
    apply Forall_insert; [done|]. by destruct (_ <? _).
  - split; cbn [set_thread qp threads saved dirname]; try done.
    by apply Forall_insert.
  - assert (bounded (webpage_new url (depth curr + 1) html)) as Hpage.
    { unfold bounded in *. cbn [webpage_new depth]. lia. }
    split; cbn [qp threads saved dirname]; try done.
    + unfold qput. apply Forall_app. split; [done|]. by apply Forall_singleton.
    + by apply Forall_insert.
  - split; cbn [qp threads saved dirname]; try done. by apply Forall_insert.
  - split; cbn [count qp threads saved dirname]; try done. by apply Forall_insert.
  - destruct Hcurr as [Hc Hp].
    pose proof (pagesave_bounded dir0 (dirname s) page (id s) Hdir Hp) as Hsave.
    unfold save. destruct (pagesave _ _ _) as [status dir'].
    split; cbn [qp threads saved dirname]; try done.
    + apply Forall_insert; [done|]. by destruct (status =? 0).
    + destruct (status =? 0); [|done]. by apply Forall_cons.
  - by split.
Qed.

Lemma run_inv (dir0 : directory) (s : state) (schedule : list action) :
  crawl_inv dir0 s → crawl_inv dir0 (run s schedule).
Proof.
  apply (run_invariant (crawl_inv dir0)). intros s' a Hinv _ Hmove.
  by eapply move_inv.
Qed.

(** With [max_depth = 0] no worker enters the section: nothing is
    saved after the seed. *)
Record idle (s0 s : state) : Prop := Idle {
  idle_threads : Forall (λ th, in_section th = false) (threads s);
  idle_saved : saved s = saved s0;
  idle_dir : dirname s = dirname s0
}.

Lemma move_idle (dir0 : directory) (s0 s s' : state) (a : action) :
  max_depth = 0 → crawl_inv dir0 s → idle s0 s → move s a s' → idle s0 s'.
Proof.
  intros H0 [_ Ht _ _] [Hout Hsaved Hdirname] Hmove.
  move_cases Hmove; pose proof (Forall_lookup_1 _ _ _ _ Ht Hth) as Hcurr;
    pose proof (Forall_lookup_1 _ _ _ _ Hout Hth) as Hin;
    cbn [thread_bounded in_section] in Hcurr, Hin; try done;
    try (split; cbn [set_thread threads saved dirname]; try done;
         apply Forall_insert; [done|]; try destruct (_ <? _); done).
  unfold bounded in Hcurr. lia.
Qed.

Lemma run_idle (dir0 : directory) (s0 : state) (schedule : list action) :
  max_depth = 0 → crawl_inv dir0 s0 →
  Forall (λ th, in_section th = false) (threads s0) →
  idle s0 (run s0 schedule).
Proof.
  intros H0 Hinv Hout.
  assert (crawl_inv dir0 (run s0 schedule) ∧ idle s0 (run s0 schedule)) as [_ H];
    [|done].
  apply (run_invariant (λ s, crawl_inv dir0 s ∧ idle s0 s)); [|by split].
  intros s a [Hc Hi] _ Hmove. split; [by eapply move_inv|by eapply move_idle].
Qed.

End Crawl.

Definition two_links (p : webpage_t) : list cstring := [str "http://a/b"; str "http://x/"].
Definition internal (u : cstring) : bool := bool_decide (u = str "http://a/b").

(** A step of worker [t], with a page for the fetch, if there is one. *)
Definition go (t : nat) : action := Action t (Some (str "<p>")) true.

(** A run that saves a second page: worker 0 takes the seed and follows
    its first link. *)
Example crawl_saves_linked_page :
  match main 1 (str "http://a/") (Dir true ∅) (Some (str "<html>")) with
  | Some s0 =>
      map (λ x, (x.1, url x.2, depth x.2))
          (saved (run two_links internal 1 s0 [go 0; go 0; go 0; go 0]))
      = [(2, str "http://a/b", 1); (1, str "http://a/", 0)]
  | None => False
  end.
Proof. vm_compute. reflexivity. Qed.

End CrawlTheory.

(** ** Result lists as lists of (doc id, score) *)

Module Scores.

Abbreviation scores := (list (Z * Z)).

(** The score of the first entry for [id]. *)
Fixpoint score (id : Z) (A : scores) : option Z :=
  match A with
  | [] => None
  | (i, s) :: A' => if i =? id then Some s else score id A'
  end.

(** [f] applied to the score of the first entry for [id]. *)
Fixpoint bump (id : Z) (f : Z → Z) (A : scores) : scores :=
  match A with
  | [] => []
  | (i, s) :: A' => if i =? id then (i, f s) :: A' else (i, s) :: bump id f A'
  end.

(** One round of the loop of [get_union] on a list of scores. *)
Definition union_step (A : scores) (b : Z * Z) : scores :=
  match score b.1 A with
  | Some _ => bump b.1 (λ rank, int_add rank b.2) A
  | None => A ++ [b]
  end.

Definition union_scores (A B : scores) : scores := foldl union_step A B.

(** The loop of [get_intersection] on a list of scores. *)
Fixpoint inter_scores (A B : scores) : scores :=
  match A with
  | [] => []
  | (i, rank) :: A' =>
      match score i B with
      | Some word_count =>
          (i, if word_count <? rank then word_count else rank) :: inter_scores A' B
      | None => inter_scores A' B
      end
  end.

Lemma score_Some_elem id s (A : scores) : score id A = Some s → (id, s) ∈ A.
Proof.
  induction A as [|[i a] A IH]; simpl; [done|].
  destruct (Z.eqb_spec i id) as [->|Hne].
  - intros [= ->]. apply elem_of_cons. by left.
  - intros H. apply elem_of_cons. right. by apply IH.
Qed.

Lemma score_None id (A : scores) : score id A = None ↔ id ∉ A.*1.
Proof.
  induction A as [|[i a] A IH]; simpl.
  - split; [intros _; apply not_elem_of_nil|done].
  - rewrite not_elem_of_cons. destruct (Z.eqb_spec i id) as [->|Hne].
    + split; [done|]. by intros [? _].
    + rewrite IH. split; [by split|by intros [_ ?]].
Qed.

Lemma elem_score id s (A : scores) : NoDup A.*1 → (id, s) ∈ A → score id A = Some s.
Proof.
  induction A as [|[i a] A IH]; simpl; intros Hnd Hin.
  - by apply not_elem_of_nil in Hin.
  - apply NoDup_cons in Hnd as [Hi Hnd]. apply elem_of_cons in Hin as [[= <- <-]|Hin].
    + by rewrite Z.eqb_refl.
    + destruct (Z.eqb_spec i id) as [->|Hne]; [|by apply IH].
      exfalso. apply Hi. apply list_elem_of_fmap. by exists (id, s).
Qed.

Lemma elem_score_iff id s (A : scores) :
  NoDup A.*1 → (id, s) ∈ A ↔ score id A = Some s.
Proof. intros Hnd. split; [by apply elem_score|apply score_Some_elem]. Qed.

Lemma bump_ids id f (A : scores) : (bump id f A).*1 = A.*1.
Proof.
  induction A as [|[i a] A IH]; simpl; [done|].
  destruct (i =? id); csimpl; by rewrite ?IH.
Qed.

Lemma score_bump id f (A : scores) j :
  score j (bump id f A) = if j =? id then f <$> score id A else score j A.
Proof.
  induction A as [|[i a] A IH]; simpl.
  - by destruct (j =? id).
  - destruct (Z.eqb_spec i id) as [->|Hne]; simpl.
    + destruct (Z.eqb_spec id j) as [->|Hne']; [by rewrite Z.eqb_refl|].
      destruct (Z.eqb_spec j id); [congruence|done].
    + destruct (Z.eqb_spec i j) as [->|Hne'].
      * destruct (Z.eqb_spec j id); [congruence|done].
      * apply IH.
Qed.

Lemma score_app id (A B : scores) :
  score id (A ++ B) = match score id A with Some s => Some s | None => score id B end.
Proof.
  induction A as [|[i a] A IH]; simpl; [done|]. by destruct (i =? id).
Qed.

Lemma union_step_ids (A : scores) (b : Z * Z) :
  NoDup A.*1 → NoDup (union_step A b).*1.
Proof.
  intros Hnd. unfold union_step. destruct (score b.1 A) eqn:Hs.
  - by rewrite bump_ids.
  - rewrite fmap_app. apply NoDup_app. split; [done|]. split.
    + intros x Hx [->|[]%elem_of_nil]%elem_of_cons. by apply score_None in Hs.
    + apply NoDup_singleton.
Qed.

Lemma score_union_step (A : scores) (b : Z * Z) j :
  score j (union_step A b) =
  if j =? b.1 then
    Some (match score j A with Some a => int_add a b.2 | None => b.2 end)
  else score j A.
Proof.
  unfold union_step. destruct b as [i s]; simpl.
  destruct (score i A) as [a|] eqn:Hs.
  - rewrite score_bump. destruct (Z.eqb_spec j i) as [->|]; [|done]. by rewrite Hs.
  - rewrite score_app. simpl. destruct (Z.eqb_spec j i) as [->|Hne].
    + by rewrite Hs, Z.eqb_refl.
    + destruct (score j A); [done|]. destruct (Z.eqb_spec i j); [congruence|done].
Qed.

Lemma union_scores_ids (A B : scores) : NoDup A.*1 → NoDup (union_scores A B).*1.
Proof.
  unfold union_scores. revert A. induction B as [|b B IH]; intros A Hnd; [done|].
  simpl. by apply IH, union_step_ids.
Qed.

(** The score of a document in the union. *)
Lemma score_union (A B : scores) j :
  NoDup B.*1 →
  score j (union_scores A B) =
  match score j A, score j B with
  | Some a, Some b => Some (int_add a b)
  | Some a, None => Some a
  | None, Some b => Some b
  | None, None => None
  end.
Proof.
  unfold union_scores. revert A. induction B as [|[i s] B IH]; intros A Hnd; simpl.
  - by destruct (score j A).
  - apply NoDup_cons in Hnd as [Hi Hnd]. rewrite IH by done.
    rewrite score_union_step. simpl.
    destruct (Z.eqb_spec j i) as [->|Hne].
    + rewrite Z.eqb_refl. assert (score i B = None) as -> by (by apply score_None).
      by destruct (score i A).
    + destruct (Z.eqb_spec i j); [congruence|done].
Qed.

Lemma inter_scores_sub (A B : scores) j :
  j ∈ (inter_scores A B).*1 → j ∈ A.*1.
Proof.
  induction A as [|[i a] A IH]; simpl; [done|].
  destruct (score i B); csimpl; rewrite ?elem_of_cons; intuition.
Qed.

Lemma inter_scores_ids (A B : scores) : NoDup A.*1 → NoDup (inter_scores A B).*1.
Proof.
  induction A as [|[i a] A IH]; simpl; [done|]. intros [Hi Hnd]%NoDup_cons.
  destruct (score i B); csimpl; [|by apply IH].
  apply NoDup_cons. split; [|by apply IH]. by intros ?%inter_scores_sub.
Qed.

(** The score of a document in the intersection. *)
Lemma score_inter (A B : scores) j :
  score j (inter_scores A B) =
  match score j A, score j B with
  | Some a, Some b => Some (Z.min a b)
  | _, _ => None
  end.
Proof.
  induction A as [|[i a] A IH]; simpl; [done|].
  destruct (Z.eqb_spec i j) as [->|Hne].
  - destruct (score j B) as [b|] eqn:Hb; simpl.
    + rewrite Z.eqb_refl. f_equal. destruct (Z.ltb_spec b a); lia.
    + rewrite IH. by destruct (score j A).
  - destruct (score i B) as [b|] eqn:Hb; simpl; [|done].
    destruct (Z.eqb_spec i j); [congruence|done].
Qed.

End Scores.

(** ** Reasoning about the heap of the query engine *)

Module HeapLogic.
Import Queue Query Scores.

(** [m] runs from [h] without undefined behaviour and ends in [Q]. *)
Definition wp {A} (m : M A) (h : heap) (Q : A → heap → Prop) : Prop :=
  ∃ a h', m h = Some (a, h') ∧ Q a h'.

Lemma wp_ret {A} (a : A) h (Q : A → heap → Prop) : Q a h → wp (ret a) h Q.
Proof. intros HQ. by exists a, h. Qed.

Lemma wp_bind {A B} (m : M A) (k : A → M B) h (Q : B → heap → Prop) :
  wp m h (λ a h', wp (k a) h' Q) → wp (bind m k) h Q.
Proof.
  intros (a & h' & Hm & b & h'' & Hk & HQ). exists b, h''.
  unfold bind. by rewrite Hm.
Qed.

Lemma wp_mono {A} (m : M A) h (Q Q' : A → heap → Prop) :
  wp m h Q → (∀ a h', Q a h' → Q' a h') → wp m h Q'.
Proof. intros (a & h' & Hm & HQ) HQQ. exists a, h'. auto. Qed.

Lemma wp_load l h d (Q : rankedDoc_t → heap → Prop) :
  h !! l = Some d → Q d h → wp (load l) h Q.
Proof. intros Hl HQ. exists d, h. unfold load. by rewrite Hl. Qed.

Lemma wp_store l d h (Q : unit → heap → Prop) :
  is_Some (h !! l) → Q tt (<[l := d]> h) → wp (store l d) h Q.
Proof. intros [e Hl] HQ. exists tt, (<[l := d]> h). unfold store. by rewrite Hl. Qed.

Lemma wp_malloc d h (Q : loc → heap → Prop) :
  (∀ l, h !! l = None → Q l (<[l := d]> h)) → wp (malloc d) h Q.
Proof.
  intros HQ. exists (fresh (dom h)), (<[fresh (dom h) := d]> h). split; [done|].
  apply HQ, not_elem_of_dom, is_fresh.
Qed.

Lemma wp_free l h (Q : unit → heap → Prop) :
  is_Some (h !! l) → Q tt (delete l h) → wp (free l) h Q.
Proof. intros [e Hl] HQ. exists tt, (delete l h). unfold free. by rewrite Hl. Qed.

(** *** Queues and the scores they hold *)

Definition cell_score (d : rankedDoc_t) : Z * Z := (doc_id d, word_count d).

(** The cells of [q] are allocated and hold the ids and scores [A]. *)
Definition represents (h : heap) (q : queue_t loc) (A : scores) : Prop :=
  Forall2 (λ l a, ∃ d, h !! l = Some d ∧ cell_score d = a) q A.

Definition allocated (h : heap) (q : queue_t loc) : Prop :=
  Forall (λ l, is_Some (h !! l)) q.

Lemma represents_allocated h q A : represents h q A → allocated h q.
Proof.
  induction 1 as [|l a q A (d & Hd & _) _ IH]; constructor; [by exists d|done].
Qed.

Lemma allocated_represents h q : allocated h q → ∃ A, represents h q A.
Proof.
  induction 1 as [|l q [d Hd] _ [A IH]]; [exists []; constructor|].
  exists (cell_score d :: A). constructor; [by exists d|done].
Qed.

Lemma represents_agree h h' q A :
  (∀ l, l ∈ q → h' !! l = h !! l) → represents h q A → represents h' q A.
Proof.
  intros Hag Hr. induction Hr as [|l a q A (d & Hd & Ha) _ IH]; [constructor|].
  constructor.
  - exists d. split; [|done]. rewrite Hag; [done|]. apply elem_of_cons. by left.
  - apply IH. intros l' Hl'. apply Hag. apply elem_of_cons. by right.
Qed.

Lemma represents_inj h q A B : represents h q A → represents h q B → A = B.
Proof.
  intros HA. revert B. induction HA as [|l a q A (d & Hd & Ha) _ IH]; intros B HB.
  - by inversion HB.
  - inversion HB as [|? b ? B' (d' & Hd' & Hb) HB']; subst. f_equal; [congruence|].
    by apply IH.
Qed.

Lemma qsearch_doc_spec h q A id :
  represents h q A →
  ∃ r, qsearch_doc q id h = Some (r, h) ∧
       match r with
       | Some doc =>
           doc ∈ q ∧ ∃ e, h !! doc = Some e ∧ doc_id e = id ∧
                          score id A = Some (word_count e)
       | None => score id A = None
       end.
Proof.
  induction 1 as [|l a q A (d & Hd & Ha) _ (r & Hr & IH)]; simpl.
  - by exists None.
  - unfold bind, load. rewrite Hd. destruct a as [i s]. injection Ha as <- <-.
    destruct (Z.eqb_spec (doc_id d) id) as [Heq|Hne].
    + exists (Some l). split; [done|]. split; [apply elem_of_cons; by left|].
      by exists d.
    + exists r. split; [done|]. destruct r as [doc|]; [|done].
      destruct IH as (Hin & e & He). split; [|by exists e].
      apply elem_of_cons. by right.
Qed.

(** Writing the score of the cell [qsearch_doc] found. *)
Lemma represents_bump h q A id doc e f :
  represents h q A → NoDup q →
  qsearch_doc q id h = Some (Some doc, h) → h !! doc = Some e →
  represents (<[doc := set_word_count e (f (word_count e))]> h) q (bump id f A).
Proof.
  intros Hr. induction Hr as [|l a q A (d & Hd & Ha) Hr IH]; simpl; [done|].
  intros [Hl Hnd]%NoDup_cons. unfold bind, load. rewrite Hd.
  destruct a as [i s]. injection Ha as <- <-.
  destruct (Z.eqb_spec (doc_id d) id) as [Heq|Hne].
  - intros [= <-] He. assert (e = d) as -> by congruence. constructor.
    + eexists. split; [apply lookup_insert_eq|done].
    + eapply represents_agree; [|done]. intros l' Hl'.
      apply lookup_insert_ne. by intros ->.
  - intros Hs He. constructor.
    + exists d. split; [|done]. rewrite lookup_insert_ne; [done|].
      intros ->. apply Hl.
      destruct (qsearch_doc_spec h q A id Hr) as (r & Hr' & Hspec).
      rewrite Hr' in Hs. injection Hs as ->. by destruct Hspec.
    + by apply IH.
Qed.

Lemma represents_snoc h q A l d :
  represents h q A → h !! l = Some d →
  represents h (q ++ [l]) (A ++ [cell_score d]).
Proof.
  intros Hr Hl. apply Forall2_app; [done|]. constructor; [by exists d|constructor].
Qed.

(** *** get_union *)

Lemma restore_spec (tmp qp2 : queue_t loc) : restore tmp qp2 = qp2 ++ tmp.
Proof.
  revert qp2. induction tmp as [|dp tmp IH]; intros qp2; simpl.
  - by rewrite app_nil_r.
  - unfold qput. by rewrite IH, <- app_assoc.
Qed.

Lemma get_union_loop_spec (qp2 qp1 tmp : queue_t loc) h A B :
  represents h qp1 A → represents h qp2 B →
  NoDup qp1 → (∀ l, l ∈ qp1 → l ∉ qp2) →
  wp (get_union_loop qp2 qp1 tmp) h (λ r h',
    ∃ new, r = (qp1 ++ new, tmp ++ qp2) ∧ NoDup (qp1 ++ new) ∧
      (∀ l, l ∈ new → h !! l = None) ∧
      (∀ l, l ∉ qp1 ++ new → h' !! l = h !! l) ∧
      represents h' (qp1 ++ new) (union_scores A B)).
Proof.
  revert qp1 tmp h A B.
  induction qp2 as [|dp qp2 IH]; intros qp1 tmp h A B HA HB Hnd Hdis.
  - inversion HB; subst. apply wp_ret. exists []. rewrite !app_nil_r.
    repeat split; [done|by intros l ?%elem_of_nil|done].
  - inversion HB as [|? b ? B' (d & Hd & Hb) HB']; subst. simpl.
    destruct (qsearch_doc_spec h qp1 A (doc_id d) HA) as (r & Hr & Hspec).
    apply wp_bind. eapply wp_load; [done|].
    apply wp_bind. exists r, h. split; [done|].
    destruct r as [doc|].
    + destruct Hspec as (Hdoc & e & He & Hid & Hscore).
      apply wp_bind, wp_bind. eapply wp_load; [done|].
      apply wp_bind, wp_store; [by exists e|]. apply wp_ret.
      set (h1 := <[doc := set_word_count e (int_add (word_count e) (word_count d))]> h).
      assert (∀ l, l ≠ doc → h1 !! l = h !! l) as Hh1
        by (intros l Hl; by apply lookup_insert_ne).
      eapply wp_mono.
      { apply (IH qp1 (qput tmp dp) h1 (union_step A (cell_score d)) B').
        - unfold union_step. simpl. rewrite Hscore.
          by apply (represents_bump h qp1 A (doc_id d) doc e
                      (λ rank, int_add rank (word_count d))).
        - eapply represents_agree; [|done]. intros l Hl. apply Hh1.
          intros ->. apply (Hdis doc Hdoc). apply elem_of_cons. by right.
        - done.
        - intros l Hl Hl2. apply (Hdis l Hl). apply elem_of_cons. by right. }
      intros [qp1' tmp'] h' (new & [= -> ->] & Hnd' & Hfresh & Hframe & Hrep).
      exists new. split; [|split; [done|split; [|split; [|done]]]].
      * unfold qput. by rewrite <- app_assoc.
      * intros l Hl. rewrite <- Hh1; [by apply Hfresh|].
        intros ->. apply NoDup_app in Hnd' as (_ & Hnd' & _). by apply (Hnd' doc).
      * intros l Hl. rewrite Hframe by done. apply Hh1.
        intros ->. apply Hl. apply elem_of_app. by left.
    + apply wp_bind, wp_bind. apply wp_malloc. intros l0 Hl0. apply wp_ret.
      set (cell := RankedDoc (doc_id d) (word_count d) None None None).
      set (h1 := <[l0 := cell]> h).
      assert (∀ l, l ≠ l0 → h1 !! l = h !! l) as Hh1
        by (intros l Hl; by apply lookup_insert_ne).
      assert (∀ q A, represents h q A → l0 ∉ q) as Hl0q.
      { intros q A' Hq Hin. apply represents_allocated in Hq.
        destruct (proj1 (Forall_forall _ _) Hq l0 Hin) as [? ?]. congruence. }
      pose proof (Hl0q _ _ HA) as Hl01. pose proof (Hl0q _ _ HB') as Hl02.
      eapply wp_mono.
      { apply (IH (qput qp1 l0) (qput tmp dp) h1 (union_step A (cell_score d)) B').
        - unfold union_step. simpl. rewrite Hspec.
          apply (represents_snoc h1 qp1 A l0 cell).
          + eapply represents_agree; [|done]. intros l Hl. apply Hh1. by intros ->.
          + apply lookup_insert_eq.
        - eapply represents_agree; [|done]. intros l Hl. apply Hh1. by intros ->.
        - unfold qput. apply NoDup_app. split; [done|]. split; [|apply NoDup_singleton].
          intros l Hl [->|[]%elem_of_nil]%elem_of_cons. done.
        - unfold qput. intros l [Hl|[->|[]%elem_of_nil]%elem_of_cons]%elem_of_app; [|done].
          intros Hl2. apply (Hdis l Hl). apply elem_of_cons. by right. }
      intros [qp1' tmp'] h' (new & [= -> ->] & Hnd' & Hfresh & Hframe & Hrep).
      unfold qput in *. rewrite <- app_assoc in Hnd', Hframe, Hrep. simpl in *.
      exists (l0 :: new). split; [|split; [done|split; [|split; [|done]]]].
      * by rewrite <- !app_assoc.
      * intros l [->|Hl]%elem_of_cons; [done|]. rewrite <- Hh1; [by apply Hfresh|].
        intros ->. apply NoDup_app in Hnd' as (_ & _ & Hnd').
        apply NoDup_cons in Hnd' as [Hnd' _]. done.
      * intros l Hl. rewrite Hframe by done. apply Hh1.
        intros ->. apply Hl. apply elem_of_app. right. apply elem_of_cons. by left.
Qed.

(** [get_union]: [qp2] comes back as it was, [qp1] grows by fresh cells
    and holds the union; no cell outside [qp1] is written. *)
Lemma get_union_spec (qp1 qp2 : queue_t loc) h A B :
  represents h qp1 A → represents h qp2 B →
  NoDup qp1 → (∀ l, l ∈ qp1 → l ∉ qp2) →
  wp (get_union qp1 qp2) h (λ r h',
    ∃ new, r = (qp1 ++ new, qp2) ∧ NoDup (qp1 ++ new) ∧
      (∀ l, l ∈ new → h !! l = None) ∧
      (∀ l, l ∉ qp1 ++ new → h' !! l = h !! l) ∧
      represents h' (qp1 ++ new) (union_scores A B)).
Proof.
  intros HA HB Hnd Hdis. unfold get_union. apply wp_bind.
  eapply wp_mono; [by apply (get_union_loop_spec qp2 qp1 qopen h A B)|].
  intros [qp1' tmp'] h' (new & [= -> ->] & H). apply wp_ret.
  exists new. split; [|done]. by rewrite restore_spec.
Qed.

(** *** free_queue and get_intersection *)

Lemma free_queue_spec (q : queue_t loc) h :
  allocated h q → NoDup q →
  wp (free_queue q) h (λ _ h',
    (∀ l, l ∈ q → h' !! l = None) ∧ (∀ l, l ∉ q → h' !! l = h !! l)).
Proof.
  revert h. induction q as [|dp q IH]; intros h Hal Hnd; simpl.
  - apply wp_ret. split; [by intros l ?%elem_of_nil|done].
  - apply Forall_cons in Hal as [Hdp Hal]. apply NoDup_cons in Hnd as [Hdpq Hnd].
    apply wp_bind. unfold free_doc. apply wp_free; [done|].
    eapply wp_mono.
    { apply IH; [|done]. eapply Forall_impl; [apply Forall_and; split;
        [exact Hal|apply Forall_forall; intros l Hl; exact Hl]|].
      intros l [Hl Hin]. simpl in *. rewrite lookup_delete_ne; [done|].
      by intros ->. }
    intros _ h' [Hfreed Hframe]. split.
    + intros l [->|Hl]%elem_of_cons; [|by apply Hfreed].
      rewrite Hframe by done. apply lookup_delete_eq.
    + intros l [Hne Hl]%not_elem_of_cons. rewrite Hframe by done.
      by apply lookup_delete_ne.
Qed.

Lemma get_intersection_loop_spec (qp1 qp2 intersect : queue_t loc) h A B R0 :
  represents h qp1 A → represents h qp2 B → represents h intersect R0 →
  NoDup (intersect ++ qp1) → (∀ l, l ∈ intersect ++ qp1 → l ∉ qp2) →
  wp (get_intersection_loop qp1 qp2 intersect) h (λ r h',
    ∃ kept, r = intersect ++ kept ∧ NoDup r ∧ (∀ l, l ∈ kept → l ∈ qp1) ∧
      (∀ l, l ∉ qp1 → h' !! l = h !! l) ∧
      represents h' r (R0 ++ inter_scores A B)).
Proof.
  revert intersect h A R0.
  induction qp1 as [|doc qp1 IH]; intros intersect h A R0 HA HB HR Hnd Hdis.
  - inversion HA; subst. apply wp_ret. exists []. rewrite !app_nil_r in *.
    repeat split; [done|by intros l ?%elem_of_nil|done].
  - inversion HA as [|? a ? A' (d & Hd & Ha) HA']; subst. simpl.
    destruct (qsearch_doc_spec h qp2 B (doc_id d) HB) as (r & Hr & Hspec).
    assert ((doc ∉ intersect) ∧ (doc ∉ qp1) ∧ (doc ∉ qp2)) as (Hd1 & Hd2 & Hd3).
    { apply NoDup_app in Hnd as (_ & Hnd1 & Hnd2).
      apply NoDup_cons in Hnd2 as [Hnd2 _]. split; [|split; [done|]].
      - intros Hin. apply (Hnd1 doc Hin). apply elem_of_cons. by left.
      - apply Hdis. apply elem_of_app. right. apply elem_of_cons. by left. }
    assert (NoDup ((intersect ++ [doc]) ++ qp1)) as Hnd'
      by (by rewrite <- app_assoc).
    assert (NoDup (intersect ++ qp1)) as Hnd''.
    { apply NoDup_app in Hnd as (Hn1 & Hn2 & Hn3). apply NoDup_cons in Hn3 as [_ Hn3].
      apply NoDup_app. split; [done|]. split; [|done].
      intros l Hl Hl'. apply (Hn2 l Hl). apply elem_of_cons. by right. }
    apply wp_bind. eapply wp_load; [done|].
    apply wp_bind. exists r, h. split; [done|].
    destruct r as [dp|].
    + destruct Hspec as (Hdp & e & He & Hid & Hscore).
      apply wp_bind. eapply wp_load; [done|].
      apply wp_bind, wp_store; [by exists d|].
      set (m := (if word_count e <? word_count d then word_count e else word_count d)).
      set (h1 := <[doc := set_word_count d m]> h).
      assert (∀ l, l ≠ doc → h1 !! l = h !! l) as Hh1
        by (intros l Hl; by apply lookup_insert_ne).
      eapply wp_mono.
      { apply (IH (qput intersect doc) h1 A' (R0 ++ [(doc_id d, m)])).
        - eapply represents_agree; [|done]. intros l Hl. apply Hh1. by intros ->.
        - eapply represents_agree; [|done]. intros l Hl. apply Hh1. by intros ->.
        - apply (represents_snoc h1 intersect R0 doc (set_word_count d m)).
          + eapply represents_agree; [|done]. intros l Hl. apply Hh1. by intros ->.
          + apply lookup_insert_eq.
        - done.
        - unfold qput. intros l Hl. apply Hdis. rewrite <- app_assoc in Hl. done. }
      intros r h' (kept & -> & Hndr & Hkept & Hframe & Hrep).
      unfold qput in *. rewrite <- app_assoc in Hndr, Hrep |- *.
      exists (doc :: kept). split; [done|]. split; [done|]. split; [|split].
      * intros l [->|Hl]%elem_of_cons; apply elem_of_cons; [by left|right; by apply Hkept].
      * intros l [Hne Hl]%not_elem_of_cons. rewrite Hframe by done. by apply Hh1.
      * simpl. rewrite Hscore. rewrite <- app_assoc in Hrep. done.
    + apply wp_bind. unfold free_doc. apply wp_free; [by exists d|].
      set (h1 := delete doc h).
      assert (∀ l, l ≠ doc → h1 !! l = h !! l) as Hh1
        by (intros l Hl; by apply lookup_delete_ne).
      eapply wp_mono.
      { apply (IH intersect h1 A' R0).
        - eapply represents_agree; [|done]. intros l Hl. apply Hh1. by intros ->.
        - eapply represents_agree; [|done]. intros l Hl. apply Hh1. by intros ->.
        - eapply represents_agree; [|done]. intros l Hl. apply Hh1. by intros ->.
        - done.
        - intros l Hl. apply Hdis. apply elem_of_app in Hl as [Hl|Hl];
            apply elem_of_app; [by left|right]. apply elem_of_cons. by right. }
      intros r h' (kept & -> & Hndr & Hkept & Hframe & Hrep).
      exists kept. split; [done|]. split; [done|]. split; [|split].
      * intros l Hl. apply elem_of_cons. right. by apply Hkept.
      * intros l [Hne Hl]%not_elem_of_cons. rewrite Hframe by done. by apply Hh1.
      * simpl. by rewrite Hspec.
Qed.

(** [get_intersection]: the result is made of cells of [qp1] and holds
    the intersection; no cell outside the two queues is touched. *)
Lemma get_intersection_spec (qp1 qp2 : queue_t loc) h A B :
  represents h qp1 A → represents h qp2 B → NoDup (qp1 ++ qp2) →
  wp (get_intersection qp1 qp2) h (λ r h',
    NoDup r ∧ (∀ l, l ∈ r → l ∈ qp1) ∧
    (∀ l, l ∉ qp1 ++ qp2 → h' !! l = h !! l) ∧
    represents h' r (inter_scores A B)).
Proof.
  intros HA HB Hnd. apply NoDup_app in Hnd as (Hnd1 & Hdis & Hnd2).
  unfold get_intersection. apply wp_bind.
  eapply wp_mono.
  { apply (get_intersection_loop_spec qp1 qp2 qopen h A B []);
      [done|done|constructor|done|done]. }
  intros r h1 (kept & -> & Hndr & Hkept & Hframe & Hrep). simpl in *.
  apply wp_bind. eapply wp_mono.
  { apply free_queue_spec; [|done]. apply represents_allocated in HB.
    eapply Forall_impl; [apply Forall_and; split;
      [exact HB|apply Forall_forall; intros l Hl; exact Hl]|].
    intros l [Hl Hin]. simpl in *. rewrite Hframe; [done|].
    intros Hl1. by apply (Hdis l Hl1). }
  intros _ h' [Hfreed Hframe']. apply wp_ret.
  split; [done|]. split; [done|]. split.
  - intros l Hl. rewrite Hframe', Hframe; [done| |];
      intros Hin; apply Hl, elem_of_app; [by left|by right].
  - eapply represents_agree; [|done]. intros l Hl. apply Hframe'.
    intros Hl2. by apply (Hdis l (Hkept l Hl)).
Qed.

End HeapLogic.

(** ** Evaluation of a query against the index *)

Module EvalTheory.
Import Queue Hash Query Scores HeapLogic QueueFacts HashFacts TokenTheory.

(** *** Evaluation on lists of scores *)

(** The token loop of [main] on lists of scores; [P] gives the postings
    of a token (none for a token the index does not have). *)
Fixpoint eval_scores (P : cstring → scores) (tokens : list cstring)
         (stack : list scores) (curr_operator : cstring) : option (list scores) :=
  match tokens with
  | [] => Some stack
  | token :: tokens' =>
      if is_operator token then eval_scores P tokens' stack token
      else
        let tmp := union_scores [] (P token) in
        if streq curr_operator s_and then
          match stack with
          | qp2 :: stack' =>
              eval_scores P tokens' (inter_scores tmp qp2 :: stack') curr_operator
          | [] => None
          end
        else eval_scores P tokens' (tmp :: stack) curr_operator
  end.

Fixpoint union_stack_scores (A : scores) (stack : list scores) : scores :=
  match stack with
  | [] => A
  | B :: stack' => union_stack_scores (union_scores A B) stack'
  end.

Definition evaluate_scores (P : cstring → scores) (tokens : list cstring)
  : option scores :=
  match eval_scores P tokens [] [] with
  | Some (A :: stack) => Some (union_stack_scores A stack)
  | _ => None
  end.

(** *** The index in the heap *)

(** The scores the cells of a queue hold (cells that are not allocated
    are skipped). *)
Definition read (h : heap) (q : queue_t loc) : scores :=
  omap (λ l, cell_score <$> h !! l) q.

(** The cells of all the posting queues of the index. *)
Definition index_locs (index : index_t) : list loc :=
  concat (IndexIO.documents <$> concat (hash_table index)).

(** The postings the index holds for a token. *)
Definition index_scores (h : heap) (index : index_t) (token : cstring) : scores :=
  match hsearch index (token_searchfn token) token (strlen token) with
  | Some ep => read h (IndexIO.documents ep)
  | None => []
  end.

Lemma read_cons h l q :
  read h (l :: q) =
  match h !! l with
  | Some d => cell_score d :: read h q
  | None => read h q
  end.
Proof. unfold read. simpl. by destruct (h !! l). Qed.

Lemma represents_read h q : allocated h q → represents h q (read h q).
Proof.
  induction 1 as [|l q [d Hd] _ IH]; [constructor|].
  rewrite read_cons, Hd. constructor; [by exists d|done].
Qed.

Lemma read_agree h h' q : (∀ l, l ∈ q → h' !! l = h !! l) → read h' q = read h q.
Proof.
  intros Hag. induction q as [|l q IH]; [done|].
  assert (read h' q = read h q) as IH'
    by (apply IH; intros l' Hl'; apply Hag, elem_of_cons; by right).
  rewrite !read_cons, Hag by (apply elem_of_cons; by left).
  by rewrite IH'.
Qed.

Lemma elem_of_concat {A} (x : A) (ls : list (list A)) :
  x ∈ concat ls ↔ ∃ l, x ∈ l ∧ l ∈ ls.
Proof.
  rewrite list_elem_of_In, in_concat. split.
  - intros (l & Hl & Hx). exists l. by rewrite !list_elem_of_In.
  - intros (l & Hx & Hl). exists l. by rewrite <- !list_elem_of_In.
Qed.

Lemma qsearch_elem {A} (q : queue_t A) p e : qsearch q p = Some e → e ∈ q ∧ p e = true.
Proof.
  induction q as [|x q IH]; simpl; [done|].
  destruct (p x) eqn:Hp.
  - intros [= ->]. split; [apply elem_of_cons; by left|done].
  - intros [? ?]%IH. split; [apply elem_of_cons; by right|done].
Qed.

Lemma hsearch_elem {A} (htp : hashtable_t A) p key keylen e :
  hsearch htp p key keylen = Some e → e ∈ concat (hash_table htp).
Proof.
  unfold hsearch. destruct (hash_table htp !! _) as [q|] eqn:Hq; simpl; [|done].
  intros [He _]%qsearch_elem. apply elem_of_concat. exists q. split; [done|].
  by apply list_elem_of_lookup_2 in Hq.
Qed.

Lemma index_locs_elem (index : index_t) p key keylen ep l :
  hsearch index p key keylen = Some ep → l ∈ IndexIO.documents ep →
  l ∈ index_locs index.
Proof.
  intros Hep%hsearch_elem Hl. unfold index_locs. apply elem_of_concat.
  exists (IndexIO.documents ep). split; [done|]. apply list_elem_of_fmap. by exists ep.
Qed.

Lemma qupdate_id {A} (q : queue_t A) p (f : A → A) e :
  qsearch q p = Some e → f e = e → qupdate q p f = q.
Proof.
  induction q as [|x q IH]; simpl; [done|]. destruct (p x).
  - intros [= ->] ->. done.
  - intros H1 H2. by rewrite IH.
Qed.

(** Writing back what was read leaves the table as it is. *)
Lemma hupdate_id {A} (htp : hashtable_t A) p key keylen (f : A → A) e :
  hsearch htp p key keylen = Some e → f e = e → hupdate htp p key keylen f = htp.
Proof.
  unfold hsearch, hupdate. destruct htp as [size tbl]. simpl.
  destruct (tbl !! _) as [q|] eqn:Hq; simpl; [|done].
  intros Hs Hf. f_equal. apply list_eq. intros i.
  destruct (decide (i = slot {| tablesize := size; hash_table := tbl |} key keylen)) as [->|Hne].
  - rewrite list_lookup_alter_eq, Hq. simpl. f_equal. by apply (qupdate_id q p f e).
  - by rewrite list_lookup_alter_ne.
Qed.

(** *** The invariant of the evaluation *)

(** The cells of the index are allocated and as in [h0]; the queues of
    the stack are allocated and share no cell, neither with each other
    nor with the index. *)
Record eval_inv (h0 h : heap) (index : index_t) (stack : list (queue_t loc)) : Prop :=
  EvalInv {
    inv_index : ∀ l, l ∈ index_locs index → is_Some (h0 !! l) ∧ h !! l = h0 !! l;
    inv_nodup : NoDup (concat stack);
    inv_stack : ∀ l, l ∈ concat stack → is_Some (h !! l) ∧ l ∉ index_locs index
  }.

(** A step that leaves the index and the rest of the stack alone and puts
    a queue [top] of cells of its own on the stack keeps the invariant. *)
Lemma eval_inv_frame h0 h h' index old top rest :
  eval_inv h0 h index old →
  (∀ l, l ∈ concat rest → l ∈ concat old) →
  (∀ l, l ∈ index_locs index ∨ l ∈ concat rest → h' !! l = h !! l) →
  NoDup (top ++ concat rest) →
  allocated h' top → (∀ l, l ∈ top → l ∉ index_locs index) →
  eval_inv h0 h' index (top :: rest).
Proof.
  intros [Hi Hn Hs] Hsub Hag Hnd Hal Htop. split.
  - intros l Hl. destruct (Hi l Hl) as [? ?]. split; [done|].
    rewrite Hag by (by left). done.
  - done.
  - simpl. intros l [Hl|Hl]%elem_of_app.
    + split; [|by apply Htop]. by apply (proj1 (Forall_forall _ _) Hal).
    + destruct (Hs l (Hsub l Hl)) as [? ?]. split; [|done].
      rewrite Hag by (by right). done.
Qed.

Lemma stack_agree h h' (stack : list (queue_t loc)) SS :
  Forall2 (represents h) stack SS →
  (∀ l, l ∈ concat stack → h' !! l = h !! l) →
  Forall2 (represents h') stack SS.
Proof.
  induction 1 as [|q A stack SS Hq _ IH]; intros Hag; constructor.
  - eapply represents_agree; [|done]. intros l Hl. apply Hag. simpl.
    apply elem_of_app. by left.
  - apply IH. intros l Hl. apply Hag. simpl. apply elem_of_app. by right.
Qed.

Lemma index_cells_represented h0 h index stack ep p key keylen :
  eval_inv h0 h index stack → hsearch index p key keylen = Some ep →
  represents h (IndexIO.documents ep) (read h0 (IndexIO.documents ep)).
Proof.
  intros [Hi _ _] Hep.
  assert (∀ l, l ∈ IndexIO.documents ep → l ∈ index_locs index) as Hsub
    by (intros l Hl; by eapply index_locs_elem).
  apply (represents_agree h0).
  - intros l Hl. by apply Hi, Hsub.
  - apply represents_read, Forall_forall. intros l Hl. by apply Hi, Hsub.
Qed.

(** Fresh cells are no cells of the index or the stack. *)
Lemma fresh_not_in h0 h index stack (new : list loc) :
  eval_inv h0 h index stack → (∀ l, l ∈ new → h !! l = None) →
  ∀ l, l ∈ new → (l ∉ index_locs index) ∧ (l ∉ concat stack).
Proof.
  intros [Hi _ Hs] Hnew l Hl. split.
  - intros Hin. destruct (Hi l Hin) as [[d Hd] Heq]. rewrite (Hnew l Hl) in Heq. congruence.
  - intros Hin. destruct (Hs l Hin) as [[d Hd] _]. rewrite (Hnew l Hl) in Hd. congruence.
Qed.

Lemma push_token_spec h0 h index stack SS token :
  eval_inv h0 h index stack → Forall2 (represents h) stack SS →
  wp (push_token index token) h (λ r h',
    ∃ tmp, r = (tmp, index) ∧ eval_inv h0 h' index (tmp :: stack) ∧
      Forall2 (represents h') (tmp :: stack)
              (union_scores [] (index_scores h0 index token) :: SS)).
Proof.
  intros Hinv HSS. unfold push_token, index_scores.
  destruct (hsearch index (token_searchfn token) token (strlen token)) as [ep|] eqn:Hep.
  - apply wp_bind. eapply wp_mono.
    { apply (get_union_spec qopen (IndexIO.documents ep) h []
               (read h0 (IndexIO.documents ep))).
      - constructor.
      - by eapply index_cells_represented.
      - constructor.
      - by intros l ?%elem_of_nil. }
    intros [qp1' docs] h' (new & [= -> ->] & Hnd & Hfresh & Hframe & Hrep).
    simpl in *. apply wp_ret. exists new.
    pose proof (fresh_not_in _ _ _ _ _ Hinv Hfresh) as Hnotin.
    assert (∀ l, l ∈ index_locs index ∨ l ∈ concat stack → h' !! l = h !! l) as Hag.
    { intros l Hl. apply Hframe. intros Hin. destruct (Hnotin l Hin). tauto. }
    split; [|split].
    + f_equal. apply (hupdate_id _ _ _ _ _ ep); [done|]. by destruct ep.
    + eapply eval_inv_frame; [done|done|done| | |].
      * apply NoDup_app. split; [done|]. split; [|by destruct Hinv].
        intros l Hl. by apply Hnotin.
      * by eapply represents_allocated.
      * intros l Hl. by apply Hnotin.
    + constructor; [done|]. eapply stack_agree; [done|].
      intros l Hl. apply Hag. by right.
  - apply wp_ret. exists qopen. split; [done|]. split.
    + eapply eval_inv_frame; [done|done|done| | |].
      * by destruct Hinv.
      * constructor.
      * by intros l ?%elem_of_nil.
    + constructor; [constructor|done].
Qed.

(** The first token is a term, if there is one. *)
Definition starts_with_term (tokens : list cstring) : Prop :=
  match tokens with
  | t :: _ => is_operator t = false
  | [] => True
  end.

Lemma eval_tokens_spec h0 index (tokens : list cstring) :
  ∀ h stack SS curr_operator,
  eval_inv h0 h index stack → Forall2 (represents h) stack SS →
  stack ≠ [] ∨ (streq curr_operator s_and = false ∧ starts_with_term tokens) →
  wp (eval_tokens tokens index stack curr_operator) h (λ r h',
    ∃ stack' SS', r = (stack', index) ∧ eval_inv h0 h' index stack' ∧
      Forall2 (represents h') stack' SS' ∧
      eval_scores (index_scores h0 index) tokens SS curr_operator = Some SS' ∧
      (stack ≠ [] ∨ tokens ≠ [] → stack' ≠ [])).
Proof.
  induction tokens as [|token tokens IH]; intros h stack SS op Hinv HSS Hpre; simpl.
  - apply wp_ret. exists stack, SS. do 4 (split; [done|]). by intros [?|?].
  - destruct (is_operator token) eqn:Hop.
    + assert (stack ≠ []) as Hne by (destruct Hpre as [?|[_ ?]]; [done|simpl in *; congruence]).
      eapply wp_mono; [apply (IH h stack SS token Hinv HSS); by left|].
      intros r h' (stack' & SS' & -> & ? & ? & ? & Hne'). exists stack', SS'.
      do 4 (split; [done|]). intros _. apply Hne'. by left.
    + apply wp_bind. eapply wp_mono; [by apply (push_token_spec h0 h index stack SS token)|].
      intros r h1 (tmp & -> & Hinv1 & HSS1). simpl.
      destruct (streq op s_and) eqn:Hand.
      * destruct stack as [|qp2 stack]; [destruct Hpre as [?|[? _]]; congruence|].
        apply Forall2_cons_1 in HSS1 as [Htmp HSS1'].
        apply Forall2_cons_inv_l in HSS1' as (Q & SS0 & Hqp2 & HSS0 & ->).
        set (T := union_scores [] (index_scores h0 index token)) in *.
        apply wp_bind. eapply wp_mono.
        { apply (get_intersection_spec tmp qp2 h1 T Q Htmp Hqp2).
          destruct Hinv1 as [_ Hnd _]. simpl in Hnd. rewrite app_assoc in Hnd.
          by apply NoDup_app in Hnd as (? & _ & _). }
        intros r h2 (Hndr & Hsub & Hframe & Hrep).
        assert (eval_inv h0 h2 index (r :: stack)) as Hinv2.
        { pose proof Hinv1 as [_ Hnd Hst]. simpl in Hnd, Hst.
          rewrite app_assoc in Hnd. apply NoDup_app in Hnd as (Hnd1 & Hdis & Hnd2).
          eapply eval_inv_frame; [exact Hinv1| | | | |].
          - intros l Hl. simpl. rewrite !elem_of_app. auto.
          - intros l Hl. apply Hframe. intros Hin. destruct Hl as [Hl|Hl].
            + assert (l ∈ tmp ++ qp2 ++ concat stack) as Hl'
                by (rewrite app_assoc; apply elem_of_app; by left).
              by destruct (Hst l Hl').
            + by apply (Hdis l Hin).
          - apply NoDup_app. split; [done|]. split; [|done].
            intros l Hl. apply Hdis, elem_of_app. left. by apply Hsub.
          - by eapply represents_allocated.
          - intros l Hl. apply Hst. apply elem_of_app. left. by apply Hsub. }
        assert (Forall2 (represents h2) stack SS0) as HSS2.
        { eapply stack_agree; [done|]. intros l Hl. apply Hframe.
          destruct Hinv1 as [_ Hnd _]. simpl in Hnd. rewrite app_assoc in Hnd.
          apply NoDup_app in Hnd as (_ & Hdis & _). intros Hin. by apply (Hdis l Hin). }
        eapply wp_mono.
        { apply (IH h2 (r :: stack) (inter_scores T Q :: SS0) op Hinv2);
            [by constructor|by left]. }
        intros r' h' (stack' & SS' & -> & ? & ? & ? & Hne'). exists stack', SS'.
        do 4 (split; [done|]). intros _. apply Hne'. by left.
      * eapply wp_mono; [apply (IH h1 (tmp :: stack) _ op Hinv1 HSS1); by left|].
        intros r' h' (stack' & SS' & -> & ? & ? & ? & Hne'). exists stack', SS'.
        do 4 (split; [done|]). intros _. apply Hne'. by left.
Qed.

Lemma union_stack_spec h0 index (stack : list (queue_t loc)) :
  ∀ h qp1 A SS,
  eval_inv h0 h index (qp1 :: stack) →
  represents h qp1 A → Forall2 (represents h) stack SS →
  wp (union_stack qp1 stack) h (λ r h',
    eval_inv h0 h' index [r] ∧ represents h' r (union_stack_scores A SS)).
Proof.
  induction stack as [|qp2 stack IH]; intros h qp1 A SS Hinv HA HSS; simpl.
  - inversion HSS; subst. by apply wp_ret.
  - apply Forall2_cons_inv_l in HSS as (B & SS0 & HB & HSS0 & ->).
    pose proof Hinv as [Hi Hnd Hst]. simpl in Hnd, Hst.
    apply NoDup_app in Hnd as (Hnd1 & Hdis1 & Hnd23).
    apply NoDup_app in Hnd23 as (Hnd2 & Hdis2 & Hnd3).
    apply wp_bind. eapply wp_mono.
    { apply (get_union_spec qp1 qp2 h A B HA HB Hnd1).
      intros l Hl Hl2. apply (Hdis1 l Hl). apply elem_of_app. by left. }
    intros [qp1' qp2'] h1 (new & [= -> ->] & Hnd' & Hfresh & Hframe & Hrep).
    pose proof (fresh_not_in _ _ _ _ _ Hinv Hfresh) as Hnotin. simpl in Hnotin.
    assert (∀ l, l ∈ qp2 ++ concat stack → l ∉ qp1 ++ new) as Hout.
    { intros l Hl [Hin|Hin]%elem_of_app.
      - by apply (Hdis1 l Hin).
      - destruct (Hnotin l Hin) as [_ Hn]. apply Hn. apply elem_of_app. by right. }
    apply wp_bind. eapply wp_mono.
    { apply free_queue_spec; [|done]. apply Forall_forall. intros l Hl.
      rewrite Hframe by (apply Hout, elem_of_app; by left).
      apply Hst. apply elem_of_app. right. apply elem_of_app. by left. }
    intros _ h2 [Hfreed Hframe2].
    assert (∀ l, l ∉ qp2 → l ∉ qp1 ++ new → h2 !! l = h !! l) as Hag.
    { intros l Hl2 Hl1. by rewrite Hframe2, Hframe. }
    assert (eval_inv h0 h2 index ((qp1 ++ new) :: stack)) as Hinv2.
    { eapply eval_inv_frame; [exact Hinv| | | | |].
      - intros l Hl. simpl. rewrite !elem_of_app. auto.
      - intros l Hl. apply Hag.
        + intros Hin. destruct Hl as [Hl|Hl].
          * assert (l ∈ qp1 ++ qp2 ++ concat stack) as Hl'
              by (rewrite !elem_of_app; auto).
            by destruct (Hst l Hl').
          * by apply (Hdis2 l Hin).
        + intros [Hin|Hin]%elem_of_app; destruct Hl as [Hl|Hl].
          * assert (l ∈ qp1 ++ qp2 ++ concat stack) as Hl'
              by (rewrite !elem_of_app; auto).
            by destruct (Hst l Hl').
          * apply (Hdis1 l Hin). apply elem_of_app. by right.
          * by destruct (Hnotin l Hin).
          * destruct (Hnotin l Hin) as [_ Hn]. apply Hn.
            rewrite !elem_of_app. auto.
      - apply NoDup_app. split; [done|]. split; [|done].
        intros l Hl Hl3. apply (Hout l); [|done]. apply elem_of_app. by right.
      - apply Forall_forall. intros l Hl.
        rewrite Hframe2.
        + by apply (proj1 (Forall_forall _ _) (represents_allocated _ _ _ Hrep)).
        + intros Hl2. apply (Hout l); [|done]. apply elem_of_app. by left.
      - intros l [Hin|Hin]%elem_of_app.
        + apply Hst. apply elem_of_app. by left.
        + by destruct (Hnotin l Hin). }
    eapply wp_mono.
    { apply (IH h2 (qp1 ++ new) (union_scores A B) SS0 Hinv2).
      - eapply represents_agree; [|done]. intros l Hl. apply Hframe2.
        intros Hl2. apply (Hout l); [|done]. apply elem_of_app. by left.
      - eapply stack_agree; [done|]. intros l Hl. apply Hag.
        + intros Hin. by apply (Hdis2 l Hin).
        + apply Hout. apply elem_of_app. by right. }
    done.
Qed.

(** The cells of the index are allocated. *)
Definition index_allocated (h : heap) (index : index_t) : Prop :=
  ∀ l, l ∈ index_locs index → is_Some (h !! l).

(** The cells of the index are in [h'] what they are in [h]. *)
Definition index_cells_agree (h h' : heap) (index : index_t) : Prop :=
  ∀ l, l ∈ index_locs index → h' !! l = h !! l.

Lemma index_scores_agree h h' index token :
  index_cells_agree h h' index →
  index_scores h' index token = index_scores h index token.
Proof.
  intros Hag. unfold index_scores.
  destruct (hsearch _ _ _ _) as [ep|] eqn:Hep; [|done].
  apply read_agree. intros l Hl. apply Hag. by eapply index_locs_elem.
Qed.

(** [evaluate] on a stream that starts with a term: it runs without
    undefined behaviour, returns the index it was given, leaves the cells
    of the index alone, and its queue holds what the evaluation on lists
    of scores gives; that queue is made of cells of its own. *)
Lemma evaluate_spec h index (ts : list cstring) :
  index_allocated h index → ts ≠ [] → starts_with_term ts →
  wp (evaluate ts index) h (λ r h',
    ∃ ranked_docs R, r = (ranked_docs, index) ∧
      eval_inv h h' index [ranked_docs] ∧
      represents h' ranked_docs R ∧
      evaluate_scores (index_scores h index) ts = Some R).
Proof.
  intros Hal Hne Hstart. unfold evaluate, evaluate_scores.
  assert (eval_inv h h index []) as Hinv.
  { split; [by intros l ?%Hal|constructor|by intros l ?%elem_of_nil]. }
  apply wp_bind. eapply wp_mono.
  { apply (eval_tokens_spec h index ts h [] [] [] Hinv); [constructor|]. by right. }
  intros r h1 (stack & SS & -> & Hinv1 & HSS & Heval & Hnonempty). simpl.
  rewrite Heval.
  destruct stack as [|qp1 stack]; [exfalso; apply Hnonempty; [by right|done]|].
  apply Forall2_cons_inv_l in HSS as (A & SS0 & HA & HSS0 & ->).
  apply wp_bind. eapply wp_mono; [by apply (union_stack_spec h index stack h1 qp1 A SS0)|].
  intros r h' [Hinv' Hrep]. apply wp_ret. by exists r, (union_stack_scores A SS0).
Qed.

Lemma validated_starts_with_term (ts : list cstring) :
  validate_query ts = true → ts ≠ [] ∧ starts_with_term ts.
Proof.
  unfold validate_query. destruct ts as [|t ts]; [done|]. simpl.
  destruct (last (t :: ts)); [|done].
  destruct (is_operator t); [done|]. done.
Qed.

(** *** Metadata, sorting and printing *)

Lemma get_metadata_loop_spec pagedir (q tmp : queue_t loc) h :
  PageIO.defined_on pagedir → allocated h q →
  wp (get_metadata_loop pagedir q tmp) h (λ r h',
    r.1 = tmp ++ q ∧ (∀ l, l ∉ q → h' !! l = h !! l) ∧
    (∀ l, is_Some (h !! l) → is_Some (h' !! l))).
Proof.
  intros Hdef. revert tmp h. induction q as [|dp q IH]; intros tmp h Hal; simpl.
  - apply wp_ret. by rewrite app_nil_r.
  - apply Forall_cons in Hal as [[d Hd] Hal].
    apply wp_bind. eapply wp_load; [done|]. apply wp_bind.
    assert (∀ out h1, (∀ l, l ≠ dp → h1 !! l = h !! l) → is_Some (h1 !! dp) →
      wp (let! '(tmp', outs) := get_metadata_loop pagedir q (qput tmp dp) in
          ret (tmp', out ++ outs)) h1 (λ r h',
        r.1 = tmp ++ dp :: q ∧ (∀ l, l ∉ dp :: q → h' !! l = h !! l) ∧
        (∀ l, is_Some (h !! l) → is_Some (h' !! l)))) as Hrest.
    { intros out h1 Hh1 Hdp. apply wp_bind. eapply wp_mono.
      { apply (IH (qput tmp dp) h1). eapply Forall_impl; [exact Hal|].
        intros l Hl. simpl in *. destruct (decide (l = dp)) as [->|Hne]; [done|].
        by rewrite Hh1. }
      intros [tmp' outs] h' (Htmp & Hframe & Hdom). cbn [fst] in Htmp. subst tmp'.
      apply wp_ret. cbn [fst]. split; [|split].
      - unfold qput. by rewrite <- app_assoc.
      - intros l [Hne Hl]%not_elem_of_cons. rewrite Hframe by done. by apply Hh1.
      - intros l Hl. apply Hdom. destruct (decide (l = dp)) as [->|Hne]; [done|].
        by rewrite Hh1. }
    pose proof (Hdef (doc_id d)) as Hpage.
    destruct (PageIO.pageload (doc_id d) pagedir) as [page|out|]; [| |done].
    + apply wp_bind. apply wp_store; [by exists d|]. apply wp_ret. apply Hrest.
      * intros l Hl. by apply lookup_insert_ne.
      * rewrite lookup_insert_eq. by eexists.
    + apply wp_ret. apply Hrest; [done|by exists d].
Qed.

Lemma get_metadata_spec pagedir (q : queue_t loc) h :
  PageIO.defined_on pagedir → allocated h q →
  wp (get_metadata q pagedir) h (λ r h',
    r.1 = q ∧ (∀ l, l ∉ q → h' !! l = h !! l) ∧
    (∀ l, is_Some (h !! l) → is_Some (h' !! l))).
Proof.
  intros Hdef Hal. unfold get_metadata. apply wp_bind.
  eapply wp_mono; [by apply (get_metadata_loop_spec pagedir q qopen h)|].
  intros [tmp out] h' (Htmp & ? & ?). cbn [fst] in Htmp. subst tmp.
  apply wp_ret. cbn [fst]. by rewrite restore_spec.
Qed.

Lemma load_all_spec (q : queue_t loc) h :
  allocated h q → wp (load_all q) h (λ r h', h' = h ∧ r.*1 = q).
Proof.
  induction 1 as [|l q [d Hd] _ IH]; simpl.
  - by apply wp_ret.
  - apply wp_bind. eapply wp_load; [done|]. apply wp_bind.
    eapply wp_mono; [exact IH|]. intros r h' [-> <-]. by apply wp_ret.
Qed.

Lemma insert_doc_perm a l : insert_doc a l ≡ₚ a :: l.
Proof.
  induction l as [|b l IH]; simpl; [done|].
  destruct (0 <? comparator a.2 b.2); [|done].
  rewrite IH. apply Permutation_swap.
Qed.

Lemma sort_queue_spec (q : queue_t loc) h :
  allocated h q → wp (sort_queue q) h (λ r h', h' = h ∧ r ≡ₚ q).
Proof.
  intros Hal. unfold sort_queue. apply wp_bind.
  eapply wp_mono; [by apply load_all_spec|].
  intros cells h' [-> <-]. apply wp_ret. split; [done|].
  apply fmap_Permutation. clear. induction cells as [|a cells IH]; simpl; [done|].
  by rewrite insert_doc_perm, IH.
Qed.

Lemma print_docs_spec (q : queue_t loc) h :
  allocated h q → NoDup q →
  wp (print_docs q) h (λ _ h', ∀ l, l ∉ q → h' !! l = h !! l).
Proof.
  revert h. induction q as [|doc q IH]; intros h Hal Hnd; simpl.
  - by apply wp_ret.
  - apply Forall_cons in Hal as [[d Hd] Hal]. apply NoDup_cons in Hnd as [Hdoc Hnd].
    apply wp_bind. eapply wp_load; [done|]. apply wp_bind.
    unfold free_doc. apply wp_free; [by exists d|]. apply wp_bind.
    eapply wp_mono.
    { apply IH; [|done]. apply Forall_forall. intros l Hl.
      rewrite lookup_delete_ne by (by intros ->).
      by apply (proj1 (Forall_forall _ _) Hal). }
    intros out h' Hframe. apply wp_ret.
    intros l [Hne Hl]%not_elem_of_cons. rewrite Hframe by done.
    by apply lookup_delete_ne.
Qed.

(** One round of [main] returns the index it was given and leaves the
    cells of the index as they are, whatever the query. *)
Lemma query_step_spec pagedir index (query : cstring) h :
  PageIO.defined_on pagedir → index_allocated h index →
  wp (query_step pagedir index query) h (λ r h',
    r.2 = index ∧ index_cells_agree h h' index).
Proof.
  intros Hdef Hal. unfold query_step.
  destruct (cstr query) as [|c0 rest]; [by apply wp_ret|].
  destruct (tokenize_query query) as [ts|]; [|by apply wp_ret].
  destruct (validate_query ts) eqn:Hv; [|by apply wp_ret].
  destruct (validated_starts_with_term ts Hv) as [Hne Hstart].
  apply wp_bind. eapply wp_mono; [by apply evaluate_spec|].
  intros r h1 (ranked & R & -> & Hinv & Hrep & _). simpl.
  destruct Hinv as [Hi Hnd Hst]. simpl in Hnd, Hst. rewrite app_nil_r in Hnd, Hst.
  apply wp_bind. eapply wp_mono.
  { apply get_metadata_spec; [done|]. by eapply represents_allocated. }
  intros [r messages] h2 (Hr & Hframe2 & Hdom2). cbn [fst] in Hr. subst r.
  apply wp_bind. eapply wp_mono.
  { apply sort_queue_spec. apply Forall_forall. intros l Hl.
    apply Hdom2. by apply Hst. }
  intros sorted h3 [-> Hperm].
  apply wp_bind. eapply wp_mono.
  { apply print_docs_spec.
    - apply Forall_forall. intros l Hl. apply Hdom2, Hst. by rewrite <- Hperm.
    - by rewrite Hperm. }
  intros out h4 Hframe4. apply wp_ret. split; [done|].
  intros l Hl. rewrite Hframe4, Hframe2.
  - by apply Hi.
  - intros Hin. by destruct (Hst l Hin).
  - rewrite Hperm. intros Hin. by destruct (Hst l Hin).
Qed.

(** *** The claims *)

Lemma wrap_int_id z : in_int z → wrap_int z = z.
Proof.
  unfold in_int, INT_MIN, INT_MAX, wrap_int. intros Hz.
  rewrite Z.mod_small by lia. lia.
Qed.

(** The lists the evaluation builds hold each document once. *)
Lemma eval_scores_ids P (tokens : list cstring) :
  ∀ SS op SS', Forall (λ A : scores, NoDup A.*1) SS →
  eval_scores P tokens SS op = Some SS' → Forall (λ A : scores, NoDup A.*1) SS'.
Proof.
  induction tokens as [|t tokens IH]; intros SS op SS' HSS; simpl.
  - by intros [= <-].
  - destruct (is_operator t); [by apply IH|].
    assert (NoDup (union_scores [] (P t)).*1) as Hnew
      by (apply union_scores_ids; constructor).
    destruct (streq op s_and).
    + destruct SS as [|Q SS]; [done|]. apply Forall_cons in HSS as [_ HSS].
      apply IH. constructor; [by apply inter_scores_ids|done].
    + apply IH. by constructor.
Qed.

(** C1, amended: for result lists [A] (in queue [qp1]) and [B] (in
    [qp2]) as the evaluation builds them (queues of cells of their own,
    each document once) [get_intersection] returns a list with exactly
    one entry per document that is in both, with the smaller of the two
    scores, and [get_union] one with exactly one entry per document that
    is in either: for a document in both the sum of the scores as an
    [int] holds it ([int_add]: the sum wraps around beyond [INT_MAX]),
    its score for a document in one only. *)
Theorem C1_and_or_combine (h : heap) (qp1 qp2 : queue_t loc) (A B : scores) :
  represents h qp1 A → represents h qp2 B →
  NoDup (qp1 ++ qp2) → NoDup A.*1 → NoDup B.*1 →
  wp (get_intersection qp1 qp2) h (λ intersect h',
    ∃ R, represents h' intersect R ∧ NoDup R.*1 ∧
      ∀ i s, (i, s) ∈ R ↔
        ∃ sa sb, (i, sa) ∈ A ∧ (i, sb) ∈ B ∧ s = Z.min sa sb) ∧
  wp (get_union qp1 qp2) h (λ r h',
    ∃ R, represents h' r.1 R ∧ NoDup R.*1 ∧
      ∀ i s, (i, s) ∈ R ↔
        (∃ sa sb, (i, sa) ∈ A ∧ (i, sb) ∈ B ∧ s = int_add sa sb) ∨
        ((i, s) ∈ A ∧ i ∉ B.*1) ∨ ((i, s) ∈ B ∧ i ∉ A.*1)).
Proof.
  intros HA HB Hnd HAids HBids. split.
  - eapply wp_mono; [by apply (get_intersection_spec qp1 qp2 h A B)|].
    intros r h' (_ & _ & _ & Hrep). exists (inter_scores A B).
    split; [done|]. split; [by apply inter_scores_ids|].
    intros i s. rewrite elem_score_iff by (by apply inter_scores_ids).
    rewrite score_inter. split.
    + destruct (score i A) as [sa|] eqn:Ha; [|done].
      destruct (score i B) as [sb|] eqn:Hb; [|done].
      intros [= <-]. exists sa, sb. by repeat split; try apply score_Some_elem.
    + intros (sa & sb & Ha & Hb & ->).
      by rewrite (elem_score _ _ _ HAids Ha), (elem_score _ _ _ HBids Hb).
  - apply NoDup_app in Hnd as (Hnd1 & Hdis & Hnd2).
    eapply wp_mono; [by apply (get_union_spec qp1 qp2 h A B)|].
    intros r h' (new & -> & _ & _ & _ & Hrep). exists (union_scores A B).
    split; [done|]. split; [by apply union_scores_ids|].
    intros i s. rewrite elem_score_iff by (by apply union_scores_ids).
    rewrite score_union by done. split.
    + destruct (score i A) as [sa|] eqn:Ha; destruct (score i B) as [sb|] eqn:Hb;
        intros [= <-].
      * left. exists sa, sb.
        pose proof (score_Some_elem _ _ _ Ha). pose proof (score_Some_elem _ _ _ Hb).
        by repeat split.
      * right. left. split; [by apply score_Some_elem|by apply score_None].
      * right. right. split; [by apply score_Some_elem|by apply score_None].
    + intros [(sa & sb & Ha & Hb & ->)|[[Ha Hb]|[Hb Ha]]].
      * by rewrite (elem_score _ _ _ HAids Ha), (elem_score _ _ _ HBids Hb).
      * apply score_None in Hb. by rewrite (elem_score _ _ _ HAids Ha), Hb.
      * apply score_None in Ha. by rewrite (elem_score _ _ _ HBids Hb), Ha.
Qed.

Definition cell (id wc : Z) : rankedDoc_t := RankedDoc id wc None None None.

(** Two result lists: documents 1 and 2, and documents 1 and 3. *)
Definition two_lists : heap :=
  {[ 0%nat := cell 1 3; 1%nat := cell 2 5; 2%nat := cell 1 1; 3%nat := cell 3 4 ]}.

Lemma C1_and_or_combine_witness :
  wp (get_intersection [0%nat; 1%nat] [2%nat; 3%nat]) two_lists (λ intersect h',
    ∃ R, represents h' intersect R ∧ NoDup R.*1 ∧
      ∀ i s, (i, s) ∈ R ↔
        ∃ sa sb, (i, sa) ∈ [(1, 3); (2, 5)] ∧ (i, sb) ∈ [(1, 1); (3, 4)] ∧
                 s = Z.min sa sb) ∧
  wp (get_union [0%nat; 1%nat] [2%nat; 3%nat]) two_lists (λ r h',
    ∃ R, represents h' r.1 R ∧ NoDup R.*1 ∧
      ∀ i s, (i, s) ∈ R ↔
        (∃ sa sb, (i, sa) ∈ [(1, 3); (2, 5)] ∧ (i, sb) ∈ [(1, 1); (3, 4)] ∧
                  s = int_add sa sb) ∨
        ((i, s) ∈ [(1, 3); (2, 5)] ∧ i ∉ [(1, 1); (3, 4)].*1) ∨
        ((i, s) ∈ [(1, 1); (3, 4)] ∧ i ∉ [(1, 3); (2, 5)].*1)).
Proof.
  apply (C1_and_or_combine two_lists [0%nat; 1%nat] [2%nat; 3%nat]
           [(1, 3); (2, 5)] [(1, 1); (3, 4)]).
  - repeat constructor; eexists; (split; [vm_compute; reflexivity|reflexivity]).
  - repeat constructor; eexists; (split; [vm_compute; reflexivity|reflexivity]).
  - apply (bool_decide_unpack _). vm_compute. exact I.
  - apply (bool_decide_unpack _). vm_compute. exact I.
  - apply (bool_decide_unpack _). vm_compute. exact I.
Defined.

(** Two result lists that hold document 1 with the scores [INT_MAX]
    and 1. *)
Definition full_lists : heap := {[ 0%nat := cell 1 INT_MAX; 1%nat := cell 1 1 ]}.

(** The claim as stated fails where the sum of two scores leaves [int]:
    the score [get_union] gives document 1 is not [INT_MAX + 1]. *)
Lemma C1_sum_overflow_counterexample :
  represents full_lists [0%nat] [(1, INT_MAX)] ∧
  represents full_lists [1%nat] [(1, 1)] ∧
  ∃ h' : heap,
    get_union [0%nat] [1%nat] full_lists = Some (([0%nat], [1%nat]), h') ∧
    represents h' [0%nat] [(1, -2147483648)] ∧
    -2147483648 ≠ INT_MAX + 1.
Proof.
  split; [|split].
  - repeat constructor; eexists; (split; [vm_compute; reflexivity|reflexivity]).
  - repeat constructor; eexists; (split; [vm_compute; reflexivity|reflexivity]).
  - eexists. split; [vm_compute; reflexivity|]. split; [|done].
    repeat constructor; eexists; (split; [vm_compute; reflexivity|reflexivity]).
Qed.

Lemma eval_scores_ext P P' (tokens : list cstring) :
  (∀ t, P t = P' t) →
  ∀ SS op, eval_scores P tokens SS op = eval_scores P' tokens SS op.
Proof.
  intros Hext. induction tokens as [|t tokens IH]; intros SS op; simpl; [done|].
  destruct (is_operator t); [done|]. rewrite Hext.
  destruct (streq op s_and); [|done]. by destruct SS.
Qed.

(** C8: the evaluation of an accepted query returns the index with the
    same entries and the same posting queues in the same order, and
    leaves every cell of the index (id and count) as it was; so the
    evaluation of the query, from any heap that holds the index so, gives
    a ranked queue with the same documents and the same scores.  So does
    a whole round of [main], where [pageload] is defined on the files of
    the page directory. *)
Theorem C8_queries_leave_index_unchanged (pagedir : PageIO.directory)
        (index : index_t) (h : heap) (query : cstring) (ts : list cstring) :
  index_allocated h index →
  tokenize_query query = Some ts → validate_query ts = true →
  (PageIO.defined_on pagedir →
   wp (query_step pagedir index query) h (λ r h',
     r.2 = index ∧ index_cells_agree h h' index)) ∧
  ∃ R : scores, ∀ h2 : heap, index_cells_agree h h2 index →
    wp (evaluate ts index) h2 (λ r h2',
      r.2 = index ∧ index_cells_agree h2 h2' index ∧ represents h2' r.1 R).
Proof.
  intros Hal Htok Hv. split; [intros Hdef; by apply query_step_spec|].
  destruct (validated_starts_with_term ts Hv) as [Hne Hstart].
  destruct (evaluate_spec h index ts Hal Hne Hstart)
    as (r & h' & _ & ranked & R & _ & _ & _ & HR).
  exists R. intros h2 Hag.
  assert (index_allocated h2 index) as Hal2
    by (intros l Hl; rewrite (Hag l Hl); by apply Hal).
  eapply wp_mono; [by apply (evaluate_spec h2 index ts)|].
  intros r2 h2' (ranked2 & R2 & -> & Hinv & Hrep & HR2). simpl.
  split; [done|]. split; [intros l Hl; by apply Hinv|].
  replace R with R2; [done|].
  unfold evaluate_scores in *.
  rewrite (eval_scores_ext _ (index_scores h index)) in HR2
    by (intros t; by apply index_scores_agree).
  congruence.
Qed.

Definition dog_index : index_t :=
  hput (hopen 1000) (IndexIO.Entry (str "dog") [0%nat; 1%nat]) (str "dog") 3.

Definition dog_heap : heap := {[ 0%nat := cell 1 3; 1%nat := cell 2 5 ]}.

Lemma dog_index_locs : index_locs dog_index = [0%nat; 1%nat].
Proof. vm_compute. reflexivity. Qed.

Lemma C8_queries_leave_index_unchanged_witness :
  wp (query_step (PageIO.Dir true ∅) dog_index (str "dog")) dog_heap (λ r h',
    r.2 = dog_index ∧ index_cells_agree dog_heap h' dog_index) ∧
  ∃ R : scores, ∀ h2 : heap, index_cells_agree dog_heap h2 dog_index →
    wp (evaluate [str "dog"] dog_index) h2 (λ r h2',
      r.2 = dog_index ∧ index_cells_agree h2 h2' dog_index ∧ represents h2' r.1 R).
Proof.
  destruct (C8_queries_leave_index_unchanged (PageIO.Dir true ∅) dog_index dog_heap
              (str "dog") [str "dog"]) as [Hround Heval].
  - intros l. rewrite dog_index_locs.
    intros [->|[->|[]%elem_of_nil]%elem_of_cons]%elem_of_cons;
      vm_compute; by eexists.
  - vm_compute. reflexivity.
  - vm_compute. reflexivity.
  - split; [|exact Heval]. apply Hround. intros id.
    unfold PageIO.pageload. cbn [PageIO.files]. by rewrite lookup_empty.
Defined.

End EvalTheory.

(** ** Where the code leaves the specification *)

Module PageFiles.
Import Webpage PageIO.

(** A page whose html starts with a newline. *)
Definition page_ws : webpage_t :=
  Page (str "http://a/") 0 (newline :: str "<html></html>") 14.

(** C2, failing input: the white space in front of the html is taken
    by the "\n" that ends the format of the third [fscanf], so the page
    that comes back has lost its first byte. *)
Lemma C2_leading_whitespace_is_lost :
  (pagesave (Some page_ws) 1 (Dir true ∅)).1 = 0 ∧
  pageload 1 (pagesave (Some page_ws) 1 (Dir true ∅)).2
  = PageLoaded (Page (str "http://a/") 0 (str "<html></html>") 13) ∧
  Page (str "http://a/") 0 (str "<html></html>") 13 ≠ page_ws.
Proof. split; [|split]; [vm_compute; reflexivity..|discriminate]. Qed.

End PageFiles.

Module IndexFiles.
Import Queue Hash IndexIO.

(** The postings of a word in an index. *)
Definition postings (index : index_t) (w : cstring) : option (queue_t document_t) :=
  documents <$> hsearch index (λ ep, streq (word ep) w) w (strlen w).

(** One word that occurs twelve times in each of 200 documents. *)
Definition long_index : index_t :=
  hput (hopen hsize)
       (Entry (str "aaaaa") (map (λ i, Doc i 12) (seqZ 1 200)))
       (str "aaaaa") 5.

(** C3, failing input: the line of the word is longer than the buffer
    [indexload] reads lines into, so [fgets] returns it in two pieces;
    the second piece is read as a line of its own, whose first token, a
    digit of a count, becomes a word. *)
Lemma C3_long_line_is_split :
  length <$> postings long_index (str "aaaaa") = Some 200%nat ∧
  postings long_index (str "2") = None ∧
  (MAX_LINE_LEN ≤ length (index_file long_index))%nat ∧
  match indexload (Some (index_file long_index)) with
  | Loaded index' =>
      length <$> postings index' (str "aaaaa") = Some 161%nat ∧
      last <$> postings index' (str "aaaaa") = Some (Some (Doc 161 1)) ∧
      length <$> postings index' (str "2") = Some 39%nat
  | LoadNull | LoadUndefined => False
  end.
Proof.
  split; [vm_compute; reflexivity|]. split; [vm_compute; reflexivity|].
  split; [apply Nat.leb_le; vm_compute; reflexivity|].
  vm_compute. repeat split; reflexivity.
Qed.

End IndexFiles.

Module Rendering.
Import Queue Query.

(** What [main] prints for the ranked queue [q]. *)
Definition render (pagedir : PageIO.directory) (q : queue_t loc) : M cstring :=
  let! '(q, messages) := get_metadata q pagedir in
  let! q := sort_queue q in
  let! out := print_docs q in
  ret (messages ++ out).

(** A ranked document with id 7 and score 3. *)
Definition ranked_7 : heap := {[ 0%nat := RankedDoc 7 3 None None None ]}.

(** A page directory where page 7 has neither title nor description. *)
Definition bare_dir : PageIO.directory :=
  PageIO.Dir true
    {[ str "7" := PageIO.page_file
                    (Webpage.Page (str "http://a/") 0 (str "<html>dog</html>") 16) ]}.

(** C7, failing input: with no page file for the document the three
    fields stay NULL and go to [printf] as they are; glibc prints them as
    "(null)", not as empty strings.  The same happens to the title and
    the description of a page without the markers. *)
Lemma C7_missing_fields_print_null :
  PageIO.pageload 7 (PageIO.Dir true ∅) = PageIO.PageNull [] ∧
  render (PageIO.Dir true ∅) [0%nat] ranked_7
  = Some (str "title: (null)" ++ [newline] ++
          str "rank:3 doc:7 : (null)" ++ [newline] ++
          str "(null)..." ++ [newline; newline], ∅) ∧
  render bare_dir [0%nat] ranked_7
  = Some (str "title: (null)" ++ [newline] ++
          str "rank:3 doc:7 : http://a/" ++ [newline] ++
          str "(null)..." ++ [newline; newline], ∅).
Proof. repeat split; vm_compute; reflexivity. Qed.

(** A page directory where file 7 stops after the url. *)
Definition cut_dir : PageIO.directory :=
  PageIO.Dir true {[ str "7" := str "http://a/" ++ [newline] ]}.

(** The message of [pageload] comes out before the results. *)
Example unreadable_page_prints_message :
  render cut_dir [0%nat] ranked_7
  = Some (str "Failed to read depth from file id: 7" ++ [newline] ++
          str "title: (null)" ++ [newline] ++
          str "rank:3 doc:7 : (null)" ++ [newline] ++
          str "(null)..." ++ [newline; newline], ∅).
Proof. vm_compute. reflexivity. Qed.

End Rendering.

(** ** Printing and reading numbers *)

Module Decimals.
Import LibcFacts.

Lemma isdigit_not_space c : isdigit c = true → isspace c = false.
Proof. destruct c as [[] [] [] [] [] [] [] []]; vm_compute; congruence. Qed.

Lemma isdigit_not_sign c :
  isdigit c = true →
  bool_decide (c = "-"%char) = false ∧ bool_decide (c = "+"%char) = false.
Proof.
  intros Hc. split; apply bool_decide_eq_false_2; intros ->; discriminate Hc.
Qed.

Lemma isdigit_not_NUL c : isdigit c = true → c ≠ NUL.
Proof. intros Hc ->. discriminate Hc. Qed.

Lemma print_uint_head (u : uint) :
  u ≠ Nil → ∃ c s, print_uint u = c :: s ∧ isdigit c = true.
Proof. destruct u; [done|..]; intros _; simpl; eauto. Qed.

Lemma scan_digits_print_uint_pos (u : uint) (rest : cstring) (p : positive) :
  starts_with_digit rest = false →
  scan_digits (print_uint u ++ rest) (Z.pos p) = (Z.pos (Pos.of_uint_acc u p), rest).
Proof.
  intros Hrest. revert p.
  induction u as [|u IH|u IH|u IH|u IH|u IH|u IH|u IH|u IH|u IH|u IH]; intros p;
    [|cbn [print_uint app scan_digits Pos.of_uint_acc]; rewrite <- IH;
      match goal with |- context [isdigit ?c] => change (isdigit c) with true end;
      cbv iota; f_equal; unfold digit_val, byte; simpl; lia..].
  simpl. destruct rest as [|c rest]; [done|]. simpl in *. by rewrite Hrest.
Qed.

Lemma scan_digits_print_uint (u : uint) (rest : cstring) :
  starts_with_digit rest = false →
  scan_digits (print_uint u ++ rest) 0 = (Z.of_N (Pos.of_uint u), rest).
Proof.
  intros Hrest.
  induction u as [|u IH|u IH|u IH|u IH|u IH|u IH|u IH|u IH|u IH|u IH];
    [|exact IH|cbn [print_uint app scan_digits Pos.of_uint];
      match goal with |- context [isdigit ?c] => change (isdigit c) with true end;
      cbv iota; cbn [Z.of_N]; rewrite <- scan_digits_print_uint_pos by done;
      f_equal..].
  simpl. destruct rest as [|c rest]; [done|]. simpl in *. by rewrite Hrest.
Qed.

Lemma to_int_cases (z : Z) :
  (∃ u, Z.to_int z = Pos u ∧ u ≠ Nil ∧ Z.of_N (Pos.of_uint u) = z) ∨
  (∃ u, Z.to_int z = Neg u ∧ u ≠ Nil ∧ - Z.of_N (Pos.of_uint u) = z).
Proof.
  destruct z as [|p|p]; simpl.
  - left. exists (D0 Nil). by repeat split.
  - left. exists (Pos.to_uint p). split; [done|]. split.
    + apply DecimalPos.Unsigned.to_uint_nonnil.
    + by rewrite DecimalPos.Unsigned.of_to.
  - right. exists (Pos.to_uint p). split; [done|]. split.
    + apply DecimalPos.Unsigned.to_uint_nonnil.
    + by rewrite DecimalPos.Unsigned.of_to.
Qed.

(** A number within [int] is converted to itself. *)
Lemma decimal_int_id (z : Z) : in_int z → decimal_int z = z.
Proof.
  intros Hz. unfold decimal_int, strtol_value, LONG_MIN, LONG_MAX.
  rewrite <- (EvalTheory.wrap_int_id z Hz) at 2. f_equal.
  unfold in_int, INT_MIN, INT_MAX in Hz. lia.
Qed.

Lemma decimal_int_in_int (z : Z) : in_int (decimal_int z).
Proof.
  unfold decimal_int, in_int, wrap_int, INT_MIN, INT_MAX.
  pose proof (Z.mod_pos_bound (strtol_value z + 2 ^ 31) (2 ^ 32)). lia.
Qed.

(** Reading back what [%d] printed. *)
Lemma scan_int_print_int (z : Z) (rest : cstring) :
  starts_with_digit rest = false →
  scan_int (print_int z ++ rest) = Some (decimal_int z, rest).
Proof.
  intros Hrest. unfold scan_int, print_int.
  destruct (to_int_cases z) as [(u & -> & Hu & Hz)|(u & -> & Hu & Hz)];
    destruct (print_uint_head u Hu) as (c & s & Hcs & Hc);
    pose proof (isdigit_not_space c Hc) as Hsp;
    destruct (isdigit_not_sign c Hc) as [Hm Hp].
  - pose proof (scan_digits_print_uint u rest Hrest) as Hscan.
    rewrite Hcs in Hscan |- *. cbn [app skip_space]. rewrite Hsp, Hm, Hp.
    cbn [starts_with_digit]. rewrite Hc. cbn [app] in Hscan. rewrite Hscan.
    by rewrite Hz.
  - pose proof (scan_digits_print_uint u rest Hrest) as Hscan.
    rewrite Hcs in Hscan |- *. cbn [app skip_space].
    change (isspace "-") with false. cbv iota.
    rewrite bool_decide_eq_true_2 by done.
    cbn [starts_with_digit]. rewrite Hc. cbn [app] in Hscan. rewrite Hscan.
    by rewrite Hz.
Qed.

Lemma print_int_head (z : Z) :
  ∃ c s, print_int z = c :: s ∧ isspace c = false ∧ c ≠ NUL.
Proof.
  unfold print_int.
  destruct (to_int_cases z) as [(u & -> & Hu & _)|(u & -> & Hu & _)].
  - destruct (print_uint_head u Hu) as (c & s & -> & Hc). exists c, s.
    split; [done|]. split; [by apply isdigit_not_space|by apply isdigit_not_NUL].
  - eexists _, _. split; [done|]. by split.
Qed.

Lemma print_uint_no_NUL (u : uint) : NUL ∉ print_uint u.
Proof.
  induction u; simpl; [apply not_elem_of_nil|..];
    (apply not_elem_of_cons; split; [discriminate|done]).
Qed.

Lemma print_int_no_NUL (z : Z) : NUL ∉ print_int z.
Proof.
  unfold print_int. destruct (Z.to_int z); [apply print_uint_no_NUL|].
  apply not_elem_of_cons. split; [discriminate|apply print_uint_no_NUL].
Qed.

(** [atoi] of what [%d] printed. *)
Lemma atoi_print_int (z : Z) : atoi (print_int z) = decimal_int z.
Proof.
  unfold atoi. rewrite (cstr_id _ (print_int_no_NUL z)).
  rewrite <- (app_nil_r (print_int z)). by rewrite scan_int_print_int.
Qed.

(** Numbers outside [int]: within [long] the low 32 bits are kept,
    beyond [long] strtol answers with the bound. *)
Example atoi_beyond_int :
  atoi (str "4294967297") = 1 ∧
  atoi (str "2147483648") = -2147483648 ∧
  atoi (str "99999999999999999999") = -1 ∧
  atoi (str "-99999999999999999999") = 0.
Proof. repeat split; vm_compute; reflexivity. Qed.

End Decimals.

(** ** Pages that survive the file *)

Module PageRoundTrip.
Import Webpage PageIO LibcFacts Decimals.

(** A page [pageload] reads back as it was saved: the url is a non-empty
    word without white space that fits the 1024-byte buffer, the depth
    is an [int], the length is that of the html and below [INT_MAX]
    (the block for the html has one byte more), and the html has no NUL
    and no 0xFF byte and does not start with white space. *)
Record storable (p : webpage_t) : Prop := Storable {
  url_nonempty : url p ≠ [];
  url_word : Forall (λ c, isspace c = false ∧ c ≠ NUL) (url p);
  url_fits : (length (url p) < 1024)%nat;
  depth_int : in_int (depth p);
  html_len_fits : html_len p < INT_MAX;
  html_len_exact : html_len p = Z.of_nat (length (html p));
  html_bytes : Forall (λ c, c ≠ NUL ∧ schar c ≠ -1) (html p);
  html_start : match html p with c :: _ => isspace c = false | [] => True end
}.

Lemma skip_space_id (s : cstring) :
  match s with c :: _ => isspace c = false | [] => True end → skip_space s = s.
Proof. destruct s as [|c s]; [done|]. simpl. by intros ->. Qed.

Lemma scan_word_app (w rest : cstring) (c : ascii) :
  Forall (λ c, isspace c = false ∧ c ≠ NUL) w → isspace c = true →
  scan_word (w ++ c :: rest) = (w, c :: rest).
Proof.
  intros Hw Hc. induction Hw as [|x w [Hx _] _ IH]; simpl.
  - by rewrite Hc.
  - by rewrite Hx, IH.
Qed.

Lemma read_html_all (html : cstring) :
  Forall (λ c, c ≠ NUL ∧ schar c ≠ -1) html → read_html html (length html) = html.
Proof.
  induction 1 as [|c html [_ Hc] _ IH]; simpl; [done|].
  apply Z.eqb_neq in Hc. by rewrite Hc, IH.
Qed.

Lemma Forall_no_NUL (P : ascii → Prop) (s : cstring) :
  Forall (λ c, P c ∧ c ≠ NUL) s → NUL ∉ s.
Proof.
  induction 1 as [|c s [_ Hc] _ IH]; [apply not_elem_of_nil|].
  apply not_elem_of_cons. by split.
Qed.

Lemma skip_space_print_int (z : Z) (rest : cstring) :
  skip_space (print_int z ++ rest) = print_int z ++ rest.
Proof.
  destruct (print_int_head z) as (c & s & -> & Hc & _). simpl. by rewrite Hc.
Qed.

(** The file [pagesave] writes for a storable page is read back as the
    page. *)
Lemma pageload_page_file (p : webpage_t) (id : Z) (dir : directory) :
  storable p → files dir !! print_int id = Some (page_file p) →
  pageload id dir = PageLoaded p.
Proof.
  intros [Hne Hurl Hfit Hd Hl Hlen Hhtml Hstart] Hfile. unfold pageload.
  rewrite Hfile.
  destruct p as [u d h n]. cbn [url depth html html_len] in *. subst n.
  assert (in_int (Z.of_nat (length h))) as Hl'
    by (unfold in_int, INT_MIN, INT_MAX in *; lia).
  assert (NUL ∉ u) as Hu0 by (by apply (Forall_no_NUL (λ c, isspace c = false))).
  assert (NUL ∉ h) as Hh0.
  { eapply (Forall_no_NUL (λ c, schar c ≠ -1)), Forall_impl; [exact Hhtml|].
    by intros c [? ?]. }
  assert ((URL_SIZE <=? Z.of_nat (length u)) = false) as Hroom
    by (apply Z.leb_gt; unfold URL_SIZE; lia).
  unfold page_file, print_str. cbn [url depth html html_len app].
  rewrite !cstr_id by done.
  unfold fscanf_s_nl.
  destruct u as [|c u]; [done|].
  pose proof (Forall_inv Hurl) as [Hc _].
  rewrite skip_space_id by (by cbn [app]).
  rewrite scan_word_app by done.
  change (skip_space (newline :: ?s)) with (skip_space s).
  rewrite skip_space_print_int, Hroom.
  unfold fscanf_d_nl. rewrite scan_int_print_int by done. cbn [mbind option_bind].
  change (skip_space (newline :: ?s)) with (skip_space s).
  rewrite skip_space_print_int.
  rewrite scan_int_print_int by done. cbn [mbind option_bind].
  change (skip_space (newline :: ?s)) with (skip_space s).
  rewrite skip_space_id by done.
  rewrite !decimal_int_id by done.
  replace (Z.of_nat (length h) <? -1) with false by (symmetry; apply Z.ltb_ge; lia).
  replace (Z.of_nat (length h) =? INT_MAX) with false
    by (symmetry; apply Z.eqb_neq; lia).
  cbn [orb]. rewrite Nat2Z.id, read_html_all by done.
  unfold webpage_new, strlen. by rewrite !cstr_id.
Qed.

(** X1 (pagesave, pageload): saving a storable page succeeds, and loading
    the file gives the page back. *)
Theorem storable_page_round_trip (p : webpage_t) (id : Z) (dir : directory) :
  writable dir = true → storable p →
  (pagesave (Some p) id dir).1 = 0 ∧
  pageload id (pagesave (Some p) id dir).2 = PageLoaded p.
Proof.
  intros Hw Hp. unfold pagesave. rewrite Hw. split; [done|].
  apply pageload_page_file; [done|]. cbn [snd files].
  apply lookup_insert_eq.
Qed.

Definition front_page : webpage_t :=
  Page (str "http://a/") 0 (str "<html>dog</html>") 16.

Lemma storable_page_round_trip_witness :
  pageload 1 (pagesave (Some front_page) 1 (Dir true ∅)).2 = PageLoaded front_page.
Proof.
  apply (storable_page_round_trip front_page 1 (Dir true ∅)); [reflexivity|].
  split; try (vm_compute; intuition (discriminate || lia)).
  - repeat constructor; discriminate.
  - repeat constructor; discriminate.
Defined.

End PageRoundTrip.

(** ** Indexes that survive the file *)

Module IndexRoundTrip.
Import Queue Hash IndexIO LibcFacts Decimals HashFacts.

Definition space : ascii := " "%char.
Definition CR : ascii := "013"%char.

(** A character of a word or of a number: no separator of the format. *)
Definition plain (c : ascii) : bool :=
  negb (bool_decide (c ∈ [space; CR; newline; NUL])).

Lemma islower_plain c : islower c = true → plain c = true.
Proof. destruct c as [[] [] [] [] [] [] [] []]; vm_compute; congruence. Qed.

Lemma digit_or_minus_plain c :
  isdigit c || bool_decide (c = "-"%char) = true → plain c = true.
Proof. destruct c as [[] [] [] [] [] [] [] []]; vm_compute; congruence. Qed.

Lemma plain_spec c :
  plain c = true → c ≠ space ∧ c ≠ CR ∧ c ≠ newline ∧ c ≠ NUL.
Proof.
  unfold plain. intros H%negb_true_iff%bool_decide_eq_false.
  rewrite !elem_of_cons in H. naive_solver.
Qed.

Lemma print_uint_plain (u : uint) : forallb plain (print_uint u) = true.
Proof. induction u; simpl; auto. Qed.

Lemma print_int_plain (z : Z) : forallb plain (print_int z) = true.
Proof.
  unfold print_int. destruct (Z.to_int z); simpl; apply print_uint_plain.
Qed.

(** *** The lines [fgets] returns *)

Lemma fgets_from_line (n : nat) (body f cur : cstring) (room : nat) :
  newline ∉ body → (length body < room)%nat →
  fgets_from n (body ++ newline :: f) cur room
  = (cur ++ body ++ [newline]) :: fgets_from n f [] (n - 1).
Proof.
  revert cur room. induction body as [|c body IH]; intros cur room Hnl Hlen; simpl.
  - done.
  - apply not_elem_of_cons in Hnl as [Hc Hnl].
    rewrite bool_decide_eq_false_2 by done.
    destruct room as [|[|room]]; [simpl in Hlen; lia..|].
    rewrite IH; [|done|simpl in Hlen; lia]. by rewrite <- app_assoc.
Qed.

Lemma fgets_all_lines (n : nat) (bodies : list cstring) :
  Forall (λ body, (newline ∉ body) ∧ (length body < n - 1)%nat) bodies →
  fgets_all n (concat (map (λ body, body ++ [newline]) bodies))
  = map (λ body, body ++ [newline]) bodies.
Proof.
  unfold fgets_all. induction 1 as [|body bodies [Hnl Hlen] _ IH]; [done|].
  simpl. rewrite <- app_assoc. simpl. rewrite fgets_from_line by done.
  by rewrite IH.
Qed.

(** *** The tokens of a line *)

Definition is_space (c : ascii) : bool := bool_decide (c ∈ [space]).

Lemma plain_not_space (w : cstring) :
  forallb plain w = true → forallb (λ c, negb (is_space c)) w = true.
Proof.
  induction w as [|c w IH]; simpl; [done|].
  intros [Hc Hw]%andb_true_iff. rewrite IH by done. rewrite andb_true_r.
  apply plain_spec in Hc as (Hc & _). unfold is_space.
  apply negb_true_iff, bool_decide_eq_false_2. by intros ->%list_elem_of_singleton.
Qed.

Lemma fields_field (delim : ascii → bool) (w rest : cstring) (d : ascii) :
  forallb (λ c, negb (delim c)) w = true → delim d = true →
  fields delim (w ++ d :: rest) = w :: fields delim rest.
Proof.
  intros Hw Hd. induction w as [|c w IH]; simpl.
  - by rewrite Hd.
  - simpl in Hw. apply andb_true_iff in Hw as [Hc Hw].
    apply negb_true_iff in Hc. by rewrite Hc, IH.
Qed.

(** The tokens [doc_queue_write_fn] writes for a queue. *)
Definition doc_tokens (docs : queue_t document_t) : list cstring :=
  concat (map (λ dp, [print_int (doc_id dp); print_int (word_count dp)]) docs).

Lemma print_int_nonempty (z : Z) : nonempty (print_int z) = true.
Proof. by destruct (print_int_head z) as (c & s & -> & _). Qed.

Lemma tokens_of_docs (docs : queue_t document_t) :
  List.filter nonempty (fields is_space (concat (map doc_queue_write_fn docs)))
  = doc_tokens docs.
Proof.
  induction docs as [|dp docs IH]; [done|].
  unfold doc_tokens. simpl. unfold doc_queue_write_fn at 1.
  rewrite <- !app_assoc. change (str " ") with [space]. cbn [app].
  rewrite fields_field by (done || apply plain_not_space, print_int_plain).
  rewrite fields_field by (done || apply plain_not_space, print_int_plain).
  cbn [List.filter]. rewrite !print_int_nonempty. by rewrite IH.
Qed.

Lemma load_docs_tokens (docs : queue_t document_t) :
  Forall (λ dp, in_int (doc_id dp) ∧ in_int (word_count dp)) docs →
  load_docs (doc_tokens docs) = Some docs.
Proof.
  induction 1 as [|[id wc] docs [Hid Hwc] _ IH]; [done|].
  unfold doc_tokens in *. simpl in *. rewrite IH. simpl.
  rewrite !atoi_print_int, !decimal_int_id by done. done.
Qed.

(** The characters of a line before its end. *)
Definition line_char (c : ascii) : Prop := c ≠ CR ∧ c ≠ newline ∧ c ≠ NUL.

Lemma plain_line_chars (w : cstring) : forallb plain w = true → Forall line_char w.
Proof.
  induction w as [|c w IH]; simpl; [done|].
  intros [Hc Hw]%andb_true_iff. constructor; [|by apply IH].
  apply plain_spec in Hc. unfold line_char. tauto.
Qed.

Lemma lower_plain (w : cstring) : forallb islower w = true → forallb plain w = true.
Proof.
  induction w as [|c w IH]; simpl; [done|].
  intros [Hc Hw]%andb_true_iff. by rewrite islower_plain, IH.
Qed.

Lemma line_chars_no (w : cstring) (c : ascii) :
  Forall line_char w → c ∈ [CR; newline; NUL] → c ∉ w.
Proof.
  intros Hw Hc Hin. rewrite Forall_forall in Hw. destruct (Hw c Hin) as (? & ? & ?).
  rewrite !elem_of_cons, elem_of_nil in Hc.
  destruct Hc as [->|[->|[->|[]]]]; congruence.
Qed.

Lemma strcspn_line (body rest : cstring) :
  Forall line_char body →
  strcspn (body ++ newline :: rest) [CR; newline] = length body.
Proof.
  induction 1 as [|c body (Hcr & Hnl & _) _ IH]; [done|].
  cbn [app strcspn length]. rewrite bool_decide_eq_false_2, IH; [done|].
  rewrite !elem_of_cons, elem_of_nil. by intros [?|[?|[]]].
Qed.

(** An entry [indexload] reads back: the word has no separator of the
    format in it (space, carriage return, newline, NUL), ids and counts
    are [int]s, and the line fits the buffer. *)
Record loadable (ep : entry_t document_t) : Prop := Loadable {
  word_nonempty : word ep ≠ [];
  word_plain : forallb plain (word ep) = true;
  docs_int : Forall (λ dp, in_int (doc_id dp) ∧ in_int (word_count dp)) (documents ep);
  line_fits : (length (index_write_fn ep) < MAX_LINE_LEN)%nat
}.

(** The line of an entry without its newline. *)
Definition line_body (ep : entry_t document_t) : cstring :=
  word ep ++ space :: concat (map doc_queue_write_fn (documents ep)).

Lemma word_chars (ep : entry_t document_t) : loadable ep → Forall line_char (word ep).
Proof. intros [_ Hw _ _]. by apply plain_line_chars. Qed.

Lemma index_write_fn_body (ep : entry_t document_t) :
  loadable ep → index_write_fn ep = line_body ep ++ [newline].
Proof.
  intros Hep. unfold index_write_fn, line_body, print_str.
  rewrite cstr_id; [by rewrite <- !app_assoc|].
  apply line_chars_no; [by apply word_chars|]. set_solver.
Qed.

Lemma line_body_chars (ep : entry_t document_t) :
  loadable ep → Forall line_char (line_body ep).
Proof.
  intros Hep. unfold line_body. apply Forall_app. split; [by apply word_chars|].
  apply Forall_cons. split; [by unfold line_char|]. apply Forall_concat, Forall_forall.
  intros s (dp & -> & _)%list_elem_of_fmap. unfold doc_queue_write_fn.
  change (str " ") with [space].
  rewrite !Forall_app, !Forall_singleton.
  repeat split; try (by unfold line_char); apply plain_line_chars, print_int_plain.
Qed.

Lemma load_line_entry (index : index_t) (ep : entry_t document_t) :
  loadable ep →
  load_line index (index_write_fn ep)
  = Some (hput index ep (word ep) (strlen (word ep))).
Proof.
  intros Hep. pose proof (line_body_chars ep Hep) as Hbody.
  rewrite index_write_fn_body by done. unfold load_line.
  rewrite strcspn_line, take_app_length by done.
  unfold strtok_all. rewrite cstr_id by (apply line_chars_no; [done|set_solver]).
  change (fields _ (line_body ep)) with (fields is_space (line_body ep)).
  unfold line_body. rewrite fields_field;
    [|destruct Hep; by apply plain_not_space|done].
  cbn [List.filter].
  assert (nonempty (word ep) = true) as ->.
  { destruct Hep as [Hne _ _ _]. by destruct (word ep). }
  rewrite tokens_of_docs, load_docs_tokens by by destruct Hep.
  cbn [mbind option_bind].
  rewrite cstr_id by (apply line_chars_no; [by apply word_chars|set_solver]).
  by destruct ep.
Qed.

(** The table [indexload] builds from the lines of [eps]. *)
Definition put_entries (index : index_t) (eps : list (entry_t document_t)) : index_t :=
  foldl (λ index ep, hput index ep (word ep) (strlen (word ep))) index eps.

Lemma load_lines_entries (eps : list (entry_t document_t)) :
  ∀ index, Forall loadable eps →
  load_lines index (map index_write_fn eps) = Some (put_entries index eps).
Proof.
  induction eps as [|ep eps IH]; intros index Heps; [done|].
  apply Forall_cons in Heps as [Hep Heps]. cbn [map load_lines].
  rewrite load_line_entry by done. cbn. by apply IH.
Qed.

Lemma fgets_all_index_file (eps : list (entry_t document_t)) :
  Forall loadable eps →
  fgets_all MAX_LINE_LEN (concat (map index_write_fn eps)) = map index_write_fn eps.
Proof.
  intros Heps.
  assert (map index_write_fn eps = map (λ body, body ++ [newline]) (map line_body eps))
    as ->.
  { rewrite map_map. apply map_ext_Forall. eapply Forall_impl; [done|].
    intros ep Hep. by apply index_write_fn_body. }
  apply fgets_all_lines. apply Forall_map. eapply Forall_impl; [done|].
  intros ep Hep. cbn beta. split.
  - apply line_chars_no; [by apply line_body_chars|set_solver].
  - pose proof (line_fits ep Hep) as Hfit.
    rewrite index_write_fn_body, length_app in Hfit by done.
    unfold MAX_LINE_LEN in *. simpl in Hfit. lia.
Qed.

(** *** The table is rebuilt slot by slot *)

(** Every entry sits in the slot of its word, as [hput] places it. *)
Definition in_place (index : index_t) : Prop :=
  tablesize index = hsize ∧
  length (hash_table index) = Z.to_nat hsize ∧
  ∀ (i : nat) q ep, hash_table index !! i = Some q → ep ∈ q →
    slot index (word ep) (strlen (word ep)) = i.

Lemma put_entries_slot (size : Z) (q : list (entry_t document_t)) :
  ∀ (buckets : list (queue_t (entry_t document_t))) q0 (k : nat),
  buckets !! k = Some q0 →
  Forall (λ ep, Z.to_nat (SuperFastHash (word ep) (strlen (word ep)) size) = k) q →
  put_entries (Table size buckets) q = Table size (<[k := q0 ++ q]> buckets).
Proof.
  induction q as [|ep q IH]; intros buckets q0 k Hk Hq.
  - rewrite app_nil_r, list_insert_id by done. done.
  - apply Forall_cons in Hq as [Hep Hq]. cbn [put_entries foldl].
    unfold hput at 2, slot. cbn [tablesize hash_table]. rewrite Hep.
    fold (put_entries (Table size (alter (λ q, qput q ep) k buckets)) q).
    rewrite (IH _ (q0 ++ [ep]) k); [| |done].
    + f_equal. rewrite <- app_assoc. cbn [app].
      apply list_eq. intros i. destruct (decide (i = k)) as [->|Hne].
      * rewrite !list_lookup_insert_eq; [done|rewrite ?length_alter; by eapply lookup_lt_Some..].
      * rewrite !list_lookup_insert_ne, list_lookup_alter_ne by done. done.
    + rewrite list_lookup_alter_eq. unfold queue_t in *. by rewrite Hk.
Qed.

Lemma put_entries_buckets (size : Z) (bs : list (queue_t (entry_t document_t))) :
  ∀ pre : list (queue_t (entry_t document_t)),
  (∀ (i : nat) q ep, bs !! i = Some q → ep ∈ q →
     Z.to_nat (SuperFastHash (word ep) (strlen (word ep)) size) = (length pre + i)%nat) →
  put_entries (Table size (pre ++ replicate (length bs) [])) (concat bs)
  = Table size (pre ++ bs).
Proof.
  induction bs as [|q bs IH]; intros pre Hbs; [done|].
  cbn [concat length replicate]. unfold put_entries. rewrite foldl_app.
  fold (put_entries (Table size (pre ++ [] :: replicate (length bs) [])) q).
  rewrite (put_entries_slot size q _ [] (length pre)).
  - unfold queue_t in *. rewrite insert_app_r_alt, Nat.sub_diag by done. cbn [app].
    change (<[0%nat := q]> ([] :: ?l)) with (q :: l).
    rewrite (cons_middle q pre), app_assoc.
    fold (put_entries (Table size ((pre ++ [q]) ++ replicate (length bs) [])) (concat bs)).
    rewrite IH; [by rewrite <- app_assoc|].
    intros i q' ep Hq' Hep. rewrite length_app. cbn [length].
    rewrite (Hbs (S i) q' ep); [lia|done..].
  - by rewrite list_lookup_middle.
  - apply Forall_forall. intros ep Hep.
    rewrite (Hbs 0%nat q ep); [lia|done..].
Qed.

Lemma put_entries_in_place (index : index_t) :
  in_place index → put_entries (hopen hsize) (happly_order index) = index.
Proof.
  intros (Hsize & Hlen & Hslot). destruct index as [size bs]. cbn in *. subst size.
  unfold hopen, happly_order. cbn [hash_table]. rewrite <- Hlen.
  apply (put_entries_buckets hsize bs []). intros i q ep Hq Hep.
  by apply (Hslot i q ep).
Qed.

(** [hput] under the word of the entry and [hupdate] with a function
    that keeps the word keep the entries in place. *)
Lemma in_place_hopen : in_place (hopen hsize).
Proof.
  split; [done|]. split; [apply length_replicate|].
  intros i q ep [-> _]%lookup_replicate Hep. by apply elem_of_nil in Hep.
Qed.

Lemma in_place_hput (index : index_t) (ep : entry_t document_t) :
  in_place index → in_place (hput index ep (word ep) (strlen (word ep))).
Proof.
  intros (Hsize & Hlen & Hslot). set (key := word ep). split; [done|].
  split; [cbn; by rewrite length_alter|].
  intros i q ep' Hq Hep'. cbn [hput hash_table] in Hq.
  change (slot (hput index ep key (strlen key)) ?w ?n) with (slot index w n).
  destruct (decide (i = slot index key (strlen key))) as [->|Hne].
  - rewrite list_lookup_alter_eq in Hq.
    destruct (hash_table index !! slot index key (strlen key)) as [q0|] eqn:Hq0;
      [|done].
    injection Hq as <-. unfold qput in Hep'. apply elem_of_app in Hep' as [Hin|Hin].
    + by apply (Hslot _ q0).
    + by apply list_elem_of_singleton in Hin as ->.
  - rewrite list_lookup_alter_ne in Hq by done. by apply (Hslot _ q).
Qed.

Lemma elem_of_qupdate {A} (q : queue_t A) (searchfn : A → bool) (f : A → A) (x : A) :
  x ∈ qupdate q searchfn f → ∃ y, y ∈ q ∧ (x = y ∨ x = f y).
Proof.
  induction q as [|e q IH]; cbn [qupdate]; [by intros ?%elem_of_nil|].
  destruct (searchfn e).
  - intros [->|Hin]%elem_of_cons.
    + exists e. split; [apply elem_of_cons; by left|by right].
    + exists x. split; [apply elem_of_cons; by right|by left].
  - intros [->|Hin]%elem_of_cons.
    + exists e. split; [apply elem_of_cons; by left|by left].
    + destruct (IH Hin) as (y & Hy & Hxy). exists y.
      split; [apply elem_of_cons; by right|done].
Qed.

Lemma in_place_hupdate (index : index_t) searchfn (key : cstring) (len : Z)
      (f : entry_t document_t → entry_t document_t) :
  (∀ ep, word (f ep) = word ep) → in_place index →
  in_place (hupdate index searchfn key len f).
Proof.
  intros Hf (Hsize & Hlen & Hslot). split; [done|].
  split; [cbn; by rewrite length_alter|].
  intros i q ep Hq Hep. cbn [hupdate hash_table] in Hq.
  change (slot (hupdate index searchfn key len f) ?w ?n) with (slot index w n).
  destruct (decide (i = slot index key len)) as [->|Hne].
  - rewrite list_lookup_alter_eq in Hq.
    destruct (hash_table index !! slot index key len) as [q0|] eqn:Hq0; [|done].
    injection Hq as <-. apply elem_of_qupdate in Hep as (y & Hy & [->| ->]).
    + by apply (Hslot _ q0).
    + rewrite Hf. by apply (Hslot _ q0).
  - rewrite list_lookup_alter_ne in Hq by done. by apply (Hslot _ q).
Qed.

Lemma in_place_put_entries (eps : list (entry_t document_t)) :
  ∀ index, in_place index → in_place (put_entries index eps).
Proof.
  induction eps as [|ep eps IH]; intros index Hin; [done|].
  apply IH. by apply in_place_hput.
Qed.


(** The file of an index whose lines fit the buffer is loaded back as the
    index. *)
Lemma indexload_index_file (index : index_t) :
  in_place index → Forall loadable (happly_order index) →
  indexload (Some (index_file index)) = Loaded index.
Proof.
  intros Hplace Heps. unfold indexload, index_file.
  rewrite fgets_all_index_file, load_lines_entries by done.
  by rewrite put_entries_in_place.
Qed.

(** X2 (indexsave, indexload): saving an index whose entries are in
    place and loadable succeeds, and loading the file gives the index
    back, slot by slot and in queue order. *)
Theorem loadable_index_round_trip (index : index_t) :
  in_place index → Forall loadable (happly_order index) →
  (indexsave index true).1 = 0 ∧
  indexload (indexsave index true).2 = Loaded index.
Proof.
  intros Hplace Heps. split; [done|]. by apply indexload_index_file.
Qed.

Definition pets : index_t :=
  put_entries (hopen hsize)
    [Entry (str "dog") [Doc 1 2; Doc 3 1]; Entry (str "cat") [Doc 2 5]].

Lemma loadable_index_round_trip_witness :
  indexload (indexsave pets true).2 = Loaded pets.
Proof.
  apply loadable_index_round_trip.
  - apply in_place_put_entries, in_place_hopen.
  - assert (happly_order pets
            = [Entry (str "dog") [Doc 1 2; Doc 3 1]; Entry (str "cat") [Doc 2 5]])
      as -> by (vm_compute; reflexivity).
    repeat constructor; try done; try (vm_compute; congruence); vm_compute; lia.
Defined.

End IndexRoundTrip.

(** ** The index the indexer builds *)

Module IndexerOutput.
Import Queue Hash Webpage PageIO IndexIO Indexer LibcFacts HashFacts.
Import IndexerTheory IndexRoundTrip.

(** What the word loop keeps true of every entry. *)
Definition tidy_doc (dp : document_t) : Prop :=
  in_int (doc_id dp) ∧ in_int (word_count dp).

Definition tidy_entry (ep : entry_t document_t) : Prop :=
  word ep ≠ [] ∧ forallb islower (word ep) = true ∧ Forall tidy_doc (documents ep).

Definition tidy (index : index_t) : Prop :=
  in_place index ∧ Forall tidy_entry (happly_order index).

Lemma in_int_wrap (z : Z) : in_int (wrap_int z).
Proof.
  unfold in_int, wrap_int, INT_MIN, INT_MAX.
  pose proof (Z.mod_pos_bound (z + 2 ^ 31) (2 ^ 32)). lia.
Qed.

Lemma islower_tolower c : isalpha c = true → islower (tolower c) = true.
Proof. destruct c as [[] [] [] [] [] [] [] []]; vm_compute; congruence. Qed.

Lemma forallb_lower_tolower (w : cstring) :
  forallb isalpha w = true → forallb islower (map tolower w) = true.
Proof.
  induction w as [|c w IH]; simpl; [done|].
  intros [Hc Hw]%andb_true_iff. by rewrite islower_tolower, IH.
Qed.

Lemma Forall_qupdate {A} (P : A → Prop) (q : queue_t A) searchfn (f : A → A) :
  (∀ x, P x → P (f x)) → Forall P q → Forall P (qupdate q searchfn f).
Proof.
  intros Hf Hq. apply Forall_forall. intros x (y & Hy & [->| ->])%elem_of_qupdate;
    rewrite Forall_forall in Hq; auto.
Qed.

Lemma Forall_happly_hupdate (P : entry_t document_t → Prop) (index : index_t)
      searchfn (key : cstring) (len : Z) f :
  (∀ ep, P ep → P (f ep)) → Forall P (happly_order index) →
  Forall P (happly_order (hupdate index searchfn key len f)).
Proof.
  intros Hf. unfold happly_order. cbn [hupdate hash_table].
  rewrite !Forall_concat. intros Hall. apply Forall_alter; [done|].
  intros q _ Hq. by apply Forall_qupdate.
Qed.

Lemma Forall_happly_hput (P : entry_t document_t → Prop) (index : index_t)
      (ep : entry_t document_t) (key : cstring) (len : Z) :
  P ep → Forall P (happly_order index) →
  Forall P (happly_order (hput index ep key len)).
Proof.
  intros Hep. unfold happly_order. cbn [hput hash_table].
  rewrite !Forall_concat. intros Hall. apply Forall_alter; [done|].
  intros q _ Hq. unfold qput. apply Forall_app. by split; [|apply Forall_singleton].
Qed.

Lemma tidy_hopen : tidy (hopen hsize).
Proof.
  split; [apply in_place_hopen|]. unfold happly_order. apply Forall_concat.
  cbn [hopen hash_table]. apply Forall_forall. by intros q [-> _]%elem_of_replicate.
Qed.

Lemma tidy_add_posting (index : index_t) (id : Z) (w : cstring) :
  w ≠ [] → forallb islower w = true → in_int id →
  tidy index → tidy (add_posting index id w).
Proof.
  intros Hne Hlow Hid [Hplace Hall]. unfold add_posting.
  destruct (hsearch index (entry_searchfn w) w (strlen w)) as [ep|].
  - destruct (qsearch (documents ep) (doc_searchfn id)).
    + split; [by apply in_place_hupdate|].
      apply Forall_happly_hupdate; [|done].
      intros e (He1 & He2 & He3). repeat split; [done..|]. cbn [documents].
      apply Forall_qupdate; [|done]. intros dp [Hd _].
      split; [done|apply in_int_wrap].
    + split; [by apply in_place_hupdate|].
      apply Forall_happly_hupdate; [|done].
      intros e (He1 & He2 & He3). repeat split; [done..|]. cbn [documents].
      unfold qput. apply Forall_app. split; [done|]. apply Forall_singleton.
      split; [done|]. by vm_compute.
  - assert (cstr w = w) as Hw.
    { apply cstr_id, line_chars_no; [|set_solver]. by apply plain_line_chars, lower_plain. }
    rewrite Hw. split.
    + by apply (in_place_hput index (Entry w (qput qopen (new_doc id 1)))).
    + apply Forall_happly_hput; [|done]. repeat split; [done..|].
      apply Forall_singleton. split; [done|]. by vm_compute.
Qed.

Lemma tidy_index_word (index : index_t) (id : Z) (w : cstring) :
  NUL ∉ w → in_int id → tidy index → tidy (index_word index id w).
Proof.
  intros Hn Hid Hidx. destruct (accepts w) eqn:Hacc.
  - rewrite index_word_accepts by done.
    apply andb_true_iff in Hacc as [[Hne _]%andb_true_iff Hal].
    apply tidy_add_posting; [|by apply forallb_lower_tolower|done..].
    by destruct w.
  - by rewrite index_word_rejects.
Qed.

Section Pages.
Variable webpage_getWords : webpage_t → list cstring.
(** The words of a page are C strings. *)
Hypothesis words_are_strings : ∀ page w, w ∈ webpage_getWords page → NUL ∉ w.

Lemma tidy_index_page (page : webpage_t) (id : Z) :
  ∀ index, in_int id → tidy index → tidy (index_page webpage_getWords index id page).
Proof.
  intros index Hid. unfold index_page.
  pose proof (words_are_strings page) as Hws.
  revert index. induction (webpage_getWords page) as [|w ws IH]; intros index Hidx; [done|].
  cbn [foldl]. apply IH.
  - intros w' Hw'. apply Hws. by apply elem_of_cons; right.
  - apply tidy_index_word; [|done..]. apply Hws. by apply elem_of_cons; left.
Qed.

Lemma tidy_index_files (dirname : directory) (files : list Z) :
  ∀ index index', Forall in_int files → tidy index →
  index_files webpage_getWords dirname index files = Indexed index' → tidy index'.
Proof.
  induction files as [|id files IH]; intros index index' Hfiles Hidx; cbn [index_files].
  - by intros [= <-].
  - apply Forall_cons in Hfiles as [Hid Hfiles].
    destruct (pageload id dirname) as [page|out|]; [|done|done].
    apply IH; [done|]. by apply tidy_index_page.
Qed.

(** X3 (indexer, indexsave, indexload): the index the indexer builds is
    loaded back as it was when each of its lines fits the buffer of
    [indexload]. *)
Theorem indexer_output_round_trip (dirname : directory) (files : list Z)
        (index : index_t) :
  Forall in_int files →
  index_files webpage_getWords dirname (hopen hsize) files = Indexed index →
  Forall (λ ep, (length (index_write_fn ep) < MAX_LINE_LEN)%nat) (happly_order index) →
  indexload (indexsave index true).2 = Loaded index.
Proof.
  intros Hfiles Hrun Hfit.
  destruct (tidy_index_files dirname files _ _ Hfiles tidy_hopen Hrun) as [Hplace Hall].
  apply indexload_index_file; [done|].
  apply Forall_forall. intros ep Hep. rewrite Forall_forall in Hall, Hfit.
  destruct (Hall ep Hep) as (H1 & H2 & H3). split; auto.
  by apply lower_plain.
Qed.
End Pages.

(** A page with two kept words, one of them twice, and a rejected one. *)
Definition zoo_words (page : webpage_t) : list cstring :=
  [str "Dog"; str "cat"; str "dog"; str "a1"].

Definition zoo_page : webpage_t :=
  Page (str "http://zoo/") 0 (str "<html>Dog cat dog a1</html>") 27.

Definition zoo_dir : directory := Dir true {[ str "1" := page_file zoo_page ]}.

Definition zoo : index_t := index_page zoo_words (hopen hsize) 1 zoo_page.

Lemma indexer_output_round_trip_witness :
  indexload (indexsave zoo true).2 = Loaded zoo.
Proof.
  apply (indexer_output_round_trip zoo_words) with (dirname := zoo_dir) (files := [1]).
  - intros page w Hw. unfold zoo_words in Hw.
    rewrite !elem_of_cons, elem_of_nil in Hw.
    destruct Hw as [->|[->|[->|[->|[]]]]];
      apply (bool_decide_unpack _); vm_compute; exact I.
  - apply Forall_singleton. vm_compute. split; congruence.
  - vm_compute. reflexivity.
  - apply (bool_decide_unpack _). vm_compute. exact I.
Defined.

End IndexerOutput.

(** ** The precedence of "and" over "or" *)

Module Precedence.
Import Queue Hash Query Scores HeapLogic EvalTheory LibcFacts.

(** *** Queries as the grammar has them *)

(** A group: terms joined by "and", given as the first term and the
    others.  A query: groups joined by "or". *)
Definition group : Type := cstring * list cstring.

Definition group_terms (g : group) : list cstring := g.1 :: g.2.

Definition group_tokens (g : group) : list cstring :=
  g.1 :: flat_map (λ t, [s_and; t]) g.2.

Definition query_tokens (g : group) (gs : list group) : list cstring :=
  group_tokens g ++ flat_map (λ g, s_or :: group_tokens g) gs.

Definition query_terms (g : group) (gs : list group) : list cstring :=
  flat_map group_terms (g :: gs).

(** *** Scores as the specification combines them *)

Definition and_score (a b : option Z) : option Z :=
  match a, b with
  | Some a, Some b => Some (Z.min a b)
  | _, _ => None
  end.

Definition or_score (a b : option Z) : option Z :=
  match a, b with
  | Some a, Some b => Some (int_add a b)
  | Some a, None => Some a
  | None, Some b => Some b
  | None, None => None
  end.

(** The score of document [id] for a group: the least of its scores for
    the terms, if it has one for each. *)
Definition group_score (P : cstring → scores) (id : Z) (g : group) : option Z :=
  foldl (λ acc t, and_score acc (score id (P t))) (score id (P g.1)) g.2.

(** The score of document [id] for a query: the sum of its scores for
    the groups it is in. *)
Definition query_score (P : cstring → scores) (id : Z) (gs : list group) : option Z :=
  foldr (λ g acc, or_score (group_score P id g) acc) None gs.

Lemma int_add_assoc (a b c : Z) : int_add (int_add a b) c = int_add a (int_add b c).
Proof.
  unfold int_add, wrap_int. f_equal.
  replace ((a + b + 2 ^ 31) mod 2 ^ 32 - 2 ^ 31 + c + 2 ^ 31)
    with ((a + b + 2 ^ 31) mod 2 ^ 32 + c) by lia.
  replace (a + ((b + c + 2 ^ 31) mod 2 ^ 32 - 2 ^ 31) + 2 ^ 31)
    with (a + (b + c + 2 ^ 31) mod 2 ^ 32) by lia.
  rewrite Zplus_mod_idemp_l, Zplus_mod_idemp_r. f_equal. lia.
Qed.

Lemma int_add_comm (a b : Z) : int_add a b = int_add b a.
Proof. unfold int_add. f_equal. lia. Qed.

Lemma or_score_assoc (a b c : option Z) :
  or_score (or_score a b) c = or_score a (or_score b c).
Proof. destruct a, b, c; simpl; by rewrite ?int_add_assoc. Qed.

Lemma or_score_comm (a b : option Z) : or_score a b = or_score b a.
Proof. destruct a, b; simpl; by rewrite 1?int_add_comm. Qed.

Lemma and_score_comm (a b : option Z) : and_score a b = and_score b a.
Proof. destruct a, b; simpl; by rewrite 1?Z.min_comm. Qed.

Lemma foldl_or_score (a : option Z) (l : list (option Z)) :
  foldl or_score a l = or_score a (foldr or_score None l).
Proof.
  revert a. induction l as [|x l IH]; intros a; simpl.
  - by destruct a.
  - by rewrite IH, or_score_assoc.
Qed.

Lemma foldr_or_score_perm (l1 l2 : list (option Z)) :
  l1 ≡ₚ l2 → foldr or_score None l1 = foldr or_score None l2.
Proof.
  induction 1 as [|x l1 l2 _ IH|x y l|l1 l2 l3 _ IH1 _ IH2]; simpl.
  - done.
  - by rewrite IH.
  - by rewrite <- !or_score_assoc, (or_score_comm y x).
  - by rewrite IH1.
Qed.

(** *** The lists the evaluation builds *)

(** The copy of a posting list [get_union] makes. *)
Definition copy (A : scores) : scores := union_scores [] A.

Definition group_list (P : cstring → scores) (g : group) : scores :=
  foldl (λ acc t, inter_scores (copy (P t)) acc) (copy (P g.1)) g.2.

Lemma score_copy (A : scores) (id : Z) : NoDup A.*1 → score id (copy A) = score id A.
Proof.
  intros HA. unfold copy. rewrite score_union by done. simpl. by destruct (score id A).
Qed.

Lemma copy_ids (A : scores) : NoDup (copy A).*1.
Proof. apply union_scores_ids. constructor. Qed.

Lemma group_list_ids (P : cstring → scores) (g : group) : NoDup (group_list P g).*1.
Proof.
  unfold group_list. generalize (copy_ids (P g.1)). generalize (copy (P g.1)).
  induction g.2 as [|t ts IH]; intros G HG; simpl; [done|].
  apply IH. apply inter_scores_ids, copy_ids.
Qed.

Lemma score_group_list (P : cstring → scores) (g : group) (id : Z) :
  Forall (λ t, NoDup (P t).*1) (group_terms g) →
  score id (group_list P g) = group_score P id g.
Proof.
  unfold group_terms, group_list, group_score. intros [H1 H2]%Forall_cons.
  rewrite <- (score_copy (P g.1)) by done. generalize (copy (P g.1)).
  induction H2 as [|t ts Ht _ IH]; intros G; simpl; [done|].
  rewrite IH, score_inter, score_copy by done. f_equal.
  by destruct (score id (P t)), (score id G); simpl; rewrite 1?Z.min_comm.
Qed.

Lemma score_union_stack (id : Z) (stack : list scores) :
  ∀ A, Forall (λ B : scores, NoDup B.*1) stack →
  score id (union_stack_scores A stack)
  = foldl or_score (score id A) (score id <$> stack).
Proof.
  induction stack as [|B stack IH]; intros A HS; simpl; [done|].
  apply Forall_cons in HS as [HB HS]. rewrite IH, score_union by done.
  by destruct (score id A), (score id B).
Qed.

Lemma union_stack_ids (stack : list scores) :
  ∀ A, NoDup A.*1 → NoDup (union_stack_scores A stack).*1.
Proof.
  induction stack as [|B stack IH]; intros A HA; simpl; [done|].
  apply IH. by apply union_scores_ids.
Qed.

(** *** The token loop on a query of the grammar *)

Definition operand (t : cstring) : Prop := is_operator t = false.

Lemma eval_scores_and_tail (P : cstring → scores) (rest : list cstring)
      (ts : list cstring) :
  ∀ (G : scores) (st : list scores) (op : cstring), Forall operand ts →
  eval_scores P (flat_map (λ t, [s_and; t]) ts ++ rest) (G :: st) op
  = eval_scores P rest
      (foldl (λ acc t, inter_scores (copy (P t)) acc) G ts :: st)
      (match ts with [] => op | _ => s_and end).
Proof.
  induction ts as [|t ts IH]; intros G st op Hts; [done|].
  apply Forall_cons in Hts as [Ht Hts].
  cbn [flat_map app eval_scores foldl].
  change (is_operator s_and) with true. cbv iota. rewrite Ht.
  change (streq s_and s_and) with true. cbv iota.
  rewrite IH by done. by destruct ts.
Qed.

Lemma eval_scores_group (P : cstring → scores) (rest : list cstring) (g : group)
      (st : list scores) (op : cstring) :
  Forall operand (group_terms g) → streq op s_and = false →
  ∃ op',
  eval_scores P (group_tokens g ++ rest) st op
  = eval_scores P rest (group_list P g :: st) op'.
Proof.
  intros [H1 H2]%Forall_cons Hop. unfold group_tokens, group_list.
  eexists.
  cbn [app eval_scores]. rewrite H1, Hop.
  by rewrite eval_scores_and_tail.
Qed.

Lemma eval_scores_groups (P : cstring → scores) (gs : list group) :
  ∀ (st : list scores) (op : cstring),
  Forall (λ g, Forall operand (group_terms g)) gs →
  eval_scores P (flat_map (λ g, s_or :: group_tokens g) gs) st op
  = Some (reverse (group_list P <$> gs) ++ st).
Proof.
  induction gs as [|g gs IH]; intros st op Hgs; [done|].
  apply Forall_cons in Hgs as [Hg Hgs].
  cbn [flat_map app eval_scores]. change (is_operator s_or) with true. cbv iota.
  destruct (eval_scores_group P (flat_map (λ g, s_or :: group_tokens g) gs) g st s_or Hg)
    as (op' & ->); [done|].
  rewrite IH by done. rewrite fmap_cons, reverse_cons, <- app_assoc. done.
Qed.

Lemma eval_scores_query (P : cstring → scores) (g : group) (gs : list group) :
  Forall (λ g, Forall operand (group_terms g)) (g :: gs) →
  eval_scores P (query_tokens g gs) [] []
  = Some (reverse (group_list P <$> g :: gs)).
Proof.
  intros [Hg Hgs]%Forall_cons. unfold query_tokens.
  destruct (eval_scores_group P (flat_map (λ g, s_or :: group_tokens g) gs) g [] [] Hg)
    as (op' & ->); [done|].
  rewrite eval_scores_groups by done.
  by rewrite fmap_cons, reverse_cons.
Qed.

(** The evaluation on lists of scores gives every document the score of
    the query. *)
Lemma evaluate_scores_query (P : cstring → scores) (g : group) (gs : list group) :
  Forall (λ g, Forall operand (group_terms g)) (g :: gs) →
  Forall (λ t, NoDup (P t).*1) (query_terms g gs) →
  ∃ R, evaluate_scores P (query_tokens g gs) = Some R ∧ NoDup R.*1 ∧
       ∀ id, score id R = query_score P id (g :: gs).
Proof.
  intros Hterms Hnd. unfold evaluate_scores. rewrite eval_scores_query by done.
  assert (Forall (λ B : scores, NoDup B.*1) (reverse (group_list P <$> g :: gs))) as Hids.
  { apply Forall_reverse, Forall_fmap, Forall_forall. intros g' _. apply group_list_ids. }
  assert (∀ id, foldr or_score None (score id <$> reverse (group_list P <$> g :: gs))
                = foldr or_score None (group_score P id <$> g :: gs)) as Hsum.
  { intros id.
    rewrite (foldr_or_score_perm _ (score id <$> (group_list P <$> g :: gs)))
      by (by rewrite reverse_Permutation).
    f_equal. rewrite <- list_fmap_compose. apply Forall_fmap_ext_1.
    unfold query_terms in Hnd. rewrite flat_map_concat_map in Hnd.
    apply Forall_concat in Hnd.
    change (map group_terms (g :: gs)) with (group_terms <$> g :: gs) in Hnd.
    rewrite Forall_fmap in Hnd. eapply Forall_impl; [exact Hnd|].
    intros g' Hg'. by apply score_group_list. }
  destruct (reverse (group_list P <$> g :: gs)) as [|A stack] eqn:Hrev.
  { apply (f_equal length) in Hrev. rewrite length_reverse in Hrev. done. }
  apply Forall_cons in Hids as [HA Hst].
  exists (union_stack_scores A stack). split; [done|]. split; [by apply union_stack_ids|].
  intros id. rewrite score_union_stack by done.
  rewrite foldl_or_score.
  change (or_score (score id A) (foldr or_score None (score id <$> stack)))
    with (foldr or_score None (score id <$> A :: stack)).
  rewrite Hsum. unfold query_score.
  apply foldr_fmap.
Qed.

(** *** The evaluation in the heap *)

(** X4 (main, token loop): on a query of the grammar, groups of terms
    joined by "and", the groups joined by "or", the evaluation runs
    without undefined behaviour and returns a queue that holds each
    document once, with the score the precedence of "and" over "or"
    gives it: the sum over the groups that hold it of its least score
    among the terms of the group. *)
Theorem evaluate_by_precedence (h : heap) (index : index_t)
        (g : group) (gs : list group) :
  index_allocated h index →
  Forall (λ g, Forall operand (group_terms g)) (g :: gs) →
  Forall (λ t, NoDup (index_scores h index t).*1) (query_terms g gs) →
  wp (evaluate (query_tokens g gs) index) h (λ r h',
    ∃ R, represents h' r.1 R ∧ NoDup R.*1 ∧
         ∀ id, score id R = query_score (index_scores h index) id (g :: gs)).
Proof.
  intros Hal Hterms Hnd.
  destruct (evaluate_scores_query (index_scores h index) g gs Hterms Hnd)
    as (R & HR & HndR & Hscore).
  eapply wp_mono.
  - apply evaluate_spec; [done|by destruct g|].
    apply Forall_cons in Hterms as [[H1 _]%Forall_cons _]. exact H1.
  - intros r h' (ranked & R' & -> & _ & Hrep & HR'). exists R.
    rewrite HR in HR'. injection HR' as <-. done.
Qed.

(** Page 1 holds dartmouth three times and computer once, page 2
    computer twice and science five times. *)
Definition campus_heap : heap :=
  {[ 0%nat := cell 1 3; 1%nat := cell 1 1; 2%nat := cell 2 2; 3%nat := cell 2 5 ]}.

Definition campus_index : index_t :=
  hput (hput (hput (hopen 1000)
    (IndexIO.Entry (str "dartmouth") [0%nat]) (str "dartmouth") 9)
    (IndexIO.Entry (str "computer") [1%nat; 2%nat]) (str "computer") 8)
    (IndexIO.Entry (str "science") [3%nat]) (str "science") 7.

(** dartmouth and computer or science *)
Definition campus_group : group := (str "dartmouth", [str "computer"]).
Definition campus_groups : list group := [(str "science", [])].

Lemma campus_index_locs : index_locs campus_index = [3%nat; 1%nat; 2%nat; 0%nat].
Proof. vm_compute. reflexivity. Qed.

Lemma evaluate_by_precedence_witness :
  wp (evaluate (query_tokens campus_group campus_groups) campus_index) campus_heap
    (λ r h', ∃ R, represents h' r.1 R ∧ NoDup R.*1 ∧
       ∀ id, score id R
             = query_score (index_scores campus_heap campus_index) id
                 (campus_group :: campus_groups)).
Proof.
  apply (evaluate_by_precedence campus_heap campus_index campus_group campus_groups).
  - intros l. rewrite campus_index_locs. rewrite !elem_of_cons, elem_of_nil.
    intros [->|[->|[->|[->|[]]]]]; vm_compute; by eexists.
  - repeat constructor.
  - change (query_terms campus_group campus_groups)
      with [str "dartmouth"; str "computer"; str "science"].
    repeat (apply Forall_cons_2; [apply (bool_decide_unpack _); vm_compute; exact I|]).
    apply Forall_nil_2.
Defined.

(** The scores of the query on that index: document 1 has min(3, 1),
    document 2 has 5. *)
Example campus_query_scores :
  query_tokens campus_group campus_groups
    = [str "dartmouth"; s_and; str "computer"; s_or; str "science"] ∧
  query_score (index_scores campus_heap campus_index) 1 (campus_group :: campus_groups)
    = Some 1 ∧
  query_score (index_scores campus_heap campus_index) 2 (campus_group :: campus_groups)
    = Some 5 ∧
  query_score (index_scores campus_heap campus_index) 3 (campus_group :: campus_groups)
    = None.
Proof. vm_compute. done. Qed.

End Precedence.

(** ** Accepted queries are queries of the grammar *)

Module Grammar.
Import Queue Hash Query LibcFacts TokenTheory Precedence.

(** Terms and operators in turn, a term first and last. *)
Inductive alternating : list cstring → Prop :=
| alternating_one t : operand t → alternating [t]
| alternating_more t op ts :
    operand t → is_operator op = true → alternating ts → alternating (t :: op :: ts).

Fixpoint no_adjacent_terms (ts : list cstring) : bool :=
  match ts with
  | t :: (t' :: _) as ts' =>
      negb (negb (is_operator t) && negb (is_operator t')) && no_adjacent_terms ts'
  | _ => true
  end.

Lemma no_adjacent_terms_cons (t t' : cstring) (ts : list cstring) :
  no_adjacent_terms (t :: t' :: ts)
  = negb (negb (is_operator t) && negb (is_operator t')) && no_adjacent_terms (t' :: ts).
Proof. done. Qed.

(** [tokenize_query] leaves no two terms side by side. *)
Lemma with_implicit_and_terms (ts : list cstring) :
  ∀ prev, no_adjacent_terms (match prev with
                             | Some p => p :: with_implicit_and prev ts
                             | None => with_implicit_and prev ts
                             end) = true.
Proof.
  induction ts as [|t ts IH]; intros prev.
  - by destruct prev.
  - pose proof (IH (Some t)) as Ht. destruct prev as [p|]; cbn [with_implicit_and].
    + destruct (negb (is_operator p) && negb (is_operator t)) eqn:Hpt.
      * rewrite !no_adjacent_terms_cons, Ht.
        change (is_operator s_and) with true. cbn. by rewrite andb_false_r.
      * by rewrite no_adjacent_terms_cons, Hpt, Ht.
    + done.
Qed.

Lemma alternating_stream (ts : list cstring) :
  no_adjacent_operators ts = true → no_adjacent_terms ts = true →
  (∀ final, last ts = Some final → operand final) →
  match ts with
  | t :: ts' => if is_operator t then alternating ts' else alternating ts
  | [] => True
  end.
Proof.
  induction ts as [|t ts IH]; [done|]. intros Hops Hterms Hlast.
  destruct ts as [|t' ts].
  - rewrite (Hlast t eq_refl). constructor. by apply Hlast.
  - rewrite no_adjacent_operators_cons in Hops. rewrite no_adjacent_terms_cons in Hterms.
    apply andb_true_iff in Hops as [Hop Hops].
    apply andb_true_iff in Hterms as [Hterm Hterms].
    specialize (IH Hops Hterms). cbv beta iota in IH.
    assert (∀ final, last (t' :: ts) = Some final → operand final) as Hlast'.
    { intros final Hf. apply Hlast. by rewrite last_cons, Hf. }
    specialize (IH Hlast').
    destruct (is_operator t) eqn:Ht, (is_operator t') eqn:Ht'; try done.
    by constructor.
Qed.

Lemma well_formed_alternating (ts : list cstring) :
  well_formed ts = true → no_adjacent_terms ts = true → alternating ts.
Proof.
  unfold well_formed. destruct (head ts) as [first|] eqn:Hfirst; [|done].
  destruct (last ts) as [final|] eqn:Hfinal; [|done].
  intros [[H1 H2]%andb_true_iff H3]%andb_true_iff Hterms.
  pose proof (alternating_stream ts H3 Hterms) as Halt.
  destruct ts as [|t ts]; [done|]. injection Hfirst as ->.
  apply negb_true_iff in H1. rewrite H1 in Halt. apply Halt.
  intros final' Hf. rewrite Hfinal in Hf. injection Hf as <-. by apply negb_true_iff.
Qed.

(** An operator of a stream of C strings is "and" or "or". *)
Lemma operator_cases (op : cstring) :
  NUL ∉ op → is_operator op = true → op = s_and ∨ op = s_or.
Proof.
  intros Hop. unfold is_operator.
  rewrite !streq_alpha by (done || apply (bool_decide_unpack _); vm_compute; exact I).
  intros [H|H]%orb_true_iff; apply bool_decide_eq_true in H; auto.
Qed.

Lemma alternating_groups (ts : list cstring) :
  Forall (λ t, NUL ∉ t) ts → alternating ts →
  ∃ g gs, ts = query_tokens g gs ∧
          Forall (λ g, Forall operand (group_terms g)) (g :: gs).
Proof.
  intros Hts Halt. induction Halt as [t Ht|t op ts Ht Hop Halt IH].
  - exists (t, []), []. split; [done|]. by repeat constructor.
  - apply Forall_cons in Hts as [_ [Hnul Hts]%Forall_cons].
    destruct (IH Hts) as ([t' g'] & gs & -> & [[Ht' Hg']%Forall_cons Hgs]%Forall_cons).
    destruct (operator_cases op Hnul Hop) as [-> | ->].
    + exists (t, t' :: g'), gs. split; [done|].
      constructor; [|done]. by repeat constructor.
    + exists (t, []), ((t', g') :: gs). split; [done|].
      constructor; [by repeat constructor|]. constructor; [|done]. by constructor.
Qed.

Lemma with_implicit_and_strings (ts : list cstring) :
  ∀ prev, Forall (λ t, NUL ∉ t) ts → Forall (λ t, NUL ∉ t) (with_implicit_and prev ts).
Proof.
  induction ts as [|t ts IH]; intros prev Hts; [done|].
  apply Forall_cons in Hts as [Ht Hts]. cbn [with_implicit_and].
  assert (NUL ∉ s_and) as Hand by (apply (bool_decide_unpack _); vm_compute; exact I).
  destruct prev as [p|]; [destruct (_ && _)|]; repeat constructor; auto.
Qed.

Lemma spec_stream_strings (query : cstring) :
  all_alphabetic query = true → Forall (λ t, NUL ∉ t) (spec_stream query).
Proof.
  unfold all_alphabetic, spec_stream. intros Hal.
  apply with_implicit_and_strings. apply Forall_forall.
  intros t [Ht _]%list_elem_of_In%filter_In. apply in_map_iff in Ht as (w & <- & Hw).
  apply NUL_notin_alpha, forallb_alpha_tolower.
  rewrite forallb_forall in Hal. by apply Hal.
Qed.

(** X5 (tokenize_query, validate_query): the token stream of an
    accepted query is a query of the grammar: terms joined by "and" in
    groups, the groups joined by "or". *)
Theorem accepted_query_grammar (query : cstring) :
  accepted query = true →
  ∃ g gs, tokenize_query query = Some (query_tokens g gs) ∧
          Forall (λ g, Forall operand (group_terms g)) (g :: gs).
Proof.
  rewrite accepted_spec. intros [Hal Hwf]%andb_true_iff.
  destruct (alternating_groups (spec_stream query)) as (g & gs & Hts & Hgs).
  - by apply spec_stream_strings.
  - apply well_formed_alternating; [done|].
    apply (with_implicit_and_terms _ None).
  - exists g, gs. split; [|done].
    rewrite tokenize_query_spec, Hal, Hts. by destruct g.
Qed.

Lemma accepted_query_grammar_witness :
  ∃ g gs, tokenize_query (str "Dartmouth computer or science") = Some (query_tokens g gs) ∧
          Forall (λ g, Forall operand (group_terms g)) (g :: gs).
Proof. apply accepted_query_grammar. vm_compute. reflexivity. Defined.

End Grammar.

(** ** The order of the results *)

Module Ranking.
Import Queue Hash Query Scores HeapLogic EvalTheory.

(** [a] may stand before [b]: its score is not the smaller one. *)
Definition before (a b : loc * rankedDoc_t) : Prop :=
  word_count b.2 ≤ word_count a.2.

Lemma insert_doc_sorted (a : loc * rankedDoc_t) (l : list (loc * rankedDoc_t)) :
  StronglySorted before l → StronglySorted before (insert_doc a l).
Proof.
  induction 1 as [|b l Hl IH Hb]; cbn [insert_doc].
  - by repeat constructor.
  - unfold comparator.
    destruct (Z.ltb_spec (word_count a.2) (word_count b.2)) as [Hlt|Hge]; cbn.
    + constructor; [done|]. rewrite insert_doc_perm. constructor; [|done].
      unfold before. lia.
    + assert (StronglySorted before (a :: b :: l)) as Hsorted.
      { constructor; [by constructor|]. constructor; [done|].
        eapply Forall_impl; [exact Hb|]. unfold before. intros c Hc. lia. }
      by destruct (Z.ltb_spec (word_count b.2) (word_count a.2)).
Qed.

Lemma insertion_sorted (l : list (loc * rankedDoc_t)) :
  StronglySorted before (foldr insert_doc [] l).
Proof.
  induction l as [|a l IH]; simpl; [constructor|]. by apply insert_doc_sorted.
Qed.

Lemma insertion_perm (l : list (loc * rankedDoc_t)) : foldr insert_doc [] l ≡ₚ l.
Proof.
  induction l as [|a l IH]; simpl; [done|]. by rewrite insert_doc_perm, IH.
Qed.

(** [load_all] pairs every pointer with its cell. *)
Lemma load_all_cells (q : queue_t loc) (h : heap) :
  allocated h q →
  wp (load_all q) h (λ r h',
    h' = h ∧ r.*1 = q ∧ Forall (λ p, h !! p.1 = Some p.2) r).
Proof.
  induction 1 as [|l q [d Hd] _ IH]; simpl.
  - apply wp_ret. split; [done|]. split; [done|]. constructor.
  - apply wp_bind. eapply wp_load; [done|]. apply wp_bind.
    eapply wp_mono; [exact IH|]. intros r h' (-> & <- & Hr). apply wp_ret.
    split; [done|]. split; [done|]. by constructor.
Qed.

Lemma read_cells (h : heap) (l : list (loc * rankedDoc_t)) :
  Forall (λ p, h !! p.1 = Some p.2) l → read h l.*1 = cell_score <$> l.*2.
Proof.
  induction 1 as [|[p d] l Hp _ IH]; [done|].
  simpl in Hp. rewrite !fmap_cons. cbn [fst snd]. by rewrite read_cons, Hp, IH.
Qed.

(** X6 (sort_queue, comparator): sorting leaves the heap alone and
    returns the cells of the queue, each once, in an order in which no
    score is followed by a larger one. *)
Theorem sort_queue_descending (q : queue_t loc) (h : heap) :
  allocated h q →
  wp (sort_queue q) h (λ r h',
    h' = h ∧ r ≡ₚ q ∧
    StronglySorted (λ a b : Z * Z, b.2 ≤ a.2) (read h r)).
Proof.
  intros Hal. unfold sort_queue. apply wp_bind.
  eapply wp_mono; [by apply load_all_cells|].
  intros cells h' (-> & <- & Hcells). apply wp_ret.
  split; [done|]. split; [apply fmap_Permutation, insertion_perm|].
  rewrite read_cells by (by rewrite insertion_perm).
  rewrite <- list_fmap_compose.
  apply (StronglySorted_fmap _ before); [|apply insertion_sorted].
  by intros a b Hab.
Qed.

Lemma sort_queue_descending_witness :
  wp (sort_queue [0%nat; 1%nat; 2%nat; 3%nat]) two_lists (λ r h',
    h' = two_lists ∧ r ≡ₚ [0%nat; 1%nat; 2%nat; 3%nat] ∧
    StronglySorted (λ a b : Z * Z, b.2 ≤ a.2) (read two_lists r)).
Proof.
  apply sort_queue_descending.
  repeat constructor; vm_compute; by eexists.
Defined.

(** On that heap: scores 3, 5, 1, 4 come out as 5, 4, 3, 1. *)
Example sort_queue_runs :
  sort_queue [0%nat; 1%nat; 2%nat; 3%nat] two_lists
  = Some ([1%nat; 3%nat; 0%nat; 2%nat], two_lists).
Proof. vm_compute. reflexivity. Qed.

End Ranking.

(** ** A session on a two-page corpus *)

Module Session.
Import Queue Hash Webpage PageIO Query.

(** The index [indexload] returns, in the heap of the query engine:
    one cell for every [document_t]. *)
Fixpoint install_docs (docs : queue_t IndexIO.document_t) : M (queue_t loc) :=
  match docs with
  | [] => ret []
  | dp :: docs' =>
      let! l := malloc (RankedDoc (IndexIO.doc_id dp) (IndexIO.word_count dp)
                          None None None) in
      let! q := install_docs docs' in
      ret (l :: q)
  end.

Fixpoint install_entries (eps : queue_t (IndexIO.entry_t IndexIO.document_t))
  : M (queue_t (IndexIO.entry_t loc)) :=
  match eps with
  | [] => ret []
  | ep :: eps' =>
      let! docs := install_docs (IndexIO.documents ep) in
      let! q := install_entries eps' in
      ret (IndexIO.Entry (IndexIO.word ep) docs :: q)
  end.

Fixpoint install_slots (slots : list (queue_t (IndexIO.entry_t IndexIO.document_t)))
  : M (list (queue_t (IndexIO.entry_t loc))) :=
  match slots with
  | [] => ret []
  | q :: slots' =>
      let! q := install_entries q in
      let! l := install_slots slots' in
      ret (q :: l)
  end.

Definition install (index : IndexIO.index_t) : M index_t :=
  let! slots := install_slots (hash_table index) in
  ret (Table (tablesize index) slots).

(** The pages. *)
Definition meta (description : cstring) : cstring :=
  s_meta ++ str " " ++ s_content ++ description ++ [quote] ++ str ">".

Definition html1 : cstring :=
  str "<html><title>Dartmouth</title>" ++ meta (str "The college") ++ str "</html>".
Definition html2 : cstring :=
  str "<html><title>Science</title>" ++ meta (str "Computer science") ++ str "</html>".

Definition corpus_page1 : webpage_t :=
  webpage_new (str "http://dartmouth.edu/") 0 html1.
Definition corpus_page2 : webpage_t :=
  webpage_new (str "http://dartmouth.edu/cs") 1 html2.

Definition corpus_dir : directory :=
  (pagesave (Some corpus_page2) 2 (pagesave (Some corpus_page1) 1 (Dir true ∅)).2).2.

(** The words of the pages: page 1 (depth 0) holds dartmouth three times
    and computer once, page 2 computer twice and science five times. *)
Definition corpus_words (page : webpage_t) : list cstring :=
  if depth page =? 0
  then [str "Dartmouth"; str "dartmouth"; str "computer"; str "DARTMOUTH"]
  else [str "Computer"; str "science"; str "science"; str "computer";
        str "science"; str "science"; str "Science"].

(** What the indexer writes for the corpus. *)
Definition corpus_index_file : option cstring :=
  r ← Indexer.main corpus_words corpus_dir true; r.2.

(** The state of the query engine once the index is loaded. *)
Definition loaded : option (index_t * heap) :=
  match IndexIO.indexload corpus_index_file with
  | IndexIO.Loaded index => install index ∅
  | _ => None
  end.

(** What one query prints. *)
Definition prints (query : cstring) : option cstring :=
  '(index, h) ← loaded;
  '(out, _, _) ← query_step corpus_dir index query h;
  Some out.

Definition shown (id rank : Z) : cstring :=
  if id =? 1
  then print_doc (RankedDoc 1 rank (Some (str "http://dartmouth.edu/"))
                   (Some (str "Dartmouth")) (Some (str "The college")))
  else print_doc (RankedDoc 2 rank (Some (str "http://dartmouth.edu/cs"))
                   (Some (str "Science")) (Some (str "Computer science"))).

(** The concrete scenarios, from the page files to the text printed. *)
Example corpus_scenarios :
  prints (str "dartmouth")
    = Some (str "title: Dartmouth" ++ [newline] ++
            str "rank:3 doc:1 : http://dartmouth.edu/" ++ [newline] ++
            str "The college..." ++ [newline; newline]) ∧
  prints (str "computer") = Some (shown 2 2 ++ shown 1 1) ∧
  prints (str "dartmouth and computer") = Some (shown 1 1) ∧
  prints (str "dartmouth or science") = Some (shown 2 5 ++ shown 1 3) ∧
  prints (str "dartmouth computer or science") = Some (shown 2 5 ++ shown 1 1) ∧
  prints (str "and dartmouth") = Some invalid_query.
Proof. vm_compute. done. Qed.

End Session.

(** ** No URL is saved twice *)

Module VisitedTheory.
Import Queue Hash Webpage PageIO Crawler LibcFacts HashFacts CrawlTheory.

(** [u] is in the table of the URLs seen. *)
Definition seen (s : state) (u : cstring) : Prop :=
  is_Some (hsearch (hp s) (searchfn u) u (strlen u)).

(** The URLs a worker holds are C strings; the URL a worker is adding
    is that of its new page and is not in the table yet. *)
Definition thread_strings (htp : hashtable_t cstring) (th : thread) : Prop :=
  match th with
  | Scanning _ urls => Forall (λ u, NUL ∉ u) urls
  | Queued _ u urls page | Counted _ u urls page =>
      (NUL ∉ u) ∧ Forall (λ u, NUL ∉ u) urls ∧ url page = u ∧
      hsearch htp (searchfn u) u (strlen u) = None
  | _ => True
  end.

Definition saved_urls (s : state) : list cstring := (λ x, url x.2) <$> saved s.

Lemma thread_strings_out (htp htp' : hashtable_t cstring) (th : thread) :
  in_section th = false → thread_strings htp th → thread_strings htp' th.
Proof. by destruct th. Qed.

Lemma seen_hput (s : state) (u v : cstring) (hp' : hashtable_t cstring) :
  wf_table (hp s) → hp' = hput (hp s) v v (strlen v) →
  is_Some (hsearch (hp s) (searchfn u) u (strlen u)) →
  is_Some (hsearch hp' (searchfn u) u (strlen u)).
Proof.
  intros Hwf -> [e He]. rewrite hsearch_hput by done. rewrite He. by exists e.
Qed.

Lemma seen_new (htp : hashtable_t cstring) (u : cstring) :
  wf_table htp →
  is_Some (hsearch (hput htp u u (strlen u)) (searchfn u) u (strlen u)).
Proof.
  intros Hwf. rewrite hsearch_hput by done.
  destruct (hsearch htp (searchfn u) u (strlen u)) as [e|]; [by exists e|].
  rewrite bool_decide_eq_true_2 by done.
  unfold searchfn, streq. rewrite bool_decide_eq_true_2 by done. by exists u.
Qed.

Section Visited.
Variable webpage_getURLs : webpage_t → list cstring.
Variable IsInternalURL : cstring → bool.
Variable max_depth : Z.
(** The URLs of a page are C strings. *)
Hypothesis urls_are_strings : ∀ page u, u ∈ webpage_getURLs page → NUL ∉ u.

Abbreviation step := (step webpage_getURLs IsInternalURL max_depth).
Abbreviation run := (run webpage_getURLs IsInternalURL max_depth).
Abbreviation move := (move webpage_getURLs IsInternalURL max_depth).

(** The URL of every saved page is in the table, and no two saved pages
    have the same URL. *)
Record visited_inv (s : state) : Prop := VisitedInv {
  inv_mutex : mutex_inv s;
  inv_table : wf_table (hp s);
  inv_strings : Forall (thread_strings (hp s)) (threads s);
  inv_seen : Forall (seen s) (saved_urls s);
  inv_once : NoDup (saved_urls s)
}.

Lemma main_visited (seed_url : cstring) (dir : directory) (fetched : option cstring)
      (s : state) :
  NUL ∉ seed_url →
  main max_depth seed_url dir fetched = Some s → visited_inv s.
Proof.
  intros Hseed Hmain. pose proof (main_mutex _ _ _ _ _ Hmain) as Hmutex.
  revert Hmain Hmutex. unfold main. destruct (max_depth <? 0); [done|].
  destruct fetched as [html|]; [|done].
  destruct (pagesave _ _ _) as [status dir']. intros [= <-] Hmutex.
  assert (wf_table (@hopen cstring hsize)) as Hwf by (by apply wf_hopen).
  split; unfold saved_urls, seen; cbn [hp threads saved].
  - done.
  - by apply wf_hput.
  - by repeat constructor.
  - destruct (status =? 0); [|constructor]. apply Forall_singleton.
    cbn. rewrite cstr_id by done. by apply seen_new.
  - destruct (status =? 0); [apply NoDup_singleton|constructor].
Qed.

Lemma move_visited (s s' : state) (a : action) :
  visited_inv s → move s a s' → visited_inv s'.
Proof.
  intros [Hm Hwf Hstr Hseen Honce] Hmove.
  pose proof (move_mutex _ _ _ _ _ _ Hm Hmove) as Hm'.
  move_cases Hmove; pose proof (Forall_lookup_1 _ _ _ _ Hstr Hth) as Hcurr;
    cbn [thread_strings] in Hcurr.
  - split; cbn [hp threads saved]; try done.
    apply Forall_insert; [done|]. cbn [thread_strings]. apply Forall_forall.
    intros u Hu. by apply (urls_are_strings curr).
  - split; cbn [set_thread hp threads saved]; try done. by apply Forall_insert.
  - split; cbn [set_thread hp threads saved]; try done. by apply Forall_insert.
  - split; cbn [set_thread hp threads saved]; try done. by apply Forall_insert.
  - split; cbn [set_thread hp threads saved]; try done.
    apply Forall_insert; [done|]. by destruct (_ <? _).
  - split; cbn [set_thread hp threads saved]; try done.
    apply Forall_insert; [done|]. by destruct (_ <? _).
  - apply Forall_cons in Hcurr as [Hu Hurls].
    split; cbn [set_thread hp threads saved]; try done. by apply Forall_insert.
  - apply Forall_cons in Hcurr as [Hu Hurls].
    split; cbn [hp threads saved]; try done.
    apply Forall_insert; [done|]. cbn [thread_strings webpage_new Webpage.url].
    by rewrite cstr_id.
  - split; cbn [hp threads saved]; try done. by apply Forall_insert.
  - split; cbn [count hp threads saved]; try done. by apply Forall_insert.
  - destruct Hcurr as (Hu & Hurls & Hpage & Hnone).
    unfold save in *. destruct (pagesave _ _ _) as [status dir'].
    assert (Forall (λ v, is_Some (hsearch (hput (hp s) url url (strlen url))
                                    (searchfn v) v (strlen v))) (saved_urls s)) as Hold.
    { eapply Forall_impl; [exact Hseen|]. intros v Hv. by eapply seen_hput. }
    split; unfold saved_urls, seen in *; cbn [hp threads saved] in *.
    + done.
    + by apply wf_hput.
    + apply Forall_forall. intros th [i Hi]%list_elem_of_lookup.
      apply lookup_insert_cases in Hi as [[-> ->]|[Hne Hi]].
      * by destruct (status =? 0).
      * pose proof (Forall_lookup_1 _ _ _ _ Hstr Hi) as Hth_i.
        destruct (in_section th) eqn:Hin; [|by eapply thread_strings_out].
        destruct Hm as [_ Hone]. by destruct (Hne (Hone i (who a) _ _ Hi Hth Hin eq_refl)).
    + destruct (status =? 0); [|done]. rewrite fmap_cons. apply Forall_cons.
      split; [|done]. cbn [snd]. rewrite Hpage. by apply seen_new.
    + destruct (status =? 0); [|done]. rewrite fmap_cons. apply NoDup_cons.
      split; [|done]. cbn [snd]. rewrite Hpage. intros Hin.
      rewrite Forall_forall in Hseen. destruct (Hseen url Hin) as [e He]. congruence.
  - by split.
Qed.

Lemma run_visited (s : state) (schedule : list action) :
  visited_inv s → visited_inv (run s schedule).
Proof.
  apply (run_invariant _ _ _ visited_inv). intros s' a Hinv _ Hmove.
  by eapply move_visited.
Qed.

(** X8 (crawl): under every schedule of the workers and whatever the
    network answers, no two saved pages have the same URL, and the URL
    of every saved page is in the table of the URLs seen. *)
Theorem saved_urls_unique (seed_url : cstring) (dir : directory)
        (fetched : option cstring) (s0 : state) (schedule : list action) :
  NUL ∉ seed_url →
  main max_depth seed_url dir fetched = Some s0 →
  let s := run s0 schedule in
  NoDup (saved_urls s) ∧ Forall (seen s) (saved_urls s).
Proof.
  intros Hseed Hmain s.
  destruct (run_visited s0 schedule (main_visited _ _ _ _ Hseed Hmain))
    as [_ _ _ H3 H4].
  by split.
Qed.
End Visited.

(** Both links of the page point to the same URL: it is saved once. *)
Definition same_links (p : webpage_t) : list cstring :=
  [str "http://a/b"; str "http://a/b"].

Definition seed_state : state :=
  default (State [] (hopen hsize) (Dir true ∅) 0 0 0 false [] true [])
          (main 1 (str "http://a/") (Dir true ∅) (Some (str "<html>"))).

(** Worker 0 takes the seed and goes through its two links. *)
Definition twice : list action := replicate 8 (go 0).

Lemma saved_urls_unique_witness :
  NoDup (saved_urls (run same_links internal 1 seed_state twice)) ∧
  Forall (seen (run same_links internal 1 seed_state twice))
         (saved_urls (run same_links internal 1 seed_state twice)).
Proof.
  apply (saved_urls_unique same_links internal 1) with
    (seed_url := str "http://a/") (dir := Dir true ∅) (fetched := Some (str "<html>")).
  - intros page u Hu. unfold same_links in Hu.
    rewrite !elem_of_cons, elem_of_nil in Hu.
    destruct Hu as [->|[->|[]]]; apply (bool_decide_unpack _); vm_compute; exact I.
  - apply (bool_decide_unpack _). vm_compute. exact I.
  - vm_compute. reflexivity.
Defined.

Example same_link_saved_once :
  saved_urls (run same_links internal 1 seed_state twice)
  = [str "http://a/b"; str "http://a/"] ∧
  threads (run same_links internal 1 seed_state twice)
  = [AtLoopHead; AtLoopHead; AtLoopHead].
Proof. vm_compute. split; reflexivity. Qed.

End VisitedTheory.

(** ** The counts of a page *)

Module IndexCounts.
Import Queue Hash Webpage PageIO IndexIO Indexer LibcFacts HashFacts IndexerTheory.

(** The words of [ws] the indexer keeps and whose lowercase form is [w]. *)
Definition counts_as (w w' : cstring) : bool :=
  accepts w' && bool_decide (map tolower w' = w).

Definition occurrences (w : cstring) (ws : list cstring) : nat :=
  length (List.filter (counts_as w) ws).

(** One more occurrence: the count goes up by one, or starts at one. *)
Definition counted (c : option Z) : option Z :=
  Some (match c with
        | Some c => int_add c 1
        | None => 1
        end).

Lemma wf_add_posting (index : index_t) (id : Z) (w : cstring) :
  wf_table index → wf_table (add_posting index id w).
Proof.
  intros Hwf. unfold add_posting.
  destruct (hsearch _ _ _ _) as [ep|]; [destruct (qsearch _ _)|];
    by (apply wf_hupdate || apply wf_hput).
Qed.

Lemma wf_index_word (index : index_t) (id : Z) (w : cstring) :
  NUL ∉ w → wf_table index → wf_table (index_word index id w).
Proof.
  intros Hn Hwf. destruct (accepts w) eqn:Hacc.
  - rewrite index_word_accepts by done. by apply wf_add_posting.
  - by rewrite index_word_rejects.
Qed.

Lemma index_word_count (index : index_t) (id : Z) (w w' : cstring) :
  wf_table index → NUL ∉ w → NUL ∉ w' →
  lookup_count (index_word index id w') w id
  = if counts_as w w' then counted (lookup_count index w id)
    else lookup_count index w id.
Proof.
  intros Hwf Hw Hw'. unfold counts_as. destruct (accepts w') eqn:Hacc; simpl.
  - rewrite index_word_accepts by done.
    destruct (decide (map tolower w' = w)) as [<-|Hne].
    + rewrite bool_decide_eq_true_2 by done. by apply add_posting_count.
    + rewrite bool_decide_eq_false_2 by done. apply add_posting_frame; try done.
      * apply NUL_notin_alpha, forallb_alpha_tolower.
        by apply andb_true_iff in Hacc as [_ ?].
      * congruence.
  - by rewrite index_word_rejects.
Qed.

Lemma index_word_other (index : index_t) (id id' : Z) (w w' : cstring) :
  wf_table index → NUL ∉ w → NUL ∉ w' → id' ≠ id →
  lookup_count (index_word index id w') w id' = lookup_count index w id'.
Proof.
  intros Hwf Hw Hw' Hid. destruct (accepts w') eqn:Hacc.
  - rewrite index_word_accepts by done. apply add_posting_frame; try done.
    + apply NUL_notin_alpha, forallb_alpha_tolower.
      by apply andb_true_iff in Hacc as [_ ?].
    + congruence.
  - by rewrite index_word_rejects.
Qed.

Lemma index_words_count (id : Z) (w : cstring) (ws : list cstring) :
  ∀ index, wf_table index → NUL ∉ w → Forall (λ w', NUL ∉ w') ws →
  lookup_count (foldl (λ index w', index_word index id w') index ws) w id
  = Nat.iter (occurrences w ws) counted (lookup_count index w id).
Proof.
  induction ws as [|w' ws IH]; intros index Hwf Hw Hws; [done|].
  apply Forall_cons in Hws as [Hw' Hws]. cbn [foldl].
  rewrite IH by (done || by apply wf_index_word).
  rewrite index_word_count by done. unfold occurrences. cbn [List.filter].
  destruct (counts_as w w'); [|done]. cbn [length]. by rewrite Nat.iter_succ_r.
Qed.

Lemma index_words_other (id id' : Z) (w : cstring) (ws : list cstring) :
  ∀ index, wf_table index → NUL ∉ w → Forall (λ w', NUL ∉ w') ws → id' ≠ id →
  lookup_count (foldl (λ index w', index_word index id w') index ws) w id'
  = lookup_count index w id'.
Proof.
  induction ws as [|w' ws IH]; intros index Hwf Hw Hws Hid; [done|].
  apply Forall_cons in Hws as [Hw' Hws]. cbn [foldl].
  rewrite IH by (done || by apply wf_index_word). by apply index_word_other.
Qed.

Lemma iter_counted (n : nat) :
  (0 < n)%nat → Z.of_nat n <= INT_MAX → Nat.iter n counted None = Some (Z.of_nat n).
Proof.
  induction n as [|n IH]; [lia|]. intros _ Hmax. destruct n as [|n]; [done|].
  rewrite Nat.iter_succ, IH by lia. unfold counted, int_add. f_equal.
  rewrite EvalTheory.wrap_int_id; [lia|]. unfold in_int, INT_MIN, INT_MAX in *. lia.
Qed.

Section Page.
Variable webpage_getWords : webpage_t → list cstring.

(** X9 (indexer main, word loop): indexing a page under [id] in a table
    that has no count for [id] yet gives every word the number of its
    occurrences among the words of the page that are kept (alphabetic,
    three characters or more), compared in lowercase; a word without
    occurrence gets no posting, and the counts of the other documents
    stay as they are. *)
Theorem index_page_counts (index : index_t) (id : Z) (page : webpage_t) (w : cstring) :
  wf_table index → NUL ∉ w →
  Forall (λ w', NUL ∉ w') (webpage_getWords page) →
  Z.of_nat (occurrences w (webpage_getWords page)) <= INT_MAX →
  lookup_count index w id = None →
  lookup_count (index_page webpage_getWords index id page) w id
  = (if decide (occurrences w (webpage_getWords page) = 0%nat) then None
     else Some (Z.of_nat (occurrences w (webpage_getWords page)))) ∧
  ∀ id', id' ≠ id →
    lookup_count (index_page webpage_getWords index id page) w id'
    = lookup_count index w id'.
Proof.
  intros Hwf Hw Hws Hmax Hnew. unfold index_page. split.
  - rewrite index_words_count, Hnew by done.
    destruct (decide _) as [->|Hn]; [done|]. apply iter_counted; [lia|done].
  - intros id' Hid. by apply index_words_other.
Qed.
End Page.

Definition kennel (page : webpage_t) : list cstring :=
  [str "Dog"; str "cat"; str "dog"; str "do"; str "dog1"; str "DOG"].

Lemma index_page_counts_witness :
  lookup_count (index_page kennel (hopen hsize) 1 (Page [] 0 [] 0)) (str "dog") 1
  = Some 3.
Proof.
  apply (index_page_counts kennel (hopen hsize) 1 (Page [] 0 [] 0) (str "dog")).
  - by apply wf_hopen.
  - apply (bool_decide_unpack _). vm_compute. exact I.
  - apply (bool_decide_unpack _). vm_compute. exact I.
  - vm_compute. discriminate.
  - vm_compute. reflexivity.
Defined.

End IndexCounts.

(** ** The table, the saved pages and the files *)

Module SavedFiles.
Import Queue Hash Webpage PageIO Crawler LibcFacts HashFacts Decimals.
Import CrawlTheory VisitedTheory.

Lemma print_int_inj (a b : Z) :
  in_int a → in_int b → print_int a = print_int b → a = b.
Proof.
  intros Ha Hb Hab. apply (f_equal atoi) in Hab.
  by rewrite !atoi_print_int, !decimal_int_id in Hab.
Qed.

Lemma concat_alter_snoc {A} (x : A) (l : list (list A)) :
  ∀ k : nat, (k < length l)%nat →
  concat (alter (λ q, q ++ [x]) k l) ≡ₚ x :: concat l.
Proof.
  induction l as [|q l IH]; intros k Hk; [simpl in Hk; lia|].
  destruct k as [|k]; cbn [alter list_alter concat].
  - rewrite <- app_assoc. cbn [app]. by rewrite <- Permutation_middle.
  - rewrite IH by (simpl in Hk; lia). by rewrite <- Permutation_middle.
Qed.

Lemma happly_order_hput {A} (htp : hashtable_t A) (x : A) (key : cstring) (len : Z) :
  wf_table htp → happly_order (hput htp x key len) ≡ₚ x :: happly_order htp.
Proof.
  intros Hwf. unfold happly_order. cbn [hput hash_table].
  apply concat_alter_snoc. by apply slot_lt.
Qed.

Section Saved.
Variable webpage_getURLs : webpage_t → list cstring.
Variable IsInternalURL : cstring → bool.
Variable max_depth : Z.

Abbreviation step := (step webpage_getURLs IsInternalURL max_depth).
Abbreviation run := (run webpage_getURLs IsInternalURL max_depth).
Abbreviation move := (move webpage_getURLs IsInternalURL max_depth).

(** In a crawl into a writable directory no [pagesave] fails, the ids
    are handed out in order, and the file of every saved page is in the
    directory. *)
Record files_inv (s : state) : Prop := FilesInv {
  inv_writable : writable (dirname s) = true;
  inv_running : Forall (λ th, th ≠ Exiting) (threads s);
  inv_next : id s = Z.of_nat (length (saved s)) + 1;
  inv_ids : Forall (λ x, 1 <= x.1 < id s) (saved s);
  inv_files : Forall (λ x, files (dirname s) !! print_int x.1 = Some (page_file x.2))
                     (saved s)
}.

Lemma main_files (seed_url : cstring) (dir : directory) (fetched : option cstring)
      (s : state) :
  writable dir = true →
  main max_depth seed_url dir fetched = Some s → files_inv s.
Proof.
  intros Hw. unfold main. destruct (max_depth <? 0); [done|].
  destruct fetched as [html|]; [|done]. unfold pagesave. rewrite Hw.
  intros [= <-].
  split; cbn [dirname threads saved id writable files Z.eqb length].
  - done.
  - by repeat constructor.
  - done.
  - apply Forall_singleton. cbn. lia.
  - apply Forall_singleton. cbn [fst snd]. by rewrite lookup_insert_eq.
Qed.

(** A step saves one page at most, and forgets none. *)
Lemma move_saved (s s' : state) (a : action) :
  move s a s' → saved s' = saved s ∨ ∃ x, saved s' = x :: saved s.
Proof.
  intros Hmove. move_cases Hmove; try (by left).
  unfold save. destruct (pagesave _ _ _) as [status dir']. cbn [saved].
  destruct (status =? 0); [right; by eexists|by left].
Qed.

Lemma step_saved_grows (s : state) (a : action) :
  (length (saved s) ≤ length (saved (step s a)))%nat ∧
  ∀ x, x ∈ saved s → x ∈ saved (step s a).
Proof.
  destruct (step_cases webpage_getURLs IsInternalURL max_depth s a)
    as [->|[_ Hmove]]; [done|].
  destruct (move_saved _ _ _ Hmove) as [->|[x ->]]; [done|].
  split; [cbn [length]; lia|]. intros y Hy. apply elem_of_cons. by right.
Qed.

Lemma run_saved_grows (s : state) (schedule : list action) :
  (length (saved s) ≤ length (saved (run s schedule)))%nat ∧
  ∀ x, x ∈ saved s → x ∈ saved (run s schedule).
Proof.
  induction schedule as [|a schedule [IH1 IH2]] using rev_ind; [done|].
  rewrite run_snoc.
  destruct (step_saved_grows (run s schedule) a) as [H1 H2].
  split; [lia|]. intros x Hx. by apply H2, IH2.
Qed.

Lemma move_files (s s' : state) (a : action) :
  files_inv s → Z.of_nat (length (saved s')) < INT_MAX →
  move s a s' → files_inv s'.
Proof.
  intros [Hw Hrun Hnext Hids Hfiles] Hbound Hmove.
  move_cases Hmove; pose proof (Forall_lookup_1 _ _ _ _ Hrun Hth) as Hcurr;
    try done;
    try (split; cbn [set_thread count dirname threads saved id] in *; try done;
         apply Forall_insert; [done|]; try destruct (_ <? _); done).
  unfold save, pagesave in *. rewrite Hw in *.
  cbn [saved Z.eqb length dirname threads id writable files] in *.
  assert (int_add (id s) 1 = id s + 1) as Hid.
  { unfold int_add. apply EvalTheory.wrap_int_id.
    unfold in_int, INT_MIN, INT_MAX in *. lia. }
  split; cbn [dirname threads saved id writable files length].
  - done.
  - by apply Forall_insert.
  - rewrite Hid, Hnext. lia.
  - rewrite Hid. apply Forall_cons. split; [cbn; lia|].
    eapply Forall_impl; [exact Hids|]. intros x Hx. cbn beta in *. lia.
  - apply Forall_cons. split; [cbn [fst snd]; by rewrite lookup_insert_eq|].
    rewrite Forall_forall in Hids. apply Forall_forall. intros x Hx.
    rewrite Forall_forall in Hfiles. rewrite lookup_insert_ne; [by apply Hfiles|].
    intros Heq. apply print_int_inj in Heq.
    + specialize (Hids x Hx). cbn beta in Hids. lia.
    + unfold in_int, INT_MIN, INT_MAX in *. lia.
    + specialize (Hids x Hx). cbn beta in Hids.
      unfold in_int, INT_MIN, INT_MAX in *. lia.
Qed.

Lemma run_files (s0 : state) (schedule : list action) :
  files_inv s0 → Z.of_nat (length (saved (run s0 schedule))) < INT_MAX →
  files_inv (run s0 schedule).
Proof.
  intros H0.
  apply (run_invariant _ _ _
           (λ s, Z.of_nat (length (saved s)) < INT_MAX → files_inv s)); [|done].
  intros s a IH _ Hmove Hbound. eapply move_files; [|done|done].
  apply IH. destruct (step_saved_grows s a) as [Hlen _]. lia.
Qed.

(** C9: in a crawl with [max_depth >= 0] that starts (the seed is
    fetched), under every schedule of the three workers and whatever the
    network answers, every file the page directory holds was there
    before or is the file of a page of depth at most [max_depth], and so
    is every page on the list of the saved pages.  In a writable
    directory the seed is on that list with depth 0, and the directory
    holds the file of every page on the list under its id (as long as
    fewer than [INT_MAX] pages are saved).  With [max_depth = 0] the
    seed is the one page saved: the directory is as before but for the
    file 1, which is the seed's. *)
Theorem C9_saved_depth_bounded (seed_url : cstring) (dir : directory) (html : cstring) :
  0 <= max_depth →
  ∃ s0 : state,
    main max_depth seed_url dir (Some html) = Some s0 ∧
    ∀ schedule : list action,
      let s := run s0 schedule in
      let seed_page := webpage_new seed_url 0 html in
      (∀ name content, files (dirname s) !! name = Some content →
         files dir !! name = Some content ∨
         ∃ p, content = page_file p ∧ 0 <= depth p <= max_depth) ∧
      Forall (λ x, 0 <= depth x.2 <= max_depth) (saved s) ∧
      (writable dir = true → Z.of_nat (length (saved s)) < INT_MAX →
       (1, seed_page) ∈ saved s ∧ depth seed_page = 0 ∧
       ∀ x, x ∈ saved s →
         files (dirname s) !! print_int x.1 = Some (page_file x.2)) ∧
      (max_depth = 0 → writable dir = true →
       saved s = [(1, seed_page)] ∧
       files (dirname s) = <[print_int 1 := page_file seed_page]> (files dir)).
Proof.
  intros Hd.
  destruct (main max_depth seed_url dir (Some html)) as [s0|] eqn:Hmain.
  2:{ unfold main in Hmain. destruct (max_depth <? 0) eqn:Hlt.
      - apply Z.ltb_lt in Hlt. lia.
      - by destruct (pagesave _ _ _). }
  exists s0. split; [done|]. intros schedule s seed_page.
  pose proof (main_inv _ _ _ _ _ Hmain) as Hinv.
  pose proof (run_inv webpage_getURLs IsInternalURL max_depth dir s0 schedule Hinv)
    as [_ _ Hsaved Hdir].
  assert (writable dir = true →
          saved s0 = [(1, seed_page)] ∧
          files (dirname s0) = <[print_int 1 := page_file seed_page]> (files dir))
    as Hseed.
  { intros Hw. unfold main in Hmain. destruct (max_depth <? 0); [done|].
    unfold pagesave in Hmain. rewrite Hw in Hmain. by injection Hmain as <-. }
  split; [exact Hdir|]. split; [exact Hsaved|]. split.
  - intros Hw Hbound. destruct (Hseed Hw) as [Hs0 _].
    destruct (run_saved_grows s0 schedule) as [_ Hkeep].
    split; [apply Hkeep; rewrite Hs0; by apply list_elem_of_singleton|].
    split; [done|].
    destruct (run_files s0 schedule (main_files _ _ _ _ Hw Hmain) Hbound)
      as [_ _ _ _ Hfiles].
    by apply Forall_forall.
  - intros H0 Hw. destruct (Hseed Hw) as [Hs0 Hf0].
    destruct (run_idle webpage_getURLs IsInternalURL max_depth dir s0 schedule H0 Hinv)
      as [_ Hs Hdirname].
    { unfold main in Hmain. destruct (max_depth <? 0); [done|].
      destruct (pagesave _ _ _). injection Hmain as <-. cbn [threads].
      by repeat constructor. }
    fold s in Hs, Hdirname. by rewrite Hs, Hdirname.
Qed.

Hypothesis urls_are_strings : ∀ page u, u ∈ webpage_getURLs page → NUL ∉ u.

(** The table holds the URLs of the saved pages and no other. *)
Record saved_inv (s : state) : Prop := SavedInv {
  inv_visited_urls : visited_inv s;
  inv_page_files : files_inv s;
  inv_visited : happly_order (hp s) ≡ₚ saved_urls s
}.

Lemma main_saved (seed_url : cstring) (dir : directory) (fetched : option cstring)
      (s : state) :
  NUL ∉ seed_url → writable dir = true →
  main max_depth seed_url dir fetched = Some s → saved_inv s.
Proof.
  intros Hseed Hw Hmain. split.
  - by eapply main_visited.
  - by eapply main_files.
  - revert Hmain. unfold main. destruct (max_depth <? 0); [done|].
    destruct fetched as [html|]; [|done]. unfold pagesave. rewrite Hw.
    intros [= <-]. cbn [hp saved Z.eqb].
    assert (wf_table (@hopen cstring hsize)) as Hwf by (by apply wf_hopen).
    rewrite happly_order_hput by done. unfold saved_urls. cbn.
    rewrite cstr_id by done. apply Permutation_skip.
    unfold happly_order, hopen. cbn [hash_table].
    induction (Z.to_nat hsize) as [|n IH]; [done|]. by cbn.
Qed.

Lemma move_saved_inv (s s' : state) (a : action) :
  saved_inv s → Z.of_nat (length (saved s')) < INT_MAX →
  move s a s' → saved_inv s'.
Proof.
  intros [Hv Hf Hperm] Hbound Hmove. split.
  - by eapply (move_visited webpage_getURLs IsInternalURL max_depth urls_are_strings).
  - by eapply move_files.
  - destruct Hv as [_ Hwf Hstr _ _]. destruct Hf as [Hw _ _ _ _].
    move_cases Hmove; try done.
    pose proof (Forall_lookup_1 _ _ _ _ Hstr Hth) as (_ & _ & Hpage & _).
    unfold save, pagesave. rewrite Hw. unfold saved_urls in *.
    cbn [hp saved Z.eqb]. rewrite happly_order_hput by done. rewrite fmap_cons.
    cbn [snd]. rewrite Hpage. by apply Permutation_skip.
Qed.

Lemma run_saved_inv (s0 : state) (schedule : list action) :
  saved_inv s0 → Z.of_nat (length (saved (run s0 schedule))) < INT_MAX →
  saved_inv (run s0 schedule).
Proof.
  intros H0.
  apply (run_invariant _ _ _
           (λ s, Z.of_nat (length (saved s)) < INT_MAX → saved_inv s)); [|done].
  intros s a IH _ Hmove Hbound. eapply move_saved_inv; [|done|done].
  apply IH. destruct (step_saved_grows s a) as [Hlen _]. lia.
Qed.

(** X10 (main, crawl): in a crawl into a writable page directory, as
    long as fewer than [INT_MAX] pages are saved, the table of the URLs
    seen holds the URLs of the saved pages and no other, and the
    directory holds the file of every saved page under its id. *)
Theorem visited_are_saved (seed_url : cstring) (dir : directory)
        (fetched : option cstring) (s0 : state) (schedule : list action) :
  NUL ∉ seed_url → writable dir = true →
  main max_depth seed_url dir fetched = Some s0 →
  let s := run s0 schedule in
  Z.of_nat (length (saved s)) < INT_MAX →
  happly_order (hp s) ≡ₚ saved_urls s ∧
  ∀ x, x ∈ saved s → files (dirname s) !! print_int x.1 = Some (page_file x.2).
Proof.
  intros Hseed Hw Hmain s Hbound.
  destruct (run_saved_inv s0 schedule (main_saved _ _ _ _ Hseed Hw Hmain) Hbound)
    as [_ [_ _ _ _ Hfiles] Hperm].
  split; [done|]. by apply Forall_forall.
Qed.
End Saved.

Lemma C9_saved_depth_bounded_witness :
  ∃ s0 : state,
    main 0 (str "http://a/") (Dir true ∅) (Some (str "<html>")) = Some s0 ∧
    ∀ schedule : list action,
      saved (run two_links internal 0 s0 schedule)
      = [(1, webpage_new (str "http://a/") 0 (str "<html>"))] ∧
      files (dirname (run two_links internal 0 s0 schedule))
      = {[ str "1" := page_file (webpage_new (str "http://a/") 0 (str "<html>")) ]}.
Proof.
  destruct (C9_saved_depth_bounded two_links internal 0
              (str "http://a/") (Dir true ∅) (str "<html>")) as (s0 & Hmain & H).
  - lia.
  - exists s0. split; [exact Hmain|]. intros schedule.
    destruct (H schedule) as (_ & _ & _ & H0). apply H0; reflexivity.
Defined.

Lemma visited_are_saved_witness :
  happly_order (hp (run same_links internal 1 seed_state twice))
    ≡ₚ saved_urls (run same_links internal 1 seed_state twice) ∧
  ∀ x, x ∈ saved (run same_links internal 1 seed_state twice) →
    files (dirname (run same_links internal 1 seed_state twice)) !! print_int x.1
    = Some (page_file x.2).
Proof.
  apply (visited_are_saved same_links internal 1) with
    (seed_url := str "http://a/") (dir := Dir true ∅) (fetched := Some (str "<html>")).
  - intros page u Hu. unfold same_links in Hu.
    rewrite !elem_of_cons, elem_of_nil in Hu.
    destruct Hu as [->|[->|[]]]; apply (bool_decide_unpack _); vm_compute; exact I.
  - apply (bool_decide_unpack _). vm_compute. exact I.
  - reflexivity.
  - vm_compute. reflexivity.
  - vm_compute. reflexivity.
Defined.

End SavedFiles.

(** ** The algebra of queries *)

Module QueryAlgebra.
Import Queue Hash Query Scores HeapLogic EvalTheory Precedence.

(** The evaluation of a query of the grammar gives every document the
    score [f] gives it, when [f] is the score of the query. *)
Lemma evaluate_scored (h : heap) (index : index_t) (g : group) (gs : list group)
      (f : Z → option Z) :
  index_allocated h index →
  Forall (λ g, Forall operand (group_terms g)) (g :: gs) →
  Forall (λ t, NoDup (index_scores h index t).*1) (query_terms g gs) →
  (∀ id, query_score (index_scores h index) id (g :: gs) = f id) →
  wp (evaluate (query_tokens g gs) index) h (λ r h',
    ∃ R, represents h' r.1 R ∧ NoDup R.*1 ∧ ∀ id, score id R = f id).
Proof.
  intros Hal Hterms Hnd Hf.
  destruct (evaluate_scores_query (index_scores h index) g gs Hterms Hnd)
    as (R & HR & HndR & Hscore).
  eapply wp_mono.
  - apply evaluate_spec; [done|by destruct g|].
    apply Forall_cons in Hterms as [[H1 _]%Forall_cons _]. exact H1.
  - intros r h' (ranked & R' & -> & _ & Hrep & HR'). exists R.
    rewrite HR in HR'. injection HR' as <-.
    split; [done|]. split; [done|]. intros id. by rewrite Hscore.
Qed.

(** X11 (main, get_intersection, get_union): "t1 and t2" and
    "t2 and t1" give every document the same score, the smaller of its
    two counts, and so do "t1 or t2" and "t2 or t1", the sum of its
    counts. *)
Theorem and_or_commute (h : heap) (index : index_t) (t1 t2 : cstring) :
  index_allocated h index → operand t1 → operand t2 →
  NoDup (index_scores h index t1).*1 → NoDup (index_scores h index t2).*1 →
  let both id := and_score (score id (index_scores h index t1))
                           (score id (index_scores h index t2)) in
  let either id := or_score (score id (index_scores h index t1))
                            (score id (index_scores h index t2)) in
  wp (evaluate [t1; s_and; t2] index) h (λ r h',
    ∃ R, represents h' r.1 R ∧ NoDup R.*1 ∧ ∀ id, score id R = both id) ∧
  wp (evaluate [t2; s_and; t1] index) h (λ r h',
    ∃ R, represents h' r.1 R ∧ NoDup R.*1 ∧ ∀ id, score id R = both id) ∧
  wp (evaluate [t1; s_or; t2] index) h (λ r h',
    ∃ R, represents h' r.1 R ∧ NoDup R.*1 ∧ ∀ id, score id R = either id) ∧
  wp (evaluate [t2; s_or; t1] index) h (λ r h',
    ∃ R, represents h' r.1 R ∧ NoDup R.*1 ∧ ∀ id, score id R = either id).
Proof.
  intros Hal H1 H2 Hn1 Hn2 both either.
  split; [|split; [|split]].
  - apply (evaluate_scored h index (t1, [t2]) []); [done|by repeat constructor..|].
    intros id. unfold query_score, group_score, both. cbn.
    by destruct (and_score _ _).
  - apply (evaluate_scored h index (t2, [t1]) []); [done|by repeat constructor..|].
    intros id. unfold query_score, group_score, both. cbn.
    rewrite and_score_comm. by destruct (and_score _ _).
  - apply (evaluate_scored h index (t1, []) [(t2, [])]); [done|by repeat constructor..|].
    intros id. unfold query_score, group_score, either. cbn.
    by destruct (score id (index_scores h index t2)).
  - apply (evaluate_scored h index (t2, []) [(t1, [])]); [done|by repeat constructor..|].
    intros id. unfold query_score, group_score, either. cbn.
    rewrite or_score_comm. by destruct (score id (index_scores h index t1)).
Qed.

Lemma and_or_commute_witness :
  let P := index_scores campus_heap campus_index in
  wp (evaluate [str "computer"; s_and; str "science"] campus_index) campus_heap
    (λ r h', ∃ R, represents h' r.1 R ∧ NoDup R.*1 ∧
       ∀ id, score id R = and_score (score id (P (str "computer")))
                                    (score id (P (str "science")))) ∧
  wp (evaluate [str "science"; s_and; str "computer"] campus_index) campus_heap
    (λ r h', ∃ R, represents h' r.1 R ∧ NoDup R.*1 ∧
       ∀ id, score id R = and_score (score id (P (str "computer")))
                                    (score id (P (str "science")))) ∧
  wp (evaluate [str "computer"; s_or; str "science"] campus_index) campus_heap
    (λ r h', ∃ R, represents h' r.1 R ∧ NoDup R.*1 ∧
       ∀ id, score id R = or_score (score id (P (str "computer")))
                                   (score id (P (str "science")))) ∧
  wp (evaluate [str "science"; s_or; str "computer"] campus_index) campus_heap
    (λ r h', ∃ R, represents h' r.1 R ∧ NoDup R.*1 ∧
       ∀ id, score id R = or_score (score id (P (str "computer")))
                                   (score id (P (str "science")))).
Proof.
  apply (and_or_commute campus_heap campus_index (str "computer") (str "science")).
  - intros l. rewrite campus_index_locs. rewrite !elem_of_cons, elem_of_nil.
    intros [->|[->|[->|[->|[]]]]]; vm_compute; by eexists.
  - reflexivity.
  - reflexivity.
  - apply (bool_decide_unpack _). vm_compute. exact I.
  - apply (bool_decide_unpack _). vm_compute. exact I.
Defined.

End QueryAlgebra.

(** ** queue.c, with its pointers

    The queue as queue.c builds it: a wrapper with the pointers [front]
    and [back], and a chain of nodes.  The list of [Queue] is what this
    representation holds as long as its invariant is kept. *)

Module LinkedQueue.

Abbreviation loc := nat.

Section Ops.
Context {A : Type}.

Record qelement_t : Type := QElement {
  element : A;
  next : option loc
}.

Record queueWrapper_t : Type := Wrapper {
  front : option loc;
  back : option loc
}.

(** The memory of the module: the nodes and the wrappers [malloc] gave and
    [free] has not taken back; the next address of each kind ([malloc]
    gives no address twice, so that the use of a freed node is always
    seen); and the elements handed to [free], in order. *)
Record mem : Type := Mem {
  nodes : gmap loc qelement_t;
  wrappers : gmap loc queueWrapper_t;
  next_node : loc;
  next_wrapper : loc;
  released : list A
}.

(** Computations on the memory; [None] is undefined behaviour (or a loop
    that does not end). *)
Definition M (X : Type) : Type := mem → option (X * mem).

Definition ret {X} (x : X) : M X := λ m, Some (x, m).
Definition bind {X Y} (c : M X) (k : X → M Y) : M Y :=
  λ m, match c m with
       | Some (x, m') => k x m'
       | None => None
       end.
Definition undefined {X} : M X := λ _, None.

Definition load_node (l : loc) : M qelement_t :=
  λ m, match nodes m !! l with Some n => Some (n, m) | None => None end.

Definition store_node (l : loc) (n : qelement_t) : M unit :=
  λ m, match nodes m !! l with
       | Some _ => Some (tt, Mem (<[l := n]> (nodes m)) (wrappers m) (next_node m)
                               (next_wrapper m) (released m))
       | None => None
       end.

Definition malloc_node (n : qelement_t) : M loc :=
  λ m, Some (next_node m,
             Mem (<[next_node m := n]> (nodes m)) (wrappers m) (S (next_node m))
                 (next_wrapper m) (released m)).

Definition free_node (l : loc) : M unit :=
  λ m, match nodes m !! l with
       | Some _ => Some (tt, Mem (delete l (nodes m)) (wrappers m) (next_node m)
                               (next_wrapper m) (released m))
       | None => None
       end.

Definition load_wrapper (q : loc) : M queueWrapper_t :=
  λ m, match wrappers m !! q with Some w => Some (w, m) | None => None end.

Definition store_wrapper (q : loc) (w : queueWrapper_t) : M unit :=
  λ m, match wrappers m !! q with
       | Some _ => Some (tt, Mem (nodes m) (<[q := w]> (wrappers m)) (next_node m)
                               (next_wrapper m) (released m))
       | None => None
       end.

Definition malloc_wrapper (w : queueWrapper_t) : M loc :=
  λ m, Some (next_wrapper m,
             Mem (nodes m) (<[next_wrapper m := w]> (wrappers m)) (next_node m)
                 (S (next_wrapper m)) (released m)).

Definition free_wrapper (q : loc) : M unit :=
  λ m, match wrappers m !! q with
       | Some _ => Some (tt, Mem (nodes m) (delete q (wrappers m)) (next_node m)
                               (next_wrapper m) (released m))
       | None => None
       end.

(** [free(curr->element)] *)
Definition release (x : A) : M unit :=
  λ m, Some (tt, Mem (nodes m) (wrappers m) (next_node m) (next_wrapper m)
                     (released m ++ [x])).

(** The nodes a loop can visit before it is in a cycle. *)
Definition fuel (m : mem) : nat := S (size (nodes m)).

Notation "'let*' x := c 'in' k" := (bind c (λ x, k))
  (at level 10, x name, c at level 100, k at level 200).
Notation "c ;;* k" := (bind c (λ _, k))
  (at level 100, right associativity).

Definition set_front (q : loc) (p : option loc) : M unit :=
  let* w := load_wrapper q in store_wrapper q (Wrapper p (back w)).

Definition set_back (q : loc) (p : option loc) : M unit :=
  let* w := load_wrapper q in store_wrapper q (Wrapper (front w) p).

Definition set_next (l : loc) (p : option loc) : M unit :=
  let* n := load_node l in store_node l (QElement (element n) p).

(** [qopen] *)
Definition qopen : M (option loc) :=
  let* q := malloc_wrapper (Wrapper None None) in
  ret (Some q).

(** [qput]: there is no check of [qp]. *)
Definition qput (qp : option loc) (elementp : A) : M Z :=
  match qp with
  | None => undefined
  | Some q =>
      let* qep := malloc_node (QElement elementp None) in
      let* w := load_wrapper q in
      match back w with
      | None =>
          set_front q (Some qep) ;;*
          set_back q (Some qep) ;;*
          ret 0
      | Some b =>
          set_next b (Some qep) ;;*
          set_back q (Some qep) ;;*
          ret 0
      end
  end.

(** [qget] *)
Definition qget (qp : option loc) : M (option A) :=
  match qp with
  | None => ret None
  | Some q =>
      let* w := load_wrapper q in
      match front w with
      | None => ret None
      | Some qep =>
          let* n := load_node qep in
          set_front q (next n) ;;*
          match next n with
          | None => set_back q None
          | Some _ => ret tt
          end ;;*
          free_node qep ;;*
          ret (Some (element n))
      end
  end.

(** [qapply]: [fn] acts on a state of its own. *)
Fixpoint qapply_loop {St : Type} (n : nat) (curr : option loc) (fn : A → St → St)
         (s : St) : M St :=
  match curr with
  | None => ret s
  | Some c =>
      match n with
      | O => undefined
      | S n' =>
          let* e := load_node c in
          qapply_loop n' (next e) fn (fn (element e) s)
      end
  end.

Definition qapply {St : Type} (qp : option loc) (fn : A → St → St) (s : St) : M St :=
  match qp with
  | None => ret s
  | Some q =>
      let* w := load_wrapper q in
      λ m, qapply_loop (fuel m) (front w) fn s m
  end.

(** [qsearch]; the key is part of [searchfn]. *)
Fixpoint qsearch_loop (n : nat) (curr : option loc) (searchfn : A → bool)
  : M (option A) :=
  match curr with
  | None => ret None
  | Some c =>
      match n with
      | O => undefined
      | S n' =>
          let* e := load_node c in
          if searchfn (element e) then ret (Some (element e))
          else qsearch_loop n' (next e) searchfn
      end
  end.

Definition qsearch (qp : option loc) (searchfn : A → bool) : M (option A) :=
  match qp with
  | None => ret None
  | Some q =>
      let* w := load_wrapper q in
      λ m, qsearch_loop (fuel m) (front w) searchfn m
  end.

(** [qremove]: the node found is unlinked and freed; [back] is not
    written. *)
Fixpoint qremove_loop (n : nat) (q : loc) (prev curr : option loc)
         (searchfn : A → bool) : M (option A) :=
  match curr with
  | None => ret None
  | Some c =>
      match n with
      | O => undefined
      | S n' =>
          let* e := load_node c in
          if searchfn (element e) then
            match prev with
            | None => set_front q (next e)
            | Some p => set_next p (next e)
            end ;;*
            free_node c ;;*
            ret (Some (element e))
          else qremove_loop n' q (Some c) (next e) searchfn
      end
  end.

Definition qremove (qp : option loc) (searchfn : A → bool) : M (option A) :=
  match qp with
  | None => ret None
  | Some q =>
      let* w := load_wrapper q in
      λ m, qremove_loop (fuel m) q None (front w) searchfn m
  end.

(** [qclose] *)
Fixpoint qclose_loop (n : nat) (curr : option loc) : M unit :=
  match curr with
  | None => ret tt
  | Some c =>
      match n with
      | O => undefined
      | S n' =>
          let* e := load_node c in
          release (element e) ;;*
          free_node c ;;*
          qclose_loop n' (next e)
      end
  end.

Definition qclose (qp : option loc) : M unit :=
  match qp with
  | None => ret tt
  | Some q =>
      let* w := load_wrapper q in
      (λ m, qclose_loop (fuel m) (front w) m) ;;*
      set_front q None ;;*
      set_back q None ;;*
      free_wrapper q
  end.

(** [qconcat] *)
Definition qconcat (q1p q2p : option loc) : M unit :=
  match q1p, q2p with
  | Some q1, Some q2 =>
      let* w1 := load_wrapper q1 in
      match front w1 with
      | None =>
          let* w2 := load_wrapper q2 in
          set_front q1 (front w2) ;;*
          let* w2 := load_wrapper q2 in
          set_back q1 (back w2) ;;*
          set_front q2 None ;;*
          set_back q2 None ;;*
          qclose (Some q2)
      | Some _ =>
          let* w2 := load_wrapper q2 in
          match front w2 with
          | None => qclose (Some q2)
          | Some _ =>
              let* w1 := load_wrapper q1 in
              match back w1 with
              | None => undefined
              | Some b =>
                  let* w2 := load_wrapper q2 in
                  set_next b (front w2) ;;*
                  let* w2 := load_wrapper q2 in
                  set_back q1 (back w2) ;;*
                  set_front q2 None ;;*
                  set_back q2 None ;;*
                  qclose (Some q2)
              end
          end
      end
  | _, _ => ret tt
  end.
End Ops.

Arguments qelement_t : clear implicits.
Arguments mem : clear implicits.
Arguments M : clear implicits.

Notation "'let*' x := c 'in' k" := (bind c (λ x, k))
  (at level 10, x name, c at level 100, k at level 200).
Notation "c ;;* k" := (bind c (λ _, k))
  (at level 100, right associativity).

End LinkedQueue.

(** ** The chain of nodes and the list it holds *)

Module LinkedQueueTheory.
Import LinkedQueue.

Section Theory.
Context {A : Type}.
Implicit Types (m : mem A) (h : gmap loc (qelement_t A)) (cells : list (loc * A)).

(** *** Weakest preconditions *)

Definition wp {X} (c : M A X) (m : mem A) (Q : X → mem A → Prop) : Prop :=
  ∃ x m', c m = Some (x, m') ∧ Q x m'.

Lemma qwp_ret {X} (x : X) m (Q : X → mem A → Prop) : Q x m → wp (ret x) m Q.
Proof. intros HQ. by exists x, m. Qed.

Lemma qwp_bind {X Y} (c : M A X) (k : X → M A Y) m (Q : Y → mem A → Prop) :
  wp c m (λ x m', wp (k x) m' Q) → wp (bind c k) m Q.
Proof.
  intros (x & m' & Hc & y & m'' & Hk & HQ). exists y, m''.
  split; [|done]. unfold bind. by rewrite Hc.
Qed.

Lemma qwp_mono {X} (c : M A X) m (Q Q' : X → mem A → Prop) :
  wp c m Q → (∀ x m', Q x m' → Q' x m') → wp c m Q'.
Proof. intros (x & m' & Hc & HQ) HQQ. exists x, m'. auto. Qed.

(** *** Segments *)

(** The nodes [cells], linked in this order from [p]; the last one
    points to [e]. *)
Fixpoint lseg h (p : option loc) cells (e : option loc) : Prop :=
  match cells with
  | [] => p = e
  | (l, x) :: cells' =>
      p = Some l ∧ ∃ n, h !! l = Some (QElement x n) ∧ lseg h n cells' e
  end.

Lemma lseg_frame h h' p cells e :
  (∀ l, l ∈ cells.*1 → h' !! l = h !! l) → lseg h p cells e → lseg h' p cells e.
Proof.
  revert p. induction cells as [|[l x] cells IH]; intros p Hsame; [done|].
  intros [-> (n & Hl & Hrest)]. split; [done|]. exists n. split.
  - rewrite Hsame; [done|]. rewrite fmap_cons. apply elem_of_cons. by left.
  - apply IH; [|done]. intros l' Hl'. apply Hsame. rewrite fmap_cons.
    apply elem_of_cons. by right.
Qed.

Lemma lseg_app h p cells1 cells2 e :
  lseg h p (cells1 ++ cells2) e ↔ ∃ mid, lseg h p cells1 mid ∧ lseg h mid cells2 e.
Proof.
  revert p. induction cells1 as [|[l x] cells1 IH]; intros p; simpl.
  - split; [intros H; by exists p|]. by intros (mid & -> & H).
  - split.
    + intros [-> (n & Hl & Hrest)]. apply IH in Hrest as (mid & H1 & H2).
      exists mid. split; [|done]. split; [done|]. by exists n.
    + intros (mid & [-> (n & Hl & H1)] & H2). split; [done|]. exists n.
      split; [done|]. apply IH. by exists mid.
Qed.

Lemma lseg_allocated h p cells e l :
  lseg h p cells e → l ∈ cells.*1 → is_Some (h !! l).
Proof.
  revert p. induction cells as [|[l' x] cells IH]; intros p; simpl.
  - by intros _ ?%elem_of_nil.
  - intros [-> (n & Hl & Hrest)] [->|Hin]%elem_of_cons; [by eexists|]. by eapply IH.
Qed.

Lemma lseg_contents h p cells cells' :
  lseg h p cells None → lseg h p cells' None → cells = cells'.
Proof.
  revert p cells'. induction cells as [|[l x] cells IH]; intros p [|[l' x'] cells']; simpl.
  - done.
  - by intros -> [? _].
  - by intros [-> _] ?.
  - intros [-> (n & Hl & Hrest)] [[= <-] (n' & Hl' & Hrest')].
    rewrite Hl in Hl'. injection Hl' as <- <-. f_equal. by eapply IH.
Qed.

(** *** The invariant of one queue *)

(** [q] is a queue in good order made of the nodes [cells]: [front]
    leads through them to NULL, [back] is the last of them. *)
Definition is_queue m (q : loc) cells : Prop :=
  ∃ f, wrappers m !! q = Some (Wrapper f (fst <$> last cells)) ∧
       lseg (nodes m) f cells None ∧ NoDup cells.*1.

(** Addresses in use are below the next address. *)
Definition wf_mem m : Prop :=
  (∀ l, is_Some (nodes m !! l) → (l < next_node m)%nat) ∧
  (∀ q, is_Some (wrappers m !! q) → (q < next_wrapper m)%nat).

(** *** The queues of a memory

    [C] gives the nodes of every queue in good order; the queues share
    no node. *)
Record layout m (C : gmap loc (list (loc * A))) : Prop := Layout {
  lay_wf : wf_mem m;
  lay_queue : ∀ q cells, C !! q = Some cells → is_queue m q cells;
  lay_apart : ∀ q1 q2 cells1 cells2, q1 ≠ q2 →
    C !! q1 = Some cells1 → C !! q2 = Some cells2 →
    ∀ l, l ∈ cells1.*1 → l ∉ cells2.*1
}.

(** The memory holds the queues [σ]: every pointer of [σ] is a queue in
    good order that holds the elements [σ] gives, front first. *)
Definition models m (σ : gmap loc (list A)) : Prop :=
  ∃ C, layout m C ∧ σ = (λ cells : list (loc * A), cells.*2) <$> C.

(** [m'] is [m] but for the wrapper [q], the nodes [cells] and the
    nodes allocated since. *)
Record changes m m' (q : loc) cells : Prop := Changes {
  ch_wrappers : ∀ q', q' ≠ q → wrappers m' !! q' = wrappers m !! q';
  ch_nodes : ∀ l, l ∉ cells.*1 → (l < next_node m)%nat →
             nodes m' !! l = nodes m !! l;
}.

Lemma is_queue_allocated m q cells l :
  wf_mem m → is_queue m q cells → l ∈ cells.*1 → (l < next_node m)%nat.
Proof.
  intros [Hwf _] (f & _ & Hseg & _) Hl. apply Hwf. by eapply lseg_allocated.
Qed.

Lemma is_queue_frame m m' q cells :
  (wrappers m' !! q = wrappers m !! q) →
  (∀ l, l ∈ cells.*1 → nodes m' !! l = nodes m !! l) →
  is_queue m q cells → is_queue m' q cells.
Proof.
  intros Hw Hn (f & Hq & Hseg & Hnd). exists f. rewrite Hw.
  split; [done|]. split; [|done]. by eapply lseg_frame.
Qed.

(** The other queues stay in good order. *)
Lemma layout_frame m m' C q cells :
  layout m C → C !! q = Some cells → wf_mem m' → changes m m' q cells →
  layout m' (delete q C).
Proof.
  intros [Hwf Hqs Hap] Hq Hwf' [Hcw Hcn]. split; [done| |].
  - intros q' cells' [Hne Hq']%lookup_delete_Some.
    apply (is_queue_frame m); [by apply Hcw| |by apply Hqs].
    intros l Hl. apply Hcn.
    + intros Hin. by apply (Hap q q' cells cells' Hne Hq Hq' l).
    + by eapply is_queue_allocated; [|apply Hqs|].
  - intros q1 q2 c1 c2 Hne [_ H1]%lookup_delete_Some [_ H2]%lookup_delete_Some.
    by apply (Hap q1 q2).
Qed.

(** A queue in good order made of nodes of its own joins the others. *)
Lemma layout_insert m C q cells :
  layout m (delete q C) → is_queue m q cells →
  (∀ q' cells' l, q' ≠ q → C !! q' = Some cells' → l ∈ cells.*1 → l ∉ cells'.*1) →
  layout m (<[q := cells]> C).
Proof.
  intros [Hwf Hqs Hap] Hq Hnew. split; [done| |].
  - intros q' cells' [[<- <-]|[Hne Hq']]%lookup_insert_Some; [done|].
    apply Hqs. by apply lookup_delete_Some.
  - intros q1 q2 c1 c2 Hne [[<- <-]|[Hne1 H1]]%lookup_insert_Some
                           [[<- <-]|[Hne2 H2]]%lookup_insert_Some l Hl; try done.
    + by apply (Hnew q2 c2).
    + intros Hl2. by apply (Hnew q1 c1 l).
    + apply (Hap q1 q2 c1 c2); try done; by apply lookup_delete_Some.
Qed.

(** The step of an operation on [q]: its nodes become [cells'], which
    are nodes it had or new ones. *)
Lemma layout_update m m' C q cells cells' :
  layout m C → C !! q = Some cells → wf_mem m' → changes m m' q cells →
  is_queue m' q cells' →
  (∀ l, l ∈ cells'.*1 → l ∈ cells.*1 ∨ (next_node m ≤ l)%nat) →
  layout m' (<[q := cells']> C).
Proof.
  intros Hlay Hq Hwf' Hch Hq' Hnew. apply layout_insert; [by eapply layout_frame|done|].
  intros q' c' l Hne Hc' Hl Hl'. destruct Hlay as [Hwf Hqs Hap].
  destruct (Hnew l Hl) as [Hold|Hfresh].
  - by apply (Hap q q' cells c' (not_eq_sym Hne) Hq Hc' l).
  - pose proof (is_queue_allocated m q' c' l Hwf (Hqs _ _ Hc') Hl'). lia.
Qed.

(** Queues whose wrapper and nodes are as they were stay in good
    order. *)
Lemma layout_restrict m m' C (D : gmap loc (list (loc * A))) :
  layout m C → D ⊆ C → wf_mem m' →
  (∀ q cells, D !! q = Some cells →
     wrappers m' !! q = wrappers m !! q ∧
     ∀ l, l ∈ cells.*1 → nodes m' !! l = nodes m !! l) →
  layout m' D.
Proof.
  intros [Hwf Hqs Hap] Hsub Hwf' Hsame. split; [done| |].
  - intros q cells Hq. destruct (Hsame q cells Hq) as [Hw Hn].
    apply (is_queue_frame m); [done..|]. apply Hqs.
    by eapply lookup_weaken.
  - intros q1 q2 c1 c2 Hne H1 H2.
    apply (Hap q1 q2); [done|by eapply lookup_weaken..].
Qed.

(** A chain is no longer than the memory is large. *)
Lemma lseg_size h p cells e :
  lseg h p cells e → NoDup cells.*1 → (length cells ≤ size h)%nat.
Proof.
  intros Hseg Hnd.
  assert (list_to_set (C := gset loc) cells.*1 ⊆ dom h) as Hsub.
  { intros l Hl%elem_of_list_to_set. apply elem_of_dom. by eapply lseg_allocated. }
  apply subseteq_size in Hsub. rewrite size_list_to_set, size_dom in Hsub by done.
  by rewrite length_fmap in Hsub.
Qed.

(** *** The primitives *)

Lemma wp_load_node l n m (Q : qelement_t A → mem A → Prop) :
  nodes m !! l = Some n → Q n m → wp (load_node l) m Q.
Proof. intros Hl HQ. exists n, m. unfold load_node. by rewrite Hl. Qed.

Lemma wp_load_wrapper q w m (Q : queueWrapper_t → mem A → Prop) :
  wrappers m !! q = Some w → Q w m → wp (load_wrapper q) m Q.
Proof. intros Hq HQ. exists w, m. unfold load_wrapper. by rewrite Hq. Qed.

Lemma wp_store_node l n m (Q : unit → mem A → Prop) :
  is_Some (nodes m !! l) →
  Q tt (Mem (<[l := n]> (nodes m)) (wrappers m) (next_node m) (next_wrapper m)
            (released m)) →
  wp (store_node l n) m Q.
Proof. intros [n0 Hl] HQ. eexists _, _. unfold store_node. by rewrite Hl. Qed.

Lemma wp_store_wrapper q w m (Q : unit → mem A → Prop) :
  is_Some (wrappers m !! q) →
  Q tt (Mem (nodes m) (<[q := w]> (wrappers m)) (next_node m) (next_wrapper m)
            (released m)) →
  wp (store_wrapper q w) m Q.
Proof. intros [w0 Hq] HQ. eexists _, _. unfold store_wrapper. by rewrite Hq. Qed.

Lemma wp_free_node l m (Q : unit → mem A → Prop) :
  is_Some (nodes m !! l) →
  Q tt (Mem (delete l (nodes m)) (wrappers m) (next_node m) (next_wrapper m)
            (released m)) →
  wp (free_node l) m Q.
Proof. intros [n0 Hl] HQ. eexists _, _. unfold free_node. by rewrite Hl. Qed.

Lemma wp_free_wrapper q m (Q : unit → mem A → Prop) :
  is_Some (wrappers m !! q) →
  Q tt (Mem (nodes m) (delete q (wrappers m)) (next_node m) (next_wrapper m)
            (released m)) →
  wp (free_wrapper q) m Q.
Proof. intros [w0 Hq] HQ. eexists _, _. unfold free_wrapper. by rewrite Hq. Qed.

Lemma wp_set_front q p w m (Q : unit → mem A → Prop) :
  wrappers m !! q = Some w →
  Q tt (Mem (nodes m) (<[q := Wrapper p (back w)]> (wrappers m)) (next_node m)
            (next_wrapper m) (released m)) →
  wp (set_front q p) m Q.
Proof.
  intros Hq HQ. apply qwp_bind. eapply wp_load_wrapper; [done|].
  by apply wp_store_wrapper.
Qed.

Lemma wp_set_back q p w m (Q : unit → mem A → Prop) :
  wrappers m !! q = Some w →
  Q tt (Mem (nodes m) (<[q := Wrapper (front w) p]> (wrappers m)) (next_node m)
            (next_wrapper m) (released m)) →
  wp (set_back q p) m Q.
Proof.
  intros Hq HQ. apply qwp_bind. eapply wp_load_wrapper; [done|].
  by apply wp_store_wrapper.
Qed.

Lemma wp_set_next l p n m (Q : unit → mem A → Prop) :
  nodes m !! l = Some n →
  Q tt (Mem (<[l := QElement (element n) p]> (nodes m)) (wrappers m) (next_node m)
            (next_wrapper m) (released m)) →
  wp (set_next l p) m Q.
Proof.
  intros Hl HQ. apply qwp_bind. eapply wp_load_node; [done|].
  by apply wp_store_node.
Qed.

End Theory.
End LinkedQueueTheory.

(** ** The operations of queue.c on queues in good order *)

Module LinkedQueueOps.
Import LinkedQueue LinkedQueueTheory.

Section Specs.
Context {A : Type}.
Implicit Types (m : mem A) (h : gmap loc (qelement_t A)) (cells : list (loc * A)).
Implicit Types (C : gmap loc (list (loc * A))).

Ltac memsimpl :=
  cbn [nodes wrappers next_node next_wrapper released front back element next].

Lemma wp_eq {X} (c c' : M A X) m (Q : X → mem A → Prop) :
  c m = c' m → wp c' m Q → wp c m Q.
Proof. intros Heq (x & m' & Hc & HQ). exists x, m'. by rewrite Heq. Qed.

Lemma fresh_node m : wf_mem m → nodes m !! next_node m = None.
Proof.
  intros [Hwf _]. destruct (nodes m !! next_node m) eqn:E; [|done].
  specialize (Hwf (next_node m) (mk_is_Some _ _ E)). lia.
Qed.

Lemma fresh_wrapper m : wf_mem m → wrappers m !! next_wrapper m = None.
Proof.
  intros [_ Hwf]. destruct (wrappers m !! next_wrapper m) eqn:E; [|done].
  specialize (Hwf (next_wrapper m) (mk_is_Some _ _ E)). lia.
Qed.

Lemma qopen_layout m C :
  layout m C →
  wp qopen m (λ qp m',
    qp = Some (next_wrapper m) ∧ C !! next_wrapper m = None ∧
    layout m' (<[next_wrapper m := []]> C) ∧ released m' = released m).
Proof.
  intros Hlay. pose proof (lay_wf _ _ Hlay) as Hwf.
  pose proof (fresh_wrapper m Hwf) as Hfresh.
  assert (C !! next_wrapper m = None) as HC.
  { destruct (C !! next_wrapper m) as [cells|] eqn:E; [|done].
    destruct (lay_queue _ _ Hlay _ _ E) as (f & Hw & _). congruence. }
  unfold qopen. apply qwp_bind. eexists _, _. split; [reflexivity|]. apply qwp_ret.
  split; [done|]. split; [done|]. split; [|done].
  apply layout_insert.
  - rewrite delete_id by done. destruct Hlay as [[Hwf1 Hwf2] Hqs Hap].
    split; [| |done].
    + split; cbn; [done|]. intros q Hq.
      rewrite lookup_insert_is_Some' in Hq; destruct Hq as [<-|Hq]; [lia|].
      specialize (Hwf2 q Hq). lia.
    + intros q cells Hq. apply (is_queue_frame m); [|done|by apply Hqs].
      cbn. apply lookup_insert_ne. intros Heq. subst q. congruence.
  - exists None. cbn. rewrite lookup_insert_eq.
    split; [done|]. split; [done|constructor].
  - intros q' cells' l _ _ Hl. by apply elem_of_nil in Hl.
Qed.

Lemma qput_layout m C q cells x :
  layout m C → C !! q = Some cells →
  wp (qput (Some q) x) m (λ r m',
    r = 0 ∧ layout m' (<[q := cells ++ [(next_node m, x)]]> C) ∧
    released m' = released m).
Proof.
  intros Hlay Hq. pose proof (lay_queue _ _ Hlay q cells Hq) as (f & Hw & Hseg & Hnd).
  pose proof (lay_wf _ _ Hlay) as Hwf. pose proof (fresh_node m Hwf) as Hnew.
  destruct Hwf as [Hwf1 Hwf2].
  assert (next_node m ∉ cells.*1) as Hnotin.
  { intros Hin. eapply lseg_allocated in Hin; [|done]. rewrite Hnew in Hin.
    by destruct Hin. }
  unfold qput. apply qwp_bind. eexists _, _. split; [reflexivity|].
  apply qwp_bind. eapply wp_load_wrapper; [exact Hw|]. cbn [back].
  assert (∀ m', nodes m' = <[next_node m := QElement x None]> (nodes m) ∨
                (∃ b nb, b ≠ next_node m ∧ is_Some (nodes m !! b) ∧
                   nodes m' = <[b := nb]> (<[next_node m := QElement x None]> (nodes m))) →
                next_node m' = S (next_node m) → next_wrapper m' = next_wrapper m →
                (∃ w, wrappers m' = <[q := w]> (wrappers m)) → wf_mem m') as Hwf'.
  { intros m' Hn Hnn Hnw [w' Hww]. split.
    - intros l Hl. rewrite Hnn.
      destruct Hn as [Hn|(b & nb & Hb & Hbs & Hn)]; rewrite Hn in Hl.
      + rewrite lookup_insert_is_Some' in Hl; destruct Hl as [<-|Hl]; [lia|].
        specialize (Hwf1 l Hl). lia.
      + rewrite lookup_insert_is_Some' in Hl; destruct Hl as [<-|Hl]; [specialize (Hwf1 b Hbs); lia|].
        rewrite lookup_insert_is_Some' in Hl; destruct Hl as [<-|Hl]; [lia|].
        specialize (Hwf1 l Hl). lia.
    - intros q' Hq'. rewrite Hnw, Hww in *.
      rewrite lookup_insert_is_Some' in Hq'. destruct Hq' as [<-|Hq']; [|by apply Hwf2].
      apply Hwf2. by rewrite Hw. }
  destruct cells as [|[b xb] cells0 _] using rev_ind.
  - change (fst <$> last (@nil (loc * A))) with (@None loc) in *.
    simpl in Hseg. subst f.
    apply qwp_bind. eapply wp_set_front; [exact Hw|]. memsimpl.
    apply qwp_bind. eapply wp_set_back; [memsimpl; apply lookup_insert_eq|]. memsimpl.
    apply qwp_ret. split; [done|]. split; [|done].
    rewrite insert_insert_eq. cbn [app].
    eapply layout_update; [done..| | | |].
    + apply Hwf'; memsimpl; eauto.
    + split; memsimpl.
      * intros q' Hne. by apply lookup_insert_ne.
      * intros l _ Hl. apply lookup_insert_ne. lia.
    + exists (Some (next_node m)). memsimpl. rewrite !lookup_insert_eq.
      split; [done|]. split; [|apply NoDup_singleton].
      split; [done|]. exists None. by rewrite lookup_insert_eq.
    + intros l [->|[]%elem_of_nil]%elem_of_cons. right. cbn. lia.
  - rewrite last_snoc in *. cbn [fmap option_fmap option_map fst] in *.
    apply lseg_app in Hseg as (mid & Hseg0 & [-> (n & Hb & Hn)]). simpl in Hn. subst n.
    pose proof Hnd as Hnd'.
    rewrite fmap_app, NoDup_app in Hnd. destruct Hnd as (Hnd0 & Hdisj & _).
    assert (b ∉ cells0.*1) as Hb0.
    { intros Hin. apply (Hdisj b Hin). cbn. apply list_elem_of_singleton. done. }
    assert (b ≠ next_node m) as Hbnew by (intros ->; congruence).
    apply qwp_bind. eapply wp_set_next.
    { memsimpl. rewrite lookup_insert_ne by done. exact Hb. }
    memsimpl.
    apply qwp_bind. eapply wp_set_back; [memsimpl; exact Hw|]. memsimpl.
    apply qwp_ret. split; [done|]. split; [|done].
    eapply layout_update; [done..| | | |].
    + apply Hwf'; memsimpl; eauto. right. exists b, (QElement xb (Some (next_node m))).
      split; [done|]. split; [by eexists|done].
    + split; memsimpl.
      * intros q' Hne. by apply lookup_insert_ne.
      * intros l Hl Hlt. rewrite fmap_app, elem_of_app in Hl. cbn in Hl.
        rewrite !lookup_insert_ne; [done|lia|].
        intros <-. apply Hl. right. by apply list_elem_of_singleton.
    + exists f. memsimpl. rewrite lookup_insert_eq, last_snoc. split; [done|]. split.
      * rewrite <- app_assoc. apply lseg_app. exists (Some b). split.
        -- eapply lseg_frame; [|exact Hseg0]. intros l Hl.
           rewrite !lookup_insert_ne; [done| |].
           ++ intros <-. apply Hnotin. rewrite fmap_app, elem_of_app. by left.
           ++ by intros <-.
        -- cbn. split; [done|]. exists (Some (next_node m)).
           rewrite lookup_insert_eq. split; [done|]. split; [done|]. exists None.
           rewrite lookup_insert_ne, lookup_insert_eq by done. done.
      * rewrite fmap_app. apply NoDup_app. split; [exact Hnd'|].
        split; [|cbn; apply NoDup_singleton].
        intros l Hl Hl2. cbn in Hl2. apply list_elem_of_singleton in Hl2 as ->.
        by apply Hnotin.
    + intros l. rewrite !fmap_app, !elem_of_app. cbn.
      intros [[?|?]|Hl]; [left; by left|left; by right|].
      apply list_elem_of_singleton in Hl as ->. right. lia.
Qed.

Lemma wf_mem_shrink m m' :
  wf_mem m → next_node m' = next_node m → next_wrapper m' = next_wrapper m →
  (∀ l, is_Some (nodes m' !! l) → is_Some (nodes m !! l)) →
  (∀ q, is_Some (wrappers m' !! q) → is_Some (wrappers m !! q)) →
  wf_mem m'.
Proof.
  intros [H1 H2] Hn Hw Hnodes Hwr. split.
  - intros l Hl. rewrite Hn. by apply H1, Hnodes.
  - intros q Hq. rewrite Hw. by apply H2, Hwr.
Qed.

Lemma qget_layout m C q cells :
  layout m C → C !! q = Some cells →
  wp (qget (Some q)) m (λ r m',
    r = head cells.*2 ∧ layout m' (<[q := tail cells]> C) ∧
    released m' = released m).
Proof.
  intros Hlay Hq. pose proof (lay_queue _ _ Hlay q cells Hq) as (f & Hw & Hseg & Hnd).
  pose proof (lay_wf _ _ Hlay) as Hwf.
  unfold qget. apply qwp_bind. eapply wp_load_wrapper; [exact Hw|]. memsimpl.
  destruct cells as [|[l x] cells'].
  - simpl in Hseg. subst f. apply qwp_ret. split; [done|]. split; [|done].
    cbn [tail]. by rewrite insert_id.
  - destruct Hseg as [-> (n & Hl & Hseg)].
    apply qwp_bind. eapply wp_load_node; [exact Hl|]. memsimpl.
    rewrite fmap_cons in Hnd. apply NoDup_cons in Hnd as [Hl' Hnd'].
    assert (∀ b, wf_mem (Mem (delete l (nodes m))
                             (<[q := Wrapper n b]> (wrappers m))
                             (next_node m) (next_wrapper m) (released m))) as Hwf'.
    { intros b. apply (wf_mem_shrink m); [done..| |]; memsimpl.
      - intros l0 Hl0. apply lookup_delete_is_Some in Hl0. tauto.
      - intros q0 Hq0. rewrite lookup_insert_is_Some' in Hq0.
        destruct Hq0 as [<-|?]; [by rewrite Hw|done]. }
    assert (∀ b, changes m (Mem (delete l (nodes m))
                             (<[q := Wrapper n b]> (wrappers m))
                             (next_node m) (next_wrapper m) (released m))
                         q ((l, x) :: cells')) as Hch.
    { intros b. split; memsimpl.
      - intros q' Hne. by apply lookup_insert_ne.
      - intros l0 Hl0 _. apply lookup_delete_ne. intros <-. apply Hl0.
        rewrite fmap_cons. apply elem_of_cons. by left. }
    assert (∀ l0, l0 ∈ cells'.*1 → delete l (nodes m) !! l0 = nodes m !! l0) as Hrest.
    { intros l0 Hl0. apply lookup_delete_ne. by intros <-. }
    apply qwp_bind. eapply wp_set_front; [exact Hw|]. memsimpl.
    destruct cells' as [|c cells''].
    + simpl in Hseg. subst n.
      apply qwp_bind.
      eapply wp_set_back; [memsimpl; apply lookup_insert_eq|]. memsimpl.
      apply qwp_bind. apply wp_free_node; [memsimpl; by eexists|]. memsimpl.
      apply qwp_ret. rewrite insert_insert_eq.
      split; [done|]. split; [|done]. cbn [tail].
      eapply layout_update; [done..|apply Hwf'|apply Hch| |].
      * exists None. memsimpl. rewrite lookup_insert_eq.
        split; [done|]. split; [done|constructor].
      * by intros l0 ?%elem_of_nil.
    + assert (∃ l1, n = Some l1) as [l1 ->] by (destruct c; destruct Hseg as [-> _]; eauto).
      apply qwp_bind. apply qwp_ret.
      apply qwp_bind. apply wp_free_node; [memsimpl; by eexists|]. memsimpl.
      apply qwp_ret. split; [done|]. split; [|done]. cbn [tail].
      eapply layout_update; [done..|apply Hwf'|apply Hch| |].
      * exists (Some l1). memsimpl. rewrite lookup_insert_eq.
        split; [done|]. split; [|done]. eapply lseg_frame; [|exact Hseg]. done.
      * intros l0 Hl0. left. rewrite fmap_cons. apply elem_of_cons. by right.
Qed.

(** The loops of [qsearch] and [qapply] on a chain. *)
Lemma qsearch_loop_chain (searchfn : A → bool) m cells :
  ∀ (n : nat) p, lseg (nodes m) p cells None → (length cells ≤ n)%nat →
  qsearch_loop n p searchfn m = Some (Queue.qsearch cells.*2 searchfn, m).
Proof.
  induction cells as [|[l x] cells IH]; intros n p Hseg Hn.
  - simpl in Hseg. subst p. by destruct n.
  - destruct Hseg as [-> (e & Hl & Hseg)]. destruct n as [|n]; [simpl in Hn; lia|].
    cbn [qsearch_loop]. unfold bind, load_node. rewrite Hl. memsimpl.
    rewrite !fmap_cons. cbn [snd Queue.qsearch].
    destruct (searchfn x); [done|]. apply IH; [done|simpl in Hn; lia].
Qed.

Lemma qapply_loop_chain {St : Type} (fn : A → St → St) m cells :
  ∀ (n : nat) p (s : St), lseg (nodes m) p cells None → (length cells ≤ n)%nat →
  qapply_loop n p fn s m = Some (foldl (λ s x, fn x s) s cells.*2, m).
Proof.
  induction cells as [|[l x] cells IH]; intros n p s Hseg Hn.
  - simpl in Hseg. subst p. by destruct n.
  - destruct Hseg as [-> (e & Hl & Hseg)]. destruct n as [|n]; [simpl in Hn; lia|].
    cbn [qapply_loop]. unfold bind, load_node. rewrite Hl. memsimpl.
    rewrite !fmap_cons. cbn [snd foldl]. apply IH; [done|simpl in Hn; lia].
Qed.

Lemma qsearch_layout m C q cells (searchfn : A → bool) :
  layout m C → C !! q = Some cells →
  qsearch (Some q) searchfn m = Some (Queue.qsearch cells.*2 searchfn, m).
Proof.
  intros Hlay Hq. pose proof (lay_queue _ _ Hlay q cells Hq) as (f & Hw & Hseg & Hnd).
  unfold qsearch, bind, load_wrapper. rewrite Hw. memsimpl.
  apply qsearch_loop_chain; [done|]. unfold fuel.
  pose proof (lseg_size _ _ _ _ Hseg Hnd). lia.
Qed.

Lemma qapply_layout {St : Type} m C q cells (fn : A → St → St) (s : St) :
  layout m C → C !! q = Some cells →
  qapply (Some q) fn s m = Some (foldl (λ s x, fn x s) s cells.*2, m).
Proof.
  intros Hlay Hq. pose proof (lay_queue _ _ Hlay q cells Hq) as (f & Hw & Hseg & Hnd).
  unfold qapply, bind, load_wrapper. rewrite Hw. memsimpl.
  apply qapply_loop_chain; [done|]. unfold fuel.
  pose proof (lseg_size _ _ _ _ Hseg Hnd). lia.
Qed.

(** *** qremove *)

(** The list a queue in good order holds after [qremove]. *)
Fixpoint remove_first (searchfn : A → bool) (xs : list A) : list A :=
  match xs with
  | [] => []
  | x :: xs' => if searchfn x then xs' else x :: remove_first searchfn xs'
  end.

Lemma qremove_loop_skip (searchfn : A → bool) m q pre :
  ∀ (n : nat) prev curr mid,
  lseg (nodes m) curr pre mid → Forall (λ c, searchfn c.2 = false) pre →
  (length pre ≤ n)%nat →
  qremove_loop n q prev curr searchfn m
  = qremove_loop (n - length pre) q
      (match last pre with Some c => Some c.1 | None => prev end) mid searchfn m.
Proof.
  induction pre as [|[l x] pre IH]; intros n prev curr mid Hseg Hno Hn.
  - simpl in Hseg. subst curr. cbn. by rewrite Nat.sub_0_r.
  - destruct Hseg as [-> (e & Hl & Hseg)]. apply Forall_cons in Hno as [Hx Hno].
    destruct n as [|n]; [simpl in Hn; lia|]. cbn [qremove_loop length Nat.sub].
    unfold bind at 1, load_node at 1. rewrite Hl. memsimpl. cbn [snd] in Hx. rewrite Hx.
    rewrite (IH n (Some l) e mid); [|done|done|simpl in Hn; lia].
    destruct pre as [|c pre']; [done|]. rewrite last_cons_cons.
    destruct (last (c :: pre')) eqn:E; [done|]. by apply last_None in E.
Qed.

(** Nothing matches: nothing is touched. *)
Lemma qremove_none m C q cells (searchfn : A → bool) :
  layout m C → C !! q = Some cells →
  Forall (λ c, searchfn c.2 = false) cells →
  qremove (Some q) searchfn m = Some (None, m).
Proof.
  intros Hlay Hq Hno. pose proof (lay_queue _ _ Hlay q cells Hq) as (f & Hw & Hseg & Hnd).
  unfold qremove, bind, load_wrapper. rewrite Hw. memsimpl.
  pose proof (lseg_size _ _ _ _ Hseg Hnd).
  rewrite (qremove_loop_skip searchfn m q cells _ None f None);
    [|done|done|unfold fuel; lia].
  by destruct (fuel m - length cells)%nat.
Qed.

(** The first element that matches is unlinked and freed; the wrapper
    keeps its [back]. *)
Lemma qremove_found m C q pre l x post (searchfn : A → bool) :
  layout m C → C !! q = Some (pre ++ (l, x) :: post) →
  Forall (λ c, searchfn c.2 = false) pre → searchfn x = true →
  wp (qremove (Some q) searchfn) m (λ r m',
    r = Some x ∧ released m' = released m ∧ wf_mem m' ∧
    changes m m' q (pre ++ (l, x) :: post) ∧
    (∃ f', wrappers m' !! q
           = Some (Wrapper f' (fst <$> last (pre ++ (l, x) :: post))) ∧
           lseg (nodes m') f' (pre ++ post) None) ∧
    nodes m' !! l = None ∧ next_node m' = next_node m).
Proof.
  intros Hlay Hq Hno Hx.
  pose proof (lay_queue _ _ Hlay q _ Hq) as (f & Hw & Hseg & Hnd).
  pose proof (lay_wf _ _ Hlay) as Hwf.
  pose proof (lseg_size _ _ _ _ Hseg Hnd) as Hsize. rewrite length_app in Hsize.
  cbn [length] in Hsize.
  apply lseg_app in Hseg as (mid & Hpre & [-> (e & Hl & Hrest)]).
  rewrite fmap_app, fmap_cons in Hnd. cbn [fst] in Hnd.
  apply NoDup_app in Hnd as (Hnd1 & Hdisj & [Hl2 Hnd2]%NoDup_cons).
  assert (l ∉ pre.*1) as Hl1.
  { intros Hin. apply (Hdisj l Hin). apply elem_of_cons. by left. }
  unfold qremove. apply qwp_bind. eapply wp_load_wrapper; [exact Hw|]. memsimpl.
  destruct (fuel m - length pre)%nat as [|k] eqn:Hk; [unfold fuel in Hk; lia|].
  apply (wp_eq _ (qremove_loop (S k) q
                    (match last pre with Some c => Some c.1 | None => None end)
                    (Some l) searchfn)).
  { rewrite (qremove_loop_skip searchfn m q pre _ None f (Some l));
      [by rewrite Hk|done|done|unfold fuel; lia]. }
  cbn [qremove_loop].
  apply qwp_bind. eapply wp_load_node; [exact Hl|]. memsimpl. rewrite Hx.
  destruct pre as [|[p xp] pre0 _] using rev_ind.
  - cbn [last]. simpl in Hpre. subst f.
    apply qwp_bind. eapply wp_set_front; [exact Hw|]. memsimpl.
    apply qwp_bind. apply wp_free_node; [memsimpl; by eexists|]. memsimpl.
    apply qwp_ret. split; [done|]. split; [done|]. cbn [app] in *.
    split; [|split; [|split; [|split]]]; memsimpl.
    + apply (wf_mem_shrink m); [done..| |]; memsimpl.
      * intros l0 Hl0. apply lookup_delete_is_Some in Hl0. tauto.
      * intros q0 Hq0. rewrite lookup_insert_is_Some' in Hq0.
        destruct Hq0 as [<-|?]; [by rewrite Hw|done].
    + split; memsimpl.
      * intros q' Hne. by apply lookup_insert_ne.
      * intros l0 Hl0 _. apply lookup_delete_ne. intros <-. apply Hl0.
        rewrite fmap_cons. apply elem_of_cons. by left.
    + exists e. rewrite lookup_insert_eq.
      split; [done|]. eapply lseg_frame; [|exact Hrest].
      intros l0 Hl0. apply lookup_delete_ne. intros <-. done.
    + apply lookup_delete_eq.
    + done.
  - rewrite last_snoc. cbn [fst].
    apply lseg_app in Hpre as (mid & Hpre0 & [-> (n & Hp & Hn)]). simpl in Hn. subst n.
    rewrite fmap_app in Hnd1. apply NoDup_app in Hnd1 as (Hnd0 & Hdisj0 & _).
    assert (p ≠ l) as Hpl.
    { intros ->. apply Hl1. rewrite fmap_app, elem_of_app. right. cbn.
      by apply list_elem_of_singleton. }
    assert (p ∉ pre0.*1) as Hp0.
    { intros Hin. apply (Hdisj0 p Hin). cbn. by apply list_elem_of_singleton. }
    assert (p ∉ post.*1) as Hppost.
    { intros Hin. apply (Hdisj p).
      - rewrite fmap_app, elem_of_app. right. cbn. by apply list_elem_of_singleton.
      - apply elem_of_cons. by right. }
    apply qwp_bind. eapply wp_set_next; [exact Hp|]. memsimpl.
    apply qwp_bind. apply wp_free_node.
    { memsimpl. rewrite lookup_insert_ne by done. by eexists. }
    memsimpl. apply qwp_ret. split; [done|]. split; [done|].
    split; [|split; [|split; [|split]]]; memsimpl.
    + apply (wf_mem_shrink m); [done..| |]; memsimpl; [|done].
      intros l0 Hl0. apply lookup_delete_is_Some in Hl0 as [_ Hl0].
      rewrite lookup_insert_is_Some' in Hl0. destruct Hl0 as [<-|?]; [by eexists|done].
    + split; memsimpl; [done|].
      intros l0 Hl0 _. rewrite !fmap_app, fmap_cons, !elem_of_app, elem_of_cons in Hl0.
      cbn in Hl0. rewrite lookup_delete_ne, lookup_insert_ne; [done| |].
      * intros <-. apply Hl0. left. right. by left.
      * intros <-. apply Hl0. right. apply elem_of_cons. by left.
    + exists f. split; [done|].
      rewrite <- app_assoc. apply lseg_app. exists (Some p). split.
      * eapply lseg_frame; [|exact Hpre0]. intros l0 Hl0.
        rewrite lookup_delete_ne, lookup_insert_ne; [done| |].
        -- by intros <-.
        -- intros <-. apply Hl1. rewrite fmap_app, elem_of_app. by left.
      * cbn [app lseg]. split; [done|]. exists e. split.
        -- rewrite lookup_delete_ne, lookup_insert_eq by done. done.
        -- eapply lseg_frame; [|exact Hrest]. intros l0 Hl0.
           rewrite lookup_delete_ne, lookup_insert_ne; [done| |].
           ++ by intros <-.
           ++ intros <-. done.
    + apply lookup_delete_eq.
    + done.
Qed.

Lemma NoDup_remove_middle (pre post : list (loc * A)) (c : loc * A) :
  NoDup (pre ++ c :: post).*1 → NoDup (pre ++ post).*1.
Proof.
  rewrite !fmap_app, fmap_cons. intros (H1 & H2 & [_ H3]%NoDup_cons)%NoDup_app.
  apply NoDup_app. split; [done|]. split; [|done].
  intros l Hl Hl'. apply (H2 l Hl). apply elem_of_cons. by right.
Qed.

(** The element found is not the last one: the queue stays in good
    order. *)
Lemma qremove_inner m C q pre l x post (searchfn : A → bool) :
  layout m C → C !! q = Some (pre ++ (l, x) :: post) →
  Forall (λ c, searchfn c.2 = false) pre → searchfn x = true → post ≠ [] →
  wp (qremove (Some q) searchfn) m (λ r m',
    r = Some x ∧ layout m' (<[q := pre ++ post]> C) ∧ released m' = released m).
Proof.
  intros Hlay Hq Hno Hx Hpost.
  pose proof (lay_queue _ _ Hlay q _ Hq) as (f & Hw & Hseg & Hnd).
  eapply qwp_mono; [by apply (qremove_found m C q pre l x post)|].
  intros r m' (-> & Hrel & Hwf' & Hch & (f' & Hw' & Hseg') & _).
  split; [done|]. split; [|done].
  eapply layout_update; [done..| |].
  - exists f'. split; [|split; [done|by eapply NoDup_remove_middle]].
    rewrite Hw'. do 2 f_equal.
    destruct post as [|c post _] using rev_ind; [done|].
    by rewrite (app_assoc pre), (app_comm_cons), (app_assoc pre), !last_snoc.
  - intros l0. rewrite !fmap_app, fmap_cons, !elem_of_app, elem_of_cons.
    intros [?|?]; left; [by left|right; by right].
Qed.

(** The element found is the last one: [back] is left on the freed
    node, and the next [qput] writes through it. *)
Lemma qremove_last m C q pre l x (searchfn : A → bool) (y : A) :
  layout m C → C !! q = Some (pre ++ [(l, x)]) →
  Forall (λ c, searchfn c.2 = false) pre → searchfn x = true →
  wp (qremove (Some q) searchfn) m (λ r m',
    r = Some x ∧ layout m' (delete q C) ∧ released m' = released m ∧
    qput (Some q) y m' = None).
Proof.
  intros Hlay Hq Hno Hx.
  eapply qwp_mono; [by apply (qremove_found m C q pre l x [])|].
  intros r m' (-> & Hrel & Hwf' & Hch & (f' & Hw' & Hseg') & Hl & Hnext).
  split; [done|]. split; [by eapply layout_frame|]. split; [done|].
  rewrite last_snoc in Hw'. cbn in Hw'.
  unfold qput, bind, malloc_node, load_wrapper. memsimpl. rewrite Hw'. memsimpl.
  unfold set_next, bind, load_node. memsimpl.
  rewrite lookup_insert_ne, Hl; [done|].
  intros Heq. pose proof (lay_queue _ _ Hlay q _ Hq) as Hisq.
  assert (l < next_node m)%nat as Hlt; [|lia].
  apply (is_queue_allocated m q _ l (lay_wf _ _ Hlay) Hisq).
  rewrite fmap_app, elem_of_app. right. cbn. by apply list_elem_of_singleton.
Qed.

(** *** qclose *)

Lemma qclose_loop_chain cells :
  ∀ (n : nat) p m, lseg (nodes m) p cells None → NoDup cells.*1 →
  (length cells ≤ n)%nat →
  wp (qclose_loop n p) m (λ _ m',
    released m' = released m ++ cells.*2 ∧ wrappers m' = wrappers m ∧
    next_node m' = next_node m ∧ next_wrapper m' = next_wrapper m ∧
    (∀ l, l ∈ cells.*1 → nodes m' !! l = None) ∧
    (∀ l, l ∉ cells.*1 → nodes m' !! l = nodes m !! l)).
Proof.
  induction cells as [|[l x] cells IH]; intros n p m Hseg Hnd Hn.
  - simpl in Hseg. subst p. destruct n; apply qwp_ret;
      (split; [by rewrite app_nil_r|]); repeat split; try done;
      by intros l ?%elem_of_nil.
  - destruct Hseg as [-> (e & Hl & Hseg)]. destruct n as [|n]; [simpl in Hn; lia|].
    rewrite fmap_cons in Hnd. apply NoDup_cons in Hnd as [Hl' Hnd].
    cbn [qclose_loop]. apply qwp_bind. eapply wp_load_node; [exact Hl|]. memsimpl.
    apply qwp_bind. eexists _, _. split; [reflexivity|].
    apply qwp_bind. apply wp_free_node; [memsimpl; by eexists|]. memsimpl.
    eapply qwp_mono.
    { apply (IH n e); memsimpl; [|done|simpl in Hn; lia].
      eapply lseg_frame; [|exact Hseg]. intros l0 Hl0.
      apply lookup_delete_ne. by intros <-. }
    intros _ m' (Hrel & Hw & Hnn & Hnw & Hgone & Hkept). cbn [nodes wrappers next_node next_wrapper released] in *.
    split; [by rewrite Hrel, fmap_cons, <- app_assoc|].
    split; [done|]. split; [done|]. split; [done|]. split.
    + intros l0 [->|Hl0]%elem_of_cons; [|by apply Hgone].
      rewrite Hkept by done. apply lookup_delete_eq.
    + intros l0 [Hne Hl0]%not_elem_of_cons. rewrite Hkept by done.
      by apply lookup_delete_ne.
Qed.

(** [qclose] frees the nodes and the wrapper and hands every element to
    [free]. *)
Lemma qclose_layout m C q cells :
  layout m C → C !! q = Some cells →
  wp (qclose (Some q)) m (λ _ m',
    layout m' (delete q C) ∧ released m' = released m ++ cells.*2 ∧
    wrappers m' !! q = None ∧ (∀ l, l ∈ cells.*1 → nodes m' !! l = None) ∧
    (∀ q', q' ≠ q → wrappers m' !! q' = wrappers m !! q') ∧
    next_wrapper m' = next_wrapper m).
Proof.
  intros Hlay Hq. pose proof (lay_queue _ _ Hlay q cells Hq) as (f & Hw & Hseg & Hnd).
  pose proof (lay_wf _ _ Hlay) as Hwf.
  pose proof (lseg_size _ _ _ _ Hseg Hnd) as Hsize.
  unfold qclose. apply qwp_bind. eapply wp_load_wrapper; [exact Hw|]. memsimpl.
  apply qwp_bind. eapply qwp_mono.
  { apply (qclose_loop_chain cells (fuel m) f m); [done..|unfold fuel; lia]. }
  intros _ m1 (Hrel & Hwr & Hnn & Hnw & Hgone & Hkept).
  apply qwp_bind. eapply wp_set_front; [by rewrite Hwr|]. memsimpl.
  apply qwp_bind. eapply wp_set_back; [memsimpl; apply lookup_insert_eq|]. memsimpl.
  apply wp_free_wrapper; [memsimpl; rewrite lookup_insert_eq; by eexists|]. memsimpl.
  assert (∀ q', q' ≠ q →
            delete q (<[q := Wrapper None None]>
                        (<[q := Wrapper None (fst <$> last cells)]> (wrappers m1))) !! q'
            = wrappers m !! q') as Hother.
  { intros q' Hne. rewrite lookup_delete_ne, !lookup_insert_ne by done. by rewrite Hwr. }
  split; [|split; [done|split; [apply lookup_delete_eq|split; [done|split; [done|]]]]].
  - apply (layout_restrict m _ C); [done|apply delete_subseteq| |].
    + apply (wf_mem_shrink m); [done..| |]; memsimpl.
      * intros l Hl. destruct (decide (l ∈ cells.*1)) as [Hin|Hout].
        -- rewrite (Hgone l Hin) in Hl. by destruct Hl.
        -- by rewrite <- Hkept.
      * intros q' Hq'. apply lookup_delete_is_Some in Hq' as [Hne Hq'].
        rewrite !lookup_insert_ne, Hwr in Hq' by done. done.
    + intros q' cells' [Hne Hq']%lookup_delete_Some. memsimpl.
      split; [by apply Hother|].
      intros l Hl. apply Hkept. intros Hin.
      by apply (lay_apart _ _ Hlay q q' cells cells' Hne Hq Hq' l).
  - done.
Qed.

(** Once closed, the queue is gone: to put, get or search is undefined. *)
Lemma closed_queue_unusable m q (x : A) (searchfn : A → bool) :
  wrappers m !! q = None →
  qput (Some q) x m = None ∧ qget (Some q) m = None ∧
  qsearch (Some q) searchfn m = None ∧ qremove (Some q) searchfn m = None ∧
  qclose (Some q) m = None.
Proof.
  intros Hq. unfold qput, qget, qsearch, qremove, qclose, bind, load_wrapper,
    malloc_node. memsimpl. by rewrite Hq.
Qed.

(** *** qconcat *)

Lemma wp_qclose_empty q b m (Q : unit → mem A → Prop) :
  wrappers m !! q = Some (Wrapper None b) →
  Q tt (Mem (nodes m) (delete q (wrappers m)) (next_node m) (next_wrapper m)
            (released m)) →
  wp (qclose (Some q)) m Q.
Proof.
  intros Hq HQ. unfold qclose. apply qwp_bind. eapply wp_load_wrapper; [exact Hq|].
  memsimpl. apply qwp_bind. unfold fuel. cbn [qclose_loop]. apply qwp_ret.
  apply qwp_bind. eapply wp_set_front; [exact Hq|]. memsimpl.
  apply qwp_bind. eapply wp_set_back; [memsimpl; apply lookup_insert_eq|]. memsimpl.
  apply wp_free_wrapper; [memsimpl; rewrite lookup_insert_eq; by eexists|]. memsimpl.
  replace (delete q (<[q := Wrapper None None]> (<[q := Wrapper None b]> (wrappers m))))
    with (delete q (wrappers m)); [done|].
  apply map_eq. intros q'. destruct (decide (q' = q)) as [->|Hne].
  - by rewrite !lookup_delete_eq.
  - by rewrite !lookup_delete_ne, !lookup_insert_ne.
Qed.

Lemma layout_concat m m' C q1 q2 cells1 cells2 :
  layout m C → q1 ≠ q2 → C !! q1 = Some cells1 → C !! q2 = Some cells2 →
  wf_mem m' →
  (∀ q', q' ≠ q1 → q' ≠ q2 → wrappers m' !! q' = wrappers m !! q') →
  (∀ l, l ∉ cells1.*1 → l ∉ cells2.*1 → nodes m' !! l = nodes m !! l) →
  is_queue m' q1 (cells1 ++ cells2) →
  layout m' (<[q1 := cells1 ++ cells2]> (delete q2 C)).
Proof.
  intros Hlay Hne H1 H2 Hwf' Hw Hn Hq. apply layout_insert; [|done|].
  - apply (layout_restrict m _ C); [done| |done|].
    + etrans; apply delete_subseteq.
    + intros q' cells' [Hne1 [Hne2 Hq']%lookup_delete_Some]%lookup_delete_Some.
      split; [by apply Hw|]. intros l Hl. apply Hn.
      * intros Hin. by apply (lay_apart _ _ Hlay q1 q' cells1 cells' Hne1 H1 Hq' l).
      * intros Hin. by apply (lay_apart _ _ Hlay q2 q' cells2 cells' Hne2 H2 Hq' l).
  - intros q' cells' l Hne1 [Hne2 Hq']%lookup_delete_Some.
    rewrite fmap_app, elem_of_app. intros [Hl|Hl].
    + by apply (lay_apart _ _ Hlay q1 q' cells1 cells' (not_eq_sym Hne1) H1 Hq' l).
    + by apply (lay_apart _ _ Hlay q2 q' cells2 cells' Hne2 H2 Hq' l).
Qed.

(** [qconcat] moves the elements of the second queue behind those of the
    first and closes the second; no element is freed. *)
Lemma qconcat_layout m C q1 q2 cells1 cells2 :
  layout m C → q1 ≠ q2 → C !! q1 = Some cells1 → C !! q2 = Some cells2 →
  wp (qconcat (Some q1) (Some q2)) m (λ _ m',
    layout m' (<[q1 := cells1 ++ cells2]> (delete q2 C)) ∧
    released m' = released m ∧ wrappers m' !! q2 = None).
Proof.
  intros Hlay Hne H1 H2.
  pose proof (lay_queue _ _ Hlay q1 cells1 H1) as (f1 & Hw1 & Hseg1 & Hnd1).
  pose proof (lay_queue _ _ Hlay q2 cells2 H2) as (f2 & Hw2 & Hseg2 & Hnd2).
  pose proof (lay_wf _ _ Hlay) as Hwf.
  pose proof (lay_apart _ _ Hlay q1 q2 cells1 cells2 Hne H1 H2) as Hapart.
  assert (NoDup (cells1 ++ cells2).*1) as Hnd.
  { rewrite fmap_app. apply NoDup_app. by split; [|split]. }
  unfold qconcat. apply qwp_bind. eapply wp_load_wrapper; [exact Hw1|]. memsimpl.
  destruct cells1 as [|c1 cells1'] eqn:Hc1.
  - simpl in Hseg1. subst f1.
    apply qwp_bind. eapply wp_load_wrapper; [exact Hw2|]. memsimpl.
    apply qwp_bind. eapply wp_set_front; [exact Hw1|]. memsimpl.
    apply qwp_bind. eapply wp_load_wrapper.
    { memsimpl. rewrite lookup_insert_ne by done. exact Hw2. }
    memsimpl.
    apply qwp_bind. eapply wp_set_back; [memsimpl; apply lookup_insert_eq|]. memsimpl.
    rewrite insert_insert_eq.
    apply qwp_bind. eapply wp_set_front.
    { memsimpl. rewrite lookup_insert_ne by done. exact Hw2. }
    memsimpl.
    apply qwp_bind. eapply wp_set_back; [memsimpl; apply lookup_insert_eq|]. memsimpl.
    rewrite insert_insert_eq.
    eapply wp_qclose_empty; [memsimpl; apply lookup_insert_eq|]. memsimpl.
    split; [|split; [done|apply lookup_delete_eq]].
    apply (layout_concat m _ C q1 q2 [] cells2); try done.
    + apply (wf_mem_shrink m); [done..| |]; memsimpl; [done|].
      intros q' Hq'. apply lookup_delete_is_Some in Hq' as [Hne' Hq'].
      rewrite lookup_insert_ne in Hq' by done.
      rewrite lookup_insert_is_Some' in Hq'. destruct Hq' as [<-|?]; [by rewrite Hw1|done].
    + memsimpl. intros q' Hn1 Hn2.
      by rewrite lookup_delete_ne, !lookup_insert_ne.
    + exists f2. memsimpl. rewrite lookup_delete_ne, lookup_insert_ne, lookup_insert_eq by done.
      done.
  - destruct cells2 as [|c2 cells2'] eqn:Hc2.
    + simpl in Hseg2. subst f2.
      assert (∃ l1, f1 = Some l1) as [l1 ->] by (destruct c1; destruct Hseg1 as [-> _]; eauto).
      apply qwp_bind. eapply wp_load_wrapper; [exact Hw2|]. memsimpl.
      eapply wp_qclose_empty; [exact Hw2|].
      split; [|split; [done|memsimpl; apply lookup_delete_eq]].
      rewrite app_nil_r.
      rewrite insert_id by (by rewrite lookup_delete_ne).
      apply (layout_restrict m _ C); [done|apply delete_subseteq| |].
      * apply (wf_mem_shrink m); [done..| |]; memsimpl; [done|].
        intros q' Hq'. apply lookup_delete_is_Some in Hq'. tauto.
      * intros q' cells' [Hne' Hq']%lookup_delete_Some. memsimpl.
        split; [by apply lookup_delete_ne|done].
    + rewrite <- Hc1, <- Hc2 in *.
      assert (∃ l1, f1 = Some l1) as [l1 ->].
      { subst cells1. destruct c1. destruct Hseg1 as [-> _]. eauto. }
      assert (∃ l2, f2 = Some l2) as [l2 ->].
      { subst cells2. destruct c2. destruct Hseg2 as [-> _]. eauto. }
      assert (∃ cells0 b xb, cells1 = cells0 ++ [(b, xb)]) as (cells0 & b & xb & Hsnoc).
      { subst cells1. destruct (c1 :: cells1') as [|[b xb] cells0 _] using rev_ind; [done|].
        eauto. }
      assert (cells2 ≠ []) as Hne2 by (by subst cells2).
      clear Hc1 Hc2 c1 cells1' c2 cells2'. subst cells1.
      rewrite last_snoc in Hw1. cbn [fmap option_fmap option_map fst] in Hw1.
      apply lseg_app in Hseg1 as (mid & Hseg0 & [-> (n & Hb & Hn)]). simpl in Hn. subst n.
      apply qwp_bind. eapply wp_load_wrapper; [exact Hw2|]. memsimpl.
      apply qwp_bind. eapply wp_load_wrapper; [exact Hw1|]. memsimpl.
      apply qwp_bind. eapply wp_load_wrapper; [exact Hw2|]. memsimpl.
      apply qwp_bind. eapply wp_set_next; [exact Hb|]. memsimpl.
      apply qwp_bind. eapply wp_load_wrapper; [exact Hw2|]. memsimpl.
      apply qwp_bind. eapply wp_set_back; [exact Hw1|]. memsimpl.
      apply qwp_bind. eapply wp_set_front.
      { memsimpl. rewrite lookup_insert_ne by done. exact Hw2. }
      memsimpl.
      apply qwp_bind. eapply wp_set_back; [memsimpl; apply lookup_insert_eq|]. memsimpl.
      rewrite insert_insert_eq.
      eapply wp_qclose_empty; [memsimpl; apply lookup_insert_eq|]. memsimpl.
      split; [|split; [done|apply lookup_delete_eq]].
      assert (b ∉ cells0.*1) as Hb0.
      { rewrite fmap_app in Hnd1. apply NoDup_app in Hnd1 as (_ & Hd & _).
        intros Hin. apply (Hd b Hin). cbn. by apply list_elem_of_singleton. }
      assert (b ∉ cells2.*1) as Hb2.
      { apply Hapart. rewrite fmap_app, elem_of_app. right. cbn.
        by apply list_elem_of_singleton. }
      apply (layout_concat m _ C q1 q2 (cells0 ++ [(b, xb)]) cells2); try done.
      * apply (wf_mem_shrink m); [done..| |]; memsimpl.
        -- intros l Hl. rewrite lookup_insert_is_Some' in Hl.
           destruct Hl as [<-|?]; [by eexists|done].
        -- intros q' Hq'. apply lookup_delete_is_Some in Hq' as [Hne' Hq'].
           rewrite lookup_insert_ne in Hq' by done.
           rewrite lookup_insert_is_Some' in Hq'.
           destruct Hq' as [<-|?]; [by rewrite Hw1|done].
      * memsimpl. intros q' Hn1 Hn2.
        by rewrite lookup_delete_ne, !lookup_insert_ne.
      * memsimpl. intros l Hl _. apply lookup_insert_ne. intros <-. apply Hl.
        rewrite fmap_app, elem_of_app. right. cbn. by apply list_elem_of_singleton.
      * exists (Some l1). memsimpl.
        rewrite lookup_delete_ne, lookup_insert_ne, lookup_insert_eq by done.
        split; [|split; [|done]].
        -- do 2 f_equal. destruct cells2 as [|c cells2 _] using rev_ind; [done|].
           by rewrite app_assoc, !last_snoc.
        -- rewrite <- app_assoc. apply lseg_app. exists (Some b). split.
           ++ eapply lseg_frame; [|exact Hseg0]. intros l Hl.
              apply lookup_insert_ne. by intros <-.
           ++ cbn [app lseg]. split; [done|]. exists (Some l2).
              rewrite lookup_insert_eq. split; [done|].
              eapply lseg_frame; [|exact Hseg2]. intros l Hl.
              apply lookup_insert_ne. by intros <-.
Qed.

End Specs.
End LinkedQueueOps.

(** ** queue.c keeps the lists of [Queue] *)

Module QueueRefinement.
Import LinkedQueue LinkedQueueTheory LinkedQueueOps.

Section Refinement.
Context {A : Type}.
Implicit Types (m : mem A) (σ : gmap loc (list A)).

Lemma models_lookup m σ q xs :
  models m σ → σ !! q = Some xs →
  ∃ C cells, layout m C ∧ C !! q = Some cells ∧ cells.*2 = xs ∧
             σ = (λ cells : list (loc * A), cells.*2) <$> C.
Proof.
  intros (C & Hlay & ->) Hq. rewrite lookup_fmap in Hq.
  destruct (C !! q) as [cells|] eqn:HC; [|done]. injection Hq as <-.
  by exists C, cells.
Qed.

Lemma models_insert m C q cells :
  layout m (<[q := cells]> C) →
  models m (<[q := cells.*2]> ((λ cells : list (loc * A), cells.*2) <$> C)).
Proof. intros Hlay. exists (<[q := cells]> C). split; [done|]. by rewrite fmap_insert. Qed.

Lemma models_delete m C q :
  layout m (delete q C) →
  models m (delete q ((λ cells : list (loc * A), cells.*2) <$> C)).
Proof. intros Hlay. exists (delete q C). split; [done|]. by rewrite fmap_delete. Qed.

(** The memory before the first [malloc]. *)
Definition empty_mem : mem A := Mem ∅ ∅ 0 0 [].

Lemma models_empty : models empty_mem ∅.
Proof.
  exists ∅. split; [|by rewrite fmap_empty]. split.
  - split; intros l [x Hl]; cbn in Hl; by rewrite lookup_empty in Hl.
  - intros q cells Hq. by rewrite lookup_empty in Hq.
  - intros q1 q2 c1 c2 _ Hq. by rewrite lookup_empty in Hq.
Qed.

(** *** The functions of queue.c on the lists *)

Lemma qopen_models m σ :
  models m σ →
  wp qopen m (λ qp m',
    ∃ q, qp = Some q ∧ σ !! q = None ∧ models m' (<[q := Queue.qopen]> σ) ∧
         released m' = released m).
Proof.
  intros (C & Hlay & ->).
  eapply qwp_mono; [by apply qopen_layout|].
  intros qp m' (-> & HC & Hlay' & Hrel). exists (next_wrapper m).
  split; [done|]. split; [by rewrite lookup_fmap, HC|]. split; [|done].
  by apply (models_insert m' C _ []).
Qed.

Lemma qput_models m σ q xs x :
  models m σ → σ !! q = Some xs →
  wp (qput (Some q) x) m (λ r m',
    r = 0 ∧ models m' (<[q := Queue.qput xs x]> σ) ∧ released m' = released m).
Proof.
  intros Hm Hq.
  destruct (models_lookup m σ q xs Hm Hq) as (C & cells & Hlay & HC & <- & ->).
  eapply qwp_mono; [by apply qput_layout|].
  intros r m' (-> & Hlay' & Hrel). split; [done|]. split; [|done].
  unfold Queue.qput.
  replace (cells.*2 ++ [x]) with ((cells ++ [(next_node m, x)]).*2)
    by (by rewrite fmap_app).
  by apply models_insert.
Qed.

Lemma qget_models m σ q xs :
  models m σ → σ !! q = Some xs →
  wp (qget (Some q)) m (λ r m',
    r = (Queue.qget xs).1 ∧ models m' (<[q := (Queue.qget xs).2]> σ) ∧
    released m' = released m).
Proof.
  intros Hm Hq.
  destruct (models_lookup m σ q xs Hm Hq) as (C & cells & Hlay & HC & <- & ->).
  eapply qwp_mono; [by apply qget_layout|].
  intros r m' (-> & Hlay' & Hrel).
  split; [by destruct cells|]. split; [|done].
  replace (Queue.qget cells.*2).2 with (tail cells).*2 by (by destruct cells).
  by apply models_insert.
Qed.

Lemma qsearch_models m σ q xs (searchfn : A → bool) :
  models m σ → σ !! q = Some xs →
  qsearch (Some q) searchfn m = Some (Queue.qsearch xs searchfn, m).
Proof.
  intros Hm Hq.
  destruct (models_lookup m σ q xs Hm Hq) as (C & cells & Hlay & HC & <- & ->).
  by eapply qsearch_layout.
Qed.

Lemma qapply_models {St : Type} m σ q xs (fn : A → St → St) (s : St) :
  models m σ → σ !! q = Some xs →
  qapply (Some q) fn s m = Some (foldl (λ s x, fn x s) s xs, m).
Proof.
  intros Hm Hq.
  destruct (models_lookup m σ q xs Hm Hq) as (C & cells & Hlay & HC & <- & ->).
  by eapply qapply_layout.
Qed.

Lemma cells_split (cells : list (loc * A)) (pre : list A) (x : A) (post : list A) :
  cells.*2 = pre ++ x :: post →
  ∃ cpre l cpost, cells = cpre ++ (l, x) :: cpost ∧ cpre.*2 = pre ∧ cpost.*2 = post.
Proof.
  intros Heq. apply fmap_app_inv in Heq as (cpre & crest & Hpre & Hrest & ->).
  destruct crest as [|[l x'] cpost]; [done|]. rewrite fmap_cons in Hrest.
  injection Hrest as -> Hpost. by exists cpre, l, cpost.
Qed.

Lemma qremove_none_models m σ q xs (searchfn : A → bool) :
  models m σ → σ !! q = Some xs → Forall (λ x, searchfn x = false) xs →
  qremove (Some q) searchfn m = Some (None, m).
Proof.
  intros Hm Hq Hno.
  destruct (models_lookup m σ q xs Hm Hq) as (C & cells & Hlay & HC & <- & ->).
  eapply qremove_none; [done..|]. by rewrite Forall_fmap in Hno.
Qed.

Lemma qremove_inner_models m σ q pre x post (searchfn : A → bool) :
  models m σ → σ !! q = Some (pre ++ x :: post) →
  Forall (λ x, searchfn x = false) pre → searchfn x = true → post ≠ [] →
  wp (qremove (Some q) searchfn) m (λ r m',
    r = Some x ∧ models m' (<[q := pre ++ post]> σ) ∧ released m' = released m).
Proof.
  intros Hm Hq Hno Hx Hpost.
  destruct (models_lookup m σ q _ Hm Hq) as (C & cells & Hlay & HC & Hsplit & ->).
  destruct (cells_split cells pre x post Hsplit) as (cpre & l & cpost & -> & <- & <-).
  rewrite Forall_fmap in Hno.
  eapply qwp_mono.
  { apply (qremove_inner m C q cpre l x cpost); try done. by intros ->. }
  intros r m' (-> & Hlay' & Hrel). split; [done|]. split; [|done].
  rewrite <- fmap_app. by apply models_insert.
Qed.

Lemma qremove_last_models m σ q pre x (searchfn : A → bool) :
  models m σ → σ !! q = Some (pre ++ [x]) →
  Forall (λ x, searchfn x = false) pre → searchfn x = true →
  wp (qremove (Some q) searchfn) m (λ r m',
    r = Some x ∧ models m' (delete q σ) ∧ released m' = released m ∧
    ∀ y, qput (Some q) y m' = None).
Proof.
  intros Hm Hq Hno Hx.
  destruct (models_lookup m σ q _ Hm Hq) as (C & cells & Hlay & HC & Hsplit & ->).
  destruct (cells_split cells pre x [] Hsplit) as (cpre & l & cpost & -> & <- & Hnil).
  destruct cpost; [|done]. rewrite Forall_fmap in Hno.
  assert (∀ y, wp (qremove (Some q) searchfn) m (λ r m',
            r = Some x ∧ layout m' (delete q C) ∧ released m' = released m ∧
            qput (Some q) y m' = None)) as Hall
    by (intros y; by apply (qremove_last m C q cpre l x)).
  destruct (qremove_found m C q cpre l x [] searchfn Hlay HC Hno Hx)
    as (r & m' & Hrun & _).
  exists r, m'. split; [done|].
  destruct (Hall x) as (r1 & m1 & Hrun1 & Hr1 & Hlay' & Hrel & _).
  rewrite Hrun in Hrun1. simplify_eq.
  split; [done|]. split; [by apply models_delete|]. split; [done|].
  intros y. destruct (Hall y) as (r2 & m2 & Hrun2 & _ & _ & _ & Hput).
  rewrite Hrun in Hrun2. by simplify_eq.
Qed.

Lemma closed_queue_get m q :
  wrappers m !! q = None → qget (Some q) m = None ∧ qclose (Some q) m = None.
Proof.
  intros Hq. unfold qget, qclose, bind, load_wrapper.
  cbn [wrappers]. by rewrite Hq.
Qed.

Lemma closed_queue_put m q (y : A) :
  wrappers m !! q = None → qput (Some q) y m = None.
Proof. intros Hq. by apply (closed_queue_unusable m q y (λ _, true)). Qed.

Lemma qconcat_models m σ q1 q2 xs1 xs2 :
  models m σ → q1 ≠ q2 → σ !! q1 = Some xs1 → σ !! q2 = Some xs2 →
  wp (qconcat (Some q1) (Some q2)) m (λ _ m',
    models m' (<[q1 := xs1 ++ xs2]> (delete q2 σ)) ∧ released m' = released m ∧
    wrappers m' !! q2 = None).
Proof.
  intros Hm Hne H1 H2.
  destruct (models_lookup m σ q1 xs1 Hm H1) as (C & cells1 & Hlay & HC1 & <- & ->).
  rewrite lookup_fmap in H2. destruct (C !! q2) as [cells2|] eqn:HC2; [|done].
  injection H2 as <-.
  eapply qwp_mono; [by apply (qconcat_layout m C q1 q2 cells1 cells2)|].
  intros _ m' (Hlay' & Hrel & Hgone).
  split; [|done].
  rewrite <- fmap_app, <- fmap_delete. by apply models_insert.
Qed.

Lemma qclose_models m σ q xs :
  models m σ → σ !! q = Some xs →
  wp (qclose (Some q)) m (λ _ m',
    models m' (delete q σ) ∧ released m' = released m ++ xs ∧
    wrappers m' !! q = None).
Proof.
  intros Hm Hq.
  destruct (models_lookup m σ q xs Hm Hq) as (C & cells & Hlay & HC & <- & ->).
  eapply qwp_mono; [by apply qclose_layout|].
  intros _ m' (Hlay' & Hrel & Hgone & _).
  split; [by apply models_delete|]. done.
Qed.

(** X7 (qopen, qput, qget): on queues in good order queue.c is the
    first-in first-out list of [Queue]: [qopen] gives a new empty queue,
    [qput] puts the element behind the others and returns 0, [qget]
    takes the first one, or returns NULL on an empty queue or a NULL
    pointer; the other queues hold what they held and no element is
    freed. *)
Theorem queue_fifo m σ :
  models m σ →
  wp qopen m (λ qp m',
    ∃ q, qp = Some q ∧ σ !! q = None ∧ models m' (<[q := Queue.qopen]> σ) ∧
         released m' = released m) ∧
  (∀ q xs x, σ !! q = Some xs →
     wp (qput (Some q) x) m (λ r m',
       r = 0 ∧ models m' (<[q := Queue.qput xs x]> σ) ∧ released m' = released m)) ∧
  (∀ q xs, σ !! q = Some xs →
     wp (qget (Some q)) m (λ r m',
       r = (Queue.qget xs).1 ∧ models m' (<[q := (Queue.qget xs).2]> σ) ∧
       released m' = released m)) ∧
  qget None m = Some (None, m).
Proof.
  intros Hm. split; [by apply qopen_models|].
  split; [intros q xs x Hq; by apply qput_models|].
  split; [intros q xs Hq; by apply qget_models|]. done.
Qed.

(** X12 (qsearch, qapply): on a queue in good order [qsearch] returns
    the first element the search function accepts, NULL when there is
    none, and [qapply] calls the function on every element, front first;
    both end and leave the memory as it is.  On a NULL pointer they do
    nothing. *)
Theorem queue_search_apply {St : Type} m σ q xs (searchfn : A → bool)
        (fn : A → St → St) (s : St) :
  models m σ → σ !! q = Some xs →
  qsearch (Some q) searchfn m = Some (Queue.qsearch xs searchfn, m) ∧
  qapply (Some q) fn s m = Some (foldl (λ s x, fn x s) s xs, m) ∧
  qsearch None searchfn m = Some (None, m) ∧
  qapply None fn s m = Some (s, m).
Proof.
  intros Hm Hq.
  split; [by eapply qsearch_models|]. split; [by eapply qapply_models|]. done.
Qed.

(** X13 (qremove): on a queue in good order [qremove] returns NULL and
    touches nothing when no element is accepted; otherwise it returns
    the first element that is accepted and takes it out.  When that
    element is not the last one the queue holds the others in their
    order.  When it is the last one the wrapper keeps pointing to the
    freed node: the other queues are as they were, but the next [qput]
    on this queue is undefined. *)
Theorem queue_remove m σ q xs (searchfn : A → bool) :
  models m σ → σ !! q = Some xs →
  (Forall (λ x, searchfn x = false) xs →
   qremove (Some q) searchfn m = Some (None, m)) ∧
  (∀ pre x post, xs = pre ++ x :: post →
     Forall (λ x, searchfn x = false) pre → searchfn x = true →
     (post ≠ [] →
      wp (qremove (Some q) searchfn) m (λ r m',
        r = Some x ∧ models m' (<[q := pre ++ post]> σ) ∧
        released m' = released m)) ∧
     (post = [] →
      wp (qremove (Some q) searchfn) m (λ r m',
        r = Some x ∧ models m' (delete q σ) ∧ released m' = released m ∧
        ∀ y, qput (Some q) y m' = None))).
Proof.
  intros Hm Hq. split; [intros Hno; by eapply qremove_none_models|].
  intros pre x post -> Hno Hx. split.
  - intros Hpost. by apply (qremove_inner_models m σ q pre x post).
  - intros ->. by apply (qremove_last_models m σ q pre x).
Qed.

(** X14 (qconcat): [qconcat] puts the elements of the second queue
    behind those of the first, in their order, frees no element, and
    closes the second queue: its wrapper is gone, and to use it again is
    undefined.  With a NULL pointer it does nothing. *)
Theorem queue_concat m σ q1 q2 xs1 xs2 :
  models m σ → q1 ≠ q2 → σ !! q1 = Some xs1 → σ !! q2 = Some xs2 →
  wp (qconcat (Some q1) (Some q2)) m (λ _ m',
    models m' (<[q1 := xs1 ++ xs2]> (delete q2 σ)) ∧ released m' = released m ∧
    qget (Some q2) m' = None ∧ ∀ y, qput (Some q2) y m' = None) ∧
  qconcat None (Some q2) m = Some (tt, m) ∧
  qconcat (Some q1) None m = Some (tt, m).
Proof.
  intros Hm Hne H1 H2. split; [|done].
  eapply qwp_mono; [by apply (qconcat_models m σ q1 q2 xs1 xs2)|].
  intros _ m' (Hm' & Hrel & Hgone).
  split; [done|]. split; [done|].
  split; [by apply closed_queue_get|]. intros y. by apply closed_queue_put.
Qed.

(** X15 (qclose): [qclose] hands every element of the queue to [free],
    front first, frees the nodes and the wrapper, and leaves the other
    queues as they were; to use the queue again is undefined.  On a NULL
    pointer it does nothing. *)
Theorem queue_close m σ q xs :
  models m σ → σ !! q = Some xs →
  wp (qclose (Some q)) m (λ _ m',
    models m' (delete q σ) ∧ released m' = released m ++ xs ∧
    qget (Some q) m' = None ∧ qclose (Some q) m' = None ∧
    ∀ y, qput (Some q) y m' = None) ∧
  qclose None m = Some (tt, m).
Proof.
  intros Hm Hq. split; [|done].
  eapply qwp_mono; [by apply (qclose_models m σ q xs)|].
  intros _ m' (Hm' & Hrel & Hgone).
  split; [done|]. split; [done|].
  split; [by apply closed_queue_get|]. split; [by apply closed_queue_get|].
  intros y. by apply closed_queue_put.
Qed.

End Refinement.

(** A memory with two queues: queue 0 holds 5, 7, 9 and queue 1 holds 4. *)
Definition sample : mem Z :=
  Mem {[ 0%nat := QElement 5 (Some 1%nat); 1%nat := QElement 7 (Some 2%nat);
         2%nat := QElement 9 None; 3%nat := QElement 4 None ]}
      {[ 0%nat := Wrapper (Some 0%nat) (Some 2%nat);
         1%nat := Wrapper (Some 3%nat) (Some 3%nat) ]}
      4 2 [].

Definition sample_queues : gmap loc (list Z) :=
  {[ 0%nat := [5; 7; 9]; 1%nat := [4] ]}.

Definition sample_program : M Z Z :=
  let* q0 := qopen in
  let* q1 := qopen in
  qput q0 5 ;;* qput q0 7 ;;* qput q0 9 ;;* qput q1 4.

Lemma sample_program_runs : sample_program empty_mem = Some (0, sample).
Proof. vm_compute. reflexivity. Qed.

Ltac run_step H lem :=
  let r := fresh "r" in let m := fresh "m" in let Hrun := fresh "Hrun" in
  let H' := fresh "Hlay" in
  destruct lem as (r & m & Hrun & H');
  vm_compute in Hrun; injection Hrun as <- <-; clear H; rename H' into H.

Lemma sample_models : models sample sample_queues.
Proof.
  exists {[ 0%nat := [(0%nat, 5); (1%nat, 7); (2%nat, 9)]; 1%nat := [(3%nat, 4)] ]}.
  split; [|apply map_eq; intros q; vm_compute; reflexivity].
  destruct (@models_empty Z) as (C0 & H & HC0).
  symmetry in HC0. apply fmap_empty_inv in HC0 as ->.
  run_step H (qopen_layout _ _ H). destruct H as (_ & _ & H & _).
  run_step H (qopen_layout _ _ H). destruct H as (_ & _ & H & _).
  run_step H (qput_layout _ _ 0%nat [] 5 H eq_refl). destruct H as (_ & H & _).
  run_step H (qput_layout _ _ 0%nat _ 7 H eq_refl). destruct H as (_ & H & _).
  run_step H (qput_layout _ _ 0%nat _ 9 H eq_refl). destruct H as (_ & H & _).
  run_step H (qput_layout _ _ 1%nat [] 4 H eq_refl). destruct H as (_ & H & _).
  exact H.
Qed.

Lemma queue_fifo_witness :
  wp qopen sample (λ qp m',
    ∃ q, qp = Some q ∧ sample_queues !! q = None ∧
         models m' (<[q := Queue.qopen]> sample_queues) ∧
         released m' = released sample) ∧
  (∀ q xs x, sample_queues !! q = Some xs →
     wp (qput (Some q) x) sample (λ r m',
       r = 0 ∧ models m' (<[q := Queue.qput xs x]> sample_queues) ∧
       released m' = released sample)) ∧
  (∀ q xs, sample_queues !! q = Some xs →
     wp (qget (Some q)) sample (λ r m',
       r = (Queue.qget xs).1 ∧ models m' (<[q := (Queue.qget xs).2]> sample_queues) ∧
       released m' = released sample)) ∧
  qget None sample = Some (None, sample).
Proof. apply (queue_fifo sample sample_queues). exact sample_models. Defined.

Lemma queue_search_apply_witness :
  qsearch (Some 0%nat) (λ x, 6 <? x) sample = Some (Some 7, sample) ∧
  qapply (Some 0%nat) Z.add 0 sample = Some (21, sample) ∧
  qsearch None (λ x, 6 <? x) sample = Some (None, sample) ∧
  qapply None Z.add 0 sample = Some (0, sample).
Proof.
  apply (queue_search_apply sample sample_queues 0%nat [5; 7; 9] (λ x, 6 <? x) Z.add 0).
  - exact sample_models.
  - reflexivity.
Defined.

Lemma queue_remove_witness :
  (Forall (λ x, (8 <? x) = false) [5; 7; 9] →
   qremove (Some 0%nat) (λ x, 8 <? x) sample = Some (None, sample)) ∧
  (∀ pre x post, [5; 7; 9] = pre ++ x :: post →
     Forall (λ x, (8 <? x) = false) pre → (8 <? x) = true →
     (post ≠ [] →
      wp (qremove (Some 0%nat) (λ x, 8 <? x)) sample (λ r m',
        r = Some x ∧ models m' (<[0%nat := pre ++ post]> sample_queues) ∧
        released m' = released sample)) ∧
     (post = [] →
      wp (qremove (Some 0%nat) (λ x, 8 <? x)) sample (λ r m',
        r = Some x ∧ models m' (delete 0%nat sample_queues) ∧
        released m' = released sample ∧
        ∀ y, qput (Some 0%nat) y m' = None))).
Proof.
  apply (queue_remove sample sample_queues 0%nat [5; 7; 9] (λ x, 8 <? x)).
  - exact sample_models.
  - reflexivity.
Defined.

Lemma queue_concat_witness :
  wp (qconcat (Some 0%nat) (Some 1%nat)) sample (λ _ m',
    models m' (<[0%nat := [5; 7; 9] ++ [4]]> (delete 1%nat sample_queues)) ∧
    released m' = released sample ∧
    qget (Some 1%nat) m' = None ∧ ∀ y, qput (Some 1%nat) y m' = None) ∧
  qconcat None (Some 1%nat) sample = Some (tt, sample) ∧
  qconcat (Some 0%nat) None sample = Some (tt, sample).
Proof.
  apply (queue_concat sample sample_queues 0%nat 1%nat [5; 7; 9] [4]).
  - exact sample_models.
  - lia.
  - reflexivity.
  - reflexivity.
Defined.

Lemma queue_close_witness :
  wp (qclose (Some 0%nat)) sample (λ _ m',
    models m' (delete 0%nat sample_queues) ∧
    released m' = released sample ++ [5; 7; 9] ∧
    qget (Some 0%nat) m' = None ∧ qclose (Some 0%nat) m' = None ∧
    ∀ y, qput (Some 0%nat) y m' = None) ∧
  qclose None sample = Some (tt, sample).
Proof.
  apply (queue_close sample sample_queues 0%nat [5; 7; 9]).
  - exact sample_models.
  - reflexivity.
Defined.

End QueueRefinement.

(** ** hash.c, with its pointers

    The table as hash.c builds it: a [table_t] with the array of the
    pointers to its queues, over the memory of queue.c. *)

Module LinkedHash.
Import Libc LinkedQueue.

Section Ops.
Context {A : Type}.

Record table_t : Type := TableT {
  tablesize : Z;
  hash_table : list (option loc)
}.

(** The memory of queue.c, and the tables [malloc] gave and [free] has
    not taken back. *)
Record hmem : Type := HMem {
  queues : mem A;
  tables : gmap loc table_t;
  next_table : loc
}.

Definition H (X : Type) : Type := hmem → option (X * hmem).

Definition hret {X} (x : X) : H X := λ hm, Some (x, hm).
Definition hbind {X Y} (c : H X) (k : X → H Y) : H Y :=
  λ hm, match c hm with
        | Some (x, hm') => k x hm'
        | None => None
        end.
Definition hundefined {X} : H X := λ _, None.

(** A call of queue.c. *)
Definition lift {X} (c : M A X) : H X :=
  λ hm, match c (queues hm) with
        | Some (x, m') => Some (x, HMem m' (tables hm) (next_table hm))
        | None => None
        end.

Definition load_table (t : loc) : H table_t :=
  λ hm, match tables hm !! t with Some tb => Some (tb, hm) | None => None end.

Definition malloc_table (tb : table_t) : H loc :=
  λ hm, Some (next_table hm,
              HMem (queues hm) (<[next_table hm := tb]> (tables hm))
                   (S (next_table hm))).

Definition free_table (t : loc) : H unit :=
  λ hm, match tables hm !! t with
        | Some _ => Some (tt, HMem (queues hm) (delete t (tables hm)) (next_table hm))
        | None => None
        end.

(** [table->hash_table[i] = qp] *)
Definition store_slot (t : loc) (i : nat) (qp : option loc) : H unit :=
  λ hm, match tables hm !! t with
        | Some tb =>
            if decide (i < length (hash_table tb))%nat
            then Some (tt, HMem (queues hm)
                                (<[t := TableT (tablesize tb)
                                               (<[i := qp]> (hash_table tb))]>
                                   (tables hm))
                                (next_table hm))
            else None
        | None => None
        end.

(** [table->hash_table[i]] *)
Definition load_slot (t : loc) (i : nat) : H (option loc) :=
  λ hm, match tables hm !! t with
        | Some tb =>
            match hash_table tb !! i with
            | Some qp => Some (qp, hm)
            | None => None
            end
        | None => None
        end.

Notation "'let+' x := c 'in' k" := (hbind c (λ x, k))
  (at level 10, x name, c at level 100, k at level 200).
Notation "c ;;+ k" := (hbind c (λ _, k))
  (at level 100, right associativity).

(** [SuperFastHash], with its test of [data] and the division by
    [tablesize]. *)
Definition SuperFastHash (data : option cstring) (len : Z) (tablesize : Z) : H Z :=
  match data with
  | None => hret 0
  | Some d =>
      if len <=? 0 then hret 0
      else if tablesize =? 0 then hundefined
      else hret (Hash.SuperFastHash d len tablesize)
  end.

(** [hopen]; the counter [i] of the loop is an [int]. *)
Fixpoint hopen_loop (n : nat) (i : nat) (t : loc) : H unit :=
  match n with
  | O => hret tt
  | S n' =>
      let+ qp := lift qopen in
      store_slot t i qp ;;+
      hopen_loop n' (S i) t
  end.

Definition hopen (hsize : Z) : H (option loc) :=
  if hsize <=? 0 then hret None
  else if INT_MAX <? hsize then hundefined
  else
    let+ t := malloc_table (TableT hsize (replicate (Z.to_nat hsize) None)) in
    hopen_loop (Z.to_nat hsize) 0 t ;;+
    hret (Some t).

(** [hclose] *)
Fixpoint hclose_loop (n : nat) (i : nat) (t : loc) : H unit :=
  match n with
  | O => hret tt
  | S n' =>
      let+ qp := load_slot t i in
      lift (qclose qp) ;;+
      hclose_loop n' (S i) t
  end.

Definition hclose (htp : option loc) : H unit :=
  match htp with
  | None => hret tt
  | Some t =>
      let+ tb := load_table t in
      hclose_loop (Z.to_nat (tablesize tb)) 0 t ;;+
      free_table t
  end.

(** [hput] *)
Definition hput (htp : option loc) (ep : option A) (key : option cstring)
           (keylen : Z) : H Z :=
  match htp, ep with
  | Some t, Some e =>
      let+ tb := load_table t in
      let+ hash := SuperFastHash key keylen (tablesize tb) in
      let+ qp := load_slot t (Z.to_nat hash) in
      lift (qput qp e)
  | _, _ => hret (-1)
  end.

(** [happly]: [fn] acts on a state of its own. *)
Fixpoint happly_loop {St : Type} (n : nat) (i : nat) (t : loc)
         (fn : A → St → St) (s : St) : H St :=
  match n with
  | O => hret s
  | S n' =>
      let+ qp := load_slot t i in
      let+ s' := lift (qapply qp fn s) in
      happly_loop n' (S i) t fn s'
  end.

Definition happly {St : Type} (htp : option loc) (fn : option (A → St → St)) (s : St)
  : H St :=
  match htp, fn with
  | Some t, Some f =>
      let+ tb := load_table t in
      happly_loop (Z.to_nat (tablesize tb)) 0 t f s
  | _, _ => hret s
  end.

(** [hsearch]: the key is hashed and passed on to the search function. *)
Definition hsearch (htp : option loc) (searchfn : option (A → option cstring → bool))
           (key : option cstring) (keylen : Z) : H (option A) :=
  match htp, searchfn with
  | Some t, Some f =>
      let+ tb := load_table t in
      let+ hash := SuperFastHash key keylen (tablesize tb) in
      let+ qp := load_slot t (Z.to_nat hash) in
      lift (qsearch qp (λ e, f e key))
  | _, _ => hret None
  end.

(** [hremove] *)
Definition hremove (htp : option loc) (searchfn : option (A → option cstring → bool))
           (key : option cstring) (keylen : Z) : H (option A) :=
  match htp, searchfn with
  | Some t, Some f =>
      let+ tb := load_table t in
      let+ hash := SuperFastHash key keylen (tablesize tb) in
      let+ qp := load_slot t (Z.to_nat hash) in
      lift (qremove qp (λ e, f e key))
  | _, _ => hret None
  end.
End Ops.

Arguments table_t : clear implicits.
Arguments hmem : clear implicits.
Arguments H : clear implicits.

Notation "'let+' x := c 'in' k" := (hbind c (λ x, k))
  (at level 10, x name, c at level 100, k at level 200).
Notation "c ;;+ k" := (hbind c (λ _, k))
  (at level 100, right associativity).

End LinkedHash.

(** ** hash.c keeps the tables of [Hash] *)

Module LinkedHashTheory.
Import Libc LinkedQueue LinkedQueueTheory LinkedQueueOps QueueRefinement LinkedHash.

Section Theory.
Context {A : Type}.
Implicit Types (hm : hmem A) (σ : gmap loc (list A)) (T : Hash.hashtable_t A).

Definition hwp {X} (c : H A X) (hm : hmem A) (Q : X → hmem A → Prop) : Prop :=
  ∃ x hm', c hm = Some (x, hm') ∧ Q x hm'.

Lemma hwp_ret {X} (x : X) hm (Q : X → hmem A → Prop) : Q x hm → hwp (hret x) hm Q.
Proof. intros HQ. by exists x, hm. Qed.

Lemma hwp_bind {X Y} (c : H A X) (k : X → H A Y) hm (Q : Y → hmem A → Prop) :
  hwp c hm (λ x hm', hwp (k x) hm' Q) → hwp (hbind c k) hm Q.
Proof.
  intros (x & hm' & Hc & y & hm'' & Hk & HQ). exists y, hm''.
  unfold hbind. by rewrite Hc.
Qed.

Lemma hwp_mono {X} (c : H A X) hm (Q Q' : X → hmem A → Prop) :
  hwp c hm Q → (∀ x hm', Q x hm' → Q' x hm') → hwp c hm Q'.
Proof. intros (x & hm' & Hc & HQ) HQQ. exists x, hm'. auto. Qed.

Lemma hwp_lift {X} (c : M A X) hm (Q : X → hmem A → Prop) :
  wp c (queues hm) (λ x m', Q x (HMem m' (tables hm) (next_table hm))) →
  hwp (lift c) hm Q.
Proof.
  intros (x & m' & Hc & HQ). exists x, (HMem m' (tables hm) (next_table hm)).
  unfold lift. by rewrite Hc.
Qed.

Lemma hwp_eq {X} (c : H A X) hm x hm' (Q : X → hmem A → Prop) :
  c hm = Some (x, hm') → Q x hm' → hwp c hm Q.
Proof. intros Hc HQ. by exists x, hm'. Qed.

(** *** The table of a memory

    [t] is a table whose slots are the queues [qs], which hold the lists
    of [T]; [σ] gives what every queue of the memory holds. *)
Definition wf_tables hm : Prop :=
  ∀ t, is_Some (tables hm !! t) → (t < next_table hm)%nat.

Record represents hm σ (t : loc) (qs : list loc) T : Prop := Represents {
  rep_queues : models (queues hm) σ;
  rep_wf : wf_tables hm;
  rep_table : tables hm !! t = Some (TableT (Hash.tablesize T) (Some <$> qs));
  rep_size : HashFacts.wf_table T;
  rep_nodup : NoDup qs;
  rep_slots : Forall2 (λ q xs, σ !! q = Some xs) qs (Hash.hash_table T)
}.

Lemma rep_slot hm σ t qs T (i : nat) :
  represents hm σ t qs T → (i < length (Hash.hash_table T))%nat →
  ∃ q xs, qs !! i = Some q ∧ Hash.hash_table T !! i = Some xs ∧ σ !! q = Some xs.
Proof.
  intros Hrep Hi. pose proof (rep_slots _ _ _ _ _ Hrep) as Hs.
  destruct (lookup_lt_is_Some_2 _ _ Hi) as [xs Hxs].
  destruct (Forall2_lookup_r _ _ _ _ _ Hs Hxs) as (q & Hq & Hσ).
  by exists q, xs.
Qed.

Lemma SuperFastHash_slot hm T key keylen :
  HashFacts.wf_table T →
  SuperFastHash (Some key) keylen (Hash.tablesize T) hm
  = Some (Z.of_nat (Hash.slot T key keylen), hm).
Proof.
  intros [Hpos Hlen]. unfold SuperFastHash, Hash.slot.
  pose proof (HashFacts.SuperFastHash_range key keylen _ Hpos) as Hr.
  rewrite Z2Nat.id by lia.
  destruct (keylen <=? 0) eqn:E.
  - unfold Hash.SuperFastHash. by rewrite E.
  - destruct (Hash.tablesize T =? 0) eqn:E0; [lia|done].
Qed.

Lemma load_slot_rep hm σ t qs T i q :
  represents hm σ t qs T → qs !! i = Some q →
  load_slot t i hm = Some (Some q, hm).
Proof.
  intros Hrep Hq. unfold load_slot. rewrite (rep_table _ _ _ _ _ Hrep).
  cbn [hash_table]. by rewrite list_lookup_fmap, Hq.
Qed.

(** The slot [i] of the table is given a new list. *)
Lemma represents_update hm σ t qs T m' i q xs' :
  represents hm σ t qs T → qs !! i = Some q →
  models m' (<[q := xs']> σ) →
  represents (HMem m' (tables hm) (next_table hm)) (<[q := xs']> σ) t qs
             (Hash.Table (Hash.tablesize T) (<[i := xs']> (Hash.hash_table T))).
Proof.
  intros Hrep Hq Hm'. destruct Hrep as [Hm Hwf Ht [Hpos Hlen] Hnd Hs].
  split; cbn [queues tables next_table Hash.tablesize Hash.hash_table]; try done.
  - split; cbn [Hash.tablesize Hash.hash_table]; [done|]. by rewrite length_insert.
  - apply Forall2_same_length_lookup in Hs as [Hsl Hs].
    apply Forall2_same_length_lookup. split; [by rewrite length_insert|].
    intros j q' xs Hq' Hxs.
    destruct (decide (j = i)) as [->|Hne].
    + rewrite Hq in Hq'. injection Hq' as <-.
      rewrite list_lookup_insert_eq in Hxs
        by (rewrite <- Hsl; by eapply lookup_lt_Some).
      injection Hxs as <-. by rewrite lookup_insert_eq.
    + rewrite list_lookup_insert_ne in Hxs by done.
      rewrite lookup_insert_ne; [by eapply Hs|]. intros <-.
      by pose proof (NoDup_lookup _ _ _ _ Hnd Hq Hq').
Qed.

Lemma alter_insert {B} (f : B → B) (l : list B) i x :
  l !! i = Some x → alter f i l = <[i := f x]> l.
Proof.
  intros Hx. apply list_eq. intros j. destruct (decide (j = i)) as [->|Hne].
  - rewrite list_lookup_alter_eq, Hx.
    by rewrite list_lookup_insert_eq by (by eapply lookup_lt_Some).
  - by rewrite list_lookup_alter_ne, list_lookup_insert_ne.
Qed.

(** *** hput, hsearch *)

Lemma hput_represents hm σ t qs T e key keylen :
  represents hm σ t qs T →
  hwp (hput (Some t) (Some e) (Some key) keylen) hm (λ r hm',
    r = 0 ∧ tables hm' = tables hm ∧
    released (queues hm') = released (queues hm) ∧
    ∃ σ', represents hm' σ' t qs (Hash.hput T e key keylen) ∧
          ∀ q, q ∉ qs → σ' !! q = σ !! q).
Proof.
  intros Hrep. pose proof (rep_size _ _ _ _ _ Hrep) as Hwf.
  destruct (rep_slot hm σ t qs T (Hash.slot T key keylen) Hrep
              (HashFacts.slot_lt T key keylen Hwf)) as (q & xs & Hq & Hxs & Hσ).
  unfold hput. apply hwp_bind.
  eapply hwp_eq; [unfold load_table; by rewrite (rep_table _ _ _ _ _ Hrep)|].
  cbn [tablesize]. apply hwp_bind.
  eapply hwp_eq; [by apply SuperFastHash_slot|]. rewrite Nat2Z.id.
  apply hwp_bind. eapply hwp_eq; [by eapply load_slot_rep|].
  apply hwp_lift.
  eapply qwp_mono; [apply (qput_models _ σ q xs e (rep_queues _ _ _ _ _ Hrep) Hσ)|].
  intros r m' (-> & Hm' & Hrel). cbn [queues tables].
  split; [done|]. split; [done|]. split; [done|].
  exists (<[q := Queue.qput xs e]> σ). split.
  - unfold Hash.hput. rewrite (alter_insert _ _ _ xs Hxs).
    by eapply represents_update.
  - intros q' Hq'. rewrite lookup_insert_ne; [done|]. intros <-.
    apply Hq'. by eapply list_elem_of_lookup_2.
Qed.

Lemma hsearch_represents hm σ t qs T (f : A → option cstring → bool) key keylen :
  represents hm σ t qs T →
  hsearch (Some t) (Some f) (Some key) keylen hm
  = Some (Hash.hsearch T (λ e, f e (Some key)) key keylen, hm).
Proof.
  intros Hrep. pose proof (rep_size _ _ _ _ _ Hrep) as Hwf.
  destruct (rep_slot hm σ t qs T (Hash.slot T key keylen) Hrep
              (HashFacts.slot_lt T key keylen Hwf)) as (q & xs & Hq & Hxs & Hσ).
  unfold hsearch, hbind, load_table. rewrite (rep_table _ _ _ _ _ Hrep).
  cbn [tablesize]. rewrite SuperFastHash_slot by done. rewrite Nat2Z.id.
  rewrite (load_slot_rep hm σ t qs T _ q Hrep Hq).
  unfold lift. rewrite (qsearch_models _ σ q xs _ (rep_queues _ _ _ _ _ Hrep) Hσ).
  unfold Hash.hsearch. rewrite Hxs. simpl. by destruct hm.
Qed.

(** *** happly *)

Lemma happly_loop_represents {St : Type} hm σ t qs T (fn : A → St → St) n i s :
  represents hm σ t qs T → (i + n = length (Hash.hash_table T))%nat →
  happly_loop n i t fn s hm
  = Some (foldl (λ s x, fn x s) s (concat (drop i (Hash.hash_table T))), hm).
Proof.
  intros Hrep. revert i s. induction n as [|n IH]; intros i s Hlen.
  - rewrite drop_ge by lia. done.
  - destruct (rep_slot hm σ t qs T i Hrep) as (q & xs & Hq & Hxs & Hσ); [lia|].
    cbn [happly_loop]. unfold hbind.
    rewrite (load_slot_rep hm σ t qs T _ q Hrep Hq).
    unfold lift. rewrite (qapply_models _ σ q xs _ _ (rep_queues _ _ _ _ _ Hrep) Hσ).
    replace (HMem (queues hm) (tables hm) (next_table hm)) with hm by (by destruct hm).
    rewrite IH by lia.
    rewrite (drop_S _ _ _ Hxs). cbn [concat]. by rewrite foldl_app.
Qed.

Lemma happly_represents {St : Type} hm σ t qs T (fn : A → St → St) s :
  represents hm σ t qs T →
  happly (Some t) (Some fn) s hm
  = Some (foldl (λ s x, fn x s) s (Hash.happly_order T), hm).
Proof.
  intros Hrep. destruct (rep_size _ _ _ _ _ Hrep) as [Hpos Hlen].
  unfold happly, hbind, load_table. rewrite (rep_table _ _ _ _ _ Hrep).
  cbn [tablesize]. by rewrite (happly_loop_represents hm σ t qs T) by (done || lia).
Qed.

(** *** hremove *)

Lemma hremove_none_represents hm σ t qs T (f : A → option cstring → bool) key keylen xs :
  represents hm σ t qs T →
  Hash.hash_table T !! Hash.slot T key keylen = Some xs →
  Forall (λ x, f x (Some key) = false) xs →
  hremove (Some t) (Some f) (Some key) keylen hm = Some (None, hm).
Proof.
  intros Hrep Hxs Hno. pose proof (rep_size _ _ _ _ _ Hrep) as Hwf.
  destruct (rep_slot hm σ t qs T (Hash.slot T key keylen) Hrep
              (HashFacts.slot_lt T key keylen Hwf)) as (q & xs' & Hq & Hxs' & Hσ).
  unfold Queue.queue_t in *. rewrite Hxs in Hxs'. injection Hxs' as <-.
  unfold hremove, hbind, load_table. rewrite (rep_table _ _ _ _ _ Hrep).
  cbn [tablesize]. rewrite SuperFastHash_slot by done. rewrite Nat2Z.id.
  rewrite (load_slot_rep hm σ t qs T _ q Hrep Hq).
  unfold lift.
  rewrite (qremove_none_models _ σ q xs _ (rep_queues _ _ _ _ _ Hrep) Hσ Hno).
  by destruct hm.
Qed.

Lemma hremove_inner_represents hm σ t qs T (f : A → option cstring → bool)
      key keylen pre x post :
  represents hm σ t qs T →
  Hash.hash_table T !! Hash.slot T key keylen = Some (pre ++ x :: post) →
  Forall (λ x, f x (Some key) = false) pre → f x (Some key) = true → post ≠ [] →
  hwp (hremove (Some t) (Some f) (Some key) keylen) hm (λ r hm',
    r = Some x ∧ tables hm' = tables hm ∧
    released (queues hm') = released (queues hm) ∧
    ∃ σ', represents hm' σ' t qs
            (Hash.Table (Hash.tablesize T)
               (<[Hash.slot T key keylen := pre ++ post]> (Hash.hash_table T))) ∧
          ∀ q, q ∉ qs → σ' !! q = σ !! q).
Proof.
  intros Hrep Hxs Hno Hx Hpost. pose proof (rep_size _ _ _ _ _ Hrep) as Hwf.
  destruct (rep_slot hm σ t qs T (Hash.slot T key keylen) Hrep
              (HashFacts.slot_lt T key keylen Hwf)) as (q & xs' & Hq & Hxs' & Hσ).
  unfold Queue.queue_t in *. rewrite Hxs in Hxs'. injection Hxs' as <-.
  unfold hremove. apply hwp_bind.
  eapply hwp_eq; [unfold load_table; by rewrite (rep_table _ _ _ _ _ Hrep)|].
  cbn [tablesize]. apply hwp_bind.
  eapply hwp_eq; [by apply SuperFastHash_slot|]. rewrite Nat2Z.id.
  apply hwp_bind. eapply hwp_eq; [by eapply load_slot_rep|].
  apply hwp_lift.
  eapply qwp_mono.
  { apply (qremove_inner_models _ σ q pre x post (λ e, f e (Some key))
             (rep_queues _ _ _ _ _ Hrep) Hσ Hno Hx Hpost). }
  intros r m' (-> & Hm' & Hrel). cbn [queues tables].
  split; [done|]. split; [done|]. split; [done|].
  exists (<[q := pre ++ post]> σ). split.
  - by eapply represents_update.
  - intros q' Hq'. rewrite lookup_insert_ne; [done|]. intros <-.
    apply Hq'. by eapply list_elem_of_lookup_2.
Qed.

Lemma hremove_last_represents hm σ t qs T (f : A → option cstring → bool)
      key keylen pre x :
  represents hm σ t qs T →
  Hash.hash_table T !! Hash.slot T key keylen = Some (pre ++ [x]) →
  Forall (λ x, f x (Some key) = false) pre → f x (Some key) = true →
  hwp (hremove (Some t) (Some f) (Some key) keylen) hm (λ r hm',
    r = Some x ∧ tables hm' = tables hm ∧
    released (queues hm') = released (queues hm) ∧
    (∀ e key' keylen', Hash.slot T key' keylen' = Hash.slot T key keylen →
       hput (Some t) (Some e) (Some key') keylen' hm' = None) ∧
    ∃ σ', models (queues hm') σ' ∧ ∀ q, q ∉ qs → σ' !! q = σ !! q).
Proof.
  intros Hrep Hxs Hno Hx. pose proof (rep_size _ _ _ _ _ Hrep) as Hwf.
  destruct (rep_slot hm σ t qs T (Hash.slot T key keylen) Hrep
              (HashFacts.slot_lt T key keylen Hwf)) as (q & xs' & Hq & Hxs' & Hσ).
  unfold Queue.queue_t in *. rewrite Hxs in Hxs'. injection Hxs' as <-.
  unfold hremove. apply hwp_bind.
  eapply hwp_eq; [unfold load_table; by rewrite (rep_table _ _ _ _ _ Hrep)|].
  cbn [tablesize]. apply hwp_bind.
  eapply hwp_eq; [by apply SuperFastHash_slot|]. rewrite Nat2Z.id.
  apply hwp_bind. eapply hwp_eq; [by eapply load_slot_rep|].
  apply hwp_lift.
  eapply qwp_mono.
  { apply (qremove_last_models _ σ q pre x (λ e, f e (Some key))
             (rep_queues _ _ _ _ _ Hrep) Hσ Hno Hx). }
  intros r m' (-> & Hm' & Hrel & Hput). cbn [queues tables].
  split; [done|]. split; [done|]. split; [done|]. split.
  - intros e key' keylen' Hslot.
    unfold hput, hbind, load_table. cbn [tables].
    rewrite (rep_table _ _ _ _ _ Hrep). cbn [tablesize].
    rewrite SuperFastHash_slot by done. rewrite Nat2Z.id, Hslot.
    unfold load_slot. cbn [tables]. rewrite (rep_table _ _ _ _ _ Hrep).
    cbn [hash_table]. rewrite list_lookup_fmap, Hq. cbn -[qput].
    unfold lift. cbn [queues]. by rewrite Hput.
  - exists (delete q σ). split; [done|].
    intros q' Hq'. rewrite lookup_delete_ne; [done|]. intros <-.
    apply Hq'. by eapply list_elem_of_lookup_2.
Qed.

(** *** hopen *)

Lemma hopen_loop_spec n : ∀ hm σ t N qs,
  models (queues hm) σ →
  (length qs + n = N)%nat → NoDup qs → Forall (λ q, is_Some (σ !! q)) qs →
  tables hm !! t = Some (TableT (Z.of_nat N) ((Some <$> qs) ++ replicate n None)) →
  hwp (hopen_loop n (length qs) t) hm (λ _ hm',
    ∃ qs' σ',
      length (qs ++ qs') = N ∧ NoDup (qs ++ qs') ∧
      tables hm' = <[t := TableT (Z.of_nat N) (Some <$> (qs ++ qs'))]> (tables hm) ∧
      next_table hm' = next_table hm ∧
      models (queues hm') σ' ∧
      released (queues hm') = released (queues hm) ∧
      (∀ q, q ∈ qs' → σ !! q = None ∧ σ' !! q = Some []) ∧
      (∀ q, q ∉ qs' → σ' !! q = σ !! q)).
Proof.
  induction n as [|n IH]; intros hm σ t N qs Hm Hlen Hnd Hall Ht.
  - apply hwp_ret. exists [], σ. rewrite app_nil_r.
    split; [lia|]. split; [done|]. split.
    { cbn [replicate] in Ht. rewrite app_nil_r in Ht. by rewrite insert_id. }
    split; [done|]. split; [done|]. split; [done|].
    split; [intros q Hq; by apply elem_of_nil in Hq|done].
  - cbn [hopen_loop]. apply hwp_bind. apply hwp_lift.
    eapply qwp_mono; [by apply qopen_models|].
    intros qp m' (q & -> & Hq & Hm' & Hrel).
    assert (q ∉ qs) as Hqs.
    { intros Hin. rewrite Forall_forall in Hall. destruct (Hall q Hin) as [? E].
      congruence. }
    apply hwp_bind.
    eapply hwp_eq.
    { unfold store_slot. cbn [tables]. rewrite Ht. cbn [hash_table].
      rewrite decide_True; [done|].
      rewrite length_app, length_fmap, length_replicate. lia. }
    cbn [queues tables next_table tablesize hash_table].
    set (hm1 := HMem m' (<[t := _]> _) _).
    specialize (IH hm1 (<[q := Queue.qopen]> σ) t N (qs ++ [q])).
    rewrite length_app in IH. cbn [length] in IH.
    replace (length qs + 1)%nat with (S (length qs)) in IH by lia.
    eapply hwp_mono.
    { apply IH; [done|lia| | |].
      - apply NoDup_app. split; [done|]. split; [|apply NoDup_singleton].
        intros y Hy ->%list_elem_of_singleton. done.
      - apply Forall_app. split.
        + eapply Forall_impl; [done|]. intros y [v Hv].
          destruct (decide (y = q)) as [->|Hne]; [congruence|].
          rewrite lookup_insert_ne by done. by eexists.
        + constructor; [|done]. rewrite lookup_insert_eq. by eexists.
      - unfold hm1. cbn [tables]. rewrite lookup_insert_eq. f_equal. f_equal.
        rewrite fmap_app, <- app_assoc. cbn [fmap list_fmap app replicate].
        rewrite insert_app_r_alt by (rewrite length_fmap; lia).
        rewrite length_fmap, Nat.sub_diag. done. }
    intros _ hm' (qs' & σ' & Hl' & Hnd' & Ht' & Hnt' & Hm'' & Hrel' & Hnew & Hold).
    rewrite <- app_assoc in Hl', Hnd', Ht'. cbn [app] in Hl', Hnd', Ht'.
    exists (q :: qs'), σ'.
    split; [done|]. split; [done|]. split.
    { rewrite Ht'. unfold hm1. cbn [tables]. by rewrite insert_insert_eq. }
    split; [done|]. split; [done|]. split; [by rewrite Hrel'|]. split.
    + intros y [->|Hy]%elem_of_cons.
      * split; [done|]. rewrite Hold.
        -- apply lookup_insert_eq.
        -- apply NoDup_app in Hnd' as (_ & _ & Hnd'). by apply NoDup_cons in Hnd' as [? _].
      * destruct (Hnew y Hy) as [Hn1 Hn2]. split; [|done].
        destruct (decide (y = q)) as [->|Hne]; [done|].
        by rewrite lookup_insert_ne in Hn1.
    + intros y Hy. rewrite not_elem_of_cons in Hy. destruct Hy as [Hne Hy].
      rewrite (Hold y Hy). by rewrite lookup_insert_ne.
Qed.

Lemma hopen_represents hm σ hsize :
  models (queues hm) σ → wf_tables hm → 0 < hsize <= INT_MAX →
  hwp (hopen hsize) hm (λ r hm',
    ∃ t qs σ',
      r = Some t ∧ tables hm !! t = None ∧
      represents hm' σ' t qs (Hash.hopen hsize) ∧
      (∀ t', t' ≠ t → tables hm' !! t' = tables hm !! t') ∧
      released (queues hm') = released (queues hm) ∧
      (∀ q, q ∈ qs → σ !! q = None) ∧
      (∀ q, q ∉ qs → σ' !! q = σ !! q)).
Proof.
  intros Hm Hwf [Hpos Hmax]. unfold hopen.
  destruct (hsize <=? 0) eqn:E; [lia|]. clear E.
  destruct (INT_MAX <? hsize) eqn:E; [lia|]. clear E.
  assert (tables hm !! next_table hm = None) as Hfresh.
  { destruct (tables hm !! next_table hm) eqn:E; [|done].
    assert (next_table hm < next_table hm)%nat by (apply Hwf; by eexists). lia. }
  apply hwp_bind. eapply hwp_eq; [done|]. cbn [queues tables next_table].
  set (hm1 := HMem _ _ _). apply hwp_bind.
  eapply hwp_mono.
  { apply (hopen_loop_spec (Z.to_nat hsize) hm1 σ (next_table hm) (Z.to_nat hsize) []);
      [done|done|constructor|done|].
    unfold hm1. cbn [tables]. rewrite lookup_insert_eq. f_equal. f_equal. lia. }
  cbn [app].
  intros _ hm' (qs & σ' & Hl & Hnd & Ht & Hnt & Hm' & Hrel & Hnew & Hold).
  apply hwp_ret. exists (next_table hm), qs, σ'.
  split; [done|]. split; [done|]. split; [|split; [|split; [done|split]]].
  - split.
    + done.
    + intros t' [tb Htb]. rewrite Hnt. unfold hm1. cbn [next_table].
      rewrite Ht in Htb. unfold hm1 in Htb. cbn [tables] in Htb.
      destruct (decide (t' = next_table hm)) as [->|Hne]; [lia|].
      rewrite !lookup_insert_ne in Htb by done.
      assert (t' < next_table hm)%nat by (apply Hwf; by eexists). lia.
    + rewrite Ht. rewrite lookup_insert_eq. cbn [Hash.hopen Hash.tablesize].
      f_equal. f_equal. lia.
    + by apply HashFacts.wf_hopen.
    + done.
    + cbn [Hash.hopen Hash.hash_table].
      apply Forall2_same_length_lookup. split; [by rewrite length_replicate|].
      intros i q xs Hq Hxs. apply lookup_replicate in Hxs as [-> _].
      apply (Hnew q). by eapply list_elem_of_lookup_2.
  - intros t' Hne. rewrite Ht. unfold hm1. cbn [tables].
    by rewrite !lookup_insert_ne.
  - intros q Hq. by apply Hnew.
  - done.
Qed.

(** *** hclose *)

Lemma hclose_loop_spec n : ∀ hm σ t ts qs (xss : list (list A)) i,
  models (queues hm) σ →
  tables hm !! t = Some (TableT ts (Some <$> qs)) → NoDup qs →
  (i + n = length qs)%nat → length xss = length qs →
  (∀ j q xs, (i ≤ j)%nat → qs !! j = Some q → xss !! j = Some xs → σ !! q = Some xs) →
  hwp (hclose_loop n i t) hm (λ _ hm',
    tables hm' = tables hm ∧ next_table hm' = next_table hm ∧
    released (queues hm') = released (queues hm) ++ concat (drop i xss) ∧
    ∃ σ', models (queues hm') σ' ∧
          (∀ q, q ∈ drop i qs → σ' !! q = None) ∧
          (∀ q, q ∉ drop i qs → σ' !! q = σ !! q)).
Proof.
  induction n as [|n IH]; intros hm σ t ts qs xss i Hm Ht Hnd Hlen Hlx Hs.
  - apply hwp_ret. rewrite !drop_ge by lia. cbn [concat]. rewrite app_nil_r.
    split; [done|]. split; [done|]. split; [done|]. exists σ.
    split; [done|]. split; [intros q Hq; by apply elem_of_nil in Hq|done].
  - destruct (lookup_lt_is_Some_2 qs i) as [q Hq]; [lia|].
    destruct (lookup_lt_is_Some_2 xss i) as [xs Hxs]; [lia|].
    pose proof (Hs i q xs (Nat.le_refl _) Hq Hxs) as Hσ.
    cbn [hclose_loop]. apply hwp_bind.
    eapply hwp_eq.
    { unfold load_slot. rewrite Ht. cbn [hash_table].
      by rewrite list_lookup_fmap, Hq. }
    apply hwp_bind. apply hwp_lift.
    eapply qwp_mono; [by apply (qclose_models _ σ q xs)|].
    intros _ m' (Hm' & Hrel & _).
    set (hm1 := HMem m' _ _).
    eapply hwp_mono.
    { apply (IH hm1 (delete q σ) t ts qs xss (S i)); try done; [lia|].
      intros j q' xs' Hj Hq' Hxs'. rewrite lookup_delete_ne.
      - apply (Hs j); [lia|done..].
      - intros <-. pose proof (NoDup_lookup _ _ _ _ Hnd Hq Hq'). lia. }
    intros _ hm' (Ht' & Hnt' & Hrel' & σ' & Hm'' & Hgone & Hold).
    split; [done|]. split; [done|]. split.
    { rewrite Hrel'. unfold hm1. cbn [queues]. rewrite Hrel.
      rewrite (drop_S _ _ _ Hxs). cbn [concat]. by rewrite app_assoc. }
    exists σ'. split; [done|]. rewrite (drop_S _ _ _ Hq). split.
    + intros y [->|Hy]%elem_of_cons; [|by apply Hgone].
      destruct (decide (q ∈ drop (S i) qs)) as [Hin|Hnin]; [by apply Hgone|].
      rewrite (Hold q Hnin). apply lookup_delete_eq.
    + intros y Hy. rewrite not_elem_of_cons in Hy. destruct Hy as [Hne Hy].
      rewrite (Hold y Hy). by rewrite lookup_delete_ne.
Qed.

Lemma hclose_represents hm σ t qs T :
  represents hm σ t qs T →
  hwp (hclose (Some t)) hm (λ _ hm',
    tables hm' = delete t (tables hm) ∧
    released (queues hm') = released (queues hm) ++ Hash.happly_order T ∧
    ∃ σ', models (queues hm') σ' ∧
          (∀ q, q ∈ qs → σ' !! q = None) ∧
          (∀ q, q ∉ qs → σ' !! q = σ !! q)).
Proof.
  intros Hrep. destruct Hrep as [Hm Hwf Ht [Hpos Hlen] Hnd Hs].
  apply Forall2_same_length_lookup in Hs as [Hsl Hs].
  unfold hclose. apply hwp_bind.
  eapply hwp_eq; [unfold load_table; by rewrite Ht|]. cbn [tablesize].
  apply hwp_bind.
  eapply hwp_mono.
  { apply (hclose_loop_spec (Z.to_nat (Hash.tablesize T)) hm σ t
             (Hash.tablesize T) qs (Hash.hash_table T) 0%nat); try done; [lia|].
    intros j q xs _. apply Hs. }
  intros _ hm' (Ht' & Hnt' & Hrel' & σ' & Hm' & Hgone & Hold).
  rewrite !drop_0 in *.
  eapply hwp_eq.
  { unfold free_table. by rewrite Ht', Ht. }
  cbn [tables queues]. split; [done|]. split; [done|].
  by exists σ'.
Qed.

(** Nothing can be done with a table that was closed. *)
Lemma closed_table_unusable hm t (e : A) (f : A → option cstring → bool)
      key keylen :
  tables hm !! t = None →
  hput (Some t) (Some e) key keylen hm = None ∧
  hsearch (Some t) (Some f) key keylen hm = None ∧
  hremove (Some t) (Some f) key keylen hm = None ∧
  hclose (Some t) hm = None.
Proof.
  intros Ht. unfold hput, hsearch, hremove, hclose, hbind, load_table.
  by rewrite Ht.
Qed.

End Theory.
End LinkedHashTheory.

(** ** The hash table of hash.c *)

Module HashRefinement.
Import Libc LinkedQueue LinkedQueueTheory LinkedQueueOps QueueRefinement.
Import LinkedHash LinkedHashTheory.

Section Refinement.
Context {A : Type}.
Implicit Types (hm : hmem A) (σ : gmap loc (list A)) (T : Hash.hashtable_t A).

(** X16 (hopen): [hopen(0)] returns NULL and allocates nothing.  For a
    size from 1 to [INT_MAX], [hopen] returns a new table of that many
    empty queues of its own: the table is the empty table of [Hash], a
    search in it finds nothing, and the queues and tables there were are
    untouched. *)
Theorem hash_open hm σ hsize :
  models (queues hm) σ → wf_tables hm → 0 < hsize <= INT_MAX →
  hopen 0 hm = Some (None, hm) ∧
  hwp (hopen hsize) hm (λ r hm',
    ∃ t qs σ',
      r = Some t ∧ tables hm !! t = None ∧
      represents hm' σ' t qs (Hash.hopen hsize) ∧
      (∀ t', t' ≠ t → tables hm' !! t' = tables hm !! t') ∧
      released (queues hm') = released (queues hm) ∧
      (∀ q, q ∈ qs → σ !! q = None) ∧
      (∀ q, q ∉ qs → σ' !! q = σ !! q) ∧
      (∀ f key keylen,
         hsearch (Some t) (Some f) (Some key) keylen hm' = Some (None, hm'))).
Proof.
  intros Hm Hwf Hsize. split; [done|].
  eapply hwp_mono; [by apply hopen_represents|].
  intros r hm' (t & qs & σ' & -> & Hnew & Hrep & Hother & Hrel & Hfresh & Hold).
  exists t, qs, σ'. repeat (split; [done|]).
  intros f key keylen. rewrite (hsearch_represents hm' σ' t qs _ f key keylen Hrep).
  f_equal. f_equal. unfold Hash.hsearch, Hash.hopen. cbn [Hash.hash_table].
  destruct (replicate _ _ !! _) as [xs|] eqn:E; [|done].
  apply lookup_replicate in E as [-> _]. done.
Qed.

(** X17 (hput, hsearch, happly): on a table in good order the functions
    of hash.c are those of [Hash]: [hput] returns 0 and puts the entry
    behind the others of the slot of its key, [hsearch] returns the
    first entry of the slot of the key that the search function accepts,
    [happly] visits the slots in order and each from the front; the last
    two leave the memory as it is.  With a NULL table, entry or function
    nothing is done, and [hput] returns -1. *)
Theorem hash_put_search_apply {St : Type} hm σ t qs T (e : A) key keylen
        (f : A → option cstring → bool) (fn : A → St → St) (s : St) :
  represents hm σ t qs T →
  hwp (hput (Some t) (Some e) (Some key) keylen) hm (λ r hm',
    r = 0 ∧ tables hm' = tables hm ∧
    released (queues hm') = released (queues hm) ∧
    ∃ σ', represents hm' σ' t qs (Hash.hput T e key keylen) ∧
          ∀ q, q ∉ qs → σ' !! q = σ !! q) ∧
  hsearch (Some t) (Some f) (Some key) keylen hm
  = Some (Hash.hsearch T (λ x, f x (Some key)) key keylen, hm) ∧
  happly (Some t) (Some fn) s hm
  = Some (foldl (λ s x, fn x s) s (Hash.happly_order T), hm) ∧
  hput None (Some e) (Some key) keylen hm = Some (-1, hm) ∧
  hput (Some t) None (Some key) keylen hm = Some (-1, hm) ∧
  hsearch None (Some f) (Some key) keylen hm = Some (None, hm) ∧
  hsearch (Some t) None (Some key) keylen hm = Some (None, hm) ∧
  happly None (Some fn) s hm = Some (s, hm) ∧
  happly (Some t) (@None (A → St → St)) s hm = Some (s, hm).
Proof.
  intros Hrep. split; [by apply hput_represents|].
  split; [by eapply hsearch_represents|].
  split; [by eapply happly_represents|]. done.
Qed.

(** X18 (hput then hsearch): after [hput] of an entry under a key, a
    search finds what it found before, and where it found nothing it
    finds the new entry if its own key is of the same slot and the
    search function accepts the entry, and nothing otherwise.  So an
    entry is found again with its key, and is not found with a key of
    another slot. *)
Theorem hash_put_then_search hm σ t qs T (e : A) key keylen
        (f : A → option cstring → bool) key' keylen' :
  represents hm σ t qs T →
  hwp (hput (Some t) (Some e) (Some key) keylen ;;+
       hsearch (Some t) (Some f) (Some key') keylen') hm (λ r hm',
    r = match Hash.hsearch T (λ x, f x (Some key')) key' keylen' with
        | Some e0 => Some e0
        | None =>
            if bool_decide (Hash.slot T key keylen = Hash.slot T key' keylen')
               && f e (Some key')
            then Some e else None
        end).
Proof.
  intros Hrep. apply hwp_bind.
  eapply hwp_mono; [by apply hput_represents|].
  intros r hm' (-> & _ & _ & σ' & Hrep' & _).
  eapply hwp_eq; [by eapply hsearch_represents|].
  apply (HashFacts.hsearch_hput T e key keylen (λ x, f x (Some key')) key' keylen').
  by eapply rep_size.
Qed.

(** X19 (hremove): [hremove] looks in the slot of the key.  When the
    search function accepts no entry there it returns NULL and changes
    nothing.  Otherwise it returns the first entry accepted and takes it
    out of the slot; if that entry was the last of its slot, the queue
    of the slot is left with its [back] pointer to the freed node, and
    the next [hput] of any entry whose key is of that slot is
    undefined. *)
Theorem hash_remove hm σ t qs T (f : A → option cstring → bool) key keylen xs :
  represents hm σ t qs T →
  Hash.hash_table T !! Hash.slot T key keylen = Some xs →
  (Forall (λ x, f x (Some key) = false) xs →
   hremove (Some t) (Some f) (Some key) keylen hm = Some (None, hm)) ∧
  (∀ pre x post, xs = pre ++ x :: post →
     Forall (λ x, f x (Some key) = false) pre → f x (Some key) = true →
     (post ≠ [] →
      hwp (hremove (Some t) (Some f) (Some key) keylen) hm (λ r hm',
        r = Some x ∧ tables hm' = tables hm ∧
        released (queues hm') = released (queues hm) ∧
        ∃ σ', represents hm' σ' t qs
                (Hash.Table (Hash.tablesize T)
                   (<[Hash.slot T key keylen := pre ++ post]> (Hash.hash_table T))) ∧
              ∀ q, q ∉ qs → σ' !! q = σ !! q)) ∧
     (post = [] →
      hwp (hremove (Some t) (Some f) (Some key) keylen) hm (λ r hm',
        r = Some x ∧ tables hm' = tables hm ∧
        released (queues hm') = released (queues hm) ∧
        ∀ e key' keylen', Hash.slot T key' keylen' = Hash.slot T key keylen →
          hput (Some t) (Some e) (Some key') keylen' hm' = None))) ∧
  hremove None (Some f) (Some key) keylen hm = Some (None, hm) ∧
  hremove (Some t) None (Some key) keylen hm = Some (None, hm).
Proof.
  intros Hrep Hxs. split; [intros Hno; by eapply hremove_none_represents|].
  split; [|done]. intros pre x post -> Hno Hx. split.
  - intros Hpost. by apply hremove_inner_represents.
  - intros ->. eapply hwp_mono; [by eapply hremove_last_represents|].
    intros r hm' (-> & Ht & Hrel & Hput & _). done.
Qed.

(** X20 (hclose): [hclose] closes the queues of the table in the order
    of the slots: every entry is handed to [free], in the order in which
    [happly] visits them, and the nodes, the queues and the table are
    freed; the queues that are not of the table are untouched.  To use
    the table again is undefined.  On a NULL pointer nothing is done. *)
Theorem hash_close hm σ t qs T :
  represents hm σ t qs T →
  hwp (hclose (Some t)) hm (λ _ hm',
    tables hm' = delete t (tables hm) ∧
    released (queues hm') = released (queues hm) ++ Hash.happly_order T ∧
    (∃ σ', models (queues hm') σ' ∧
           (∀ q, q ∈ qs → σ' !! q = None) ∧
           (∀ q, q ∉ qs → σ' !! q = σ !! q)) ∧
    ∀ e f key keylen,
      hput (Some t) (Some e) key keylen hm' = None ∧
      hsearch (Some t) (Some f) key keylen hm' = None ∧
      hremove (Some t) (Some f) key keylen hm' = None ∧
      hclose (Some t) hm' = None) ∧
  hclose None hm = Some (tt, hm).
Proof.
  intros Hrep. split; [|done].
  eapply hwp_mono; [by apply hclose_represents|].
  intros _ hm' (Ht & Hrel & Hσ). split; [done|]. split; [done|]. split; [done|].
  intros e f key keylen. apply closed_table_unusable.
  rewrite Ht. apply lookup_delete_eq.
Qed.

End Refinement.

(** A table of two slots with the words cat, dog, cow (slot 0) and emu
    (slot 1), each put under itself as key. *)
Definition farm_table : hmem cstring :=
  HMem (Mem {[ 0%nat := QElement (str "cat") (Some 2%nat);
               1%nat := QElement (str "emu") None;
               2%nat := QElement (str "dog") (Some 3%nat);
               3%nat := QElement (str "cow") None ]}
            {[ 0%nat := Wrapper (Some 0%nat) (Some 3%nat);
               1%nat := Wrapper (Some 1%nat) (Some 1%nat) ]}
            4 2 [])
       {[ 0%nat := TableT 2 [Some 0%nat; Some 1%nat] ]} 1.

Definition farm_slots : gmap loc (list cstring) :=
  {[ 0%nat := [str "cat"; str "dog"; str "cow"]; 1%nat := [str "emu"] ]}.

Definition farm_index : Hash.hashtable_t cstring :=
  Hash.Table 2 [[str "cat"; str "dog"; str "cow"]; [str "emu"]].

Definition by_word (e : cstring) (key : option cstring) : bool :=
  match key with
  | Some k => streq e k
  | None => false
  end.

Definition farm_program : H cstring Z :=
  let+ t := hopen 2 in
  hput t (Some (str "cat")) (Some (str "cat")) 3 ;;+
  hput t (Some (str "emu")) (Some (str "emu")) 3 ;;+
  hput t (Some (str "dog")) (Some (str "dog")) 3 ;;+
  hput t (Some (str "cow")) (Some (str "cow")) 3.

Lemma farm_program_runs : farm_program (HMem empty_mem ∅ 0) = Some (0, farm_table).
Proof. vm_compute. reflexivity. Qed.

Lemma farm_models : models (queues farm_table) farm_slots.
Proof.
  exists {[ 0%nat := [(0%nat, str "cat"); (2%nat, str "dog"); (3%nat, str "cow")];
            1%nat := [(1%nat, str "emu")] ]}.
  split; [|apply map_eq; intros q; vm_compute; reflexivity].
  destruct (@models_empty cstring) as (C0 & H & HC0).
  symmetry in HC0. apply fmap_empty_inv in HC0 as ->.
  run_step H (qopen_layout _ _ H). destruct H as (_ & _ & H & _).
  run_step H (qopen_layout _ _ H). destruct H as (_ & _ & H & _).
  run_step H (qput_layout _ _ 0%nat [] (str "cat") H eq_refl). destruct H as (_ & H & _).
  run_step H (qput_layout _ _ 1%nat [] (str "emu") H eq_refl). destruct H as (_ & H & _).
  run_step H (qput_layout _ _ 0%nat _ (str "dog") H eq_refl). destruct H as (_ & H & _).
  run_step H (qput_layout _ _ 0%nat _ (str "cow") H eq_refl). destruct H as (_ & H & _).
  exact H.
Qed.

Lemma farm_represents : represents farm_table farm_slots 0%nat [0%nat; 1%nat] farm_index.
Proof.
  split.
  - exact farm_models.
  - intros t [tb Ht]. unfold farm_table in *. cbn [tables next_table] in *.
    apply lookup_singleton_Some in Ht as [<- _]. lia.
  - reflexivity.
  - split; [reflexivity|reflexivity].
  - apply (bool_decide_unpack _). vm_compute. exact I.
  - repeat constructor.
Qed.

Lemma hash_open_witness :
  hopen 0 (HMem (@empty_mem cstring) ∅ 0) = Some (None, HMem empty_mem ∅ 0) ∧
  hwp (hopen 2) (HMem (@empty_mem cstring) ∅ 0) (λ r hm',
    ∃ t qs σ',
      r = Some t ∧ (∅ : gmap loc table_t) !! t = None ∧
      represents hm' σ' t qs (Hash.hopen 2) ∧
      (∀ t', t' ≠ t → tables hm' !! t' = (∅ : gmap loc table_t) !! t') ∧
      released (queues hm') = [] ∧
      (∀ q, q ∈ qs → (∅ : gmap loc (list cstring)) !! q = None) ∧
      (∀ q, q ∉ qs → σ' !! q = (∅ : gmap loc (list cstring)) !! q) ∧
      (∀ f key keylen,
         hsearch (Some t) (Some f) (Some key) keylen hm' = Some (None, hm'))).
Proof.
  apply (hash_open (HMem (@empty_mem cstring) ∅ 0) ∅ 2).
  - exact models_empty.
  - intros t [tb Ht]. cbn [tables] in Ht. by rewrite lookup_empty in Ht.
  - unfold INT_MAX. lia.
Defined.

Lemma hash_put_search_apply_witness :
  hwp (hput (Some 0%nat) (Some (str "ant")) (Some (str "ant")) 3) farm_table
    (λ r hm',
      r = 0 ∧ tables hm' = tables farm_table ∧
      released (queues hm') = released (queues farm_table) ∧
      ∃ σ', represents hm' σ' 0%nat [0%nat; 1%nat]
              (Hash.hput farm_index (str "ant") (str "ant") 3) ∧
            ∀ q, q ∉ [0%nat; 1%nat] → σ' !! q = farm_slots !! q) ∧
  hsearch (Some 0%nat) (Some by_word) (Some (str "ant")) 3 farm_table
  = Some (Hash.hsearch farm_index (λ x, by_word x (Some (str "ant"))) (str "ant") 3,
          farm_table) ∧
  happly (Some 0%nat) (Some (λ (w : cstring) n, n + 1)) 0 farm_table
  = Some (foldl (λ n (w : cstring), n + 1) 0 (Hash.happly_order farm_index),
          farm_table) ∧
  hput None (Some (str "ant")) (Some (str "ant")) 3 farm_table
  = Some (-1, farm_table) ∧
  hput (Some 0%nat) None (Some (str "ant")) 3 farm_table = Some (-1, farm_table) ∧
  hsearch None (Some by_word) (Some (str "ant")) 3 farm_table
  = Some (None, farm_table) ∧
  hsearch (Some 0%nat) None (Some (str "ant")) 3 farm_table
  = Some (None, farm_table) ∧
  happly None (Some (λ (w : cstring) n, n + 1)) 0 farm_table = Some (0, farm_table) ∧
  happly (Some 0%nat) (@None (cstring → Z → Z)) 0 farm_table = Some (0, farm_table).
Proof.
  apply (hash_put_search_apply farm_table farm_slots 0%nat [0%nat; 1%nat] farm_index
           (str "ant") (str "ant") 3 by_word (λ (w : cstring) n, n + 1) 0).
  exact farm_represents.
Defined.

Lemma hash_put_then_search_witness :
  hwp (hput (Some 0%nat) (Some (str "ant")) (Some (str "ant")) 3 ;;+
       hsearch (Some 0%nat) (Some by_word) (Some (str "ant")) 3) farm_table
    (λ r hm', r = Some (str "ant")).
Proof.
  apply (hash_put_then_search farm_table farm_slots 0%nat [0%nat; 1%nat] farm_index
           (str "ant") (str "ant") 3 by_word (str "ant") 3).
  exact farm_represents.
Defined.

Lemma hash_remove_witness :
  (Forall (λ x, by_word x (Some (str "dog")) = false)
          [str "cat"; str "dog"; str "cow"] →
   hremove (Some 0%nat) (Some by_word) (Some (str "dog")) 3 farm_table
   = Some (None, farm_table)) ∧
  (∀ pre x post, [str "cat"; str "dog"; str "cow"] = pre ++ x :: post →
     Forall (λ x, by_word x (Some (str "dog")) = false) pre →
     by_word x (Some (str "dog")) = true →
     (post ≠ [] →
      hwp (hremove (Some 0%nat) (Some by_word) (Some (str "dog")) 3) farm_table
        (λ r hm',
          r = Some x ∧ tables hm' = tables farm_table ∧
          released (queues hm') = released (queues farm_table) ∧
          ∃ σ', represents hm' σ' 0%nat [0%nat; 1%nat]
                  (Hash.Table (Hash.tablesize farm_index)
                     (<[Hash.slot farm_index (str "dog") 3 := pre ++ post]>
                        (Hash.hash_table farm_index))) ∧
                ∀ q, q ∉ [0%nat; 1%nat] → σ' !! q = farm_slots !! q)) ∧
     (post = [] →
      hwp (hremove (Some 0%nat) (Some by_word) (Some (str "dog")) 3) farm_table
        (λ r hm',
          r = Some x ∧ tables hm' = tables farm_table ∧
          released (queues hm') = released (queues farm_table) ∧
          ∀ e key' keylen',
            Hash.slot farm_index key' keylen' = Hash.slot farm_index (str "dog") 3 →
            hput (Some 0%nat) (Some e) (Some key') keylen' hm' = None))) ∧
  hremove None (Some by_word) (Some (str "dog")) 3 farm_table
  = Some (None, farm_table) ∧
  hremove (Some 0%nat) None (Some (str "dog")) 3 farm_table
  = Some (None, farm_table).
Proof.
  apply (hash_remove farm_table farm_slots 0%nat [0%nat; 1%nat] farm_index by_word
           (str "dog") 3 [str "cat"; str "dog"; str "cow"]).
  - exact farm_represents.
  - reflexivity.
Defined.

Lemma hash_close_witness :
  hwp (hclose (Some 0%nat)) farm_table (λ _ hm',
    tables hm' = delete 0%nat (tables farm_table) ∧
    released (queues hm')
    = released (queues farm_table) ++ Hash.happly_order farm_index ∧
    (∃ σ', models (queues hm') σ' ∧
           (∀ q, q ∈ [0%nat; 1%nat] → σ' !! q = None) ∧
           (∀ q, q ∉ [0%nat; 1%nat] → σ' !! q = farm_slots !! q)) ∧
    ∀ e f key keylen,
      hput (Some 0%nat) (Some e) key keylen hm' = None ∧
      hsearch (Some 0%nat) (Some f) key keylen hm' = None ∧
      hremove (Some 0%nat) (Some f) key keylen hm' = None ∧
      hclose (Some 0%nat) hm' = None) ∧
  hclose None farm_table = Some (tt, farm_table).
Proof.
  apply (hash_close farm_table farm_slots 0%nat [0%nat; 1%nat] farm_index).
  exact farm_represents.
Defined.

End HashRefinement.

(** ** lqueue.c and lhash.c

    The locked queue and the locked table: every function takes the
    mutex of its module, calls the function of queue.c or hash.c and
    gives the mutex back.  The model is that of one caller at a time;
    a mutex that is held when the caller asks for it is held by the
    caller itself. *)

Module Locked.
Import Libc LinkedQueue LinkedHash.

(** A mutex of type [PTHREAD_MUTEX_INITIALIZER]. *)
Inductive pthread_mutex_t : Type := Free | Held | Destroyed.

Definition pthread_mutex_lock (mx : pthread_mutex_t) : option pthread_mutex_t :=
  match mx with
  | Free => Some Held
  | Held => None          (* relocking a default mutex *)
  | Destroyed => None     (* use of a destroyed mutex *)
  end.

Definition pthread_mutex_unlock (mx : pthread_mutex_t) : option pthread_mutex_t :=
  match mx with
  | Held => Some Free
  | Free | Destroyed => None
  end.

Definition pthread_mutex_destroy (mx : pthread_mutex_t) : option pthread_mutex_t :=
  match mx with
  | Free => Some Destroyed
  | Held | Destroyed => None
  end.

Section Ops.
Context {A : Type}.

(** The memory of hash.c and queue.c, [mutex] of lqueue.c and [mutex_h]
    of lhash.c. *)
Record lmem : Type := LMem {
  heap : hmem A;
  mutex : pthread_mutex_t;
  mutex_h : pthread_mutex_t
}.

Definition L (X : Type) : Type := lmem → option (X * lmem).

Definition lret {X} (x : X) : L X := λ lm, Some (x, lm).
Definition lbind {X Y} (c : L X) (k : X → L Y) : L Y :=
  λ lm, match c lm with
        | Some (x, lm') => k x lm'
        | None => None
        end.

(** A call of hash.c or (through [lift]) of queue.c. *)
Definition call {X} (c : H A X) : L X :=
  λ lm, match c (heap lm) with
        | Some (x, hm') => Some (x, LMem hm' (mutex lm) (mutex_h lm))
        | None => None
        end.

(** An operation on [mutex]. *)
Definition on_mutex (op : pthread_mutex_t → option pthread_mutex_t) : L unit :=
  λ lm, match op (mutex lm) with
        | Some mx => Some (tt, LMem (heap lm) mx (mutex_h lm))
        | None => None
        end.

(** An operation on [mutex_h]. *)
Definition on_mutex_h (op : pthread_mutex_t → option pthread_mutex_t) : L unit :=
  λ lm, match op (mutex_h lm) with
        | Some mx => Some (tt, LMem (heap lm) (mutex lm) mx)
        | None => None
        end.

Notation "'let^' x := c 'in' k" := (lbind c (λ x, k))
  (at level 10, x name, c at level 100, k at level 200).
Notation "c ;;^ k" := (lbind c (λ _, k))
  (at level 100, right associativity).

(** *** lqueue.c *)

Definition lqopen : L (option loc) :=
  on_mutex pthread_mutex_lock ;;^
  let^ lqueue := call (lift qopen) in
  on_mutex pthread_mutex_unlock ;;^
  lret lqueue.

Definition lqclose (lqueue : option loc) : L unit :=
  on_mutex pthread_mutex_lock ;;^
  call (lift (qclose lqueue)) ;;^
  on_mutex pthread_mutex_unlock ;;^
  on_mutex pthread_mutex_destroy.

Definition lqput (lqueue : option loc) (elementp : A) : L Z :=
  on_mutex pthread_mutex_lock ;;^
  let^ status := call (lift (qput lqueue elementp)) in
  on_mutex pthread_mutex_unlock ;;^
  lret status.

Definition lqget (lqueue : option loc) : L (option A) :=
  on_mutex pthread_mutex_lock ;;^
  let^ data := call (lift (qget lqueue)) in
  on_mutex pthread_mutex_unlock ;;^
  lret data.

Definition lqapply {St : Type} (lqueue : option loc) (fn : A → St → St) (s : St)
  : L St :=
  on_mutex pthread_mutex_lock ;;^
  let^ s' := call (lift (qapply lqueue fn s)) in
  on_mutex pthread_mutex_unlock ;;^
  lret s'.

Definition lqsearch (lqueue : option loc) (searchfn : A → bool) : L (option A) :=
  on_mutex pthread_mutex_lock ;;^
  let^ data := call (lift (qsearch lqueue searchfn)) in
  on_mutex pthread_mutex_unlock ;;^
  lret data.

(** *** lhash.c *)

Definition lhopen (lhsize : Z) : L (option loc) :=
  on_mutex_h pthread_mutex_lock ;;^
  let^ lhtp := call (hopen lhsize) in
  on_mutex_h pthread_mutex_unlock ;;^
  lret lhtp.

Definition lhclose (lhtp : option loc) : L unit :=
  on_mutex_h pthread_mutex_lock ;;^
  call (hclose lhtp) ;;^
  on_mutex_h pthread_mutex_unlock ;;^
  on_mutex_h pthread_mutex_destroy.

Definition lhput (lhtp : option loc) (ep : option A) (key : option cstring)
           (keylen : Z) : L Z :=
  on_mutex_h pthread_mutex_lock ;;^
  let^ status := call (hput lhtp ep key keylen) in
  on_mutex_h pthread_mutex_unlock ;;^
  lret status.

Definition lhapply {St : Type} (lhtp : option loc) (fn : option (A → St → St))
           (s : St) : L St :=
  on_mutex_h pthread_mutex_lock ;;^
  let^ s' := call (happly lhtp fn s) in
  on_mutex_h pthread_mutex_unlock ;;^
  lret s'.

Definition lhsearch (lhtp : option loc)
           (searchfn : option (A → option cstring → bool))
           (key : option cstring) (keylen : Z) : L (option A) :=
  on_mutex_h pthread_mutex_lock ;;^
  let^ entry := call (hsearch lhtp searchfn key keylen) in
  on_mutex_h pthread_mutex_unlock ;;^
  lret entry.

Definition lhremove (lhtp : option loc)
           (searchfn : option (A → option cstring → bool))
           (key : option cstring) (keylen : Z) : L (option A) :=
  on_mutex_h pthread_mutex_lock ;;^
  let^ data := call (hremove lhtp searchfn key keylen) in
  on_mutex_h pthread_mutex_unlock ;;^
  lret data.
End Ops.

Arguments lmem : clear implicits.
Arguments L : clear implicits.

End Locked.

(** ** One close for all locked queues *)

Module LockedTheory.
Import Libc LinkedQueue LinkedQueueTheory LinkedQueueOps QueueRefinement.
Import LinkedHash LinkedHashTheory HashRefinement Locked.

Section Theory.
Context {A : Type}.
Implicit Types (lm : lmem A) (σ : gmap loc (list A)).

Definition lwp {X} (c : L A X) (lm : lmem A) (Q : X → lmem A → Prop) : Prop :=
  ∃ x lm', c lm = Some (x, lm') ∧ Q x lm'.

(** A function of lqueue.c whose mutex is free runs the function of
    queue.c and leaves the mutex free. *)
Lemma locked_queue_call {X} (c : M A X) lm (Q : X → lmem A → Prop) :
  mutex lm = Free →
  wp c (queues (heap lm)) (λ x m',
    Q x (LMem (HMem m' (tables (heap lm)) (next_table (heap lm))) Free (mutex_h lm))) →
  lwp (lbind (on_mutex pthread_mutex_lock) (λ _,
       lbind (call (lift c)) (λ x,
       lbind (on_mutex pthread_mutex_unlock) (λ _, lret x)))) lm Q.
Proof.
  intros Hfree (x & m' & Hc & HQ). eexists x, _. split; [|exact HQ].
  unfold lbind, on_mutex, call, lift. rewrite Hfree.
  cbn [pthread_mutex_lock heap mutex mutex_h]. rewrite Hc.
  cbn [pthread_mutex_unlock heap mutex mutex_h]. reflexivity.
Qed.

(** A function of lhash.c whose mutex is free runs the function of
    hash.c and leaves the mutex free. *)
Lemma locked_table_call {X} (c : H A X) lm (Q : X → lmem A → Prop) :
  mutex_h lm = Free →
  hwp c (heap lm) (λ x hm', Q x (LMem hm' (mutex lm) Free)) →
  lwp (lbind (on_mutex_h pthread_mutex_lock) (λ _,
       lbind (call c) (λ x,
       lbind (on_mutex_h pthread_mutex_unlock) (λ _, lret x)))) lm Q.
Proof.
  intros Hfree (x & hm' & Hc & HQ). eexists x, _. split; [|exact HQ].
  unfold lbind, on_mutex_h, call. rewrite Hfree.
  cbn [pthread_mutex_lock heap mutex mutex_h]. rewrite Hc.
  cbn [pthread_mutex_unlock heap mutex mutex_h]. reflexivity.
Qed.

Lemma destroyed_queue_mutex lm (q : option loc) (x : A) (f : A → bool) :
  mutex lm = Destroyed →
  lqopen lm = None ∧ lqput q x lm = None ∧ lqget q lm = None ∧
  lqsearch q f lm = None ∧ lqclose q lm = None.
Proof.
  intros Hd. unfold lqopen, lqput, lqget, lqsearch, lqclose, lbind, on_mutex.
  by rewrite Hd.
Qed.

Lemma destroyed_table_mutex lm (t : option loc) (e : option A)
      (f : option (A → option cstring → bool)) key keylen hsize :
  mutex_h lm = Destroyed →
  lhopen hsize lm = None ∧ lhput t e key keylen lm = None ∧
  lhsearch t f key keylen lm = None ∧ lhremove t f key keylen lm = None ∧
  lhclose t lm = None.
Proof.
  intros Hd. unfold lhopen, lhput, lhsearch, lhremove, lhclose, lbind, on_mutex_h.
  by rewrite Hd.
Qed.

(** X21 (lqueue.c): as long as no locked queue was closed, [lqput] and
    [lqget] are [qput] and [qget] and leave the mutex free.  [lqclose]
    closes the queue and destroys the one mutex of the module, also
    when it is given NULL: after it every function of lqueue.c is
    undefined, on every queue, [lqopen] included. *)
Theorem locked_queue_closes_once lm σ q xs :
  mutex lm = Free → models (queues (heap lm)) σ → σ !! q = Some xs →
  (∀ x, lwp (lqput (Some q) x) lm (λ r lm',
     r = 0 ∧ models (queues (heap lm')) (<[q := Queue.qput xs x]> σ) ∧
     mutex lm' = Free)) ∧
  lwp (lqget (Some q)) lm (λ r lm',
     r = (Queue.qget xs).1 ∧
     models (queues (heap lm')) (<[q := (Queue.qget xs).2]> σ) ∧
     mutex lm' = Free) ∧
  lwp (lqclose (Some q)) lm (λ _ lm',
     models (queues (heap lm')) (delete q σ) ∧
     released (queues (heap lm')) = released (queues (heap lm)) ++ xs ∧
     mutex lm' = Destroyed ∧
     ∀ q' x f, lqopen lm' = None ∧ lqput q' x lm' = None ∧ lqget q' lm' = None ∧
               lqsearch q' f lm' = None ∧ lqclose q' lm' = None) ∧
  lwp (lqclose None) lm (λ _ lm',
     heap lm' = heap lm ∧ mutex lm' = Destroyed ∧ lqopen lm' = None).
Proof.
  intros Hfree Hm Hq. split; [|split; [|split]].
  - intros x. apply locked_queue_call; [done|].
    eapply qwp_mono; [by apply (qput_models _ σ q xs x)|].
    intros r m' (-> & Hm' & _). done.
  - apply locked_queue_call; [done|].
    eapply qwp_mono; [by apply (qget_models _ σ q xs)|].
    intros r m' (-> & Hm' & _). done.
  - destruct (qclose_models _ σ q xs Hm Hq) as ([] & m' & Hc & Hm' & Hrel & _).
    eexists tt, (LMem (HMem m' _ _) Destroyed _). split.
    { unfold lqclose, lbind, on_mutex, call, lift. rewrite Hfree.
      cbn [pthread_mutex_lock heap mutex mutex_h]. rewrite Hc.
      cbn [pthread_mutex_unlock pthread_mutex_destroy heap mutex mutex_h].
      reflexivity. }
    cbn [heap queues mutex]. split; [done|]. split; [done|]. split; [done|].
    intros q' x f. by apply destroyed_queue_mutex.
  - eexists tt, (LMem (heap lm) Destroyed (mutex_h lm)). split.
    { unfold lqclose, lbind, on_mutex, call, lift. rewrite Hfree.
      cbn [pthread_mutex_lock heap mutex mutex_h qclose ret].
      cbn [pthread_mutex_unlock pthread_mutex_destroy heap mutex mutex_h].
      by destruct (heap lm). }
    cbn [heap mutex]. split; [done|]. split; [done|].
    unfold lqopen, lbind, on_mutex. done.
Qed.

(** X22 (lhash.c): as long as no locked table was closed, [lhput] and
    [lhsearch] are [hput] and [hsearch] and leave the mutex free.
    [lhclose] closes the table and destroys the one mutex of the module:
    after it every function of lhash.c is undefined, on every table,
    [lhopen] included. *)
Theorem locked_table_closes_once lm σ t qs T :
  mutex_h lm = Free → represents (heap lm) σ t qs T →
  (∀ e key keylen, lwp (lhput (Some t) (Some e) (Some key) keylen) lm (λ r lm',
     r = 0 ∧ mutex_h lm' = Free ∧
     ∃ σ', represents (heap lm') σ' t qs (Hash.hput T e key keylen))) ∧
  (∀ f key keylen,
     lhsearch (Some t) (Some f) (Some key) keylen lm
     = Some (Hash.hsearch T (λ x, f x (Some key)) key keylen, lm)) ∧
  lwp (lhclose (Some t)) lm (λ _ lm',
     tables (heap lm') = delete t (tables (heap lm)) ∧
     released (queues (heap lm'))
     = released (queues (heap lm)) ++ Hash.happly_order T ∧
     mutex_h lm' = Destroyed ∧
     ∀ t' e f key keylen hsize,
       lhopen hsize lm' = None ∧ lhput t' e key keylen lm' = None ∧
       lhsearch t' f key keylen lm' = None ∧ lhremove t' f key keylen lm' = None ∧
       lhclose t' lm' = None) ∧
  lwp (lhclose None) lm (λ _ lm',
     heap lm' = heap lm ∧ mutex_h lm' = Destroyed ∧ ∀ hsize, lhopen hsize lm' = None).
Proof.
  intros Hfree Hrep. split; [|split; [|split]].
  - intros e key keylen. apply locked_table_call; [done|].
    eapply hwp_mono; [by apply hput_represents|].
    intros r hm' (-> & _ & _ & σ' & Hrep' & _). cbn [heap mutex_h].
    split; [done|]. split; [done|]. by exists σ'.
  - intros f key keylen. unfold lhsearch, lbind, on_mutex_h, call.
    rewrite Hfree. cbn [pthread_mutex_lock heap mutex mutex_h].
    rewrite (hsearch_represents _ σ t qs T f key keylen Hrep).
    cbn [pthread_mutex_unlock heap mutex mutex_h].
    rewrite <- Hfree. by destruct lm.
  - destruct (hclose_represents _ σ t qs T Hrep) as ([] & hm' & Hc & Ht & Hrel & _).
    eexists tt, (LMem hm' _ Destroyed). split.
    { unfold lhclose, lbind, on_mutex_h, call. rewrite Hfree.
      cbn [pthread_mutex_lock heap mutex mutex_h]. rewrite Hc.
      cbn [pthread_mutex_unlock pthread_mutex_destroy heap mutex mutex_h].
      reflexivity. }
    cbn [heap mutex_h]. split; [done|]. split; [done|]. split; [done|].
    intros t' e f key keylen hsize. by apply destroyed_table_mutex.
  - eexists tt, (LMem (heap lm) (mutex lm) Destroyed). split.
    { unfold lhclose, lbind, on_mutex_h, call. rewrite Hfree. done. }
    cbn [heap mutex_h]. split; [done|]. split; [done|]. intros hsize.
    unfold lhopen, lbind, on_mutex_h. done.
Qed.

End Theory.

Lemma locked_queue_closes_once_witness :
  let lm := LMem (HMem sample ∅ 0) Free Free in
  (∀ x, lwp (lqput (Some 0%nat) x) lm (λ r lm',
     r = 0 ∧
     models (queues (heap lm')) (<[0%nat := Queue.qput [5; 7; 9] x]> sample_queues) ∧
     mutex lm' = Free)) ∧
  lwp (lqget (Some 0%nat)) lm (λ r lm',
     r = Some 5 ∧
     models (queues (heap lm')) (<[0%nat := [7; 9]]> sample_queues) ∧
     mutex lm' = Free) ∧
  lwp (lqclose (Some 0%nat)) lm (λ _ lm',
     models (queues (heap lm')) (delete 0%nat sample_queues) ∧
     released (queues (heap lm')) = [5; 7; 9] ∧
     mutex lm' = Destroyed ∧
     ∀ q' x f, lqopen lm' = None ∧ lqput q' x lm' = None ∧ lqget q' lm' = None ∧
               lqsearch q' f lm' = None ∧ lqclose q' lm' = None) ∧
  lwp (lqclose None) lm (λ _ lm',
     heap lm' = heap lm ∧ mutex lm' = Destroyed ∧ lqopen lm' = None).
Proof.
  apply (locked_queue_closes_once (LMem (HMem sample ∅ 0) Free Free)
           sample_queues 0%nat [5; 7; 9]).
  - reflexivity.
  - exact sample_models.
  - reflexivity.
Defined.

Lemma locked_table_closes_once_witness :
  let lm := LMem farm_table Free Free in
  (∀ e key keylen, lwp (lhput (Some 0%nat) (Some e) (Some key) keylen) lm (λ r lm',
     r = 0 ∧ mutex_h lm' = Free ∧
     ∃ σ', represents (heap lm') σ' 0%nat [0%nat; 1%nat]
             (Hash.hput farm_index e key keylen))) ∧
  (∀ f key keylen,
     lhsearch (Some 0%nat) (Some f) (Some key) keylen lm
     = Some (Hash.hsearch farm_index (λ x, f x (Some key)) key keylen, lm)) ∧
  lwp (lhclose (Some 0%nat)) lm (λ _ lm',
     tables (heap lm') = delete 0%nat (tables farm_table) ∧
     released (queues (heap lm'))
     = [str "cat"; str "dog"; str "cow"; str "emu"] ∧
     mutex_h lm' = Destroyed ∧
     ∀ t' e f key keylen hsize,
       lhopen hsize lm' = None ∧ lhput t' e key keylen lm' = None ∧
       lhsearch t' f key keylen lm' = None ∧ lhremove t' f key keylen lm' = None ∧
       lhclose t' lm' = None) ∧
  lwp (lhclose None) lm (λ _ lm',
     heap lm' = heap lm ∧ mutex_h lm' = Destroyed ∧ ∀ hsize, lhopen hsize lm' = None).
Proof.
  apply (locked_table_closes_once (LMem farm_table Free Free)
           farm_slots 0%nat [0%nat; 1%nat] farm_index).
  - reflexivity.
  - exact farm_represents.
Defined.

End LockedTheory.

(** ** A loaded page, saved and loaded again

    What pageio_test.c does: the page [pageload] returned is saved under
    another id and loaded from there. *)

Module PageReload.
Import Libc Webpage PageIO LibcFacts Decimals PageRoundTrip.

Lemma cstr_Forall (P : ascii → Prop) (s : cstring) :
  Forall P s → Forall (λ c, P c ∧ c ≠ NUL) (cstr s).
Proof.
  induction 1 as [|c s Hc _ IH]; simpl; [constructor|].
  destruct (decide (c = NUL)) as [->|Hne].
  - rewrite bool_decide_eq_true_2 by done. constructor.
  - rewrite bool_decide_eq_false_2 by done. by constructor.
Qed.

Lemma cstr_length (s : cstring) : (length (cstr s) ≤ length s)%nat.
Proof.
  induction s as [|c s IH]; simpl; [done|].
  destruct (bool_decide (c = NUL)); simpl; lia.
Qed.

Lemma cstr_head (s : cstring) c rest :
  cstr s = c :: rest → ∃ s', s = c :: s'.
Proof.
  destruct s as [|c' s]; simpl; [done|].
  destruct (bool_decide (c' = NUL)); [done|]. intros [= -> _]. by eexists.
Qed.

Lemma scan_word_no_space (s : cstring) :
  Forall (λ c, isspace c = false) (scan_word s).1.
Proof.
  induction s as [|c s IH]; simpl; [constructor|].
  destruct (isspace c) eqn:Hc; simpl; [constructor|].
  destruct (scan_word s) as [w rest]. simpl in *. by constructor.
Qed.

Lemma skip_space_head (s : cstring) :
  match skip_space s with c :: _ => isspace c = false | [] => True end.
Proof.
  induction s as [|c s IH]; simpl; [done|].
  destruct (isspace c) eqn:Hc; [done|]. simpl. done.
Qed.

Lemma read_html_bytes (file : cstring) (n : nat) :
  Forall (λ c, schar c ≠ -1) (read_html file n).
Proof.
  revert n. induction file as [|c file IH]; intros [|n]; simpl; try constructor.
  destruct (schar c =? -1) eqn:Hc; [constructor|].
  constructor; [by apply Z.eqb_neq|apply IH].
Qed.

Lemma read_html_length (file : cstring) (n : nat) :
  (length (read_html file n) ≤ n)%nat.
Proof.
  revert n. induction file as [|c file IH]; intros [|n]; simpl; try lia.
  destruct (schar c =? -1); simpl; [lia|]. specialize (IH n). lia.
Qed.

Lemma read_html_head (file : cstring) (n : nat) c rest :
  read_html file n = c :: rest → ∃ file', file = c :: file'.
Proof.
  destruct file as [|c' file], n as [|n]; simpl; try done.
  destruct (schar c' =? -1); [done|]. intros [= -> _]. by eexists.
Qed.

Lemma scan_int_in_int (s : cstring) v rest :
  scan_int s = Some (v, rest) → in_int v.
Proof.
  unfold scan_int. destruct (skip_space s) as [|c s'].
  - destruct (starts_with_digit _); [|done].
    destruct (scan_digits _ _). intros [= <- _]. apply decimal_int_in_int.
  - destruct (bool_decide _); [|destruct (bool_decide _)];
      (destruct (starts_with_digit _); [|done]);
      destruct (scan_digits _ _); intros [= <- _]; apply decimal_int_in_int.
Qed.

(** What [pageload] returns can be stored, but for the url: a file
    that starts with a NUL byte gives the empty url. *)
Lemma pageload_storable (id : Z) (dir : directory) (p : webpage_t) :
  pageload id dir = PageLoaded p → url p ≠ [] → storable p.
Proof.
  unfold pageload. intros Hload Hne.
  destruct (files dir !! print_int id) as [file|]; [|done].
  destruct (fscanf_s_nl file) as [[u f1]|] eqn:Hu; [|done].
  destruct (URL_SIZE <=? Z.of_nat (length u)) eqn:Hroom; [done|].
  apply Z.leb_gt in Hroom. unfold URL_SIZE in Hroom.
  destruct (fscanf_d_nl f1) as [[d f2]|] eqn:Hd; [|done].
  destruct (fscanf_d_nl f2) as [[n f3]|] eqn:Hn; [|done].
  destruct (n <? -1) eqn:Hn1; [done|]. apply Z.ltb_ge in Hn1.
  destruct (n =? INT_MAX) eqn:Hn2; [done|]. apply Z.eqb_neq in Hn2.
  cbn [orb] in Hload.
  injection Hload as <-. unfold webpage_new in *. cbn [url] in Hne.
  unfold fscanf_s_nl in Hu.
  pose proof (scan_word_no_space (skip_space file)) as Hword.
  destruct (scan_word (skip_space file)) as [w r1]. cbn [fst] in Hword.
  assert (u = w) as -> by (destruct w; [done|by injection Hu as <- _]).
  unfold fscanf_d_nl in Hd, Hn.
  destruct (scan_int f1) as [[d' r2]|] eqn:Hd'; [|done]. simpl in Hd.
  injection Hd as <- <-.
  destruct (scan_int (skip_space r2)) as [[n' r3]|] eqn:Hn'; [|done]. simpl in Hn.
  injection Hn as <- <-.
  pose proof (scan_int_in_int _ _ _ Hd') as Hdi.
  pose proof (scan_int_in_int _ _ _ Hn') as Hni.
  pose proof (read_html_length (skip_space r3) (Z.to_nat n')) as Hlen.
  pose proof (cstr_length (read_html (skip_space r3) (Z.to_nat n'))) as Hlen'.
  pose proof (cstr_length w) as Hw.
  split; cbn [url depth html html_len].
  - done.
  - by apply cstr_Forall.
  - lia.
  - done.
  - unfold strlen, in_int, INT_MIN, INT_MAX in *. lia.
  - done.
  - eapply Forall_impl; [apply cstr_Forall, read_html_bytes|].
    intros c [? ?]. done.
  - destruct (cstr (read_html _ _)) as [|c rest] eqn:Hc; [done|].
    apply cstr_head in Hc as [h' Hh]. apply read_html_head in Hh as [f' Hf].
    pose proof (skip_space_head r3) as Hs. by rewrite Hf in Hs.
Qed.

(** X23 (pageio_test.c): a page that [pageload] returned, saved under any
    id in a directory that can be written and loaded from there, is the
    same page: same url, depth, html and length.  The url is not
    empty. *)
Theorem loaded_page_round_trip (dir : directory) (id id' : Z) (p : webpage_t) :
  pageload id dir = PageLoaded p → url p ≠ [] →
  writable dir = true →
  (pagesave (Some p) id' dir).1 = 0 ∧
  pageload id' (pagesave (Some p) id' dir).2 = PageLoaded p.
Proof.
  intros Hload Hne Hw.
  pose proof (pageload_storable id dir p Hload Hne) as Hp.
  unfold pagesave. rewrite Hw. split; [done|].
  apply pageload_page_file; [done|]. cbn [snd files]. apply lookup_insert_eq.
Qed.

(** The file of a page with white space around the fields. *)
Definition spaced_file : cstring :=
  str "  http://a/b" ++ [newline; newline] ++ str "+3 " ++ [newline] ++
  str "9" ++ [newline] ++ str "  <p>dog</p>" ++ [newline] ++ str "and more".

Lemma loaded_page_round_trip_witness :
  let dir := Dir true {[ str "1" := spaced_file ]} in
  pageload 1 dir = PageLoaded (Page (str "http://a/b") 3 (str "<p>dog</p") 9) ∧
  pageload 2 (pagesave (Some (Page (str "http://a/b") 3 (str "<p>dog</p") 9)) 2 dir).2
  = PageLoaded (Page (str "http://a/b") 3 (str "<p>dog</p") 9).
Proof.
  split; [vm_compute; reflexivity|].
  apply (loaded_page_round_trip (Dir true {[ str "1" := spaced_file ]}) 1 2
           (Page (str "http://a/b") 3 (str "<p>dog</p") 9)).
  - vm_compute. reflexivity.
  - discriminate.
  - reflexivity.
Defined.

End PageReload.

(** ** The shape of the index the indexer builds *)

Module IndexShape.
Import Libc Queue Hash Webpage PageIO IndexIO Indexer LibcFacts QueueFacts HashFacts.
Import IndexerTheory IndexRoundTrip EvalTheory.

(** *** The functions of the sum *)

(** [total_count += dp->word_count] *)
Definition queue_sum_fn (dp : document_t) (total_count : Z) : Z :=
  int_add total_count (word_count dp).

(** [qapply(p->documents, queue_sum_fn)] *)
Definition total_sum_fn (ep : entry_t document_t) (total_count : Z) : Z :=
  foldl (λ t dp, queue_sum_fn dp t) total_count (documents ep).

(** [happly(index, total_sum_fn)] from [total_count = 0]: the number
    [main] prints as the total word count. *)
Definition total_word_count (index : index_t) : Z :=
  foldl (λ t ep, total_sum_fn ep t) 0 (happly_order index).

(** *** Where an update or a new entry lands *)

Section Lists.
Context {A : Type}.

Lemma qsearch_None (q : queue_t A) (p : A → bool) :
  qsearch q p = None → Forall (λ e, p e = false) q.
Proof.
  induction q as [|x q IH]; simpl; [constructor|].
  destruct (p x) eqn:Hp; [done|]. intros H. constructor; auto.
Qed.

Lemma qupdate_found (q : queue_t A) (p : A → bool) (f : A → A) e :
  qsearch q p = Some e →
  ∃ pre post, q = pre ++ e :: post ∧ qupdate q p f = pre ++ f e :: post.
Proof.
  induction q as [|x q IH]; simpl; [done|].
  destruct (p x) eqn:Hp.
  - intros [= ->]. by exists [], q.
  - intros (pre & post & -> & ->)%IH. by exists (x :: pre), post.
Qed.

Lemma concat_insert_middle (l : list (list A)) (i : nat) pre x y post :
  l !! i = Some (pre ++ x :: post) →
  ∃ L R, concat l = L ++ x :: R ∧
         concat (<[i := pre ++ y :: post]> l) = L ++ y :: R.
Proof.
  intros Hi. exists (concat (take i l) ++ pre), (post ++ concat (drop (S i) l)).
  pose proof (lookup_lt_Some _ _ _ Hi) as Hlt.
  split.
  - rewrite <- (take_drop_middle l i _ Hi) at 1.
    rewrite concat_app. cbn [concat]. by rewrite <- !app_assoc.
  - rewrite insert_take_drop by done.
    rewrite concat_app. cbn [concat]. by rewrite <- !app_assoc.
Qed.

Lemma concat_insert_snoc (l : list (list A)) (i : nat) q x :
  l !! i = Some q →
  ∃ L R, concat l = L ++ R ∧ concat (<[i := q ++ [x]]> l) = L ++ x :: R.
Proof.
  intros Hi. exists (concat (take i l) ++ q), (concat (drop (S i) l)).
  pose proof (lookup_lt_Some _ _ _ Hi) as Hlt.
  split.
  - rewrite <- (take_drop_middle l i _ Hi) at 1.
    rewrite concat_app. cbn [concat]. by rewrite <- !app_assoc.
  - rewrite insert_take_drop by done.
    rewrite concat_app. cbn [concat]. by rewrite <- !app_assoc.
Qed.

(** The entry [hsearch] found is the one [hupdate] writes. *)
Lemma happly_order_hupdate (htp : hashtable_t A) (p : A → bool) key len
      (f : A → A) e :
  hsearch htp p key len = Some e →
  ∃ L R, happly_order htp = L ++ e :: R ∧
         happly_order (hupdate htp p key len f) = L ++ f e :: R.
Proof.
  unfold hsearch, happly_order, hupdate. cbn [hash_table].
  destruct (hash_table htp !! slot htp key len) as [q|] eqn:Hq; [|done].
  cbn. intros Hs.
  destruct (qupdate_found q p f e Hs) as (pre & post & -> & Hup).
  rewrite (LinkedHashTheory.alter_insert _ _ _ _ Hq), Hup.
  by apply concat_insert_middle.
Qed.

(** A new entry goes behind the others of its slot. *)
Lemma happly_order_hput_split (htp : hashtable_t A) (x : A) key len :
  wf_table htp →
  ∃ L R, happly_order htp = L ++ R ∧
         happly_order (hput htp x key len) = L ++ x :: R.
Proof.
  intros Hwf. unfold happly_order, hput. cbn [hash_table].
  destruct (lookup_lt_is_Some_2 _ _ (slot_lt htp key len Hwf)) as [q Hq].
  rewrite (LinkedHashTheory.alter_insert _ _ _ _ Hq). by apply concat_insert_snoc.
Qed.
End Lists.

(** *** What one more occurrence does to the entries *)

(** The entries in the order of [happly], before and after an occurrence
    of the word [w] in the document [id] is counted. *)
Inductive posting_step (id : Z) (w : cstring)
  : list (entry_t document_t) → list (entry_t document_t) → Prop :=
| step_count L ep R pre dp post :
    documents ep = pre ++ dp :: post → doc_id dp = id →
    posting_step id w (L ++ ep :: R)
      (L ++ Entry (word ep)
                  (pre ++ Doc (doc_id dp) (int_add (word_count dp) 1) :: post) :: R)
| step_doc L ep R :
    id ∉ doc_id <$> documents ep →
    posting_step id w (L ++ ep :: R)
      (L ++ Entry (word ep) (documents ep ++ [new_doc id 1]) :: R)
| step_entry L R :
    w ∉ word <$> (L ++ R) →
    posting_step id w (L ++ R) (L ++ Entry w [new_doc id 1] :: R).

Lemma in_place_wf (index : index_t) : in_place index → wf_table index.
Proof. intros (Hsize & Hlen & _). split; rewrite Hsize; [done|]. by rewrite Hlen. Qed.

(** A word that [hsearch] does not find is the word of no entry. *)
Lemma not_found_fresh (index : index_t) (w : cstring) :
  in_place index →
  hsearch index (entry_searchfn w) w (strlen w) = None →
  w ∉ word <$> happly_order index.
Proof.
  intros (Hsize & Hlen & Hslot) Hnone Hin.
  apply list_elem_of_fmap in Hin as (ep & Hw & Hep).
  apply elem_of_concat in Hep as (q & Hq1 & Hq2).
  apply list_elem_of_lookup in Hq2 as [i Hi].
  pose proof (Hslot i q ep Hi Hq1) as Hs. rewrite <- Hw in Hs.
  unfold hsearch in Hnone. rewrite Hs in Hnone. unfold queue_t in *.
  rewrite Hi in Hnone. cbn in Hnone.
  apply qsearch_None in Hnone. rewrite Forall_forall in Hnone.
  specialize (Hnone ep Hq1). unfold entry_searchfn, streq in Hnone.
  rewrite <- Hw in Hnone. by rewrite bool_decide_eq_true_2 in Hnone.
Qed.

Lemma add_posting_step (index : index_t) id (w : cstring) :
  in_place index → NUL ∉ w →
  posting_step id w (happly_order index) (happly_order (add_posting index id w)).
Proof.
  intros Hplace Hw. unfold add_posting.
  destruct (hsearch index (entry_searchfn w) w (strlen w)) as [ep|] eqn:Hep.
  - destruct (qsearch (documents ep) (doc_searchfn id)) as [dp|] eqn:Hdp.
    + set (f := λ ep : entry_t document_t, Entry (word ep) _).
      destruct (happly_order_hupdate index _ w (strlen w) f ep Hep)
        as (L & R & -> & ->).
      destruct (qupdate_found (documents ep) (doc_searchfn id)
                  (λ dp, Doc (doc_id dp) (int_add (word_count dp) 1)) dp Hdp)
        as (pre & post & Hdocs & Hdocs').
      unfold f. rewrite Hdocs'. apply step_count; [done|].
      apply qsearch_elem in Hdp as [_ Hdp]. by apply doc_searchfn_spec.
    + set (f := λ ep : entry_t document_t, Entry (word ep) _).
      destruct (happly_order_hupdate index _ w (strlen w) f ep Hep)
        as (L & R & -> & ->).
      unfold f, qput. apply step_doc.
      intros Hi. apply list_elem_of_fmap in Hi as (d & Hd & Hin).
      apply qsearch_None in Hdp. rewrite Forall_forall in Hdp.
      specialize (Hdp d Hin). apply not_true_iff_false in Hdp. apply Hdp.
      by apply doc_searchfn_spec.
  - pose proof (in_place_wf _ Hplace) as Hwf.
    destruct (happly_order_hput_split index
                (Entry (cstr w) (qput qopen (new_doc id 1))) w (strlen w) Hwf)
      as (L & R & HLR & ->).
    pose proof (not_found_fresh index w Hplace Hep) as Hfresh.
    rewrite HLR in *. rewrite (cstr_id w Hw). unfold qput, qopen. cbn [app].
    by apply step_entry.
Qed.

Lemma in_place_add_posting (index : index_t) id (w : cstring) :
  in_place index → NUL ∉ w → in_place (add_posting index id w).
Proof.
  intros Hplace Hw. unfold add_posting.
  destruct (hsearch index (entry_searchfn w) w (strlen w)) as [ep|].
  - destruct (qsearch (documents ep) (doc_searchfn id));
      by apply in_place_hupdate.
  - set (x := Entry (cstr w) (qput qopen (new_doc id 1))).
    assert (word x = w) as Hx by (unfold x; cbn [word]; by apply cstr_id).
    replace (hput index x w (strlen w))
      with (hput index x (word x) (strlen (word x))) by (by rewrite Hx).
    by apply in_place_hput.
Qed.

(** *** What the word loop keeps *)

(** The postings of an entry: there is one, no document has two, and
    the documents are among [ids]. *)
Definition posted (ids : list Z) (ep : entry_t document_t) : Prop :=
  documents ep ≠ [] ∧ NoDup (doc_id <$> documents ep) ∧
  Forall (λ dp, doc_id dp ∈ ids) (documents ep).

Definition shaped (ids : list Z) (es : list (entry_t document_t)) : Prop :=
  NoDup (word <$> es) ∧ Forall (posted ids) es.

Lemma shaped_step ids id (w : cstring) es es' :
  id ∈ ids → posting_step id w es es' → shaped ids es → shaped ids es'.
Proof.
  intros Hid Hstep [Hwords Hall]. destruct Hstep as
    [L ep R pre dp post Hdocs Hdp|L ep R Hnew|L R Hfresh].
  - apply Forall_app in Hall as [HL HR]. apply Forall_cons in HR as [Hp HR].
    destruct Hp as (Hne & Hnd & Hds). rewrite Hdocs in Hnd, Hds.
    split; [by rewrite fmap_app, fmap_cons in *|].
    apply Forall_app. split; [done|]. apply Forall_cons. split; [|done].
    unfold posted. cbn [documents]. split; [by destruct pre|]. split.
    + by rewrite fmap_app, fmap_cons in *.
    + apply Forall_app in Hds as [Hpre Hpost].
      apply Forall_cons in Hpost as [Hd Hpost].
      apply Forall_app. split; [done|]. by apply Forall_cons.
  - apply Forall_app in Hall as [HL HR]. apply Forall_cons in HR as [Hp HR].
    destruct Hp as (Hne & Hnd & Hds).
    split; [by rewrite fmap_app, fmap_cons in *|].
    apply Forall_app. split; [done|]. apply Forall_cons. split; [|done].
    unfold posted. cbn [documents]. split; [by destruct (documents ep)|]. split.
    + rewrite fmap_app. apply NoDup_app. split; [done|].
      split; [|apply NoDup_singleton].
      by intros i Hi ->%list_elem_of_singleton.
    + apply Forall_app. split; [done|]. by apply Forall_singleton.
  - apply Forall_app in Hall as [HL HR]. split.
    + rewrite fmap_app, fmap_cons. cbn [word].
      apply (NoDup_Permutation_proper _ (w :: (word <$> L) ++ (word <$> R)));
        [by rewrite Permutation_middle|].
      apply NoDup_cons. by rewrite <- fmap_app.
    + apply Forall_app. split; [done|]. apply Forall_cons. split; [|done].
      unfold posted. cbn [documents]. split; [done|].
      split; [apply NoDup_singleton|]. by apply Forall_singleton.
Qed.

(** *** The sum of the counts *)

Definition doc_sum (docs : list document_t) : Z :=
  foldr (λ dp a, word_count dp + a) 0 docs.

Definition entries_sum (es : list (entry_t document_t)) : Z :=
  foldr (λ ep a, doc_sum (documents ep) + a) 0 es.

(** Every count is one or more, and the counts add up to [n]. *)
Definition counted (es : list (entry_t document_t)) (n : Z) : Prop :=
  Forall (λ ep, Forall (λ dp, 1 <= word_count dp) (documents ep)) es ∧
  entries_sum es = n.

Lemma doc_sum_app (a b : list document_t) : doc_sum (a ++ b) = doc_sum a + doc_sum b.
Proof. induction a as [|d a IH]; simpl; [done|]. unfold doc_sum in *. simpl. lia. Qed.

Lemma entries_sum_app (a b : list (entry_t document_t)) :
  entries_sum (a ++ b) = entries_sum a + entries_sum b.
Proof. induction a as [|e a IH]; simpl; [done|]. unfold entries_sum in *. simpl. lia. Qed.

Lemma doc_sum_nonneg (docs : list document_t) :
  Forall (λ dp, 1 <= word_count dp) docs → 0 <= doc_sum docs.
Proof. induction 1 as [|d docs Hd _ IH]; simpl; [done|]. unfold doc_sum in *. simpl. lia. Qed.

Lemma entries_sum_nonneg (es : list (entry_t document_t)) :
  Forall (λ ep, Forall (λ dp, 1 <= word_count dp) (documents ep)) es →
  0 <= entries_sum es.
Proof.
  induction 1 as [|e es He _ IH]; simpl; [done|]. unfold entries_sum in *. simpl.
  pose proof (doc_sum_nonneg _ He). lia.
Qed.

Lemma counted_step id (w : cstring) es es' n :
  n < INT_MAX → posting_step id w es es' → counted es n → counted es' (n + 1).
Proof.
  intros Hn Hstep [Hall Hsum]. destruct Hstep as
    [L ep R pre dp post Hdocs Hdp|L ep R Hnew|L R Hfresh].
  - apply Forall_app in Hall as [HL HR]. apply Forall_cons in HR as [Hp HR].
    rewrite Hdocs in Hp. apply Forall_app in Hp as [Hpre Hpost].
    apply Forall_cons in Hpost as [Hc Hpost].
    rewrite entries_sum_app in Hsum. cbn [entries_sum foldr] in Hsum.
    fold (entries_sum R) in Hsum. rewrite Hdocs, doc_sum_app in Hsum.
    cbn [doc_sum foldr] in Hsum. fold (doc_sum post) in Hsum.
    pose proof (entries_sum_nonneg L HL). pose proof (entries_sum_nonneg R HR).
    pose proof (doc_sum_nonneg pre Hpre). pose proof (doc_sum_nonneg post Hpost).
    assert (int_add (word_count dp) 1 = word_count dp + 1) as Hadd.
    { unfold int_add. apply wrap_int_id. unfold in_int, INT_MIN, INT_MAX in *. lia. }
    split.
    + apply Forall_app. split; [done|]. apply Forall_cons. split; [|done].
      cbn [documents]. apply Forall_app. split; [done|]. apply Forall_cons.
      split; [|done]. cbn [word_count]. lia.
    + rewrite entries_sum_app. cbn [entries_sum foldr documents].
      fold (entries_sum R). rewrite doc_sum_app. cbn [doc_sum foldr word_count].
      fold (doc_sum post). lia.
  - apply Forall_app in Hall as [HL HR]. apply Forall_cons in HR as [Hp HR].
    rewrite entries_sum_app in Hsum. cbn [entries_sum foldr] in Hsum.
    fold (entries_sum R) in Hsum.
    split.
    + apply Forall_app. split; [done|]. apply Forall_cons. split; [|done].
      cbn [documents]. apply Forall_app. split; [done|]. apply Forall_singleton.
      cbn [new_doc word_count]. lia.
    + rewrite entries_sum_app. cbn [entries_sum foldr documents].
      fold (entries_sum R). rewrite doc_sum_app. cbn [doc_sum foldr new_doc word_count].
      lia.
  - apply Forall_app in Hall as [HL HR]. rewrite entries_sum_app in Hsum.
    split.
    + apply Forall_app. split; [done|]. apply Forall_cons. split; [|done].
      cbn [documents]. apply Forall_singleton. cbn [new_doc word_count]. lia.
    + rewrite entries_sum_app. cbn [entries_sum foldr documents].
      fold (entries_sum R). cbn [doc_sum foldr new_doc word_count]. lia.
Qed.

(** [total_count] is the sum of the counts as long as it fits an [int]. *)
Lemma total_sum_fn_sum (ep : entry_t document_t) (t : Z) :
  0 <= t → Forall (λ dp, 1 <= word_count dp) (documents ep) →
  t + doc_sum (documents ep) <= INT_MAX →
  total_sum_fn ep t = t + doc_sum (documents ep).
Proof.
  unfold total_sum_fn. generalize (documents ep). intros docs. revert t.
  induction docs as [|d docs IH]; intros t Ht Hall Hmax;
    cbn [foldl doc_sum foldr] in *.
  - lia.
  - apply Forall_cons in Hall as [Hd Hall]. fold (doc_sum docs) in *.
    pose proof (doc_sum_nonneg _ Hall).
    unfold queue_sum_fn at 2. unfold int_add.
    rewrite wrap_int_id by (unfold in_int, INT_MIN, INT_MAX in *; lia).
    rewrite IH; [lia|lia|done|lia].
Qed.

Lemma total_word_count_sum (index : index_t) n :
  counted (happly_order index) n → n <= INT_MAX → total_word_count index = n.
Proof.
  unfold total_word_count, counted. generalize (happly_order index). intros es.
  assert (∀ t, 0 <= t →
               Forall (λ ep, Forall (λ dp, 1 <= word_count dp) (documents ep)) es →
               t + entries_sum es <= INT_MAX →
               foldl (λ t ep, total_sum_fn ep t) t es = t + entries_sum es) as Hgen.
  { induction es as [|e es IH]; intros t Ht Hall Hmax;
      cbn [foldl entries_sum foldr] in *.
    - lia.
    - apply Forall_cons in Hall as [He Hall]. fold (entries_sum es) in *.
      pose proof (entries_sum_nonneg _ Hall).
      pose proof (doc_sum_nonneg _ He).
      rewrite total_sum_fn_sum; [|done|done|lia].
      rewrite IH; [lia|lia|done|lia]. }
  intros [Hall <-] Hmax. rewrite Hgen; [lia|lia|done|lia].
Qed.

(** *** The word loop and the loop over the files *)

(** The words the indexer keeps. *)
Definition kept (ws : list cstring) : nat := length (List.filter accepts ws).

Lemma kept_cons w ws : kept (w :: ws) = (kept [w] + kept ws)%nat.
Proof. unfold kept. cbn [List.filter]. by destruct (accepts w). Qed.

Lemma shaped_index_words ids id (ws : list cstring) :
  ∀ (index : index_t),
  Forall (λ w, NUL ∉ w) ws → id ∈ ids →
  in_place index ∧ shaped ids (happly_order index) →
  in_place (foldl (λ index w, index_word index id w) index ws) ∧
  shaped ids (happly_order (foldl (λ index w, index_word index id w) index ws)).
Proof.
  induction ws as [|w ws IH]; intros index Hws Hid [Hplace Hsh]; [done|].
  apply Forall_cons in Hws as [Hw Hws]. cbn [foldl]. apply IH; [done|done|].
  destruct (accepts w) eqn:Hacc.
  - rewrite index_word_accepts by done.
    assert (NUL ∉ map tolower w) as Hw'.
    { apply NUL_notin_alpha, forallb_alpha_tolower.
      by apply andb_true_iff in Hacc as [_ ?]. }
    split; [by apply in_place_add_posting|].
    eapply shaped_step; [done| |done]. by apply add_posting_step.
  - by rewrite index_word_rejects.
Qed.

Lemma counted_index_words id (ws : list cstring) :
  ∀ (index : index_t) n,
  Forall (λ w, NUL ∉ w) ws → n + Z.of_nat (kept ws) <= INT_MAX →
  in_place index ∧ counted (happly_order index) n →
  in_place (foldl (λ index w, index_word index id w) index ws) ∧
  counted (happly_order (foldl (λ index w, index_word index id w) index ws))
          (n + Z.of_nat (kept ws)).
Proof.
  induction ws as [|w ws IH]; intros index n Hws Hn [Hplace Hc].
  - cbn. by rewrite Z.add_0_r.
  - apply Forall_cons in Hws as [Hw Hws]. rewrite kept_cons in *. cbn [foldl].
    replace (n + Z.of_nat (kept [w] + kept ws))
      with (n + Z.of_nat (kept [w]) + Z.of_nat (kept ws)) by lia.
    apply IH; [done|lia|]. unfold kept in *. cbn [List.filter] in *.
    destruct (accepts w) eqn:Hacc; cbn [length] in *.
    + rewrite index_word_accepts by done.
      assert (NUL ∉ map tolower w) as Hw'.
      { apply NUL_notin_alpha, forallb_alpha_tolower.
        by apply andb_true_iff in Hacc as [_ ?]. }
      split; [by apply in_place_add_posting|].
      eapply counted_step; [| |done]; [lia|]. by apply add_posting_step.
    + rewrite index_word_rejects by done. by rewrite Z.add_0_r.
Qed.

Lemma happly_order_hopen : happly_order (@hopen (entry_t document_t) hsize) = [].
Proof.
  unfold happly_order, hopen. cbn [hash_table].
  induction (Z.to_nat hsize) as [|k IH]; [done|]. done.
Qed.

Section Pages.
Variable webpage_getWords : webpage_t → list cstring.
(** The words of a page are C strings. *)
Hypothesis words_are_strings : ∀ page w, w ∈ webpage_getWords page → NUL ∉ w.

(** The words kept of the pages of [files], in a directory where they
    all load. *)
Fixpoint kept_words (dirname : directory) (files : list Z) : nat :=
  match files with
  | [] => 0
  | id :: files' =>
      match pageload id dirname with
      | PageLoaded page => kept (webpage_getWords page) + kept_words dirname files'
      | PageNull _ | PageUndefined => 0
      end
  end.

Lemma shaped_index_files ids (dirname : directory) (files : list Z) :
  ∀ (index index' : index_t),
  files ⊆ ids → in_place index ∧ shaped ids (happly_order index) →
  index_files webpage_getWords dirname index files = Indexed index' →
  in_place index' ∧ shaped ids (happly_order index').
Proof.
  induction files as [|id files IH]; intros index index' Hsub Hsh;
    cbn [index_files] in *.
  - by intros [= <-].
  - destruct (pageload id dirname) as [page|out|]; [|done|done].
    intros Hrun. eapply IH; [| |exact Hrun].
    + intros x Hx. apply Hsub. by apply elem_of_cons; right.
    + apply shaped_index_words; [|apply Hsub; by apply elem_of_cons; left|done].
      apply Forall_forall. intros w Hw. by eapply words_are_strings.
Qed.

Lemma counted_index_files (dirname : directory) (files : list Z) :
  ∀ (index index' : index_t) n,
  n + Z.of_nat (kept_words dirname files) <= INT_MAX →
  in_place index ∧ counted (happly_order index) n →
  index_files webpage_getWords dirname index files = Indexed index' →
  in_place index' ∧
  counted (happly_order index') (n + Z.of_nat (kept_words dirname files)).
Proof.
  induction files as [|id files IH]; intros index index' n Hn Hc;
    cbn [index_files kept_words] in *.
  - intros [= <-]. by rewrite Z.add_0_r.
  - destruct (pageload id dirname) as [page|out|]; [|done|done].
    intros Hrun.
    replace (n + Z.of_nat (kept (webpage_getWords page) + kept_words dirname files))
      with (n + Z.of_nat (kept (webpage_getWords page))
            + Z.of_nat (kept_words dirname files)) by lia.
    eapply IH; [lia| |exact Hrun].
    apply counted_index_words; [|lia|done].
    apply Forall_forall. intros w Hw. by eapply words_are_strings.
Qed.

(** X24 (indexer main, index shape): in the index the indexer builds no
    two entries have the same word, every entry has a posting, no
    posting list has a document twice, and every document of a posting
    is one of the files. *)
Theorem indexer_entries_unique (dirname : directory) (files : list Z)
        (index : index_t) :
  index_files webpage_getWords dirname (hopen hsize) files = Indexed index →
  NoDup (word <$> happly_order index) ∧
  Forall (λ ep, documents ep ≠ [] ∧ NoDup (doc_id <$> documents ep) ∧
                Forall (λ dp, doc_id dp ∈ files) (documents ep))
         (happly_order index).
Proof.
  intros Hrun.
  destruct (shaped_index_files files dirname files (hopen hsize) index)
    as [_ [Hwords Hall]]; [done| |done|done].
  split; [apply in_place_hopen|]. rewrite happly_order_hopen.
  split; constructor.
Qed.

(** X25 (indexer main, total_sum_fn, queue_sum_fn): the total word count
    the indexer prints is the number of the words it kept (alphabetic,
    three characters or more) over all pages, each page counted as often
    as it is loaded, as long as that number fits an [int]. *)
Theorem indexer_total_count (dirname : directory) (files : list Z)
        (index : index_t) :
  index_files webpage_getWords dirname (hopen hsize) files = Indexed index →
  Z.of_nat (kept_words dirname files) <= INT_MAX →
  total_word_count index = Z.of_nat (kept_words dirname files).
Proof.
  intros Hrun Hmax.
  destruct (counted_index_files dirname files (hopen hsize) index 0)
    as [_ Hc]; [lia| |done|].
  { split; [apply in_place_hopen|]. rewrite happly_order_hopen.
    split; [constructor|done]. }
  apply total_word_count_sum; [done|lia].
Qed.
End Pages.

Lemma zoo_words_strings page w : w ∈ IndexerOutput.zoo_words page → NUL ∉ w.
Proof.
  unfold IndexerOutput.zoo_words. rewrite !elem_of_cons, elem_of_nil.
  intros [->|[->|[->|[->|[]]]]]; apply (bool_decide_unpack _); vm_compute; exact I.
Qed.

Lemma indexer_entries_unique_witness :
  NoDup (word <$> happly_order IndexerOutput.zoo) ∧
  Forall (λ ep, documents ep ≠ [] ∧ NoDup (doc_id <$> documents ep) ∧
                Forall (λ dp, doc_id dp ∈ [1]) (documents ep))
         (happly_order IndexerOutput.zoo).
Proof.
  apply (indexer_entries_unique IndexerOutput.zoo_words zoo_words_strings
           IndexerOutput.zoo_dir [1] IndexerOutput.zoo).
  vm_compute. reflexivity.
Defined.

(** The page of the zoo, indexed twice. *)
Definition zoo_twice : index_t :=
  index_page IndexerOutput.zoo_words IndexerOutput.zoo 1 IndexerOutput.zoo_page.

Lemma indexer_total_count_witness : total_word_count zoo_twice = 6.
Proof.
  apply (indexer_total_count IndexerOutput.zoo_words zoo_words_strings
           IndexerOutput.zoo_dir [1; 1] zoo_twice).
  - vm_compute. reflexivity.
  - vm_compute. discriminate.
Defined.

End IndexShape.

(** ** When the workers of the crawler return *)

Module Quiescence.
Import Libc Queue Hash Webpage PageIO Crawler CrawlTheory.

(** The workers that hold a page [pages_added] has counted: the page
    they scan.  (A worker between its [lqput] and its [pages_added++]
    holds its page too, but the page it has put is not counted yet.) *)
Definition is_holding (th : thread) : bool :=
  match th with
  | Scanning _ _ | Counted _ _ _ _ | Exiting => true
  | _ => false
  end.

Definition holding (ths : list thread) : nat :=
  length (List.filter is_holding ths).

(** The workers that will call [lqget] again, or end the process. *)
Definition is_active (th : thread) : bool :=
  match th with
  | AtLoopHead | Scanning _ _ | Queued _ _ _ _ | Counted _ _ _ _ | Exiting => true
  | _ => false
  end.

(** The workers that hold no page: at the loop head, or gone. *)
Definition is_idle (th : thread) : bool :=
  match th with
  | AtLoopHead | Testing | ReadRetrieved _ | ReadAdded _ | Returned => true
  | _ => false
  end.

(** Nothing is queued and no worker holds a page. *)
Definition at_rest (s : state) : Prop :=
  qp s = [] ∧ Forall (λ th, is_idle th = true) (threads s).

(** The page a worker has put is in the queue or in the hands of
    another worker. *)
Definition placed (q : queue_t webpage_t) (ths : list thread) (page : webpage_t)
  : Prop :=
  page ∈ q ∨ ∃ t urls, ths !! t = Some (Scanning page urls).

Lemma filter_app_length {A} (p : A → bool) (l k : list A) :
  length (List.filter p (l ++ k))
  = (length (List.filter p l) + length (List.filter p k))%nat.
Proof. by rewrite List.filter_app, length_app. Qed.

Lemma holding_insert (ths : list thread) (t : nat) (th th' : thread) :
  ths !! t = Some th →
  (holding (<[t := th']> ths) + (if is_holding th then 1 else 0)
   = holding ths + (if is_holding th' then 1 else 0))%nat.
Proof.
  intros Ht. pose proof (lookup_lt_Some _ _ _ Ht) as Hlt.
  rewrite insert_take_drop by done.
  rewrite <- (take_drop_middle ths t th Ht) at 3.
  unfold holding. rewrite !filter_app_length. cbn [List.filter].
  destruct (is_holding th), (is_holding th'); cbn [length]; lia.
Qed.

Lemma holding_0 (ths : list thread) :
  holding ths = 0%nat → Forall (λ th, is_holding th = false) ths.
Proof.
  unfold holding. induction ths as [|th ths IH]; [constructor|].
  cbn [List.filter]. destruct (is_holding th) eqn:Hth; cbn [length]; [lia|].
  intros H0. constructor; [done|by apply IH].
Qed.

Lemma holding_pos (ths : list thread) (t : nat) (th : thread) :
  ths !! t = Some th → is_holding th = true → (0 < holding ths)%nat.
Proof.
  intros Ht Hh. unfold holding. rewrite <- (take_drop_middle _ _ _ Ht).
  rewrite filter_app_length. cbn [List.filter]. rewrite Hh. cbn [length]. lia.
Qed.

Lemma placed_insert (q : queue_t webpage_t) (ths : list thread) (t : nat)
      (th th' : thread) (page : webpage_t) :
  placed q ths page → ths !! t = Some th →
  (∀ urls, th = Scanning page urls → ∃ urls', th' = Scanning page urls') →
  placed q (<[t := th']> ths) page.
Proof.
  intros [Hin|(t' & urls & Ht')] Ht Hkeep; [by left|right].
  destruct (decide (t' = t)) as [->|Hne].
  - rewrite Ht in Ht'. injection Ht' as ->. destruct (Hkeep urls eq_refl) as [urls' ->].
    exists t, urls'. apply list_lookup_insert_eq. by eapply lookup_lt_Some.
  - exists t', urls. by rewrite list_lookup_insert_ne.
Qed.

Section Crawl.
Variable webpage_getURLs : webpage_t → list cstring.
Variable IsInternalURL : cstring → bool.
Variable max_depth : Z.

Abbreviation step := (step webpage_getURLs IsInternalURL max_depth).
Abbreviation run := (run webpage_getURLs IsInternalURL max_depth).
Abbreviation move := (move webpage_getURLs IsInternalURL max_depth).

(** While a page is queued, a worker is there to take it. *)
Definition alive (s : state) : Prop :=
  qp s ≠ [] → ∃ t th, threads s !! t = Some th ∧ is_active th = true.

Lemma main_alive (seed_url : cstring) (dir : directory) (fetched : option cstring)
      (s : state) :
  main max_depth seed_url dir fetched = Some s → alive s.
Proof.
  unfold main. destruct (max_depth <? 0); [done|].
  destruct fetched as [html|]; [|done].
  destruct (pagesave _ _ _) as [status dir']. intros [= <-] _.
  by exists 0%nat, AtLoopHead.
Qed.

Lemma alive_insert (s : state) (q : queue_t webpage_t) (ths : list thread)
      (t : nat) (th th' : thread) :
  alive s → threads s !! t = Some th →
  (q ≠ [] → qp s ≠ []) →
  is_active th' = true ∨ is_active th = false →
  q ≠ [] → ∃ t0 th0, <[t := th']> (threads s) !! t0 = Some th0 ∧ is_active th0 = true.
Proof.
  intros Halive Ht Hq Hact Hne.
  destruct Hact as [Hact|Hact].
  - exists t, th'. split; [|done]. apply list_lookup_insert_eq. by eapply lookup_lt_Some.
  - destruct (Halive (Hq Hne)) as (t0 & th0 & Ht0 & Hact0).
    exists t0, th0. split; [|done]. rewrite list_lookup_insert_ne; [done|].
    intros <-. congruence.
Qed.

Lemma move_alive (s s' : state) (a : action) :
  alive s → move s a s' → alive s'.
Proof.
  intros Halive Hmove. unfold alive.
  move_cases Hmove; unfold set_thread, count, save, exit;
    try destruct (pagesave _ _ _) as [status dir'];
    cbn [qp threads].
  - apply (alive_insert s _ (threads s) (who a) _ _ Halive Hth); [|by left].
    intros _. by rewrite Hqp.
  - intros Hne. by destruct Hne.
  - apply (alive_insert s _ (threads s) (who a) _ _ Halive Hth); [done|by right].
  - apply (alive_insert s _ (threads s) (who a) _ _ Halive Hth); [done|by right].
  - apply (alive_insert s _ (threads s) (who a) _ _ Halive Hth); [done|by right].
  - apply (alive_insert s _ (threads s) (who a) _ _ Halive Hth); [done|by right].
  - apply (alive_insert s _ (threads s) (who a) _ _ Halive Hth); [done|by left].
  - intros _. exists (who a), (Queued curr url urls (webpage_new url (depth curr + 1) html)).
    split; [|done]. apply list_lookup_insert_eq. by eapply lookup_lt_Some.
  - apply (alive_insert s _ (threads s) (who a) _ _ Halive Hth); [done|by left].
  - apply (alive_insert s _ (threads s) (who a) _ _ Halive Hth); [done|by left].
  - apply (alive_insert s _ (threads s) (who a) _ _ Halive Hth); [done|left].
    by destruct (status =? 0).
  - done.
Qed.

Lemma run_alive (s0 : state) (schedule : list action) :
  alive s0 → alive (run s0 schedule).
Proof.
  apply (run_invariant _ _ _ alive). intros s a Hs _ Hmove. by eapply move_alive.
Qed.

(** What the counters of crawler.c count, after [n] steps: every page
    that was counted is retrieved, or queued, or in the hands of a
    worker. *)
Record balanced (n : nat) (s : state) : Prop := Balanced {
  bal_mutex : mutex_inv s;
  bal_count : pages_added s
              = pages_retrieved s + Z.of_nat (length (qp s))
                + Z.of_nat (holding (threads s));
  bal_retrieved : 0 <= pages_retrieved s;
  bal_added : pages_added s <= 1 + Z.of_nat n;
  bal_page : ∀ t curr url urls page,
      threads s !! t = Some (Queued curr url urls page) →
      placed (qp s) (threads s) page;
  bal_read : ∀ t r, threads s !! t = Some (ReadRetrieved r) → r <= pages_retrieved s
}.

Lemma main_balanced (seed_url : cstring) (dir : directory) (fetched : option cstring)
      (s : state) :
  main max_depth seed_url dir fetched = Some s → balanced 0 s.
Proof.
  intros Hmain. pose proof (main_mutex _ _ _ _ _ Hmain) as Hmutex.
  revert Hmain Hmutex. unfold main. destruct (max_depth <? 0); [done|].
  destruct fetched as [html|]; [|done].
  destruct (pagesave _ _ _) as [status dir']. intros [= <-] Hmutex.
  split; cbn [pages_added pages_retrieved qp threads]; try done.
  - intros [|[|[|t]]] curr url urls page Ht; done.
  - intros [|[|[|t]]] r Ht; done.
Qed.

Lemma no_queued (ths : list thread) (t : nat) curr url urls page :
  mutex_ok false ths → ths !! t ≠ Some (Queued curr url urls page).
Proof. intros [Hfree _] Ht. by pose proof (Hfree eq_refl _ _ Ht). Qed.

Lemma only_queued (m : bool) (ths : list thread) (t t' : nat) (th : thread)
      curr url urls page :
  mutex_ok m ths → ths !! t = Some th → in_section th = true →
  ths !! t' = Some (Queued curr url urls page) → t' = t.
Proof. intros [_ Hone] Ht Hin Ht'. by apply (Hone t' t _ _ Ht' Ht). Qed.

Lemma move_balanced (n : nat) (s s' : state) (a : action) :
  balanced n s → Z.of_nat n + 2 <= INT_MAX → move s a s' → balanced (S n) s'.
Proof.
  intros [Hm Hc Hr Ha Hp Hrd] Hn Hmove.
  pose proof (move_mutex _ _ _ _ _ _ Hm Hmove) as Hm'.
  assert (Z.of_nat (holding (threads s)) >= 0) as Hh0 by lia.
  move_cases Hmove.
  - pose proof (holding_insert _ _ _ (Scanning curr (webpage_getURLs curr)) Hth) as Hh.
    cbn [is_holding] in Hh. rewrite Hqp in Hc. cbn [length] in Hc.
    split; cbn [pages_added pages_retrieved qp threads]; try done; try lia.
    + intros t0 c u us p [[-> ?]|[Hne Ht0]]%lookup_insert_cases; [done|].
      destruct (Hp _ _ _ _ _ Ht0) as [Hin|(t' & urls' & Ht')].
      * rewrite Hqp in Hin. apply elem_of_cons in Hin as [->|Hin]; [|by left].
        right. exists (who a), (webpage_getURLs curr).
        apply list_lookup_insert_eq. by eapply lookup_lt_Some.
      * right. exists t', urls'. rewrite list_lookup_insert_ne; [done|].
        intros <-. congruence.
    + intros t0 r [[-> ?]|[Hne Ht0]]%lookup_insert_cases; [done|]. by eapply Hrd.
  - pose proof (holding_insert _ _ _ Testing Hth) as Hh. cbn [is_holding] in Hh.
    split; cbn [set_thread pages_added pages_retrieved qp threads]; try done; try lia.
    + intros t0 c u us p [[-> ?]|[Hne Ht0]]%lookup_insert_cases; [done|].
      eapply placed_insert; [by eapply Hp|done|]. by intros urls' ?.
    + intros t0 r [[-> ?]|[Hne Ht0]]%lookup_insert_cases; [done|]. by eapply Hrd.
  - pose proof (holding_insert _ _ _ (ReadRetrieved (pages_retrieved s)) Hth) as Hh.
    cbn [is_holding] in Hh.
    split; cbn [set_thread pages_added pages_retrieved qp threads]; try done; try lia.
    + intros t0 c u us p [[-> ?]|[Hne Ht0]]%lookup_insert_cases; [done|].
      eapply placed_insert; [by eapply Hp|done|]. by intros urls' ?.
    + intros t0 r [[-> [= ->]]|[Hne Ht0]]%lookup_insert_cases; [done|]. by eapply Hrd.
  - pose proof (holding_insert _ _ _ (ReadAdded (pages_added s)) Hth) as Hh.
    cbn [is_holding] in Hh.
    split; cbn [set_thread pages_added pages_retrieved qp threads]; try done; try lia.
    + intros t0 c u us p [[-> ?]|[Hne Ht0]]%lookup_insert_cases; [done|].
      eapply placed_insert; [by eapply Hp|done|]. by intros urls' ?.
    + intros t0 r [[-> ?]|[Hne Ht0]]%lookup_insert_cases; [done|]. by eapply Hrd.
  - pose proof (holding_insert _ _ _
      (if retrieved <? pages_added s then AtLoopHead else Returned) Hth) as Hh.
    cbn [is_holding] in Hh.
    assert (is_holding (if retrieved <? pages_added s then AtLoopHead else Returned)
            = false) as Hnot by (by destruct (_ <? _)).
    rewrite Hnot in Hh.
    split; cbn [set_thread pages_added pages_retrieved qp threads]; try done; try lia.
    + intros t0 c u us p [[-> ?]|[Hne Ht0]]%lookup_insert_cases;
        [by destruct (_ <? _)|].
      eapply placed_insert; [by eapply Hp|done|]. by intros urls' ?.
    + intros t0 r [[-> ?]|[Hne Ht0]]%lookup_insert_cases;
        [by destruct (_ <? _)|]. by eapply Hrd.
  - pose proof (holding_insert _ _ _
      (if pages_retrieved s <? added then AtLoopHead else Returned) Hth) as Hh.
    cbn [is_holding] in Hh.
    assert (is_holding (if pages_retrieved s <? added then AtLoopHead else Returned)
            = false) as Hnot by (by destruct (_ <? _)).
    rewrite Hnot in Hh.
    split; cbn [set_thread pages_added pages_retrieved qp threads]; try done; try lia.
    + intros t0 c u us p [[-> ?]|[Hne Ht0]]%lookup_insert_cases;
        [by destruct (_ <? _)|].
      eapply placed_insert; [by eapply Hp|done|]. by intros urls' ?.
    + intros t0 r [[-> ?]|[Hne Ht0]]%lookup_insert_cases;
        [by destruct (_ <? _)|]. by eapply Hrd.
  - pose proof (holding_insert _ _ _ (Scanning curr urls) Hth) as Hh.
    cbn [is_holding] in Hh.
    split; cbn [set_thread pages_added pages_retrieved qp threads]; try done; try lia.
    + intros t0 c u us p [[-> ?]|[Hne Ht0]]%lookup_insert_cases; [done|].
      eapply placed_insert; [by eapply Hp|done|]. intros urls' [= -> _]. by eexists.
    + intros t0 r [[-> ?]|[Hne Ht0]]%lookup_insert_cases; [done|]. by eapply Hrd.
  - pose proof (holding_insert _ _ _
      (Queued curr url urls (webpage_new url (depth curr + 1) html)) Hth) as Hh.
    cbn [is_holding] in Hh. unfold mutex_inv in Hm. rewrite Hfree in Hm.
    split; cbn [pages_added pages_retrieved qp threads]; try done.
    + unfold qput. rewrite length_app. cbn [length]. lia.
    + lia.
    + intros t0 c u us p [[-> [= _ _ _ <-]]|[Hne Ht0]]%lookup_insert_cases.
      * left. unfold qput. apply elem_of_app. right. by apply list_elem_of_singleton.
      * by destruct (no_queued _ _ _ _ _ _ Hm Ht0).
    + intros t0 r [[-> ?]|[Hne Ht0]]%lookup_insert_cases; [done|]. by eapply Hrd.
  - pose proof (holding_insert _ _ _ AtLoopHead Hth) as Hh.
    cbn [is_holding] in Hh. unfold mutex_inv in Hm. rewrite Hfree in Hm.
    assert (int_add (pages_retrieved s) 1 = pages_retrieved s + 1) as ->.
    { unfold int_add. apply EvalTheory.wrap_int_id.
      unfold in_int, INT_MIN, INT_MAX in *. lia. }
    split; cbn [pages_added pages_retrieved qp threads]; try done; try lia.
    + intros t0 c u us p [[-> ?]|[Hne Ht0]]%lookup_insert_cases; [done|].
      by destruct (no_queued _ _ _ _ _ _ Hm Ht0).
    + intros t0 r [[-> ?]|[Hne Ht0]]%lookup_insert_cases; [done|].
      specialize (Hrd _ _ Ht0). lia.
  - pose proof (holding_insert _ _ _ (Counted curr url urls page) Hth) as Hh.
    cbn [is_holding] in Hh.
    assert (int_add (pages_added s) 1 = pages_added s + 1) as Hadd.
    { unfold int_add. apply EvalTheory.wrap_int_id.
      unfold in_int, INT_MIN, INT_MAX in *. lia. }
    unfold count in *. rewrite Hadd.
    split; cbn [pages_added pages_retrieved qp threads]; try done; try lia.
    + intros t0 c u us p [[-> ?]|[Hne Ht0]]%lookup_insert_cases; [done|].
      by destruct (Hne (only_queued _ _ _ _ _ _ _ _ _ Hm Hth eq_refl Ht0)).
    + intros t0 r [[-> ?]|[Hne Ht0]]%lookup_insert_cases; [done|]. by eapply Hrd.
  - unfold save in *. destruct (pagesave _ _ _) as [status dir'].
    pose proof (holding_insert _ _ _
      (if status =? 0 then Scanning curr urls else Exiting) Hth) as Hh.
    cbn [is_holding] in Hh.
    assert (is_holding (if status =? 0 then Scanning curr urls else Exiting) = true)
      as His by (by destruct (status =? 0)).
    rewrite His in Hh.
    split; cbn [pages_added pages_retrieved qp threads]; try done; try lia.
    + intros t0 c u us p [[-> ?]|[Hne Ht0]]%lookup_insert_cases;
        [by destruct (status =? 0)|].
      by destruct (Hne (only_queued _ _ _ _ _ _ _ _ _ Hm Hth eq_refl Ht0)).
    + intros t0 r [[-> ?]|[Hne Ht0]]%lookup_insert_cases;
        [by destruct (status =? 0)|]. by eapply Hrd.
  - split; cbn [exit pages_added pages_retrieved qp threads]; try done; lia.
Qed.

Lemma run_balanced (s0 : state) (schedule : list action) :
  balanced 0 s0 → Z.of_nat (length schedule) + 1 <= INT_MAX →
  ∃ n, (n ≤ length schedule)%nat ∧ balanced n (run s0 schedule).
Proof.
  intros H0. induction schedule as [|a schedule IH] using rev_ind.
  { intros _. by exists 0%nat. }
  rewrite length_app. cbn [length]. intros Hbound.
  destruct IH as (n & Hn & Hbal); [lia|]. rewrite run_snoc.
  destruct (step_cases webpage_getURLs IsInternalURL max_depth (run s0 schedule) a)
    as [->|[_ Hmove]].
  - exists n. split; [lia|done].
  - exists (S n). split; [lia|]. eapply move_balanced; [done|lia|done].
Qed.

(** Where the counters are equal the crawl is at rest. *)
Lemma balanced_at_rest (n : nat) (s : state) :
  balanced n s → pages_added s <= pages_retrieved s → at_rest s.
Proof.
  intros [Hm Hc Hr Ha Hp Hrd] Hle.
  assert (qp s = []) as Hq by (destruct (qp s); [done|cbn [length] in Hc; lia]).
  assert (holding (threads s) = 0%nat) as Hh by lia.
  apply holding_0 in Hh. split; [done|].
  apply Forall_forall. intros th [t Ht]%list_elem_of_lookup.
  pose proof (Forall_lookup_1 _ _ _ _ Hh Ht) as Hnot.
  destruct th as [| |r|r|curr urls|curr url urls page|curr url urls page| |];
    try done.
  destruct (Hp _ _ _ _ _ Ht) as [Hin|(t' & urls' & Ht')].
  - rewrite Hq in Hin. by apply elem_of_nil in Hin.
  - by pose proof (Forall_lookup_1 _ _ _ _ Hh Ht').
Qed.

(** At rest a step can only send a worker home. *)
Lemma move_at_rest (s s' : state) (a : action) :
  at_rest s → move s a s' →
  at_rest s' ∧ saved s' = saved s ∧ dirname s' = dirname s ∧ hp s' = hp s.
Proof.
  intros [Hq Hidle] Hmove.
  move_cases Hmove; pose proof (Forall_lookup_1 _ _ _ _ Hidle Hth) as Hcurr;
    cbn [is_idle] in Hcurr; try done; try congruence;
    (split; [|done]); (split; [done|]);
    cbn [set_thread threads]; (apply Forall_insert; [done|]);
    try destruct (_ <? _); done.
Qed.

Lemma run_at_rest (s : state) (schedule : list action) :
  at_rest s →
  at_rest (run s schedule) ∧ saved (run s schedule) = saved s ∧
  dirname (run s schedule) = dirname s ∧ hp (run s schedule) = hp s.
Proof.
  intros Hs.
  apply (run_invariant _ _ _
           (λ s', at_rest s' ∧ saved s' = saved s ∧ dirname s' = dirname s ∧
                  hp s' = hp s)); [|done].
  intros s' a (Hrest & <- & <- & <-) _ Hmove. by apply (move_at_rest _ _ a).
Qed.

(** X26 (crawl, loop head): under every schedule of the workers and
    whatever the network answers, once all the workers have returned
    from [crawl] the queue is empty.  As long as the steps fit an
    [int], [pages_added] is [pages_retrieved] plus the pages in the
    queue plus the workers that hold a counted page; so a worker that
    has read [pages_retrieved] and then finds [pages_added] no larger
    returns at a moment when the queue is empty and no worker holds a
    page; and from such a moment on no page is fetched or saved. *)
Theorem workers_return_at_rest (seed_url : cstring) (dir : directory)
        (fetched : option cstring) (s0 : state) (schedule more : list action) :
  main max_depth seed_url dir fetched = Some s0 →
  let s := run s0 schedule in
  (Forall (λ th, th = Returned) (threads s) → at_rest s) ∧
  (Z.of_nat (length schedule) + 1 <= INT_MAX →
   pages_added s
   = pages_retrieved s + Z.of_nat (length (qp s)) + Z.of_nat (holding (threads s)) ∧
   ∀ t retrieved, threads s !! t = Some (ReadRetrieved retrieved) →
     pages_added s <= retrieved → at_rest s) ∧
  (at_rest s →
   let s' := run s more in
   at_rest s' ∧ saved s' = saved s ∧ dirname s' = dirname s ∧ hp s' = hp s).
Proof.
  intros Hmain s. split; [|split].
  - intros Hall.
    pose proof (run_alive s0 schedule (main_alive _ _ _ _ Hmain)) as Halive.
    fold s in Halive. split.
    + destruct (qp s) as [|p q] eqn:Hq; [done|].
      destruct Halive as (t & th & Ht & Hact); [by rewrite Hq|].
      by rewrite (Forall_lookup_1 _ _ _ _ Hall Ht) in Hact.
    + eapply Forall_impl; [exact Hall|]. by intros th ->.
  - intros Hbound.
    destruct (run_balanced s0 schedule (main_balanced _ _ _ _ Hmain) Hbound)
      as (n & _ & Hbal).
    fold s in Hbal. split; [by destruct Hbal|].
    intros t r Ht Hle. apply (balanced_at_rest n); [done|].
    destruct Hbal as [_ _ _ _ _ Hrd]. specialize (Hrd _ _ Ht). lia.
  - intros Hrest. by apply run_at_rest.
Qed.
End Crawl.

(** A step of worker [t] that reads [pages_added] first. *)
Definition go_added (t : nat) : action := Action t (Some (str "<p>")) false.

(** Worker 1 finds the queue empty and reads [pages_added], which is 1;
    worker 0 adds and saves the page of the link and is done with the
    seed; then worker 1 reads [pages_retrieved], which is 1 by now, and
    returns, while the new page is in the queue. *)
Definition early_return : list action :=
  [go 0; go_added 1; go_added 1; go 0; go 0; go 0; go 0; go 0; go_added 1].

Example worker_returns_early :
  let s := run two_links internal 1 VisitedTheory.seed_state early_return in
  threads s = [AtLoopHead; Returned; AtLoopHead] ∧
  url <$> qp s = [str "http://a/b"] ∧
  pages_added s = 2 ∧ pages_retrieved s = 1.
Proof. vm_compute. repeat split; reflexivity. Qed.

(** A crawl of depth 1 to its end: worker 0 takes the seed, saves its
    internal link, passes over the external one and is done with the
    seed; worker 1 takes the new page, which is at the depth bound; then
    the three workers find the queue empty, read the counters and
    return. *)
Definition short_crawl : list action :=
  replicate 6 (go 0) ++ replicate 2 (go 1) ++
  replicate 3 (go 0) ++ replicate 3 (go 1) ++ replicate 3 (go 2).

Lemma workers_return_at_rest_witness :
  let s := run two_links internal 1 VisitedTheory.seed_state short_crawl in
  threads s = [Returned; Returned; Returned] ∧
  qp s = [] ∧ pages_added s = 2 ∧ pages_retrieved s = 2 ∧
  ∀ more, saved (run two_links internal 1 s more) = saved s.
Proof.
  intros s.
  assert (threads s = [Returned; Returned; Returned]) as Hth
    by (vm_compute; reflexivity).
  split; [exact Hth|].
  destruct (workers_return_at_rest two_links internal 1
              (str "http://a/") (Dir true ∅) (Some (str "<html>"))
              VisitedTheory.seed_state short_crawl [] eq_refl) as (Hall & _ & _).
  fold s in Hall. destruct Hall as [Hq _].
  { rewrite Hth. by repeat constructor. }
  split; [exact Hq|]. split; [vm_compute; reflexivity|].
  split; [vm_compute; reflexivity|]. intros more.
  destruct (workers_return_at_rest two_links internal 1
              (str "http://a/") (Dir true ∅) (Some (str "<html>"))
              VisitedTheory.seed_state short_crawl more eq_refl) as (Hall & _ & Hstay).
  fold s in Hall, Hstay. destruct Hstay as (_ & Hsaved & _); [|exact Hsaved].
  apply Hall. rewrite Hth. by repeat constructor.
Defined.

End Quiescence.

(** ** A loaded index, saved and loaded again

    What indexio_test.c does: the index [indexload] returned is saved
    to another file and loaded from there. *)

Module IndexReload.
Import Libc Queue Hash IndexIO LibcFacts HashFacts IndexRoundTrip.

Lemma strcspn_chars (s reject : cstring) :
  Forall (λ c, c ∉ reject) (take (strcspn s reject) s).
Proof.
  induction s as [|c s IH]; cbn [strcspn]; [constructor|].
  destruct (decide (c ∈ reject)) as [Hc|Hc].
  - rewrite bool_decide_eq_true_2 by done. constructor.
  - rewrite bool_decide_eq_false_2 by done. cbn [take]. by constructor.
Qed.

Lemma fields_chars (delim : ascii → bool) (P : ascii → Prop) (s : cstring) :
  Forall P s → Forall (Forall (λ c, P c ∧ delim c = false)) (fields delim s).
Proof.
  induction 1 as [|c s Hc _ IH]; cbn [fields]; [by repeat constructor|].
  destruct (delim c) eqn:Hd; [by constructor|].
  destruct (fields delim s) as [|f fs]; [by repeat constructor|].
  apply Forall_cons in IH as [Hf Hfs]. constructor; [|done]. by constructor.
Qed.

(** A token of a line has none of the separators in it. *)
Lemma strtok_all_plain (line_buffer : cstring) (token : cstring) :
  token ∈ strtok_all (str " ")
            (take (strcspn line_buffer [CR; newline]) line_buffer) →
  token ≠ [] ∧ forallb plain token = true.
Proof.
  unfold strtok_all. intros Hin. apply list_elem_of_In, filter_In in Hin as [Hin Hne].
  split; [by destruct token|].
  pose proof (strcspn_chars line_buffer [CR; newline]) as Hline.
  apply (PageReload.cstr_Forall _ _) in Hline.
  apply (fields_chars (λ c, bool_decide (c ∈ str " "))) in Hline.
  rewrite Forall_forall in Hline. apply list_elem_of_In in Hin.
  specialize (Hline token Hin). apply forallb_forall. intros c Hc.
  apply list_elem_of_In in Hc. rewrite Forall_forall in Hline.
  destruct (Hline c Hc) as [[H1 H2] H3].
  apply bool_decide_eq_false in H3. unfold plain.
  apply negb_true_iff, bool_decide_eq_false.
  change (str " ") with [space] in H3.
  rewrite !elem_of_cons, elem_of_nil in *. tauto.
Qed.

Lemma atoi_in_int (s : cstring) : in_int (atoi s).
Proof.
  unfold atoi. destruct (scan_int (cstr s)) as [[v rest]|] eqn:E.
  - by eapply PageReload.scan_int_in_int.
  - unfold in_int, INT_MIN, INT_MAX. lia.
Qed.

Lemma load_docs_ints (tokens : list cstring) :
  ∀ q, load_docs tokens = Some q →
  Forall (λ dp, in_int (doc_id dp) ∧ in_int (word_count dp)) q.
Proof.
  assert ((∀ q, load_docs tokens = Some q →
             Forall (λ dp, in_int (doc_id dp) ∧ in_int (word_count dp)) q) ∧
          (∀ t q, load_docs (t :: tokens) = Some q →
             Forall (λ dp, in_int (doc_id dp) ∧ in_int (word_count dp)) q)) as [H _];
    [|exact H].
  induction tokens as [|t2 tokens [IH1 IH2]].
  - split; [intros q [= <-]; constructor|done].
  - split; [by apply IH2|]. intros t1 q. cbn [load_docs].
    destruct (load_docs tokens) as [q'|] eqn:Hq; [|done]. cbn.
    intros [= <-]. constructor; [|by apply IH1].
    cbn [new_doc doc_id word_count]. split; apply atoi_in_int.
Qed.

(** What [indexload] keeps of every entry. *)
Definition read (ep : entry_t document_t) : Prop :=
  word ep ≠ [] ∧ forallb plain (word ep) = true ∧
  Forall (λ dp, in_int (doc_id dp) ∧ in_int (word_count dp)) (documents ep).

Lemma plain_no_NUL (w : cstring) : forallb plain w = true → NUL ∉ w.
Proof.
  induction w as [|c w IH]; cbn [forallb]; [intros _; apply not_elem_of_nil|].
  intros [Hc Hw]%andb_true_iff. apply not_elem_of_cons. split; [|by apply IH].
  apply plain_spec in Hc. intros <-. tauto.
Qed.

Lemma load_line_read (index index' : index_t) (line_buffer : cstring) :
  in_place index → Forall read (happly_order index) →
  load_line index line_buffer = Some index' →
  in_place index' ∧ Forall read (happly_order index').
Proof.
  intros Hplace Hall. unfold load_line.
  destruct (strtok_all _ _) as [|token tokens] eqn:Htok; [done|].
  destruct (load_docs tokens) as [q|] eqn:Hq; [|done]. cbn. intros [= <-].
  destruct (strtok_all_plain line_buffer token) as [Hne Hplain].
  { unfold CR. rewrite Htok. apply elem_of_cons. by left. }
  pose proof (cstr_id token (plain_no_NUL token Hplain)) as Hc.
  set (ep := Entry (cstr token) q).
  assert (word ep = token) as Hw by done.
  split.
  - replace (hput index ep token (strlen token))
      with (hput index ep (word ep) (strlen (word ep))) by (by rewrite Hw).
    by apply in_place_hput.
  - apply IndexerOutput.Forall_happly_hput; [|done].
    unfold read. rewrite Hw. split; [done|]. split; [done|].
    by apply load_docs_ints with tokens.
Qed.

Lemma load_lines_read (lines : list cstring) :
  ∀ (index index' : index_t),
  in_place index → Forall read (happly_order index) →
  load_lines index lines = Some index' →
  in_place index' ∧ Forall read (happly_order index').
Proof.
  induction lines as [|l lines IH]; intros index index' Hplace Hall;
    cbn [load_lines].
  - by intros [= <-].
  - destruct (load_line index l) as [index1|] eqn:Hl; [|done]. cbn.
    destruct (load_line_read index index1 l Hplace Hall Hl) as [H1 H2].
    by apply IH.
Qed.

(** X27 (indexio_test.c): an index that [indexload] returned, saved with
    [indexsave] and loaded from the file written, is the same index
    (same slots, entries, postings and counts), when every line
    [indexsave] writes for it fits the buffer of 1024 bytes of
    [indexload]. *)
Theorem loaded_index_round_trip (f : cstring) (index : index_t) :
  indexload (Some f) = Loaded index →
  Forall (λ ep, (length (index_write_fn ep) < MAX_LINE_LEN)%nat) (happly_order index) →
  (indexsave index true).1 = 0 ∧
  indexload (indexsave index true).2 = Loaded index.
Proof.
  unfold indexload at 1. intros Hload Hfit.
  destruct (load_lines _ _) as [index'|] eqn:Hlines; [|done].
  injection Hload as ->.
  assert (Forall read (happly_order (@hopen (entry_t document_t) hsize))) as H0
    by (rewrite IndexShape.happly_order_hopen; constructor).
  destruct (load_lines_read _ _ _ in_place_hopen H0 Hlines) as [Hplace Hall].
  split; [done|]. apply indexload_index_file; [done|].
  apply Forall_forall. intros ep Hep. rewrite Forall_forall in Hall, Hfit.
  destruct (Hall ep Hep) as (H1 & H2 & H3). split; auto.
Qed.

(** An index file written by hand: a word with a capital, numbers with
    leading zeros or a sign, two spaces, a carriage return. *)
Definition odd_file : cstring :=
  str "Dog 007 2 " ++ [newline] ++ str "cat  +2 5" ++ [CR; newline].

Definition odd_index : index_t :=
  match indexload (Some odd_file) with
  | Loaded index => index
  | LoadNull | LoadUndefined => hopen hsize
  end.

Lemma loaded_index_round_trip_witness :
  indexload (Some odd_file) = Loaded odd_index ∧
  happly_order odd_index = [Entry (str "cat") [Doc 2 5]; Entry (str "Dog") [Doc 7 2]] ∧
  indexload (indexsave odd_index true).2 = Loaded odd_index.
Proof.
  split; [vm_compute; reflexivity|]. split; [vm_compute; reflexivity|].
  apply (loaded_index_round_trip odd_file odd_index).
  - vm_compute. reflexivity.
  - apply (bool_decide_unpack _). vm_compute. exact I.
Defined.

End IndexReload.

(** ** The loop of query.c over its input *)

Module QueryInput.
Import Libc Queue Hash Webpage PageIO Query.

(** The characters before the next newline, and the input from the
    newline on: what [scanf("%[^\n]", buffer)] reads and leaves. *)
Fixpoint scan_line (stdin : cstring) : cstring * cstring :=
  match stdin with
  | [] => ([], [])
  | c :: stdin' =>
      if bool_decide (c = newline) then ([], stdin)
      else let '(line, rest) := scan_line stdin' in (c :: line, rest)
  end.

Definition prompt : cstring := str "> ".

(** [get_input]: the status, the query in the buffer, the input that is
    left and what was printed.  [scanf] is given no width: a line of
    [MAX_QUERY_LEN] bytes or more does not fit the buffer with its NUL
    ([None]).  At the end of the input the status is -1; on an empty
    line nothing is stored and the buffer is the empty string. *)
Definition get_input (stdin : cstring) : option (Z * cstring * cstring * cstring) :=
  match stdin with
  | [] => Some (-1, [], [], prompt ++ [newline])
  | _ :: _ =>
      let '(line, rest) := scan_line stdin in
      if MAX_QUERY_LEN <=? Z.of_nat (length line) then None
      else Some (0, line, tail rest, prompt)
  end.

(** The loop of [main]: what is printed until the input ends. *)
Fixpoint main_loop (fuel : nat) (pagedir : directory) (index : index_t)
         (stdin : cstring) : M cstring :=
  match fuel with
  | O => undefined
  | S fuel' =>
      match get_input stdin with
      | None => undefined
      | Some (status, query, stdin', out) =>
          if status =? 0 then
            let! '(answer, index') := query_step pagedir index query in
            let! outs := main_loop fuel' pagedir index' stdin' in
            ret (out ++ answer ++ outs)
          else ret out
      end
  end.

(** Every round takes a character of the input but the last. *)
Definition session (pagedir : directory) (index : index_t) (stdin : cstring)
  : M cstring :=
  main_loop (S (length stdin)) pagedir index stdin.

End QueryInput.

(** ** One answer for every line of input *)

Module QueryInputTheory.
Import Libc Queue Hash Webpage PageIO Query QueryInput.

(** The answers to the queries [lines], each after its prompt, and the
    prompt and newline printed at the end of the input. *)
Fixpoint answers (pagedir : directory) (index : index_t) (lines : list cstring)
  : M cstring :=
  match lines with
  | [] => ret (prompt ++ [newline])
  | l :: lines' =>
      let! '(answer, index') := query_step pagedir index l in
      let! outs := answers pagedir index' lines' in
      ret (prompt ++ answer ++ outs)
  end.

(** The input whose lines are [lines]. *)
Definition lines_of (lines : list cstring) : cstring :=
  concat (map (λ l, l ++ [newline]) lines).

(** A line [get_input] can take. *)
Definition fits (l : cstring) : Prop :=
  (newline ∉ l) ∧ Z.of_nat (length l) < MAX_QUERY_LEN.

Lemma scan_line_app (l rest : cstring) :
  newline ∉ l → scan_line (l ++ newline :: rest) = (l, newline :: rest).
Proof.
  induction l as [|c l IH]; cbn [scan_line app]; intros Hl.
  - by rewrite bool_decide_eq_true_2.
  - apply not_elem_of_cons in Hl as [Hc Hl].
    rewrite bool_decide_eq_false_2 by done. by rewrite IH.
Qed.

Lemma scan_line_end (l : cstring) : newline ∉ l → scan_line l = (l, []).
Proof.
  induction l as [|c l IH]; cbn [scan_line]; intros Hl; [done|].
  apply not_elem_of_cons in Hl as [Hc Hl].
  rewrite bool_decide_eq_false_2 by done. by rewrite IH.
Qed.

Lemma get_input_line (l rest : cstring) :
  fits l → get_input (l ++ newline :: rest) = Some (0, l, rest, prompt).
Proof.
  intros [Hl Hlen]. unfold get_input.
  destruct (l ++ newline :: rest) as [|c s] eqn:E; [by destruct l|].
  rewrite <- E, scan_line_app by done.
  destruct (Z.leb_spec MAX_QUERY_LEN (Z.of_nat (length l))); [lia|done].
Qed.

Lemma get_input_last (l : cstring) :
  l ≠ [] → fits l → get_input l = Some (0, l, [], prompt).
Proof.
  intros Hne [Hl Hlen]. unfold get_input. destruct l as [|c s] eqn:E; [done|].
  rewrite <- E in *. rewrite scan_line_end by done.
  destruct (Z.leb_spec MAX_QUERY_LEN (Z.of_nat (length l))); [lia|done].
Qed.

Lemma get_input_long (long rest : cstring) :
  newline ∉ long → MAX_QUERY_LEN <= Z.of_nat (length long) →
  get_input long = None ∧ get_input (long ++ newline :: rest) = None.
Proof.
  intros Hl Hlen. unfold get_input. split.
  - destruct long as [|c s] eqn:E; [cbn in Hlen; unfold MAX_QUERY_LEN in Hlen; lia|].
    rewrite <- E in *. rewrite scan_line_end by done.
    destruct (Z.leb_spec MAX_QUERY_LEN (Z.of_nat (length long))); [done|lia].
  - destruct (long ++ newline :: rest) as [|c s] eqn:E; [by destruct long|].
    rewrite <- E, scan_line_app by done.
    destruct (Z.leb_spec MAX_QUERY_LEN (Z.of_nat (length long))); [done|lia].
Qed.

Lemma main_loop_lines pagedir (lines : list cstring) (last : cstring) :
  ∀ (fuel : nat) index h,
  Forall fits lines → fits last →
  (length (lines_of lines ++ last) < fuel)%nat →
  main_loop fuel pagedir index (lines_of lines ++ last) h
  = answers pagedir index (lines ++ (if last is [] then [] else [last])) h.
Proof.
  induction lines as [|l lines IH]; intros fuel index h Hlines Hlast Hfuel.
  - cbn [lines_of map concat app] in *.
    destruct fuel as [|fuel]; [lia|].
    destruct last as [|c s] eqn:E; [done|]. rewrite <- E in *.
    cbn [main_loop]. rewrite get_input_last by (done || by rewrite E).
    cbn [Z.eqb answers]. unfold bind.
    destruct (query_step pagedir index last h) as [[[answer index'] h']|]; [|done].
    destruct fuel as [|fuel]; [rewrite E in Hfuel; cbn in Hfuel; lia|].
    done.
  - apply Forall_cons in Hlines as [Hl Hlines].
    destruct fuel as [|fuel]; [lia|].
    cbn [lines_of map concat] in *. rewrite <- !app_assoc in *.
    cbn [app] in *. fold (lines_of lines) in *.
    cbn [main_loop]. rewrite get_input_line by done.
    cbn [Z.eqb answers app]. unfold bind.
    destruct (query_step pagedir index l h) as [[[answer index'] h']|]; [|done].
    rewrite IH; [done|done|done|].
    rewrite length_app in Hfuel. cbn [length] in Hfuel. lia.
Qed.

(** X28 (query main, get_input): the query engine answers its input
    line by line: for every line, also a last one without newline, it
    prints the prompt and what the query of the line prints (nothing
    for an empty line), and at the end of the input the prompt and a
    newline.  Every line is shorter than the buffer of [MAX_QUERY_LEN]
    bytes: with a longer line [get_input] overruns the buffer. *)
Theorem session_answers_every_line pagedir index (lines : list cstring)
        (last : cstring) h :
  Forall fits lines → fits last →
  session pagedir index (lines_of lines ++ last) h
  = answers pagedir index (lines ++ (if last is [] then [] else [last])) h ∧
  ∀ long rest, newline ∉ long → MAX_QUERY_LEN <= Z.of_nat (length long) →
    session pagedir index long h = None ∧
    session pagedir index (long ++ newline :: rest) h = None.
Proof.
  intros Hlines Hlast. split.
  - unfold session. apply main_loop_lines; [done|done|lia].
  - intros long rest Hl Hlen. unfold session. cbn [main_loop].
    destruct (get_input_long long rest Hl Hlen) as [-> ->]. done.
Qed.

(** The corpus of [Session], asked three things and an empty line. *)
Definition asked : list cstring :=
  [str "dartmouth"; []; str "and dartmouth"; str "computer"].

(** The index of the corpus of [Session] and the heap it is loaded in. *)
Definition corpus_state : index_t * heap :=
  match Session.loaded with
  | Some state => state
  | None => (hopen 0, ∅)
  end.

Lemma session_answers_every_line_witness :
  (session Session.corpus_dir corpus_state.1 (lines_of asked) corpus_state.2
   = answers Session.corpus_dir corpus_state.1 asked corpus_state.2) ∧
  option_map (λ r, r.1)
    (answers Session.corpus_dir corpus_state.1 asked corpus_state.2)
  = Some (prompt ++ Session.shown 1 3 ++
          prompt ++
          prompt ++ invalid_query ++
          prompt ++ Session.shown 2 2 ++ Session.shown 1 1 ++
          prompt ++ [newline]).
Proof.
  split; [|vm_compute; reflexivity].
  assert (Forall fits asked) as Hasked.
  { unfold asked, fits, MAX_QUERY_LEN.
    repeat (apply Forall_cons_2; [split; [apply (bool_decide_unpack _); vm_compute;
      exact I|vm_compute; reflexivity]|]). apply Forall_nil_2. }
  assert (fits []) as Hnil by (split; [apply not_elem_of_nil|vm_compute; reflexivity]).
  destruct (session_answers_every_line Session.corpus_dir corpus_state.1 asked []
              corpus_state.2 Hasked Hnil) as [Hsession _].
  rewrite !app_nil_r in Hsession. exact Hsession.
Defined.

End QueryInputTheory.

(** ** The title and the description of a result *)

Module Metadata.
Import Libc Queue Hash Webpage PageIO Query.

(** No occurrence of [needle] in [s] starts before position [k]. *)
Definition absent_before (needle s : cstring) (k : nat) : Prop :=
  ∀ j, (j < k)%nat → ¬ needle `prefix_of` drop j s.

Lemma strstr_first (needle pre suf : cstring) :
  needle `prefix_of` suf → absent_before needle (pre ++ suf) (length pre) →
  strstr (pre ++ suf) needle = Some suf.
Proof.
  intros Hsuf. induction pre as [|c pre IH]; intros Habs.
  - cbn [app]. destruct suf; cbn [strstr]; by rewrite bool_decide_eq_true_2.
  - cbn [app strstr]. rewrite bool_decide_eq_false_2.
    + apply IH. intros j Hj. apply (Habs (S j)). cbn [length]. lia.
    + apply (Habs 0%nat). cbn [length]. lia.
Qed.

Lemma strstr_none (needle s : cstring) :
  (∀ j, ¬ needle `prefix_of` drop j s) → strstr s needle = None.
Proof.
  induction s as [|c s IH]; intros Habs.
  - cbn [strstr]. rewrite bool_decide_eq_false_2; [done|]. apply (Habs 0%nat).
  - cbn [strstr]. rewrite bool_decide_eq_false_2 by apply (Habs 0%nat).
    apply IH. intros j. apply (Habs (S j)).
Qed.

Lemma strchr_first (c : ascii) (pre rest : cstring) :
  c ∉ pre → strchr (pre ++ c :: rest) c = Some (c :: rest).
Proof.
  induction pre as [|x pre IH]; cbn [app strchr]; intros Hc.
  - by rewrite bool_decide_eq_true_2.
  - apply not_elem_of_cons in Hc as [Hx Hc].
    rewrite bool_decide_eq_false_2 by done. by apply IH.
Qed.

(** The test of [absent_before]. *)
Definition occurs_before (needle s : cstring) (k : nat) : bool :=
  existsb (λ j, bool_decide (needle `prefix_of` drop j s)) (seq 0 k).

Lemma absent_before_check (needle s : cstring) (k : nat) :
  occurs_before needle s k = false → absent_before needle s k.
Proof.
  unfold occurs_before. intros Hno j Hj Hocc.
  apply not_true_iff_false in Hno. apply Hno, existsb_exists.
  exists j. split; [apply in_seq; lia|]. by apply bool_decide_eq_true_2.
Qed.

(** X29 (get_metadata): the title of a result is the text between the
    first [s_title] of the html and the first [s_title_end] after it;
    the description is the text between the first [s_content] after the
    first [s_meta] and the next quote, cut after 128 bytes.  Where the
    html has no [s_title] or no [s_meta], the field is not set. *)
Theorem metadata_extracted (html pre T rest pre' mid D rest' : cstring) :
  html = pre ++ s_title ++ T ++ s_title_end ++ rest →
  absent_before s_title html (length pre) →
  absent_before s_title_end (s_title ++ T ++ s_title_end ++ rest)
                (length s_title + length T) →
  html = pre' ++ s_meta ++ mid ++ s_content ++ D ++ quote :: rest' →
  absent_before s_meta html (length pre') →
  absent_before s_content (s_meta ++ mid ++ s_content ++ D ++ quote :: rest')
                (length s_meta + length mid) →
  quote ∉ D →
  find_title html = Some T ∧
  find_content html = Some (take 128 D) ∧
  (∀ other, (∀ j, ¬ s_title `prefix_of` drop j other) → find_title other = None) ∧
  (∀ other, (∀ j, ¬ s_meta `prefix_of` drop j other) → find_content other = None).
Proof.
  intros Htitle Hfirst Hend Hmeta Hfirst' Hcontent Hquote.
  split; [|split; [|split]].
  - clear Hmeta Hfirst' Hcontent. subst html. unfold find_title.
    rewrite strstr_first; [|by apply prefix_app_r|done]. cbn [mbind option_bind].
    replace (s_title ++ T ++ s_title_end ++ rest)
      with ((s_title ++ T) ++ s_title_end ++ rest) in * by (by rewrite <- app_assoc).
    rewrite strstr_first;
      [|by apply prefix_app_r|by rewrite length_app].
    cbn [mbind option_bind]. f_equal.
    rewrite <- app_assoc. rewrite drop_app_length.
    rewrite !length_app.
    replace (length s_title + (length T + (length s_title_end + length rest))
             - (length s_title_end + length rest) - length s_title)%nat
      with (length T) by lia.
    by rewrite take_app_length.
  - clear Htitle Hfirst Hend. subst html. unfold find_content.
    rewrite strstr_first; [|by apply prefix_app_r|done]. cbn [mbind option_bind].
    replace (s_meta ++ mid ++ s_content ++ D ++ quote :: rest')
      with ((s_meta ++ mid) ++ s_content ++ D ++ quote :: rest') in *
      by (by rewrite <- app_assoc).
    rewrite strstr_first;
      [|by apply prefix_app_r|by rewrite length_app].
    cbn [mbind option_bind]. rewrite drop_app_length.
    rewrite strchr_first by done. cbn [mbind option_bind]. f_equal.
    rewrite length_app.
    replace (length D + length (quote :: rest') - length (quote :: rest'))%nat
      with (length D) by lia.
    destruct (128 <? length D)%nat eqn:Hlen.
    + apply Nat.ltb_lt in Hlen. rewrite take_app_le by lia. done.
    + apply Nat.ltb_ge in Hlen. rewrite take_app_length.
      by rewrite take_ge by lia.
  - intros other Hnone. unfold find_title. by rewrite strstr_none.
  - intros other Hnone. unfold find_content. by rewrite strstr_none.
Qed.

(** A page with a head, and a description of 130 bytes. *)
Definition long_text : cstring := replicate 130 "x"%char.

Definition headed : cstring :=
  str "<html><head><meta charset=" ++ [quote] ++ str "utf-8" ++ [quote] ++
  str "><title>Dog & cat</title>" ++ s_meta ++ str " lang=" ++ [quote] ++
  str "en" ++ [quote] ++ str " " ++ s_content ++ long_text ++ [quote] ++
  str "></head></html>".

Lemma metadata_extracted_witness :
  find_title headed = Some (str "Dog & cat") ∧
  find_content headed = Some (replicate 128 "x"%char).
Proof.
  destruct (metadata_extracted headed
              (str "<html><head><meta charset=" ++ [quote] ++ str "utf-8" ++ [quote]
               ++ str ">")
              (str "Dog & cat")
              (s_meta ++ str " lang=" ++ [quote] ++ str "en" ++ [quote] ++ str " "
               ++ s_content ++ long_text ++ [quote] ++ str "></head></html>")
              (str "<html><head><meta charset=" ++ [quote] ++ str "utf-8" ++ [quote]
               ++ str "><title>Dog & cat</title>")
              (str " lang=" ++ [quote] ++ str "en" ++ [quote] ++ str " ")
              long_text
              (str "></head></html>")) as (Ht & Hc & _).
  - vm_compute. reflexivity.
  - apply absent_before_check. vm_compute. reflexivity.
  - apply absent_before_check. vm_compute. reflexivity.
  - vm_compute. reflexivity.
  - apply absent_before_check. vm_compute. reflexivity.
  - apply absent_before_check. vm_compute. reflexivity.
  - apply (bool_decide_unpack _). vm_compute. exact I.
  - split; [exact Ht|exact Hc].
Defined.

End Metadata.

(** ** The crawl follows every internal link *)

Module Coverage.
Import Libc Queue Hash Webpage PageIO Crawler LibcFacts HashFacts.
Import CrawlTheory VisitedTheory Quiescence.

(** The page a worker scans and the URLs it has still to deal with (the
    URL it is adding is one of them until it is in the table). *)
Definition work (th : thread) : option (webpage_t * list cstring) :=
  match th with
  | Scanning curr urls => Some (curr, urls)
  | Queued curr url urls _ | Counted curr url urls _ => Some (curr, url :: urls)
  | _ => None
  end.

(** The page a worker is adding. *)
Definition adding (th : thread) : option webpage_t :=
  match th with
  | Queued _ _ _ page | Counted _ _ _ page => Some page
  | _ => None
  end.

Section Crawl.
Variable webpage_getURLs : webpage_t → list cstring.
Variable IsInternalURL : cstring → bool.
Variable max_depth : Z.
Hypothesis urls_are_strings : ∀ page u, u ∈ webpage_getURLs page → NUL ∉ u.

Abbreviation step := (step webpage_getURLs IsInternalURL max_depth).
Abbreviation run := (run webpage_getURLs IsInternalURL max_depth).
Abbreviation move := (move webpage_getURLs IsInternalURL max_depth).

(** The internal links among [urls], of a page above the depth bound,
    are in the table. *)
Definition followed (htp : hashtable_t cstring) (p : webpage_t)
           (urls : list cstring) : Prop :=
  depth p < max_depth →
  Forall (λ u, IsInternalURL u = true →
               is_Some (hsearch htp (searchfn u) u (strlen u))) urls.

(** A page is in the queue, or a worker has followed a part of its
    links and holds the others, or all its links are followed. *)
Definition covered (s : state) (p : webpage_t) : Prop :=
  p ∈ qp s ∨
  (∃ (t : nat) th rest done,
     threads s !! t = Some th ∧ work th = Some (p, rest) ∧
     webpage_getURLs p = done ++ rest ∧ followed (hp s) p done) ∨
  followed (hp s) p (webpage_getURLs p).

(** In a crawl into a writable directory: no [pagesave] fails, and the
    saved pages and the pages being added are covered. *)
Record coverage_inv (s : state) : Prop := CoverageInv {
  cov_mutex : mutex_inv s;
  cov_table : wf_table (hp s);
  cov_writable : writable (dirname s) = true;
  cov_saved : Forall (λ x, covered s x.2) (saved s);
  cov_adding : ∀ t th page, threads s !! t = Some th → adding th = Some page →
                            covered s page
}.

Lemma followed_mono (htp htp' : hashtable_t cstring) (p : webpage_t)
      (urls : list cstring) :
  (∀ u, is_Some (hsearch htp (searchfn u) u (strlen u)) →
        is_Some (hsearch htp' (searchfn u) u (strlen u))) →
  followed htp p urls → followed htp' p urls.
Proof.
  intros Hmono Hf Hd. eapply Forall_impl; [by apply Hf|].
  intros u Hu Hint. by apply Hmono, Hu.
Qed.

Lemma followed_snoc (htp : hashtable_t cstring) (p : webpage_t)
      (done : list cstring) (u : cstring) :
  followed htp p done →
  (depth p < max_depth → IsInternalURL u = true →
   is_Some (hsearch htp (searchfn u) u (strlen u))) →
  followed htp p (done ++ [u]).
Proof.
  intros Hf Hu Hd. apply Forall_app. split; [by apply Hf|].
  apply Forall_singleton. by apply Hu.
Qed.

Lemma main_coverage (seed_url : cstring) (dir : directory) (fetched : option cstring)
      (s : state) :
  writable dir = true →
  main max_depth seed_url dir fetched = Some s → coverage_inv s.
Proof.
  intros Hw Hmain. pose proof (main_mutex _ _ _ _ _ Hmain) as Hmutex.
  revert Hmain Hmutex. unfold main. destruct (max_depth <? 0); [done|].
  destruct fetched as [html|]; [|done]. unfold pagesave. rewrite Hw.
  intros [= <-] Hmutex.
  split; cbn [hp saved dirname threads writable Z.eqb].
  - done.
  - apply wf_hput. by apply wf_hopen.
  - done.
  - apply Forall_singleton. left. cbn [qp snd]. unfold qput, qopen. cbn [app].
    apply elem_of_cons. by left.
  - intros [|[|[|t]]] th page Ht; try done; by injection Ht as <-.
Qed.

(** A step of worker [t] that keeps the queue and the table, or adds to
    them, and in which the work of [t] goes on. *)
Lemma covered_step (s s' : state) (t : nat) (th th' : thread) :
  threads s !! t = Some th →
  threads s' = <[t := th']> (threads s) →
  (∀ p, p ∈ qp s → p ∈ qp s' ∨ ∃ rest, work th' = Some (p, rest) ∧
                                      rest = webpage_getURLs p) →
  (∀ u, is_Some (hsearch (hp s) (searchfn u) u (strlen u)) →
        is_Some (hsearch (hp s') (searchfn u) u (strlen u))) →
  (∀ p rest done, work th = Some (p, rest) → webpage_getURLs p = done ++ rest →
     followed (hp s) p done →
     (∃ rest' done', work th' = Some (p, rest') ∧
                     webpage_getURLs p = done' ++ rest' ∧ followed (hp s') p done')
     ∨ followed (hp s') p (webpage_getURLs p)) →
  ∀ p, covered s p → covered s' p.
Proof.
  intros Hth Hths Hq Hseen Hnext p
    [Hin|[(t' & th0 & rest & done & Ht' & Hwork & Hurls & Hf)|Hf]].
  - destruct (Hq p Hin) as [Hin'|(rest & Hwork & ->)]; [by left|].
    right; left. exists t, th', (webpage_getURLs p), []. split.
    { rewrite Hths. apply list_lookup_insert_eq. by eapply lookup_lt_Some. }
    split; [done|]. split; [done|]. intros _. constructor.
  - destruct (decide (t' = t)) as [->|Hne].
    + rewrite Hth in Ht'. injection Ht' as <-.
      destruct (Hnext p rest done Hwork Hurls Hf)
        as [(rest' & done' & Hwork' & Hurls' & Hf')|Hall]; [|by right; right].
      right; left. exists t, th', rest', done'. split; [|done].
      rewrite Hths. apply list_lookup_insert_eq. by eapply lookup_lt_Some.
    + right; left. exists t', th0, rest, done. split; [|split; [done|split; [done|]]].
      * rewrite Hths. by rewrite list_lookup_insert_ne.
      * by eapply followed_mono.
  - right; right. by eapply followed_mono.
Qed.

Lemma move_coverage (s s' : state) (a : action) :
  coverage_inv s → is_Some (network a) → move s a s' → coverage_inv s'.
Proof.
  intros [Hm Hwf Hw Hsaved Hadd] Hanswer Hmove.
  pose proof (move_mutex _ _ _ _ _ _ Hm Hmove) as Hm'.
  assert (∀ th th' s1,
            threads s !! who a = Some th →
            threads s1 = <[who a := th']> (threads s) →
            saved s1 = saved s → dirname s1 = dirname s → hp s1 = hp s →
            mutex_inv s1 →
            (∀ p, p ∈ qp s → p ∈ qp s1 ∨ ∃ rest, work th' = Some (p, rest) ∧
                                                rest = webpage_getURLs p) →
            (∀ p rest done, work th = Some (p, rest) →
               webpage_getURLs p = done ++ rest → followed (hp s) p done →
               (∃ rest' done', work th' = Some (p, rest') ∧
                               webpage_getURLs p = done' ++ rest' ∧
                               followed (hp s) p done')
               ∨ followed (hp s) p (webpage_getURLs p)) →
            (∀ page, adding th' = Some page →
                     adding th = Some page ∨ page ∈ qp s1) →
            coverage_inv s1) as Hkeep.
  { intros th th' s1 Hth Hths Hs1 Hd1 Hh1 Hm1 Hq Hnext Hnew.
    assert (∀ p, covered s p → covered s1 p) as Hcov.
    { apply (covered_step s s1 (who a) th th' Hth Hths Hq); rewrite Hh1; done. }
    split; rewrite ?Hs1, ?Hd1, ?Hh1; try done.
    - eapply Forall_impl; [exact Hsaved|]. intros x Hx. by apply Hcov.
    - intros t th0 page Ht Hadding. rewrite Hths in Ht.
      apply lookup_insert_cases in Ht as [[-> ->]|[Hne Ht]].
      + destruct (Hnew page Hadding) as [Hold|Hin]; [|by left].
        apply Hcov. by eapply Hadd.
      + apply Hcov. by eapply Hadd. }
  move_cases Hmove.
  - eapply (Hkeep _ _ _ Hth);
      [reflexivity|reflexivity|reflexivity|reflexivity|exact Hm'|..];
      cbn [qp work adding]; try done.
    intros p Hp. rewrite Hqp in Hp. apply elem_of_cons in Hp as [->|Hp]; [|by left].
    right. by eexists.
  - eapply (Hkeep _ _ _ Hth);
      [reflexivity|reflexivity|reflexivity|reflexivity|exact Hm'|..];
      cbn [set_thread qp work adding]; try done. by left.
  - eapply (Hkeep _ _ _ Hth);
      [reflexivity|reflexivity|reflexivity|reflexivity|exact Hm'|..];
      cbn [set_thread qp work adding]; try done. by left.
  - eapply (Hkeep _ _ _ Hth);
      [reflexivity|reflexivity|reflexivity|reflexivity|exact Hm'|..];
      cbn [set_thread qp work adding]; try done. by left.
  - eapply (Hkeep _ _ _ Hth);
      [reflexivity|reflexivity|reflexivity|reflexivity|exact Hm'|..];
      cbn [set_thread qp work adding]; try done; [by left|].
    by destruct (_ <? _).
  - eapply (Hkeep _ _ _ Hth);
      [reflexivity|reflexivity|reflexivity|reflexivity|exact Hm'|..];
      cbn [set_thread qp work adding]; try done; [by left|].
    by destruct (_ <? _).
  - eapply (Hkeep _ _ _ Hth);
      [reflexivity|reflexivity|reflexivity|reflexivity|exact Hm'|..];
      cbn [set_thread qp work adding]; try done; [by left|].
    intros p rest done [= <- <-] Hurls Hf. left. exists urls, (done ++ [url]).
    split; [done|]. split; [by rewrite <- app_assoc|].
    apply followed_snoc; [done|]. intros _ Hint.
    destruct Hwhy as [Hext|[_ [Hseen|Hnone]]]; [congruence|done|].
    rewrite Hnone in Hanswer. by destruct Hanswer.
  - eapply (Hkeep _ _ _ Hth);
      [reflexivity|reflexivity|reflexivity|reflexivity|exact Hm'|..];
      cbn [qp work adding]; try done.
    + intros p Hp. left. unfold qput. apply elem_of_app. by left.
    + intros p rest done [= <- <-] Hurls Hf. left. by exists (url :: urls), done.
    + intros page [= <-]. right. unfold qput. apply elem_of_app. right.
      by apply list_elem_of_singleton.
  - eapply (Hkeep _ _ _ Hth);
      [reflexivity|reflexivity|reflexivity|reflexivity|exact Hm'|..];
      cbn [qp work adding]; try done; [by left|].
    intros p rest done [= <- <-] Hurls Hf. right.
    destruct Hwhy as [->|Hdeep]; [by rewrite Hurls, app_nil_r|].
    intros Hlt. lia.
  - eapply (Hkeep _ _ _ Hth);
      [reflexivity|reflexivity|reflexivity|reflexivity|exact Hm'|..];
      cbn [count qp work adding]; try done.
    + by left.
    + intros p rest done [= <- <-] Hurls Hf. left. by exists (url :: urls), done.
    + intros p [= <-]. by left.
  - assert (covered s page) as Hpage by (by eapply Hadd).
    unfold save, pagesave in *. rewrite Hw in *. cbn [Z.eqb] in *.
    set (s1 := {| qp := qp s; hp := hput (hp s) url url (strlen url);
                  dirname := _; id := _; pages_added := _; pages_retrieved := _;
                  crawl_mutex := _; threads := _; exited := _; saved := _ |}) in *.
    assert (∀ p, covered s p → covered s1 p) as Hcov.
    { apply (covered_step s s1 (who a) _ _ Hth eq_refl); cbn [s1 qp hp work];
        try done.
      - by left.
      - intros u Hu. by eapply seen_hput.
      - intros p rest done [= <- <-] Hurls Hf. left. exists urls, (done ++ [url]).
        split; [done|]. split; [by rewrite <- app_assoc|].
        apply followed_snoc.
        + eapply followed_mono; [|done]. intros u Hu. by eapply seen_hput.
        + intros _ _. by apply seen_new. }
    split; cbn [s1 hp dirname saved writable threads] in *.
    + done.
    + by apply wf_hput.
    + done.
    + apply Forall_cons. split; [by apply Hcov|].
      eapply Forall_impl; [exact Hsaved|]. intros x Hx. by apply Hcov.
    + intros t th0 p Ht Hadding.
      apply lookup_insert_cases in Ht as [[-> ->]|[Hne Ht]]; [done|].
      apply Hcov. by eapply Hadd.
  - by split.
Qed.

Lemma run_coverage (s0 : state) (schedule : list action) :
  coverage_inv s0 → Forall (λ a, is_Some (network a)) schedule →
  coverage_inv (run s0 schedule).
Proof.
  intros H0. induction schedule as [|a schedule IH] using rev_ind; [done|].
  intros [Hs Ha]%Forall_app. rewrite Forall_singleton in Ha.
  rewrite run_snoc.
  destruct (step_cases webpage_getURLs IsInternalURL max_depth (run s0 schedule) a)
    as [->|[_ Hmove]]; [by apply IH|].
  eapply move_coverage; [by apply IH|done|done].
Qed.

(** X30 (crawl): in a crawl into a writable page directory in which no
    fetch fails, once all the workers have returned, every internal link
    of every saved page above the depth bound has been followed: its
    url is in the table of the urls seen, and, where the seed url is a C
    string and fewer than [INT_MAX] pages were saved, a page with this
    url is among the saved pages. *)
Theorem crawl_follows_every_link (seed_url : cstring) (dir : directory)
        (html : cstring) (s0 : state) (schedule : list action) :
  main max_depth seed_url dir (Some html) = Some s0 →
  writable dir = true →
  Forall (λ a, is_Some (network a)) schedule →
  let s := run s0 schedule in
  Forall (λ th, th = Returned) (threads s) →
  ∀ i p u, (i, p) ∈ saved s → depth p < max_depth →
    u ∈ webpage_getURLs p → IsInternalURL u = true →
    seen s u ∧
    (NUL ∉ seed_url → Z.of_nat (length (saved s)) < INT_MAX →
     ∃ j q, (j, q) ∈ saved s ∧ streq (url q) u = true).
Proof.
  intros Hmain Hw Hnet s Hall i p u Hp Hd Hu Hint.
  pose proof (run_coverage s0 schedule (main_coverage _ _ _ _ Hw Hmain) Hnet)
    as [_ Hwf _ Hsaved _].
  pose proof (run_alive webpage_getURLs IsInternalURL max_depth s0 schedule
                (main_alive _ _ _ _ _ Hmain)) as Halive.
  fold s in Hwf, Hsaved, Halive.
  assert (qp s = []) as Hq.
  { destruct (qp s) as [|p0 q] eqn:Hq; [done|].
    destruct Halive as (t & th & Ht & Hact); [by rewrite Hq|].
    by rewrite (Forall_lookup_1 _ _ _ _ Hall Ht) in Hact. }
  rewrite Forall_forall in Hsaved. specialize (Hsaved (i, p) Hp). cbn [snd] in Hsaved.
  assert (seen s u) as Hseen.
  { destruct Hsaved as [Hin|[(t & th & rest & done & Ht & Hwork & _)|Hf]].
    - rewrite Hq in Hin. by apply elem_of_nil in Hin.
    - by rewrite (Forall_lookup_1 _ _ _ _ Hall Ht) in Hwork.
    - specialize (Hf Hd). rewrite Forall_forall in Hf. by apply Hf. }
  split; [done|]. intros Hseed Hbound.
  destruct (SavedFiles.run_saved_inv webpage_getURLs IsInternalURL max_depth
              urls_are_strings s0 schedule
              (SavedFiles.main_saved _ _ _ _ _ Hseed Hw Hmain))
    as [_ _ Hperm]; [done|]. fold s in Hperm.
  destruct Hseen as [e He]. unfold hsearch in He.
  destruct (hash_table (hp s) !! _) as [q|] eqn:Hslot; [|done]. cbn in He.
  apply EvalTheory.qsearch_elem in He as [Hin Hfound].
  assert (e ∈ happly_order (hp s)) as Hin'.
  { unfold happly_order. apply EvalTheory.elem_of_concat. exists q.
    split; [done|]. by eapply list_elem_of_lookup_2. }
  rewrite Hperm in Hin'. unfold saved_urls in Hin'.
  apply list_elem_of_fmap in Hin' as ([j q'] & -> & Hsaved').
  by exists j, q'.
Qed.
End Crawl.

Definition seed_page : webpage_t :=
  webpage_new (str "http://a/") 0 (str "<html>").

Lemma crawl_follows_every_link_witness :
  seen (run two_links internal 1 seed_state short_crawl) (str "http://a/b") ∧
  ∃ j q, (j, q) ∈ saved (run two_links internal 1 seed_state short_crawl) ∧
         streq (url q) (str "http://a/b") = true.
Proof.
  assert (saved (run two_links internal 1 seed_state short_crawl)
          = [(2, webpage_new (str "http://a/b") 1 (str "<p>")); (1, seed_page)])
    as Hsaved by (vm_compute; reflexivity).
  assert (threads (run two_links internal 1 seed_state short_crawl)
          = [Returned; Returned; Returned]) as Hth by (vm_compute; reflexivity).
  destruct (crawl_follows_every_link two_links internal 1) with
    (seed_url := str "http://a/") (dir := Dir true ∅) (html := str "<html>")
    (s0 := seed_state) (schedule := short_crawl)
    (i := 1) (p := seed_page) (u := str "http://a/b") as [Hseen Hpage].
  - intros page u Hu. unfold two_links in Hu.
    rewrite !elem_of_cons, elem_of_nil in Hu.
    destruct Hu as [->|[->|[]]]; apply (bool_decide_unpack _); vm_compute; exact I.
  - reflexivity.
  - reflexivity.
  - unfold short_crawl, go. cbn [replicate app].
    repeat (apply Forall_cons_2; [by eexists|]). constructor.
  - rewrite Hth. by repeat constructor.
  - rewrite Hsaved. rewrite !elem_of_cons. auto.
  - vm_compute. reflexivity.
  - unfold two_links. apply elem_of_cons. by left.
  - reflexivity.
  - split; [exact Hseen|]. apply Hpage.
    + apply (bool_decide_unpack _). vm_compute. exact I.
    + rewrite Hsaved. vm_compute. reflexivity.
Defined.

End Coverage.

